(** * UniMRCP: media context and server session core

    A shallow embedding of

      - [libs/mpf/src/mpf_context.c]: the media context (association matrix,
        header, factory ring, compiled topology), and
      - [libs/mrcp-server/src/mrcp_server_session.c]: the server session
        orchestrator (offer/answer processing, sub-request counting, the
        queue of signaling messages),

    together with the properties of the specification that concern them. *)

From stdpp Require Import base numbers list strings.
From Stdlib Require Import ZArith Lia.

Local Open Scope Z_scope.

(** ** Machine integers

    [apr_size_t] is taken as the 64-bit unsigned integer of an LP64/LLP64
    target.  [char] is an 8-bit integer whose signedness is left to the
    platform by the C standard: the development is parametric in it. *)

Definition apr_size_max : Z := 2 ^ 64 - 1.

Definition size_cast (z : Z) : Z := z `mod` 2 ^ 64.

Definition char_cast (char_signed : bool) (z : Z) : Z :=
  if char_signed then (z + 128) `mod` 256 - 128 else z `mod` 256.

Definition char_max (char_signed : bool) : Z :=
  if char_signed then 127 else 255.

Lemma char_cast_small sg z : 0 <= z <= char_max sg -> char_cast sg z = z.
Proof.
  unfold char_cast, char_max. destruct sg; intros H.
  - rewrite Z.mod_small; lia.
  - rewrite Z.mod_small; lia.
Qed.

Lemma size_cast_small z : 0 <= z <= apr_size_max -> size_cast z = z.
Proof. unfold size_cast, apr_size_max. intros H. rewrite Z.mod_small; lia. Qed.

(** ** Counting the indices below a bound that satisfy a boolean test *)

Fixpoint countb (f : nat -> bool) (n : nat) : nat :=
  match n with
  | O => O
  | S m => (countb f m + (if f m then 1 else 0))%nat
  end.

Lemma countb_ext f g n :
  (forall k, (k < n)%nat -> f k = g k) -> countb f n = countb g n.
Proof.
  induction n as [|n IH]; intros H; simpl; [reflexivity|].
  rewrite IH by (intros; apply H; lia). rewrite (H n) by lia. reflexivity.
Qed.

Lemma countb_le f n : (countb f n <= n)%nat.
Proof. induction n as [|n IH]; simpl; [lia|]. destruct (f n); lia. Qed.

Lemma countb_set f g n k :
  (k < n)%nat -> f k = false -> g k = true ->
  (forall j, j <> k -> g j = f j) ->
  countb g n = S (countb f n).
Proof.
  induction n as [|n IH]; intros Hk Hf Hg Ho; [lia|]. simpl.
  destruct (Nat.eq_dec k n) as [->|Hne].
  - rewrite Hf, Hg. rewrite (countb_ext g f n); [lia|].
    intros j Hj. apply Ho. lia.
  - rewrite IH by (auto; lia). rewrite (Ho n) by congruence. lia.
Qed.

Lemma countb_clear f g n k :
  (k < n)%nat -> f k = true -> g k = false ->
  (forall j, j <> k -> g j = f j) ->
  S (countb g n) = countb f n.
Proof.
  intros Hk Hf Hg Ho. symmetry. apply (countb_set g f n k); auto.
  intros j Hj. symmetry. auto.
Qed.

Lemma countb_zero f n :
  countb f n = O <-> (forall k, (k < n)%nat -> f k = false).
Proof.
  induction n as [|n IH]; simpl.
  - split; [intros _ k Hk; lia | reflexivity].
  - split.
    + intros H k Hk. destruct (f n) eqn:E; [lia|].
      destruct (Nat.eq_dec k n) as [->|Hne]; [assumption|].
      apply IH; lia.
    + intros H. rewrite (H n) by lia.
      rewrite (proj2 IH); [reflexivity|]. intros k Hk. apply H. lia.
Qed.

Lemma countb_pos f n k : (k < n)%nat -> f k = true -> (0 < countb f n)%nat.
Proof.
  intros Hk Hf. destruct (countb f n) eqn:E; [|lia].
  rewrite countb_zero in E. rewrite E in Hf by assumption. discriminate.
Qed.

Lemma countb_lt f n k : (k < n)%nat -> f k = false -> (countb f n < n)%nat.
Proof.
  induction n as [|n IH]; intros Hk Hf; [lia|]. simpl.
  destruct (Nat.eq_dec k n) as [->|Hne].
  - rewrite Hf. pose proof (countb_le f n). lia.
  - specialize (IH ltac:(lia) Hf). destruct (f n); lia.
Qed.

(** * The media context ([mpf_context.c]) *)

Module Mpf.

(** Pointers are addresses; only their identity matters. *)
Definition ptr := nat.

(** Modelled from the spec: the stream mode mask of [mpf_stream_mode.h]
    (not among the sources), a mask over {SEND, RECEIVE} that may hold
    both. *)
Definition STREAM_MODE_NONE : Z := 0.
Definition STREAM_MODE_SEND : Z := 1.
Definition STREAM_MODE_RECEIVE : Z := 2.

(** Codec descriptor: "codec, sample rate, channels". *)
Record mpf_codec_descriptor_t := {
  name : string;
  sampling_rate : Z;
  channel_count : Z
}.

(** The two entries of the codec vtable that the context looks at; [true]
    stands for a function pointer that is not NULL. *)
Record mpf_codec_vtable_t := {
  encode : bool;
  decode : bool
}.

Record mpf_codec_t := {
  descriptor : mpf_codec_descriptor_t;
  vtable : option mpf_codec_vtable_t
}.

Record mpf_audio_stream_t := {
  mode : Z;
  rx_codec : option mpf_codec_t;
  tx_codec : option mpf_codec_t
}.

Record mpf_termination_t := {
  slot : Z;                                  (* apr_size_t *)
  audio_stream : option mpf_audio_stream_t
}.

(** Stream ends handed to a bridge: the stream itself, or the stream wrapped
    by [mpf_decoder_create] / [mpf_encoder_create]. *)
Inductive mpf_stream_end :=
| stream_plain (s : mpf_audio_stream_t)
| stream_decoder (s : mpf_audio_stream_t)
| stream_encoder (s : mpf_audio_stream_t).

Inductive mpf_object_kind := null_bridge | bridge.

(** A media processing object; [destroy] and [process] tell whether the
    corresponding hook is set. *)
Record mpf_object_t := {
  kind : mpf_object_kind;
  source : mpf_stream_end;
  sink : mpf_stream_end;
  destroy : bool;
  process : bool
}.

(** Item of the association matrix *)
Record matrix_item_t := { on : Z (* char *) }.

(** Item of the association matrix header *)
Record header_item_t := {
  termination : option ptr;
  tx_count : Z;    (* char *)
  rx_count : Z     (* char *)
}.

(** Media processing context.  [link] is the ring entry, identified by the
    address of the context that embeds it; [pool] and [obj] play no part in
    the operations and are left out. *)
Record mpf_context_t := {
  link : ptr;
  capacity : Z;    (* apr_size_t *)
  count : Z;       (* apr_size_t *)
  header : list header_item_t;
  matrix : list (list matrix_item_t);
  mpf_objects : list (option mpf_object_t)
}.

(** Factory of media contexts: the ring of the contexts linked into it, from
    first to last. *)
Record mpf_context_factory_t := { head : list ptr }.

(** What an operation on a context can read and write: the context, the
    factory it points back to, and the terminations (by address). *)
Record mpf_state := {
  factory : mpf_context_factory_t;
  context : mpf_context_t;
  terminations : ptr -> mpf_termination_t
}.

(** What the context makes happen outside its own state. *)
Inductive mpf_event :=
| object_destroy (o : mpf_object_t)
| object_process (o : mpf_object_t)
| log_warning (text : string).

(** *** Field updates *)

Definition set_count (c : mpf_context_t) (v : Z) : mpf_context_t :=
  {| link := link c; capacity := capacity c; count := v; header := header c;
     matrix := matrix c; mpf_objects := mpf_objects c |}.

Definition set_header (c : mpf_context_t) (h : list header_item_t) : mpf_context_t :=
  {| link := link c; capacity := capacity c; count := count c; header := h;
     matrix := matrix c; mpf_objects := mpf_objects c |}.

Definition set_matrix (c : mpf_context_t) (m : list (list matrix_item_t)) : mpf_context_t :=
  {| link := link c; capacity := capacity c; count := count c; header := header c;
     matrix := m; mpf_objects := mpf_objects c |}.

Definition set_mpf_objects (c : mpf_context_t) (o : list (option mpf_object_t)) : mpf_context_t :=
  {| link := link c; capacity := capacity c; count := count c; header := header c;
     matrix := matrix c; mpf_objects := o |}.

Definition set_slot (st : ptr -> mpf_termination_t) (p : ptr) (v : Z) : ptr -> mpf_termination_t :=
  fun q => if Nat.eqb q p
           then {| slot := v; audio_stream := audio_stream (st q) |}
           else st q.

Definition set_audio_stream (st : ptr -> mpf_termination_t) (p : ptr)
    (a : option mpf_audio_stream_t) : ptr -> mpf_termination_t :=
  fun q => if Nat.eqb q p
           then {| slot := slot (st q); audio_stream := a |}
           else st q.

(** [context->header[i]] and [context->matrix[i][j]] *)
Definition empty_header_item : header_item_t :=
  {| termination := None; tx_count := 0; rx_count := 0 |}.

Definition header_at (c : mpf_context_t) (i : nat) : header_item_t :=
  default empty_header_item (header c !! i).

Definition matrix_at (c : mpf_context_t) (i j : nat) : matrix_item_t :=
  default {| on := 0 |} (matrix c !! i ≫= fun row => row !! j).

Definition header_update (c : mpf_context_t) (i : nat)
    (f : header_item_t -> header_item_t) : mpf_context_t :=
  set_header c (alter f i (header c)).

Definition matrix_set (c : mpf_context_t) (i j : nat) (v : Z) : mpf_context_t :=
  set_matrix c (alter (fun row => <[j := {| on := v |}]> row) i (matrix c)).

(** [header_item->termination == termination] *)
Definition holds (h : header_item_t) (p : ptr) : bool :=
  match termination h with
  | Some q => Nat.eqb q p
  | None => false
  end.

(** [APR_RING_INSERT_TAIL] and [APR_RING_REMOVE] *)
Definition ring_insert_tail (f : mpf_context_factory_t) (p : ptr) : mpf_context_factory_t :=
  {| head := head f ++ [p] |}.

Definition ring_remove (f : mpf_context_factory_t) (p : ptr) : mpf_context_factory_t :=
  {| head := List.filter (fun q => negb (Nat.eqb q p)) (head f) |}.

Definition mpf_context_factory_create : mpf_context_factory_t := {| head := [] |}.

(** [mpf_context_create]; the new context lives at address [self]. *)
Definition mpf_context_create (self : ptr) (max_termination_count : Z) : mpf_context_t :=
  let n := Z.to_nat max_termination_count in
  {| link := self;
     capacity := max_termination_count;
     count := 0;
     mpf_objects := [];
     header := replicate n empty_header_item;
     matrix := replicate n (replicate n {| on := 0 |}) |}.

Section Operations.

(** Signedness of [char] on the target. *)
Variable char_signed : bool.

Definition tx_count_add (d : Z) (h : header_item_t) : header_item_t :=
  {| termination := termination h;
     tx_count := char_cast char_signed (tx_count h + d);
     rx_count := rx_count h |}.

Definition rx_count_add (d : Z) (h : header_item_t) : header_item_t :=
  {| termination := termination h;
     tx_count := tx_count h;
     rx_count := char_cast char_signed (rx_count h + d) |}.

(** [matrix[i][j].on = 1; header[i].tx_count++; header[j].rx_count++;] *)
Definition association_on (c : mpf_context_t) (i j : nat) : mpf_context_t :=
  let c := matrix_set c i j 1 in
  let c := header_update c i (tx_count_add 1) in
  header_update c j (rx_count_add 1).

(** [matrix[i][j].on = 0; header[i].tx_count--; header[j].rx_count--;] *)
Definition association_off (c : mpf_context_t) (i j : nat) : mpf_context_t :=
  let c := matrix_set c i j 0 in
  let c := header_update c i (tx_count_add (-1)) in
  header_update c j (rx_count_add (-1)).

(** The block shared by the loops of [mpf_context_termination_subtract] and
    [mpf_context_associations_reset]: switch off [i -> j], then [j -> i],
    each one if it is on. *)
Definition associations_off (c : mpf_context_t) (i j : nat) : mpf_context_t :=
  let c := if negb (on (matrix_at c i j) =? 0) then association_off c i j else c in
  if negb (on (matrix_at c j i) =? 0) then association_off c j i else c.

Definition stream_mode_compatibility_check
    (termination1 termination2 : mpf_termination_t) : bool :=
  match audio_stream termination1, audio_stream termination2 with
  | Some source, Some sink =>
      (Z.land (mode source) STREAM_MODE_RECEIVE =? STREAM_MODE_RECEIVE) &&
      (Z.land (mode sink) STREAM_MODE_SEND =? STREAM_MODE_SEND)
  | _, _ => false
  end.

(** [mpf_context_termination_add]: the loop over [i], with [n] the number
    of iterations left ([i + n = capacity]). *)
Fixpoint termination_add_loop (n i : nat) (s : mpf_state) (t : ptr) : bool * mpf_state :=
  match n with
  | O => (false, s)
  | S n' =>
      let c := context s in
      match termination (header_at c i) with
      | Some _ => termination_add_loop n' (S i) s t
      | None =>
          let f := if count c =? 0
                   then ring_insert_tail (factory s) (link c)
                   else factory s in
          let c := header_update c i (fun _ =>
                     {| termination := Some t; tx_count := 0; rx_count := 0 |}) in
          let ts := set_slot (terminations s) t (Z.of_nat i) in
          let c := set_count c (size_cast (count c + 1)) in
          (true, {| factory := f; context := c; terminations := ts |})
      end
  end.

Definition mpf_context_termination_add (s : mpf_state) (t : ptr) : bool * mpf_state :=
  termination_add_loop (Z.to_nat (capacity (context s))) 0 s t.

(** The loop of [mpf_context_termination_subtract] over [j] and [k]. *)
Fixpoint termination_subtract_loop (n j : nat) (k : Z) (i : nat)
    (c : mpf_context_t) : mpf_context_t :=
  match n with
  | O => c
  | S n' =>
      if k <? count c then
        match termination (header_at c j) with
        | None => termination_subtract_loop n' (S j) k i c
        | Some _ =>
            termination_subtract_loop n' (S j) (size_cast (k + 1)) i
              (associations_off c i j)
        end
      else c
  end.

Definition mpf_context_termination_subtract (s : mpf_state) (t : ptr) : bool * mpf_state :=
  let c := context s in
  let i := slot (terminations s t) in
  if capacity c <=? i then (false, s) else
  let i := Z.to_nat i in
  if negb (holds (header_at c i) t) then (false, s) else
  let c := termination_subtract_loop (Z.to_nat (capacity c)) 0 0 i c in
  let c := header_update c i (fun h =>
             {| termination := None; tx_count := tx_count h; rx_count := rx_count h |}) in
  let ts := set_slot (terminations s) t apr_size_max in
  let c := set_count c (size_cast (count c - 1)) in
  let f := if count c =? 0 then ring_remove (factory s) (link c) else factory s in
  (true, {| factory := f; context := c; terminations := ts |}).

Definition mpf_context_association_add (s : mpf_state) (t1 t2 : ptr) : bool * mpf_state :=
  let c := context s in
  let termination1 := terminations s t1 in
  let termination2 := terminations s t2 in
  let i := slot termination1 in
  let j := slot termination2 in
  if (capacity c <=? i) || (capacity c <=? j) then (false, s) else
  let i := Z.to_nat i in
  let j := Z.to_nat j in
  if negb (holds (header_at c i) t1) || negb (holds (header_at c j) t2)
  then (false, s) else
  (* 1 -> 2 *)
  let c := if on (matrix_at c i j) =? 0 then
             if stream_mode_compatibility_check termination1 termination2
             then association_on c i j else c
           else c in
  (* 2 -> 1 *)
  let c := if on (matrix_at c j i) =? 0 then
             if stream_mode_compatibility_check termination2 termination1
             then association_on c j i else c
           else c in
  (true, {| factory := factory s; context := c; terminations := terminations s |}).

Definition mpf_context_association_remove (s : mpf_state) (t1 t2 : ptr) : bool * mpf_state :=
  let c := context s in
  let i := slot (terminations s t1) in
  let j := slot (terminations s t2) in
  if (capacity c <=? i) || (capacity c <=? j) then (false, s) else
  let i := Z.to_nat i in
  let j := Z.to_nat j in
  if negb (holds (header_at c i) t1) || negb (holds (header_at c j) t2)
  then (false, s) else
  (* 1 -> 2 *)
  let c := if on (matrix_at c i j) =? 1 then association_off c i j else c in
  (* 2 -> 1 *)
  let c := if on (matrix_at c j i) =? 1 then association_off c j i else c in
  (true, {| factory := factory s; context := c; terminations := terminations s |}).

(** [mpf_context_topology_destroy]: the destroy hook of each object, in
    order, then the array is cleared. *)
Definition destroy_events (objects : list (option mpf_object_t)) : list mpf_event :=
  flat_map (fun o => match o with
                     | Some object => if destroy object then [object_destroy object] else []
                     | None => []
                     end) objects.

Definition mpf_context_topology_destroy (c : mpf_context_t) : mpf_context_t * list mpf_event :=
  if negb (length (mpf_objects c) =? 0)%nat
  then (set_mpf_objects c [], destroy_events (mpf_objects c))
  else (c, []).

(** The loops of [mpf_context_associations_reset]: the inner one over [j]
    from [i], the outer one over [i] and [k]. *)
Fixpoint associations_reset_row (m j i : nat) (c : mpf_context_t) : mpf_context_t :=
  match m with
  | O => c
  | S m' =>
      match termination (header_at c j) with
      | None => associations_reset_row m' (S j) i c
      | Some _ => associations_reset_row m' (S j) i (associations_off c i j)
      end
  end.

Fixpoint associations_reset_loop (n i : nat) (k : Z) (c : mpf_context_t) : mpf_context_t :=
  match n with
  | O => c
  | S n' =>
      if k <? count c then
        match termination (header_at c i) with
        | None => associations_reset_loop n' (S i) k c
        | Some _ =>
            let k := size_cast (k + 1) in
            if (tx_count (header_at c i) =? 0) && (rx_count (header_at c i) =? 0)
            then associations_reset_loop n' (S i) k c
            else associations_reset_loop n' (S i) k (associations_reset_row n i i c)
        end
      else c
  end.

Definition mpf_context_associations_reset (c : mpf_context_t) : mpf_context_t * list mpf_event :=
  (* destroy existing topology / if any *)
  let (c, events) := mpf_context_topology_destroy c in
  (* reset assigned associations *)
  (associations_reset_loop (Z.to_nat (capacity c)) 0 0 c, events).

End Operations.

(** ** The invariants of a context *)

Definition occupied (c : mpf_context_t) (i : nat) : bool :=
  match termination (header_at c i) with Some _ => true | None => false end.

Definition is_on (c : mpf_context_t) (i j : nat) : bool :=
  negb (on (matrix_at c i j) =? 0).

Definition slots (c : mpf_context_t) : nat := Z.to_nat (capacity c).

(** Number of set bits in row [i], in column [i], and number of occupied
    header slots. *)
Definition row_count (c : mpf_context_t) (i : nat) : nat :=
  countb (fun j => is_on c i j) (slots c).

Definition col_count (c : mpf_context_t) (i : nat) : nat :=
  countb (fun j => is_on c j i) (slots c).

Definition occupied_count (c : mpf_context_t) : nat :=
  countb (occupied c) (slots c).

Definition linked (f : mpf_context_factory_t) (c : mpf_context_t) : Prop :=
  In (link c) (head f).

(** The arrays have the size [mpf_context_create] gave them. *)
Record shape (c : mpf_context_t) : Prop := {
  shape_capacity : 0 <= capacity c <= apr_size_max;
  shape_header : length (header c) = slots c;
  shape_matrix : length (matrix c) = slots c;
  shape_rows : forall i row, matrix c !! i = Some row -> length row = slots c
}.

(** Invariants 1 and 2 of the specification, for every slot. *)
Record counts_inv (c : mpf_context_t) : Prop := {
  inv_tx : forall i, (i < slots c)%nat ->
      tx_count (header_at c i) = Z.of_nat (row_count c i);
  inv_rx : forall i, (i < slots c)%nat ->
      rx_count (header_at c i) = Z.of_nat (col_count c i);
  inv_count : count c = Z.of_nat (occupied_count c)
}.

(** What the operations maintain besides: the counters fit a [char], a set
    bit is 1, and it joins two occupied slots. *)
Record assoc_inv (sg : bool) (c : mpf_context_t) : Prop := {
  inv_char : forall i, (i < slots c)%nat ->
      tx_count (header_at c i) <= char_max sg /\
      rx_count (header_at c i) <= char_max sg;
  inv_bit : forall i j, (i < slots c)%nat -> (j < slots c)%nat ->
      is_on c i j = true ->
      on (matrix_at c i j) = 1 /\ occupied c i = true /\ occupied c j = true
}.

Record context_inv (sg : bool) (c : mpf_context_t) : Prop := {
  inv_shape : shape c;
  inv_counts : counts_inv c;
  inv_assoc : assoc_inv sg c
}.

(** Invariant 3: in the ring iff the context holds a termination. *)
Definition ring_inv (s : mpf_state) : Prop :=
  linked (factory s) (context s) <-> 0 < count (context s).

(** *** Reading the arrays after an update *)

Lemma header_at_update c i f k :
  (i < length (header c))%nat ->
  header_at (header_update c i f) k =
  if Nat.eqb k i then f (header_at c i) else header_at c k.
Proof.
  intros Hi. unfold header_at, header_update. simpl.
  destruct (Nat.eqb_spec k i) as [->|Hne].
  - rewrite list_lookup_alter_eq.
    destruct (lookup_lt_is_Some_2 (header c) i Hi) as [h Hh].
    rewrite Hh. reflexivity.
  - rewrite list_lookup_alter_ne by congruence. reflexivity.
Qed.

Lemma matrix_at_header_update c i f a b :
  matrix_at (header_update c i f) a b = matrix_at c a b.
Proof. reflexivity. Qed.

Lemma header_at_matrix_set c i j v k :
  header_at (matrix_set c i j v) k = header_at c k.
Proof. reflexivity. Qed.

Lemma matrix_at_set c i j v a b :
  shape c -> (i < slots c)%nat -> (j < slots c)%nat ->
  matrix_at (matrix_set c i j v) a b =
  if Nat.eqb a i && Nat.eqb b j then {| on := v |} else matrix_at c a b.
Proof.
  intros Hs Hi Hj. unfold matrix_at, matrix_set. simpl.
  destruct (Nat.eqb_spec a i) as [->|Hne]; simpl.
  - rewrite list_lookup_alter_eq.
    destruct (lookup_lt_is_Some_2 (matrix c) i) as [row Hrow].
    { rewrite (shape_matrix c Hs). exact Hi. }
    rewrite Hrow. simpl.
    destruct (Nat.eqb_spec b j) as [->|Hnb].
    + rewrite list_lookup_insert_eq; [reflexivity|].
      rewrite (shape_rows c Hs i row Hrow). exact Hj.
    + rewrite list_lookup_insert_ne by congruence. reflexivity.
  - rewrite list_lookup_alter_ne by congruence. reflexivity.
Qed.

Lemma shape_header_update c i f : shape c -> shape (header_update c i f).
Proof.
  intros [H1 H2 H3 H4]. split; simpl; auto.
  unfold slots in *. simpl. rewrite length_alter. exact H2.
Qed.

Lemma shape_matrix_set c i j v : shape c -> shape (matrix_set c i j v).
Proof.
  intros [H1 H2 H3 H4]. split; simpl; auto.
  - unfold slots in *. simpl. rewrite length_alter. exact H3.
  - intros k row. unfold slots in *. simpl.
    destruct (Nat.eq_dec k i) as [->|Hne].
    + rewrite list_lookup_alter_eq.
      destruct (matrix c !! i) as [r|] eqn:E; simpl; [|discriminate].
      intros [= <-]. rewrite length_insert. eauto.
    + rewrite list_lookup_alter_ne by congruence. eauto.
Qed.

Lemma shape_set_count c v : shape c -> shape (set_count c v).
Proof. intros [H1 H2 H3 H4]. split; simpl; auto. Qed.

Lemma shape_set_mpf_objects c o : shape c -> shape (set_mpf_objects c o).
Proof. intros [H1 H2 H3 H4]. split; simpl; auto. Qed.

(** *** Switching one association on or off *)

Section Flip.

Variable sg : bool.

(** The common form of [association_on] and [association_off]. *)
Definition association_flip (v d : Z) (c : mpf_context_t) (i j : nat) : mpf_context_t :=
  header_update (header_update (matrix_set c i j v) i (tx_count_add sg d))
    j (rx_count_add sg d).

Lemma association_on_flip c i j :
  association_on sg c i j = association_flip 1 1 c i j.
Proof. reflexivity. Qed.

Lemma association_off_flip c i j :
  association_off sg c i j = association_flip 0 (-1) c i j.
Proof. reflexivity. Qed.

Section FlipFacts.

Variables (v d : Z) (c : mpf_context_t) (i j : nat).
Hypothesis Hs : shape c.
Hypothesis Hi : (i < slots c)%nat.
Hypothesis Hj : (j < slots c)%nat.

Let c' := association_flip v d c i j.

Lemma flip_shape : shape c'.
Proof.
  unfold c', association_flip.
  apply shape_header_update, shape_header_update, shape_matrix_set, Hs.
Qed.

Lemma flip_fields :
  capacity c' = capacity c /\ count c' = count c /\ link c' = link c /\
  mpf_objects c' = mpf_objects c /\ slots c' = slots c.
Proof. repeat split. Qed.

Lemma flip_header k :
  header_at c' k =
  let h := header_at c k in
  let h := if Nat.eqb k i then tx_count_add sg d h else h in
  if Nat.eqb k j then rx_count_add sg d h else h.
Proof.
  unfold c', association_flip.
  assert (L : length (header c) = slots c) by apply (shape_header c Hs).
  rewrite header_at_update.
  2:{ unfold header_update, matrix_set. simpl. rewrite length_alter. lia. }
  rewrite !header_at_update by (simpl; lia).
  rewrite !header_at_matrix_set. simpl.
  destruct (Nat.eqb_spec k j) as [->|Hkj];
    destruct (Nat.eqb_spec j i) as [->|Hji];
    try destruct (Nat.eqb_spec k i) as [->|Hki]; try reflexivity; congruence.
Qed.

Lemma flip_termination k :
  termination (header_at c' k) = termination (header_at c k).
Proof.
  rewrite flip_header. simpl.
  destruct (Nat.eqb k i), (Nat.eqb k j); reflexivity.
Qed.

Lemma flip_occupied k : occupied c' k = occupied c k.
Proof. unfold occupied. rewrite flip_termination. reflexivity. Qed.

Lemma flip_holds k p : holds (header_at c' k) p = holds (header_at c k) p.
Proof. unfold holds. rewrite flip_termination. reflexivity. Qed.

Lemma flip_tx k :
  tx_count (header_at c' k) =
  if Nat.eqb k i then char_cast sg (tx_count (header_at c k) + d)
  else tx_count (header_at c k).
Proof.
  rewrite flip_header. simpl.
  destruct (Nat.eqb k i), (Nat.eqb k j); reflexivity.
Qed.

Lemma flip_rx k :
  rx_count (header_at c' k) =
  if Nat.eqb k j then char_cast sg (rx_count (header_at c k) + d)
  else rx_count (header_at c k).
Proof.
  rewrite flip_header. simpl.
  destruct (Nat.eqb k i), (Nat.eqb k j); reflexivity.
Qed.

Lemma flip_matrix a b :
  matrix_at c' a b =
  if Nat.eqb a i && Nat.eqb b j then {| on := v |} else matrix_at c a b.
Proof.
  unfold c', association_flip. rewrite !matrix_at_header_update.
  apply matrix_at_set; assumption.
Qed.

Lemma flip_is_on a b :
  is_on c' a b =
  if Nat.eqb a i && Nat.eqb b j then negb (v =? 0) else is_on c a b.
Proof.
  unfold is_on. rewrite flip_matrix.
  destruct (Nat.eqb a i && Nat.eqb b j); reflexivity.
Qed.

Lemma flip_occupied_count : occupied_count c' = occupied_count c.
Proof.
  unfold occupied_count. apply countb_ext. intros k _. apply flip_occupied.
Qed.

Lemma flip_row_other a : a <> i -> row_count c' a = row_count c a.
Proof.
  intros Ha. unfold row_count. apply countb_ext. intros b _.
  rewrite flip_is_on. destruct (Nat.eqb_spec a i); [contradiction|reflexivity].
Qed.

Lemma flip_col_other b : b <> j -> col_count c' b = col_count c b.
Proof.
  intros Hb. unfold col_count. apply countb_ext. intros a _.
  rewrite flip_is_on. destruct (Nat.eqb_spec b j); [contradiction|].
  rewrite andb_false_r. reflexivity.
Qed.

End FlipFacts.

(** Switching off a bit that is on keeps the invariants. *)
Lemma association_off_inv c i j :
  context_inv sg c -> (i < slots c)%nat -> (j < slots c)%nat ->
  is_on c i j = true ->
  context_inv sg (association_off sg c i j).
Proof.
  intros [Hs [Htx Hrx Hcnt] [Hch Hbit]] Hi Hj Hon.
  rewrite association_off_flip.
  assert (Hrow : S (row_count (association_flip 0 (-1) c i j) i) = row_count c i).
  { unfold row_count. apply (countb_clear _ _ _ j); auto.
    - rewrite flip_is_on by assumption. rewrite !Nat.eqb_refl. reflexivity.
    - intros b Hb. rewrite flip_is_on by assumption.
      destruct (Nat.eqb_spec b j); [contradiction|].
      rewrite andb_false_r. reflexivity. }
  assert (Hcol : S (col_count (association_flip 0 (-1) c i j) j) = col_count c j).
  { unfold col_count. apply (countb_clear _ _ _ i); auto.
    - rewrite flip_is_on by assumption. rewrite !Nat.eqb_refl. reflexivity.
    - intros a Ha. rewrite flip_is_on by assumption.
      destruct (Nat.eqb_spec a i); [contradiction|]. reflexivity. }
  split.
  - apply flip_shape; assumption.
  - split.
    + intros k Hk. rewrite flip_tx by assumption.
      destruct (Nat.eqb_spec k i) as [->|Hne].
      * pose proof (Htx i Hi). pose proof (proj1 (Hch i Hi)).
        rewrite char_cast_small by lia. lia.
      * rewrite flip_row_other by assumption. apply Htx. exact Hk.
    + intros k Hk. rewrite flip_rx by assumption.
      destruct (Nat.eqb_spec k j) as [->|Hne].
      * pose proof (Hrx j Hj). pose proof (proj2 (Hch j Hj)).
        rewrite char_cast_small by lia. lia.
      * rewrite flip_col_other by assumption. apply Hrx. exact Hk.
    + rewrite flip_occupied_count by assumption. exact Hcnt.
  - split.
    + intros k Hk. rewrite flip_tx, flip_rx by assumption.
      pose proof (Htx k Hk). pose proof (Hrx k Hk). pose proof (Hch k Hk).
      pose proof (Htx i Hi). pose proof (Hrx j Hj).
      destruct (Nat.eqb_spec k i) as [Hki|Hki]; destruct (Nat.eqb_spec k j) as [Hkj|Hkj];
        subst; try rewrite !char_cast_small by lia; lia.
    + intros a b Ha Hb. rewrite flip_is_on, flip_matrix, !flip_occupied by assumption.
      destruct (Nat.eqb a i && Nat.eqb b j); [discriminate|].
      apply Hbit; assumption.
Qed.

(** Switching on a bit that is off, between two occupied slots, keeps the
    invariants as long as a full row fits a [char]. *)
Lemma association_on_inv c i j :
  context_inv sg c -> (i < slots c)%nat -> (j < slots c)%nat ->
  Z.of_nat (slots c) <= char_max sg ->
  is_on c i j = false -> occupied c i = true -> occupied c j = true ->
  context_inv sg (association_on sg c i j).
Proof.
  intros [Hs [Htx Hrx Hcnt] [Hch Hbit]] Hi Hj Hcap Hoff Hoi Hoj.
  rewrite association_on_flip.
  assert (Hrow : row_count (association_flip 1 1 c i j) i = S (row_count c i)).
  { unfold row_count. apply (countb_set _ _ _ j); auto.
    - rewrite flip_is_on by assumption. rewrite !Nat.eqb_refl. reflexivity.
    - intros b Hb. rewrite flip_is_on by assumption.
      destruct (Nat.eqb_spec b j); [contradiction|].
      rewrite andb_false_r. reflexivity. }
  assert (Hcol : col_count (association_flip 1 1 c i j) j = S (col_count c j)).
  { unfold col_count. apply (countb_set _ _ _ i); auto.
    - rewrite flip_is_on by assumption. rewrite !Nat.eqb_refl. reflexivity.
    - intros a Ha. rewrite flip_is_on by assumption.
      destruct (Nat.eqb_spec a i); [contradiction|]. reflexivity. }
  assert (Hrl : (row_count c i < slots c)%nat).
  { unfold row_count. apply (countb_lt _ _ j); assumption. }
  assert (Hcl : (col_count c j < slots c)%nat).
  { unfold col_count. apply (countb_lt _ _ i); assumption. }
  assert (Hrle : forall k, (row_count (association_flip 1 1 c i j) k <= slots c)%nat).
  { intros k. unfold row_count. apply countb_le. }
  assert (Hcle : forall k, (col_count (association_flip 1 1 c i j) k <= slots c)%nat).
  { intros k. unfold col_count. apply countb_le. }
  assert (Htx' : forall k, (k < slots c)%nat ->
     tx_count (header_at (association_flip 1 1 c i j) k) =
     Z.of_nat (row_count (association_flip 1 1 c i j) k)).
  { intros k Hk. rewrite flip_tx by assumption.
    destruct (Nat.eqb_spec k i) as [->|Hne].
    - pose proof (Htx i Hi). rewrite char_cast_small by lia. lia.
    - rewrite flip_row_other by assumption. apply Htx. exact Hk. }
  assert (Hrx' : forall k, (k < slots c)%nat ->
     rx_count (header_at (association_flip 1 1 c i j) k) =
     Z.of_nat (col_count (association_flip 1 1 c i j) k)).
  { intros k Hk. rewrite flip_rx by assumption.
    destruct (Nat.eqb_spec k j) as [->|Hne].
    - pose proof (Hrx j Hj). rewrite char_cast_small by lia. lia.
    - rewrite flip_col_other by assumption. apply Hrx. exact Hk. }
  split.
  - apply flip_shape; assumption.
  - split; [exact Htx' | exact Hrx' |].
    rewrite flip_occupied_count by assumption. exact Hcnt.
  - split.
    + intros k Hk. change (slots (association_flip 1 1 c i j)) with (slots c) in Hk.
      rewrite Htx', Hrx' by assumption.
      pose proof (Hrle k). pose proof (Hcle k). lia.
    + intros a b Ha Hb. rewrite flip_is_on, flip_matrix, !flip_occupied by assumption.
      destruct (Nat.eqb_spec a i) as [Hai|Hai]; destruct (Nat.eqb_spec b j) as [Hbj|Hbj];
        subst; simpl; try (apply Hbit; assumption).
      intros _. auto.
Qed.

End Flip.

(** *** What the operations on associations leave alone *)

Record same_frame (c c' : mpf_context_t) : Prop := {
  frame_capacity : capacity c' = capacity c;
  frame_count : count c' = count c;
  frame_link : link c' = link c;
  frame_objects : mpf_objects c' = mpf_objects c;
  frame_termination : forall k,
      termination (header_at c' k) = termination (header_at c k)
}.

Lemma same_frame_refl c : same_frame c c.
Proof. split; reflexivity. Qed.

Lemma same_frame_trans c1 c2 c3 :
  same_frame c1 c2 -> same_frame c2 c3 -> same_frame c1 c3.
Proof.
  intros [A1 A2 A3 A4 A5] [B1 B2 B3 B4 B5].
  split; [congruence | congruence | congruence | congruence |].
  intros k. rewrite B5. apply A5.
Qed.

Lemma same_frame_slots c c' : same_frame c c' -> slots c' = slots c.
Proof. intros F. unfold slots. rewrite (frame_capacity _ _ F). reflexivity. Qed.

Lemma same_frame_occupied c c' k : same_frame c c' -> occupied c' k = occupied c k.
Proof. intros F. unfold occupied. rewrite (frame_termination _ _ F). reflexivity. Qed.

Lemma same_frame_holds c c' k p :
  same_frame c c' -> holds (header_at c' k) p = holds (header_at c k) p.
Proof. intros F. unfold holds. rewrite (frame_termination _ _ F). reflexivity. Qed.

Lemma flip_frame sg v d c i j :
  shape c -> (i < slots c)%nat -> (j < slots c)%nat ->
  same_frame c (association_flip sg v d c i j).
Proof.
  intros Hs Hi Hj. split; [reflexivity | reflexivity | reflexivity | reflexivity |].
  intros k. apply flip_termination; assumption.
Qed.

Section AssociationsOff.

Variable sg : bool.

(** The shared block: both directions between [i] and [j] end up off, every
    other bit is as before. *)
Lemma associations_off_spec c i j :
  context_inv sg c -> (i < slots c)%nat -> (j < slots c)%nat ->
  let c' := associations_off sg c i j in
  context_inv sg c' /\ same_frame c c' /\
  forall a b, is_on c' a b =
    if (Nat.eqb a i && Nat.eqb b j) || (Nat.eqb a j && Nat.eqb b i)
    then false else is_on c a b.
Proof.
  intros Hinv Hi Hj. unfold associations_off.
  change (negb (on (matrix_at c i j) =? 0)) with (is_on c i j).
  set (c1 := if is_on c i j then association_off sg c i j else c).
  change (negb (on (matrix_at c1 j i) =? 0)) with (is_on c1 j i).
  assert (H1 : context_inv sg c1 /\ same_frame c c1 /\
     forall a b, is_on c1 a b =
       if Nat.eqb a i && Nat.eqb b j then false else is_on c a b).
  { unfold c1. destruct (is_on c i j) eqn:E.
    - split; [apply association_off_inv; assumption|].
      split; [apply flip_frame; try assumption; apply Hinv|].
      intros a b. rewrite association_off_flip, flip_is_on;
        [reflexivity | apply Hinv | assumption | assumption].
    - split; [assumption|]. split; [apply same_frame_refl|].
      intros a b.
      destruct (Nat.eqb_spec a i) as [Ha|Ha]; destruct (Nat.eqb_spec b j) as [Hb|Hb];
        subst; simpl; auto. }
  destruct H1 as (I1 & F1 & B1).
  assert (S1 : slots c1 = slots c) by (apply same_frame_slots; assumption).
  simpl. destruct (is_on c1 j i) eqn:E.
  - split; [apply association_off_inv; auto; lia|].
    split.
    + eapply same_frame_trans; [exact F1|].
      apply flip_frame; [apply I1 | lia | lia].
    + intros a b. rewrite association_off_flip, flip_is_on;
        [| apply I1 | lia | lia].
      rewrite B1.
      destruct (Nat.eqb a i && Nat.eqb b j), (Nat.eqb a j && Nat.eqb b i); reflexivity.
  - split; [assumption|]. split; [assumption|].
    intros a b. rewrite B1.
    destruct (Nat.eqb_spec a j) as [Ha|Ha]; destruct (Nat.eqb_spec b i) as [Hb|Hb];
      subst; simpl; rewrite ?orb_false_r, ?orb_true_r; try reflexivity.
    rewrite B1 in E. destruct (Nat.eqb j i && Nat.eqb i j); congruence.
Qed.

End AssociationsOff.

(** *** Counting occupied slots along a loop *)

Lemma countb_mono f j n : (j <= n)%nat -> (countb f j <= countb f n)%nat.
Proof.
  induction 1 as [|n Hle IH]; [lia|]. simpl. destruct (f n); lia.
Qed.

Lemma countb_tail_false f j n :
  (j <= n)%nat -> (countb f n <= countb f j)%nat ->
  forall b, (j <= b < n)%nat -> f b = false.
Proof.
  intros Hjn Hle b [Hjb Hbn].
  destruct (f b) eqn:E; [|reflexivity].
  pose proof (countb_mono f j b Hjb).
  pose proof (countb_mono f (S b) n ltac:(lia)) as Hm.
  simpl in Hm. rewrite E in Hm. lia.
Qed.

Lemma occupied_Some c k t :
  termination (header_at c k) = Some t -> occupied c k = true.
Proof. unfold occupied. intros ->. reflexivity. Qed.

Lemma occupied_None c k :
  termination (header_at c k) = None -> occupied c k = false.
Proof. unfold occupied. intros ->. reflexivity. Qed.

Lemma holds_occupied c k p : holds (header_at c k) p = true -> occupied c k = true.
Proof. unfold holds, occupied. destruct (termination (header_at c k)); congruence. Qed.

Lemma slots_capacity c : shape c -> Z.of_nat (slots c) = capacity c.
Proof. intros Hs. unfold slots. pose proof (shape_capacity c Hs). lia. Qed.

Lemma unoccupied_row_off sg c i b :
  context_inv sg c -> (i < slots c)%nat -> (b < slots c)%nat ->
  occupied c b = false -> is_on c i b = false /\ is_on c b i = false.
Proof.
  intros Hinv Hi Hb Ho. split.
  - destruct (is_on c i b) eqn:E; [|reflexivity].
    destruct (inv_bit sg c (inv_assoc sg c Hinv) i b Hi Hb E) as (_ & _ & H).
    congruence.
  - destruct (is_on c b i) eqn:E; [|reflexivity].
    destruct (inv_bit sg c (inv_assoc sg c Hinv) b i Hb Hi E) as (_ & H & _).
    congruence.
Qed.

(** A change of the header that keeps the counters and the matrix keeps the
    invariants, provided the ends of every association stay occupied and
    [count] is brought in line. *)
Lemma context_inv_retarget sg c c' :
  context_inv sg c -> shape c' -> slots c' = slots c ->
  (forall a b, matrix_at c' a b = matrix_at c a b) ->
  (forall k, (k < slots c)%nat ->
     tx_count (header_at c' k) = tx_count (header_at c k) /\
     rx_count (header_at c' k) = rx_count (header_at c k)) ->
  (forall a b, (a < slots c)%nat -> (b < slots c)%nat -> is_on c a b = true ->
     occupied c' a = true /\ occupied c' b = true) ->
  count c' = Z.of_nat (occupied_count c') ->
  context_inv sg c'.
Proof.
  intros [Hs [Htx Hrx Hcnt] [Hch Hbit]] Hs' Hn Hm Hh Ho Hc.
  assert (Hon : forall a b, is_on c' a b = is_on c a b).
  { intros a b. unfold is_on. rewrite Hm. reflexivity. }
  assert (Hrow : forall k, row_count c' k = row_count c k).
  { intros k. unfold row_count. rewrite Hn. apply countb_ext. intros; apply Hon. }
  assert (Hcol : forall k, col_count c' k = col_count c k).
  { intros k. unfold col_count. rewrite Hn. apply countb_ext. intros; apply Hon. }
  split; [assumption | split | split].
  - intros k Hk. rewrite Hn in Hk. rewrite (proj1 (Hh k Hk)), Hrow. auto.
  - intros k Hk. rewrite Hn in Hk. rewrite (proj2 (Hh k Hk)), Hcol. auto.
  - assumption.
  - intros k Hk. rewrite Hn in Hk. destruct (Hh k Hk) as [-> ->]. auto.
  - intros a b Ha Hb. rewrite Hn in Ha, Hb. rewrite Hon, Hm. intros E.
    split; [apply (Hbit a b Ha Hb E) | apply (Ho a b Ha Hb E)].
Qed.

Section Subtract.

Variable sg : bool.

Lemma termination_subtract_loop_spec i : forall n j k c,
  context_inv sg c -> (i < slots c)%nat -> (j + n = slots c)%nat ->
  k = Z.of_nat (countb (occupied c) j) ->
  (forall b, (b < j)%nat -> is_on c i b = false /\ is_on c b i = false) ->
  let c' := termination_subtract_loop sg n j k i c in
  context_inv sg c' /\ same_frame c c' /\
  (forall b, (b < slots c)%nat -> is_on c' i b = false /\ is_on c' b i = false) /\
  (forall a b, a <> i -> b <> i -> is_on c' a b = is_on c a b).
Proof.
  induction n as [|n IH]; intros j k c Hinv Hi Hjn Hk Hoff; simpl.
  - split; [assumption|]. split; [apply same_frame_refl|].
    split; [|reflexivity]. intros b Hb. apply Hoff. lia.
  - pose proof (inv_count c (inv_counts sg c Hinv)) as Hcnt.
    destruct (Z.ltb_spec k (count c)) as [Hlt|Hge].
    + destruct (termination (header_at c j)) as [t|] eqn:Et.
      * pose proof (occupied_Some c j t Et) as Hoj.
        destruct (associations_off_spec sg c i j Hinv Hi ltac:(lia)) as (I1 & F1 & B1).
        pose proof (same_frame_slots _ _ F1) as S1.
        edestruct (IH (S j) (size_cast (k + 1)) (associations_off sg c i j))
          as (I2 & F2 & R2 & O2); try assumption; try lia.
        { simpl. rewrite (countb_ext _ (occupied c)).
          2:{ intros; apply same_frame_occupied; assumption. }
          rewrite (same_frame_occupied _ _ j F1), Hoj.
          pose proof (countb_le (occupied c) j).
          pose proof (slots_capacity c (inv_shape sg c Hinv)).
          pose proof (shape_capacity c (inv_shape sg c Hinv)).
          rewrite size_cast_small; lia. }
        { intros b Hb. rewrite !B1.
          destruct (Nat.eq_dec b j) as [->|Hne].
          - rewrite !Nat.eqb_refl. simpl. rewrite orb_true_r. auto.
          - destruct (Hoff b ltac:(lia)) as [-> ->].
            split; match goal with |- (if ?x then _ else _) = _ => destruct x end;
              reflexivity. }
        split; [assumption|].
        split; [eapply same_frame_trans; eassumption|].
        split; [intros b Hb; apply R2; lia|].
        intros a b Ha Hb. rewrite O2 by assumption. rewrite B1.
        destruct (Nat.eqb_spec a i); [contradiction|].
        destruct (Nat.eqb_spec b i); [contradiction|].
        simpl. rewrite andb_false_r. reflexivity.
      * pose proof (occupied_None c j Et) as Hoj.
        apply IH; try assumption; try lia.
        { simpl. rewrite Hoj. lia. }
        intros b Hb. destruct (Nat.eq_dec b j) as [->|Hne].
        -- apply (unoccupied_row_off sg); auto. lia.
        -- apply Hoff. lia.
    + split; [assumption|]. split; [apply same_frame_refl|].
      split; [|reflexivity]. intros b Hb.
      destruct (Nat.lt_ge_cases b j) as [Hbj|Hbj]; [apply Hoff; assumption|].
      apply (unoccupied_row_off sg); auto.
      apply (countb_tail_false (occupied c) j (slots c)); [lia | | lia].
      unfold occupied_count in Hcnt. lia.
Qed.

End Subtract.

(** *** Each operation keeps the invariants *)

Lemma ring_remove_not_in f p : ~ In p (head (ring_remove f p)).
Proof.
  unfold ring_remove. simpl. rewrite List.filter_In.
  intros [_ H]. rewrite Nat.eqb_refl in H. discriminate.
Qed.

Lemma ring_insert_tail_in f p : In p (head (ring_insert_tail f p)).
Proof. unfold ring_insert_tail. simpl. apply in_or_app. right. left. reflexivity. Qed.

Section OperationsKeepInvariants.

Variable sg : bool.

Definition state_inv (s : mpf_state) : Prop :=
  context_inv sg (context s) /\ ring_inv s.

Lemma termination_subtract_inv s t :
  state_inv s ->
  state_inv (snd (mpf_context_termination_subtract sg s t)) /\
  capacity (context (snd (mpf_context_termination_subtract sg s t))) =
  capacity (context s).
Proof.
  intros [Hinv Hring]. unfold mpf_context_termination_subtract.
  destruct (Z.leb_spec (capacity (context s)) (slot (terminations s t))) as [Hge|Hlt];
    [split; [split; assumption | reflexivity]|].
  set (i := Z.to_nat (slot (terminations s t))).
  destruct (holds (header_at (context s) i) t) eqn:Eh; simpl;
    [|split; [split; assumption | reflexivity]].
  set (c := context s) in *.
  assert (Hs : shape c) by apply Hinv.
  assert (Hi : (i < slots c)%nat).
  { unfold header_at in Eh. destruct (header c !! i) eqn:E.
    - apply lookup_lt_Some in E. rewrite (shape_header c Hs) in E. exact E.
    - discriminate. }
  destruct (termination_subtract_loop_spec sg i (slots c) 0%nat 0 c)
    as (I1 & F1 & R1 & O1); try assumption; try reflexivity; try lia.
  fold (slots c).
  set (c1 := termination_subtract_loop sg (slots c) 0 0 i c) in *.
  set (c2 := header_update c1 i _).
  pose proof (same_frame_slots _ _ F1) as S1.
  assert (Hl1 : (i < length (header c1))%nat).
  { rewrite (shape_header c1 (inv_shape sg c1 I1)). lia. }
  assert (Hocc2 : forall k, occupied c2 k = if Nat.eqb k i then false else occupied c1 k).
  { intros k. unfold occupied, c2. rewrite header_at_update by assumption.
    destruct (Nat.eqb k i); reflexivity. }
  assert (Hoi : occupied c1 i = true).
  { rewrite (same_frame_occupied _ _ i F1). eapply holds_occupied, Eh. }
  assert (Hcount : S (occupied_count c2) = occupied_count c1).
  { unfold occupied_count. change (slots c2) with (slots c1).
    apply (countb_clear _ _ _ i); auto; try lia.
    - rewrite Hocc2, Nat.eqb_refl. reflexivity.
    - intros k Hk. rewrite Hocc2. destruct (Nat.eqb_spec k i); [contradiction|reflexivity]. }
  pose proof (inv_count c1 (inv_counts sg c1 I1)) as Hc1.
  pose proof (countb_le (occupied c1) (slots c1)) as Hle.
  pose proof (slots_capacity c Hs) as Hcap.
  pose proof (shape_capacity c Hs) as Hcap'.
  assert (Hnew : size_cast (count c2 - 1) = Z.of_nat (occupied_count c2)).
  { change (count c2) with (count c1). unfold occupied_count in *.
    rewrite size_cast_small; lia. }
  change (count c2) with (count c1) in Hnew. rewrite Hnew.
  assert (I3 : context_inv sg (set_count c2 (Z.of_nat (occupied_count c2)))).
  { apply (context_inv_retarget sg c1); auto.
    - apply shape_set_count, shape_header_update, I1.
    - intros k Hk. unfold c2. simpl.
      change (header_at (set_count ?x _) k) with (header_at x k).
      rewrite header_at_update by assumption.
      destruct (Nat.eqb_spec k i) as [->|]; auto.
    - intros a b Ha Hb Hon.
      change (occupied (set_count c2 _) ?k) with (occupied c2 k).
      rewrite !Hocc2.
      destruct (inv_bit sg c1 (inv_assoc sg c1 I1) a b Ha Hb Hon) as (_ & Ha' & Hb').
      destruct (Nat.eqb_spec a i) as [->|].
      { rewrite (proj1 (R1 b ltac:(lia))) in Hon. discriminate. }
      destruct (Nat.eqb_spec b i) as [->|].
      { rewrite (proj2 (R1 a ltac:(lia))) in Hon. discriminate. }
      auto. }
  split; [split; [exact I3|] | simpl; apply (frame_capacity _ _ F1)].
  unfold ring_inv, linked in *. simpl.
  change (link c2) with (link c1). rewrite (frame_link _ _ F1).
  destruct (Z.eqb_spec (Z.of_nat (occupied_count c2)) 0) as [Hz|Hnz].
  - rewrite Hz. split; [intros H; apply ring_remove_not_in in H; contradiction | lia].
  - split; [lia|]. intros _. apply Hring.
    fold c. rewrite <- (frame_count _ _ F1). lia.
Qed.

Lemma termination_add_loop_inv t : forall n i s,
  state_inv s -> (i + n = slots (context s))%nat ->
  state_inv (snd (termination_add_loop n i s t)) /\
  capacity (context (snd (termination_add_loop n i s t))) = capacity (context s).
Proof.
  induction n as [|n IH]; intros i s [Hinv Hring] Hin; simpl.
  - split; [split; assumption | reflexivity].
  - destruct (termination (header_at (context s) i)) as [q|] eqn:Et.
    + apply IH; [split; assumption | lia].
    + simpl. set (c := context s) in *.
      assert (Hs : shape c) by apply Hinv.
      assert (Hi : (i < slots c)%nat) by lia.
      assert (Hl : (i < length (header c))%nat) by (rewrite (shape_header c Hs); lia).
      pose proof (occupied_None c i Et) as Hoi.
      set (c2 := header_update c i _).
      assert (Hocc2 : forall k, occupied c2 k = if Nat.eqb k i then true else occupied c k).
      { intros k. unfold occupied, c2. rewrite header_at_update by assumption.
        destruct (Nat.eqb k i); reflexivity. }
      assert (Hcount : occupied_count c2 = S (occupied_count c)).
      { unfold occupied_count. change (slots c2) with (slots c).
        apply (countb_set _ _ _ i); auto.
        - rewrite Hocc2, Nat.eqb_refl. reflexivity.
        - intros k Hk. rewrite Hocc2.
          destruct (Nat.eqb_spec k i); [contradiction|reflexivity]. }
      pose proof (inv_count c (inv_counts sg c Hinv)) as Hc.
      assert (Hlt : (occupied_count c < slots c)%nat).
      { unfold occupied_count. apply (countb_lt _ _ i); assumption. }
      pose proof (slots_capacity c Hs) as Hcap.
      pose proof (shape_capacity c Hs) as Hcap'.
      assert (Hnew : size_cast (count c2 + 1) = Z.of_nat (occupied_count c2)).
      { change (count c2) with (count c). rewrite size_cast_small; lia. }
      change (count c2) with (count c) in Hnew. rewrite Hnew.
      assert (Hrow : row_count c i = 0%nat).
      { unfold row_count. apply countb_zero. intros b Hb.
        apply (unoccupied_row_off sg c b i); assumption. }
      assert (Hcol : col_count c i = 0%nat).
      { unfold col_count. apply countb_zero. intros b Hb.
        apply (unoccupied_row_off sg c b i); assumption. }
      assert (I3 : context_inv sg (set_count c2 (Z.of_nat (occupied_count c2)))).
      { apply (context_inv_retarget sg c); auto.
        - apply shape_set_count, shape_header_update, Hs.
        - intros k Hk. unfold c2.
          change (header_at (set_count ?x _) k) with (header_at x k).
          rewrite header_at_update by assumption.
          destruct (Nat.eqb_spec k i) as [->|]; auto. simpl.
          rewrite (inv_tx c (inv_counts sg c Hinv) i Hi), Hrow.
          rewrite (inv_rx c (inv_counts sg c Hinv) i Hi), Hcol. auto.
        - intros a b Ha Hb Hon.
          change (occupied (set_count c2 _) ?k) with (occupied c2 k).
          rewrite !Hocc2.
          destruct (inv_bit sg c (inv_assoc sg c Hinv) a b Ha Hb Hon) as (_ & -> & ->).
          destruct (Nat.eqb a i), (Nat.eqb b i); auto. }
      split; [split; [exact I3|] | reflexivity].
      unfold ring_inv, linked in *. simpl. fold c.
      change (link c2) with (link c).
      destruct (Z.eqb_spec (count c) 0) as [Hz|Hnz].
      * split; [lia|]. intros _. apply ring_insert_tail_in.
      * split; [lia|]. intros _. apply Hring. change (0 < count c). lia.
Qed.

Lemma termination_add_inv s t :
  state_inv s ->
  state_inv (snd (mpf_context_termination_add s t)) /\
  capacity (context (snd (mpf_context_termination_add s t))) = capacity (context s).
Proof.
  intros H. unfold mpf_context_termination_add.
  apply termination_add_loop_inv; [assumption|].
  unfold slots. lia.
Qed.

End OperationsKeepInvariants.

Section AssociationsKeepInvariants.

Variable sg : bool.

(** One direction of [mpf_context_association_add]. *)
Lemma association_add_direction c i j (compatible : bool) :
  context_inv sg c -> (i < slots c)%nat -> (j < slots c)%nat ->
  occupied c i = true -> occupied c j = true ->
  Z.of_nat (slots c) <= char_max sg ->
  let c' := if on (matrix_at c i j) =? 0
            then if compatible then association_on sg c i j else c
            else c in
  context_inv sg c' /\ same_frame c c'.
Proof.
  intros Hinv Hi Hj Hoi Hoj Hcap. simpl.
  destruct (on (matrix_at c i j) =? 0) eqn:E;
    [|split; [assumption | apply same_frame_refl]].
  destruct compatible; [|split; [assumption | apply same_frame_refl]].
  split.
  - apply association_on_inv; auto. unfold is_on. rewrite E. reflexivity.
  - apply flip_frame; auto. apply Hinv.
Qed.

(** One direction of [mpf_context_association_remove]. *)
Lemma association_remove_direction c i j :
  context_inv sg c -> (i < slots c)%nat -> (j < slots c)%nat ->
  let c' := if on (matrix_at c i j) =? 1 then association_off sg c i j else c in
  context_inv sg c' /\ same_frame c c'.
Proof.
  intros Hinv Hi Hj. simpl.
  destruct (Z.eqb_spec (on (matrix_at c i j)) 1) as [E|E];
    [|split; [assumption | apply same_frame_refl]].
  split.
  - apply association_off_inv; auto. unfold is_on. rewrite E. reflexivity.
  - apply flip_frame; auto. apply Hinv.
Qed.

Lemma holds_in_range c i p :
  shape c -> holds (header_at c i) p = true -> (i < slots c)%nat.
Proof.
  intros Hs Eh. unfold header_at in Eh. destruct (header c !! i) eqn:E.
  - apply lookup_lt_Some in E. rewrite (shape_header c Hs) in E. exact E.
  - discriminate.
Qed.

Lemma ring_inv_frame s c' :
  same_frame (context s) c' -> ring_inv s ->
  ring_inv {| factory := factory s; context := c'; terminations := terminations s |}.
Proof.
  intros F H. unfold ring_inv, linked in *. simpl.
  rewrite (frame_link _ _ F), (frame_count _ _ F). exact H.
Qed.

Lemma association_add_inv s t1 t2 :
  state_inv sg s -> capacity (context s) <= char_max sg ->
  state_inv sg (snd (mpf_context_association_add sg s t1 t2)) /\
  capacity (context (snd (mpf_context_association_add sg s t1 t2))) =
  capacity (context s).
Proof.
  intros [Hinv Hring] Hcap. unfold mpf_context_association_add.
  destruct (_ || _) eqn:Eg; [split; [split; assumption | reflexivity]|].
  set (i := Z.to_nat (slot (terminations s t1))).
  set (j := Z.to_nat (slot (terminations s t2))).
  destruct (holds (header_at (context s) i) t1) eqn:Ei; simpl;
    [|split; [split; assumption | reflexivity]].
  destruct (holds (header_at (context s) j) t2) eqn:Ej; simpl;
    [|split; [split; assumption | reflexivity]].
  set (c := context s) in *.
  assert (Hs : shape c) by apply Hinv.
  pose proof (holds_in_range c i t1 Hs Ei) as Hi.
  pose proof (holds_in_range c j t2 Hs Ej) as Hj.
  pose proof (holds_occupied c i t1 Ei) as Hoi.
  pose proof (holds_occupied c j t2 Ej) as Hoj.
  pose proof (slots_capacity c Hs) as Hsc.
  destruct (association_add_direction c i j
              (stream_mode_compatibility_check (terminations s t1) (terminations s t2)))
    as [I1 F1]; auto; try lia.
  set (c1 := if on (matrix_at c i j) =? 0 then _ else c) in *.
  pose proof (same_frame_slots _ _ F1) as S1.
  destruct (association_add_direction c1 j i
              (stream_mode_compatibility_check (terminations s t2) (terminations s t1)))
    as [I2 F2]; auto; try lia.
  { rewrite (same_frame_occupied _ _ j F1). assumption. }
  { rewrite (same_frame_occupied _ _ i F1). assumption. }
  pose proof (same_frame_trans _ _ _ F1 F2) as F.
  split; [split; [exact I2 | apply ring_inv_frame; assumption]|].
  apply (frame_capacity _ _ F).
Qed.

Lemma association_remove_inv s t1 t2 :
  state_inv sg s ->
  state_inv sg (snd (mpf_context_association_remove sg s t1 t2)) /\
  capacity (context (snd (mpf_context_association_remove sg s t1 t2))) =
  capacity (context s).
Proof.
  intros [Hinv Hring]. unfold mpf_context_association_remove.
  destruct (_ || _) eqn:Eg; [split; [split; assumption | reflexivity]|].
  set (i := Z.to_nat (slot (terminations s t1))).
  set (j := Z.to_nat (slot (terminations s t2))).
  destruct (holds (header_at (context s) i) t1) eqn:Ei; simpl;
    [|split; [split; assumption | reflexivity]].
  destruct (holds (header_at (context s) j) t2) eqn:Ej; simpl;
    [|split; [split; assumption | reflexivity]].
  set (c := context s) in *.
  assert (Hs : shape c) by apply Hinv.
  pose proof (holds_in_range c i t1 Hs Ei) as Hi.
  pose proof (holds_in_range c j t2 Hs Ej) as Hj.
  destruct (association_remove_direction c i j) as [I1 F1]; auto.
  set (c1 := if on (matrix_at c i j) =? 1 then _ else c) in *.
  pose proof (same_frame_slots _ _ F1) as S1.
  destruct (association_remove_direction c1 j i) as [I2 F2]; auto; try lia.
  pose proof (same_frame_trans _ _ _ F1 F2) as F.
  split; [split; [exact I2 | apply ring_inv_frame; assumption]|].
  apply (frame_capacity _ _ F).
Qed.

End AssociationsKeepInvariants.

(** *** [mpf_context_associations_reset] *)

Section Reset.

Variable sg : bool.

Definition all_off (c : mpf_context_t) : Prop :=
  forall a b, (a < slots c)%nat -> (b < slots c)%nat -> is_on c a b = false.

(** The inner loop, started at column [j >= i]: row [i] and column [i] end
    up off from [i] on, and no bit is switched on. *)
Lemma associations_reset_row_spec i : forall m j c,
  context_inv sg c -> (i < slots c)%nat -> (j + m = slots c)%nat ->
  (forall b, (i <= b < j)%nat -> is_on c i b = false /\ is_on c b i = false) ->
  let c' := associations_reset_row sg m j i c in
  context_inv sg c' /\ same_frame c c' /\
  (forall b, (i <= b < slots c)%nat -> is_on c' i b = false /\ is_on c' b i = false) /\
  (forall a b, is_on c a b = false -> is_on c' a b = false).
Proof.
  induction m as [|m IH]; intros j c Hinv Hi Hjm Hoff; simpl.
  - split; [assumption|]. split; [apply same_frame_refl|].
    split; [|auto]. intros b Hb. apply Hoff. lia.
  - destruct (termination (header_at c j)) as [t|] eqn:Et.
    + destruct (associations_off_spec sg c i j Hinv Hi ltac:(lia)) as (I1 & F1 & B1).
      pose proof (same_frame_slots _ _ F1) as S1.
      assert (M1 : forall a b, is_on c a b = false ->
                     is_on (associations_off sg c i j) a b = false).
      { intros a b E. rewrite B1, E.
        match goal with |- (if ?x then _ else _) = _ => destruct x end; reflexivity. }
      edestruct (IH (S j) (associations_off sg c i j))
        as (I2 & F2 & R2 & M2); try assumption; try lia.
      { intros b Hb. destruct (Nat.eq_dec b j) as [->|Hne].
        - rewrite !B1. rewrite !Nat.eqb_refl. simpl. rewrite orb_true_r. auto.
        - destruct (Hoff b ltac:(lia)) as [E1 E2]. auto. }
      split; [assumption|].
      split; [eapply same_frame_trans; eassumption|].
      split; [intros b Hb; apply R2; lia | auto].
    + apply IH; try assumption; try lia.
      intros b Hb. destruct (Nat.eq_dec b j) as [->|Hne].
      * apply (unoccupied_row_off sg); auto; [lia | apply occupied_None, Et].
      * apply Hoff. lia.
Qed.

(** The outer loop: once it is over, the whole matrix is off. *)
Lemma associations_reset_loop_spec : forall n i k c,
  context_inv sg c -> (i + n = slots c)%nat ->
  k = Z.of_nat (countb (occupied c) i) ->
  (forall a b, (a < i)%nat \/ (b < i)%nat -> is_on c a b = false) ->
  let c' := associations_reset_loop sg n i k c in
  context_inv sg c' /\ same_frame c c' /\ all_off c'.
Proof.
  induction n as [|n IH]; intros i k c Hinv Hin Hk Hoff; simpl.
  - split; [assumption|]. split; [apply same_frame_refl|].
    intros a b Ha Hb. apply Hoff. lia.
  - pose proof (inv_count c (inv_counts sg c Hinv)) as Hcnt.
    pose proof (countb_le (occupied c) i) as Hle.
    pose proof (slots_capacity c (inv_shape sg c Hinv)) as Hsc.
    pose proof (shape_capacity c (inv_shape sg c Hinv)) as Hcap.
    assert (Hi : (i < slots c)%nat) by lia.
    destruct (Z.ltb_spec k (count c)) as [Hlt|Hge].
    + destruct (termination (header_at c i)) as [t|] eqn:Et.
      * pose proof (occupied_Some c i t Et) as Hoi.
        assert (Hk' : size_cast (k + 1) = Z.of_nat (countb (occupied c) (S i))).
        { simpl. rewrite Hoi. rewrite size_cast_small; lia. }
        destruct ((tx_count (header_at c i) =? 0) && (rx_count (header_at c i) =? 0))
          eqn:Ez.
        -- apply andb_prop in Ez. destruct Ez as [Etx Erx].
           apply Z.eqb_eq in Etx, Erx.
           rewrite (inv_tx c (inv_counts sg c Hinv) i Hi) in Etx.
           rewrite (inv_rx c (inv_counts sg c Hinv) i Hi) in Erx.
           assert (Hr : row_count c i = 0%nat) by lia.
           assert (Hc : col_count c i = 0%nat) by lia.
           unfold row_count in Hr. unfold col_count in Hc.
           rewrite countb_zero in Hr, Hc.
           apply IH; try assumption; try lia.
           intros a b Hab.
           destruct (Nat.lt_ge_cases a (slots c)) as [Ha|Ha].
           2:{ unfold is_on, matrix_at.
               rewrite (lookup_ge_None_2 (matrix c) a); [reflexivity|].
               rewrite (shape_matrix c (inv_shape sg c Hinv)). lia. }
           destruct (Nat.lt_ge_cases b (slots c)) as [Hb|Hb].
           2:{ unfold is_on, matrix_at.
               destruct (matrix c !! a) as [row|] eqn:Er; [|reflexivity]. simpl.
               rewrite (lookup_ge_None_2 row b); [reflexivity|].
               rewrite (shape_rows c (inv_shape sg c Hinv) a row Er). lia. }
           destruct (Nat.eq_dec a i) as [->|Ha']; [apply Hr; assumption|].
           destruct (Nat.eq_dec b i) as [->|Hb']; [apply Hc; assumption|].
           apply Hoff. lia.
        -- destruct (associations_reset_row_spec i (S n) i c)
             as (I1 & F1 & R1 & M1); try assumption; try lia.
           pose proof (same_frame_slots _ _ F1) as S1.
           edestruct (IH (S i) (size_cast (k + 1)) (associations_reset_row sg (S n) i i c))
             as (I2 & F2 & A2); try assumption; try lia.
           { rewrite Hk'. f_equal. apply countb_ext.
             intros; symmetry; apply same_frame_occupied; assumption. }
           { intros a b Hab.
             destruct (Nat.lt_ge_cases a i) as [Ha|Ha]; [apply M1, Hoff; lia|].
             destruct (Nat.lt_ge_cases b i) as [Hb|Hb]; [apply M1, Hoff; lia|].
             assert (a = i \/ b = i) as [->| ->] by lia.
             - destruct (Nat.lt_ge_cases b (slots c)) as [Hb'|Hb'];
                 [apply R1; lia|].
               apply M1. unfold is_on, matrix_at.
               destruct (matrix c !! i) as [row|] eqn:Er; [|reflexivity]. simpl.
               rewrite (lookup_ge_None_2 row b); [reflexivity|].
               rewrite (shape_rows c (inv_shape sg c Hinv) i row Er). lia.
             - destruct (Nat.lt_ge_cases a (slots c)) as [Ha'|Ha'];
                 [apply R1; lia|].
               apply M1. unfold is_on, matrix_at.
               rewrite (lookup_ge_None_2 (matrix c) a); [reflexivity|].
               rewrite (shape_matrix c (inv_shape sg c Hinv)). lia. }
           assert (Erow : associations_reset_row sg (S n) i i c =
                          associations_reset_row sg n (S i) i (associations_off sg c i i)).
           { simpl. rewrite Et. reflexivity. }
           rewrite <- Erow.
           split; [assumption|].
           split; [eapply same_frame_trans; eassumption | assumption].
      * pose proof (occupied_None c i Et) as Hoi.
        apply IH; try assumption; try lia.
        { simpl. rewrite Hoi. lia. }
        intros a b Hab.
        destruct (Nat.lt_ge_cases a (slots c)) as [Ha|Ha].
        2:{ unfold is_on, matrix_at.
            rewrite (lookup_ge_None_2 (matrix c) a); [reflexivity|].
            rewrite (shape_matrix c (inv_shape sg c Hinv)). lia. }
        destruct (Nat.lt_ge_cases b (slots c)) as [Hb|Hb].
        2:{ unfold is_on, matrix_at.
            destruct (matrix c !! a) as [row|] eqn:Er; [|reflexivity]. simpl.
            rewrite (lookup_ge_None_2 row b); [reflexivity|].
            rewrite (shape_rows c (inv_shape sg c Hinv) a row Er). lia. }
        destruct (Nat.eq_dec a i) as [->|Ha'].
        { apply (unoccupied_row_off sg c b i); assumption. }
        destruct (Nat.eq_dec b i) as [->|Hb'].
        { apply (unoccupied_row_off sg c a i); assumption. }
        apply Hoff. lia.
    + split; [assumption|]. split; [apply same_frame_refl|].
      intros a b Ha Hb.
      destruct (Nat.lt_ge_cases a i) as [Hai|Hai]; [apply Hoff; lia|].
      apply (unoccupied_row_off sg c b a); auto.
      apply (countb_tail_false (occupied c) i (slots c)); [lia | | lia].
      unfold occupied_count in Hcnt. lia.
Qed.

End Reset.

Section ResetKeepsInvariants.

Variable sg : bool.

Lemma context_inv_set_mpf_objects c o :
  context_inv sg c -> context_inv sg (set_mpf_objects c o).
Proof.
  intros Hinv. apply (context_inv_retarget sg c); auto.
  - apply shape_set_mpf_objects, Hinv.
  - intros a b Ha Hb Hon.
    destruct (inv_bit sg c (inv_assoc sg c Hinv) a b Ha Hb Hon) as (_ & H1 & H2).
    auto.
  - apply Hinv.
Qed.

Lemma topology_destroy_spec c :
  context_inv sg c ->
  context_inv sg (fst (mpf_context_topology_destroy c)) /\
  same_frame (set_mpf_objects c []) (fst (mpf_context_topology_destroy c)) /\
  mpf_objects (fst (mpf_context_topology_destroy c)) = [] /\
  snd (mpf_context_topology_destroy c) = destroy_events (mpf_objects c).
Proof.
  intros Hinv. unfold mpf_context_topology_destroy.
  destruct (mpf_objects c) as [|o os] eqn:E; simpl.
  - split; [assumption|]. split; [|split; [assumption | reflexivity]].
    split; simpl; auto.
  - split; [apply (context_inv_set_mpf_objects c []), Hinv|].
    split; [apply same_frame_refl | split; reflexivity].
Qed.

Lemma associations_reset_spec c :
  context_inv sg c ->
  let c' := fst (mpf_context_associations_reset sg c) in
  context_inv sg c' /\ same_frame (set_mpf_objects c []) c' /\ all_off c'.
Proof.
  intros Hinv. unfold mpf_context_associations_reset.
  destruct (topology_destroy_spec c Hinv) as (I1 & F1 & O1 & E1).
  destruct (mpf_context_topology_destroy c) as [c1 events]. simpl in *.
  destruct (associations_reset_loop_spec sg (slots c1) 0%nat 0 c1)
    as (I2 & F2 & A2); try assumption; try reflexivity; try lia.
  split; [assumption|]. split; [|assumption].
  eapply same_frame_trans; eassumption.
Qed.

Lemma associations_reset_inv s :
  state_inv sg s ->
  state_inv sg {| factory := factory s;
                  context := fst (mpf_context_associations_reset sg (context s));
                  terminations := terminations s |} /\
  capacity (fst (mpf_context_associations_reset sg (context s))) = capacity (context s).
Proof.
  intros [Hinv Hring].
  destruct (associations_reset_spec (context s) Hinv) as (I & F & A).
  split; [split; [exact I|] | apply (frame_capacity _ _ F)].
  unfold ring_inv, linked in *. simpl.
  rewrite (frame_link _ _ F), (frame_count _ _ F). exact Hring.
Qed.

End ResetKeepsInvariants.

(** ** Sequences of operations on a context *)

Inductive mpf_operation :=
| add_termination (t : ptr)
| subtract_termination (t : ptr)
| add_association (t1 t2 : ptr)
| remove_association (t1 t2 : ptr)
| reset_associations
(** the stream of a termination is reconfigured outside the context, as
    [MODIFY_TERMINATION] does *)
| modify_termination (t : ptr) (stream : option mpf_audio_stream_t).

Definition apply_operation (sg : bool) (s : mpf_state) (o : mpf_operation)
    : bool * mpf_state :=
  match o with
  | add_termination t => mpf_context_termination_add s t
  | subtract_termination t => mpf_context_termination_subtract sg s t
  | add_association t1 t2 => mpf_context_association_add sg s t1 t2
  | remove_association t1 t2 => mpf_context_association_remove sg s t1 t2
  | reset_associations =>
      (true, {| factory := factory s;
                context := fst (mpf_context_associations_reset sg (context s));
                terminations := terminations s |})
  | modify_termination t stream =>
      (true, {| factory := factory s;
                context := context s;
                terminations := set_audio_stream (terminations s) t stream |})
  end.

Definition run (sg : bool) (s : mpf_state) (ops : list mpf_operation) : mpf_state :=
  fold_left (fun s o => snd (apply_operation sg s o)) ops s.

(** The state right after [mpf_context_create]. *)
Definition created (f : mpf_context_factory_t) (self : ptr) (max_termination_count : Z)
    (ts : ptr -> mpf_termination_t) : mpf_state :=
  {| factory := f;
     context := mpf_context_create self max_termination_count;
     terminations := ts |}.

Lemma created_at_lookup self n i :
  header_at (mpf_context_create self n) i = empty_header_item /\
  forall j, matrix_at (mpf_context_create self n) i j = {| on := 0 |}.
Proof.
  unfold header_at, matrix_at, mpf_context_create. simpl. split.
  - destruct (replicate (Z.to_nat n) empty_header_item !! i) as [h|] eqn:E;
      [|reflexivity].
    apply lookup_replicate in E. simpl. apply E.
  - intros j.
    destruct (replicate (Z.to_nat n) (replicate (Z.to_nat n) {| on := 0 |}) !! i)
      as [row|] eqn:E; [|reflexivity].
    apply lookup_replicate in E. destruct E as [-> _]. simpl.
    destruct (replicate (Z.to_nat n) {| on := 0 |} !! j) as [x|] eqn:E'; [|reflexivity].
    apply lookup_replicate in E'. simpl. apply E'.
Qed.

Lemma created_inv sg f self n ts :
  0 <= n <= apr_size_max -> ~ In self (head f) ->
  state_inv sg (created f self n ts).
Proof.
  intros Hn Hf.
  assert (Hon : forall a b, is_on (mpf_context_create self n) a b = false).
  { intros a b. unfold is_on.
    rewrite (proj2 (created_at_lookup self n a) b). reflexivity. }
  assert (Hocc : forall a, occupied (mpf_context_create self n) a = false).
  { intros a. unfold occupied.
    rewrite (proj1 (created_at_lookup self n a)). reflexivity. }
  unfold state_inv, created. cbn [context factory].
  split; [split; [split | split | split]|].
  - exact Hn.
  - simpl. apply length_replicate.
  - simpl. apply length_replicate.
  - simpl. intros i row E. apply lookup_replicate in E. destruct E as [-> _].
    apply length_replicate.
  - intros i Hi. rewrite (proj1 (created_at_lookup self n i)). simpl.
    unfold row_count. rewrite (proj2 (countb_zero _ _)); auto.
  - intros i Hi. rewrite (proj1 (created_at_lookup self n i)). simpl.
    unfold col_count. rewrite (proj2 (countb_zero _ _)); auto.
  - simpl. unfold occupied_count. rewrite (proj2 (countb_zero _ _)); auto.
  - intros i Hi. rewrite (proj1 (created_at_lookup self n i)). simpl.
    destruct sg; simpl; lia.
  - intros i j Hi Hj E. rewrite Hon in E. discriminate.
  - unfold ring_inv, linked. simpl. split; [contradiction | lia].
Qed.

Lemma apply_operation_inv sg s o :
  capacity (context s) <= char_max sg ->
  state_inv sg s ->
  state_inv sg (snd (apply_operation sg s o)) /\
  capacity (context (snd (apply_operation sg s o))) = capacity (context s).
Proof.
  intros Hcap Hinv. destruct o; simpl.
  - apply termination_add_inv, Hinv.
  - apply termination_subtract_inv, Hinv.
  - apply association_add_inv; assumption.
  - apply association_remove_inv, Hinv.
  - apply associations_reset_inv, Hinv.
  - split; [|reflexivity]. destruct Hinv as [H1 H2]. split; assumption.
Qed.

Lemma run_inv sg ops : forall s,
  capacity (context s) <= char_max sg ->
  state_inv sg s ->
  state_inv sg (run sg s ops) /\
  capacity (context (run sg s ops)) = capacity (context s).
Proof.
  induction ops as [|o ops IH]; intros s Hcap Hinv; simpl.
  - split; [assumption | reflexivity].
  - destruct (apply_operation_inv sg s o Hcap Hinv) as [H1 H2].
    destruct (IH (snd (apply_operation sg s o))) as [H3 H4]; [lia | assumption |].
    split; [assumption | lia].
Qed.

(** ** Invariants along every sequence of operations *)

(** A stream that both sends and receives, and terminations that all carry
    it and are attached nowhere. *)
Definition sendrecv_stream : mpf_audio_stream_t :=
  {| mode := Z.lor STREAM_MODE_SEND STREAM_MODE_RECEIVE;
     rx_codec := None; tx_codec := None |}.

Definition unattached (_ : ptr) : mpf_termination_t :=
  {| slot := apr_size_max; audio_stream := Some sendrecv_stream |}.

(** Add terminations [0 .. n-1], then associate termination 0 with each. *)
Definition fill (n : nat) : list mpf_operation :=
  map add_termination (seq 0 n) ++ map (add_association 0%nat) (seq 0 n).

(** C1, as stated, fails once a row of the matrix can hold more bits than a
    [char] counts: with 128 terminations all associated with the first one,
    [tx_count] of slot 0 has wrapped to -128 where [char] is signed; with
    256 of them it has wrapped to 0 where [char] is unsigned (and where it
    is signed as well). *)
Lemma counters_overflow_counterexample :
  (let s := run true (created mpf_context_factory_create 0%nat 128 unattached) (fill 128) in
   occupied (context s) 0 = true /\
   tx_count (header_at (context s) 0) = -128 /\
   row_count (context s) 0 = 128%nat) /\
  (forall sg,
   let s := run sg (created mpf_context_factory_create 0%nat 256 unattached) (fill 256) in
   occupied (context s) 0 = true /\
   tx_count (header_at (context s) 0) = 0 /\
   row_count (context s) 0 = 256%nat).
Proof.
  split; [vm_compute; auto|].
  intros [|]; vm_compute; auto.
Qed.

(** C1 (amended): for every media context of capacity at most 127, created
    outside the factory ring, and every sequence of add_termination,
    subtract_termination, add_association, remove_association and
    reset_associations operations (and reconfigurations of termination
    streams in between), after every operation each occupied slot [i] has
    [tx_count] equal to the number of set bits in row [i] and [rx_count]
    equal to the number of set bits in column [i], [count] is the number
    of occupied header slots, and the context is in the factory ring iff
    [count > 0]. *)
Theorem context_invariants_after_operations sg f self max_termination_count ts ops :
  0 <= max_termination_count <= 127 ->
  ~ In self (head f) ->
  let s := run sg (created f self max_termination_count ts) ops in
  (forall i, (i < slots (context s))%nat -> occupied (context s) i = true ->
     tx_count (header_at (context s) i) = Z.of_nat (row_count (context s) i) /\
     rx_count (header_at (context s) i) = Z.of_nat (col_count (context s) i)) /\
  count (context s) = Z.of_nat (occupied_count (context s)) /\
  (linked (factory s) (context s) <-> 0 < count (context s)).
Proof.
  intros Hcap Hf s.
  assert (Hmax : max_termination_count <= char_max sg).
  { destruct sg; simpl; lia. }
  destruct (run_inv sg ops (created f self max_termination_count ts)) as [[Hinv Hring] _].
  - exact Hmax.
  - apply created_inv; [unfold apr_size_max; lia | assumption].
  - fold s in Hinv, Hring. destruct Hinv as [_ [Htx Hrx Hcnt] _].
    split; [|split; assumption].
    intros i Hi _. split; [apply Htx | apply Hrx]; assumption.
Qed.

Lemma context_invariants_after_operations_witness :
  0 <= 5 <= 127 /\
  ~ In 0%nat (head mpf_context_factory_create) /\
  let s := run true (created mpf_context_factory_create 0%nat 5 unattached)
             [add_termination 1%nat; add_termination 2%nat;
              add_association 1%nat 2%nat; subtract_termination 1%nat;
              reset_associations] in
  (forall i, (i < slots (context s))%nat -> occupied (context s) i = true ->
     tx_count (header_at (context s) i) = Z.of_nat (row_count (context s) i) /\
     rx_count (header_at (context s) i) = Z.of_nat (col_count (context s) i)) /\
  count (context s) = Z.of_nat (occupied_count (context s)) /\
  (linked (factory s) (context s) <-> 0 < count (context s)).
Proof.
  split; [lia|]. split; [simpl; tauto|].
  apply (context_invariants_after_operations true mpf_context_factory_create 0%nat 5
           unattached); [lia | simpl; tauto].
Defined.

(** ** Resetting the associations *)

Lemma matrix_at_out_of_range c a b :
  shape c -> (slots c <= a)%nat \/ (slots c <= b)%nat ->
  matrix_at c a b = {| on := 0 |}.
Proof.
  intros Hs H. unfold matrix_at.
  destruct (matrix c !! a) as [row|] eqn:Er; [|reflexivity]. simpl.
  pose proof (lookup_lt_Some _ _ _ Er) as Ha.
  rewrite (shape_matrix c Hs) in Ha.
  rewrite (lookup_ge_None_2 row b); [reflexivity|].
  rewrite (shape_rows c Hs a row Er). lia.
Qed.

Lemma header_at_out_of_range c i :
  shape c -> (slots c <= i)%nat -> header_at c i = empty_header_item.
Proof.
  intros Hs H. unfold header_at.
  rewrite (lookup_ge_None_2 (header c) i); [reflexivity|].
  rewrite (shape_header c Hs). exact H.
Qed.

(** With every counter at zero the loop of the reset changes nothing. *)
Lemma associations_reset_loop_zero sg : forall n i k c,
  (forall a, tx_count (header_at c a) = 0 /\ rx_count (header_at c a) = 0) ->
  associations_reset_loop sg n i k c = c.
Proof.
  induction n as [|n IH]; intros i k c Hz; simpl; [reflexivity|].
  destruct (k <? count c); [|reflexivity].
  destruct (termination (header_at c i)); [|apply IH; assumption].
  destruct (Hz i) as [-> ->]. simpl. apply IH; assumption.
Qed.

(** On a context that satisfies the invariants, the reset runs the destroy
    hook of every object of the compiled topology, in order, and empties
    it, then leaves the terminations, [count] and [capacity] as they were,
    every matrix bit cleared and every counter at zero; a second run
    changes nothing and destroys nothing. *)
Lemma associations_reset_on_invariants sg c :
  context_inv sg c ->
  let r := mpf_context_associations_reset sg c in
  r = (associations_reset_loop sg (slots c) 0 0 (fst (mpf_context_topology_destroy c)),
       snd (mpf_context_topology_destroy c)) /\
  snd r = destroy_events (mpf_objects c) /\
  mpf_objects (fst r) = [] /\
  (forall i j, on (matrix_at (fst r) i j) = 0) /\
  (forall i, tx_count (header_at (fst r) i) = 0 /\ rx_count (header_at (fst r) i) = 0) /\
  (forall i, termination (header_at (fst r) i) = termination (header_at c i)) /\
  count (fst r) = count c /\ capacity (fst r) = capacity c /\
  mpf_context_associations_reset sg (fst r) = (fst r, []).
Proof.
  intros Hinv r.
  destruct (associations_reset_spec sg c Hinv) as (I & F & A).
  destruct (topology_destroy_spec sg c Hinv) as (I1 & F1 & O1 & E1).
  fold r in I, F, A.
  assert (Er : r = (associations_reset_loop sg (slots c) 0 0
                      (fst (mpf_context_topology_destroy c)),
                    snd (mpf_context_topology_destroy c))).
  { unfold r, mpf_context_associations_reset.
    destruct (mpf_context_topology_destroy c) as [c1 ev] eqn:E. simpl.
    replace (capacity c1) with (capacity c); [reflexivity|].
    simpl in F1. symmetry. apply (frame_capacity _ _ F1). }
  assert (Hs : shape (fst r)) by apply I.
  assert (Hbits : forall i j, on (matrix_at (fst r) i j) = 0).
  { intros i j.
    destruct (Nat.lt_ge_cases i (slots (fst r))) as [Hi|Hi];
      [|rewrite matrix_at_out_of_range by auto; reflexivity].
    destruct (Nat.lt_ge_cases j (slots (fst r))) as [Hj|Hj];
      [|rewrite matrix_at_out_of_range by auto; reflexivity].
    specialize (A i j Hi Hj). unfold is_on in A.
    destruct (Z.eqb_spec (on (matrix_at (fst r) i j)) 0); [assumption|discriminate]. }
  assert (Hoff : forall i j, is_on (fst r) i j = false).
  { intros i j. unfold is_on. rewrite Hbits. reflexivity. }
  assert (Hzero : forall i, tx_count (header_at (fst r) i) = 0 /\
                            rx_count (header_at (fst r) i) = 0).
  { intros i.
    destruct (Nat.lt_ge_cases i (slots (fst r))) as [Hi|Hi];
      [|rewrite header_at_out_of_range by auto; auto].
    rewrite (inv_tx _ (inv_counts sg _ I) i Hi), (inv_rx _ (inv_counts sg _ I) i Hi).
    unfold row_count, col_count.
    rewrite !(proj2 (countb_zero _ _)); auto. }
  assert (Hobj : mpf_objects (fst r) = []) by apply (frame_objects _ _ F).
  split; [exact Er|].
  split; [rewrite Er; exact E1|].
  split; [exact Hobj|].
  split; [exact Hbits|].
  split; [exact Hzero|].
  split; [intros i; apply (frame_termination _ _ F)|].
  split; [apply (frame_count _ _ F)|].
  split; [apply (frame_capacity _ _ F)|].
  unfold mpf_context_associations_reset, mpf_context_topology_destroy.
  rewrite Hobj. simpl.
  rewrite associations_reset_loop_zero by assumption. reflexivity.
Qed.

(** ** Adding, then removing, an association *)

(** Two contexts with the same fields and the same cells are equal. *)
Lemma context_ext c c' :
  shape c -> shape c' ->
  link c' = link c -> capacity c' = capacity c -> count c' = count c ->
  mpf_objects c' = mpf_objects c ->
  (forall k, header_at c' k = header_at c k) ->
  (forall a b, matrix_at c' a b = matrix_at c a b) ->
  c' = c.
Proof.
  intros [_ H2 H3 H4] [_ H2' H3' H4'] El Ec En Eo Hh Hm.
  unfold slots in *. rewrite Ec in *.
  destruct c as [l cap n h m o], c' as [l' cap' n' h' m' o']. simpl in *. subst.
  assert (Eh : h' = h).
  { apply list_eq. intros k. specialize (Hh k). unfold header_at in Hh. simpl in Hh.
    destruct (h' !! k) as [x'|] eqn:E', (h !! k) as [x|] eqn:E; simpl in Hh.
    - congruence.
    - apply lookup_lt_Some in E'. apply lookup_ge_None in E. lia.
    - apply lookup_lt_Some in E. apply lookup_ge_None in E'. lia.
    - reflexivity. }
  assert (Em : m' = m).
  { apply list_eq. intros a.
    destruct (m' !! a) as [r'|] eqn:E', (m !! a) as [r|] eqn:E.
    - f_equal. apply list_eq. intros b.
      specialize (Hm a b). unfold matrix_at in Hm. simpl in Hm.
      rewrite E', E in Hm. simpl in Hm.
      pose proof (H4 a r E) as L. pose proof (H4' a r' E') as L'.
      destruct (r' !! b) as [x'|] eqn:B', (r !! b) as [x|] eqn:B; simpl in Hm.
      + congruence.
      + apply lookup_lt_Some in B'. apply lookup_ge_None in B. lia.
      + apply lookup_lt_Some in B. apply lookup_ge_None in B'. lia.
      + reflexivity.
    - apply lookup_lt_Some in E'. apply lookup_ge_None in E. lia.
    - apply lookup_lt_Some in E. apply lookup_ge_None in E'. lia.
    - reflexivity. }
  subst. reflexivity.
Qed.

(** A [char] holds the value it was given. *)
Definition is_char (sg : bool) (z : Z) : Prop := char_cast sg z = z.

Definition header_chars (sg : bool) (c : mpf_context_t) : Prop :=
  forall k, is_char sg (tx_count (header_at c k)) /\
            is_char sg (rx_count (header_at c k)).

Lemma char_cast_up_down sg z :
  is_char sg z -> char_cast sg (char_cast sg (z + 1) + -1) = z.
Proof.
  unfold is_char, char_cast. destruct sg; intros H.
  - replace ((z + 1 + 128) `mod` 256 - 128 + -1 + 128)
      with ((z + 1 + 128) `mod` 256 - 1) by lia.
    rewrite Zminus_mod_idemp_l. replace (z + 1 + 128 - 1) with (z + 128) by lia.
    exact H.
  - replace ((z + 1) `mod` 256 + -1) with ((z + 1) `mod` 256 - 1) by lia.
    rewrite Zminus_mod_idemp_l. replace (z + 1 - 1) with z by lia. exact H.
Qed.

(** The termination is stored at the slot it records. *)
Definition stored (s : mpf_state) (t : ptr) : Prop :=
  slot (terminations s t) < capacity (context s) /\
  holds (header_at (context s) (Z.to_nat (slot (terminations s t)))) t = true.

Section AddThenRemove.

Variable sg : bool.

Lemma flip_undo c i j :
  shape c -> (i < slots c)%nat -> (j < slots c)%nat -> header_chars sg c ->
  on (matrix_at c i j) = 0 ->
  association_flip sg 0 (-1) (association_flip sg 1 1 c i j) i j = c.
Proof.
  intros Hs Hi Hj Hc Hoff.
  pose proof (flip_shape sg 1 1 c i j Hs) as Hs1.
  apply context_ext; auto; try reflexivity.
  - apply flip_shape. exact Hs1.
  - intros k. rewrite flip_header; [| exact Hs1 | exact Hi | exact Hj].
    rewrite flip_header by assumption. simpl.
    destruct (Hc k) as [Ct Cr].
    destruct (header_at c k) as [t tx rx]; simpl in *.
    unfold tx_count_add, rx_count_add.
    destruct (Nat.eqb k i), (Nat.eqb k j); simpl;
      rewrite ?char_cast_up_down by assumption; reflexivity.
  - intros a b. rewrite flip_matrix; [| exact Hs1 | exact Hi | exact Hj].
    rewrite flip_matrix by assumption.
    destruct (Nat.eqb_spec a i) as [->|]; [|reflexivity].
    destruct (Nat.eqb_spec b j) as [->|]; [|reflexivity].
    simpl. destruct (matrix_at c i j) as [v]. simpl in Hoff. congruence.
Qed.

Lemma flip_undo_two c i j :
  shape c -> (i < slots c)%nat -> (j < slots c)%nat -> header_chars sg c ->
  i <> j -> on (matrix_at c i j) = 0 -> on (matrix_at c j i) = 0 ->
  association_flip sg 0 (-1)
    (association_flip sg 0 (-1)
       (association_flip sg 1 1 (association_flip sg 1 1 c i j) j i) i j) j i = c.
Proof.
  intros Hs Hi Hj Hc Hne Hoff1 Hoff2.
  pose proof (flip_shape sg 1 1 c i j Hs) as Hs1.
  pose proof (flip_shape sg 1 1 _ j i Hs1) as Hs2.
  pose proof (flip_shape sg 0 (-1) _ i j Hs2) as Hs3.
  pose proof (flip_shape sg 0 (-1) _ j i Hs3) as Hs4.
  apply context_ext; auto; try reflexivity.
  - intros k.
    rewrite flip_header; [| exact Hs3 | exact Hj | exact Hi].
    rewrite flip_header; [| exact Hs2 | exact Hi | exact Hj].
    rewrite flip_header; [| exact Hs1 | exact Hj | exact Hi].
    rewrite flip_header by assumption. simpl.
    destruct (Hc k) as [Ct Cr].
    destruct (header_at c k) as [t tx rx]; simpl in *.
    unfold tx_count_add, rx_count_add.
    destruct (Nat.eqb_spec k i) as [Ei|Ei]; destruct (Nat.eqb_spec k j) as [Ej|Ej];
      [congruence | | |]; simpl;
      rewrite ?char_cast_up_down by assumption; reflexivity.
  - intros a b.
    rewrite flip_matrix; [| exact Hs3 | exact Hj | exact Hi].
    rewrite flip_matrix; [| exact Hs2 | exact Hi | exact Hj].
    rewrite flip_matrix; [| exact Hs1 | exact Hj | exact Hi].
    rewrite flip_matrix by assumption.
    destruct (Nat.eqb_spec a j) as [Ea|Ea]; destruct (Nat.eqb_spec b i) as [Eb|Eb];
      destruct (Nat.eqb_spec a i) as [Ea'|Ea']; destruct (Nat.eqb_spec b j) as [Eb'|Eb'];
      subst; simpl; try reflexivity; try congruence.
    + destruct (matrix_at c j i) as [v]. simpl in Hoff2. congruence.
    + destruct (matrix_at c i j) as [v]. simpl in Hoff1. congruence.
Qed.

Lemma flip_on v d c i j a b :
  shape c -> (i < slots c)%nat -> (j < slots c)%nat ->
  on (matrix_at (association_flip sg v d c i j) a b) =
  if Nat.eqb a i && Nat.eqb b j then v else on (matrix_at c a b).
Proof.
  intros Hs Hi Hj. rewrite flip_matrix by assumption.
  destruct (Nat.eqb a i && Nat.eqb b j); reflexivity.
Qed.

(** What the four conditional steps of an add followed by a remove amount
    to, from a state where neither bit is 1. *)
Definition add_then_remove_steps (d12 d21 : bool) (c : mpf_context_t) (i j : nat)
    : mpf_context_t :=
  let c := if on (matrix_at c i j) =? 0
           then if d12 then association_on sg c i j else c
           else c in
  let c := if on (matrix_at c j i) =? 0
           then if d21 then association_on sg c j i else c
           else c in
  let c := if on (matrix_at c i j) =? 1 then association_off sg c i j else c in
  if on (matrix_at c j i) =? 1 then association_off sg c j i else c.

Lemma add_then_remove_same_slot d12 d21 c i :
  shape c -> (i < slots c)%nat -> header_chars sg c ->
  on (matrix_at c i i) <> 1 ->
  add_then_remove_steps d12 d21 c i i = c.
Proof.
  intros Hs Hi Hc N. unfold add_then_remove_steps.
  rewrite !association_on_flip.
  assert (Hs1 : shape (association_flip sg 1 1 c i i)) by (apply flip_shape; assumption).
  assert (E1 : on (matrix_at (association_flip sg 1 1 c i i) i i) = 1).
  { rewrite flip_on by assumption. rewrite !Nat.eqb_refl. reflexivity. }
  assert (E0 : on (matrix_at (association_flip sg 0 (-1)
                                (association_flip sg 1 1 c i i) i i) i i) = 0).
  { rewrite flip_on by assumption. rewrite !Nat.eqb_refl. reflexivity. }
  assert (Done : on (matrix_at c i i) = 0 ->
    (let c' := if on (matrix_at (association_flip sg 1 1 c i i) i i) =? 1
               then association_off sg (association_flip sg 1 1 c i i) i i
               else association_flip sg 1 1 c i i in
     if on (matrix_at c' i i) =? 1 then association_off sg c' i i else c') = c).
  { intros Z0. cbn zeta. rewrite E1. cbn [Z.eqb Pos.eqb].
    rewrite association_off_flip, E0. cbn [Z.eqb]. apply flip_undo; assumption. }
  cbn zeta in Done.
  destruct (Z.eqb_spec (on (matrix_at c i i)) 0) as [Z0|Z0].
  - destruct d12.
    + rewrite E1. cbn [Z.eqb]. apply Done, Z0.
    + rewrite Z0. cbn [Z.eqb]. destruct d21.
      * apply Done, Z0.
      * rewrite Z0. cbn [Z.eqb]. rewrite Z0. reflexivity.
  - destruct (Z.eqb_spec (on (matrix_at c i i)) 0) as [|_]; [contradiction|].
    destruct (Z.eqb_spec (on (matrix_at c i i)) 1) as [|_]; [contradiction|].
    destruct (Z.eqb_spec (on (matrix_at c i i)) 1) as [|_]; [contradiction|].
    reflexivity.
Qed.

Lemma add_then_remove_two_slots d12 d21 c i j :
  shape c -> (i < slots c)%nat -> (j < slots c)%nat -> header_chars sg c ->
  i <> j ->
  on (matrix_at c i j) <> 1 -> on (matrix_at c j i) <> 1 ->
  add_then_remove_steps d12 d21 c i j = c.
Proof.
  intros Hs Hi Hj Hc Hne N1 N2. unfold add_then_remove_steps.
  rewrite !association_on_flip.
  assert (Hji : Nat.eqb j i = false) by (apply Nat.eqb_neq; congruence).
  assert (Hij : Nat.eqb i j = false) by (apply Nat.eqb_neq; congruence).
  set (A := (on (matrix_at c i j) =? 0) && d12).
  set (B := (on (matrix_at c j i) =? 0) && d21).
  set (c1 := if A then association_flip sg 1 1 c i j else c).
  replace (if on (matrix_at c i j) =? 0
           then if d12 then association_flip sg 1 1 c i j else c else c) with c1.
  2:{ unfold c1, A. destruct (on (matrix_at c i j) =? 0), d12; reflexivity. }
  assert (Hs1 : shape c1) by (unfold c1; destruct A; [apply flip_shape|]; assumption).
  assert (Sl1 : slots c1 = slots c) by (unfold c1; destruct A; reflexivity).
  assert (M1 : on (matrix_at c1 j i) = on (matrix_at c j i)).
  { unfold c1. destruct A; [|reflexivity].
    rewrite flip_on by assumption. rewrite Hji. reflexivity. }
  rewrite M1.
  set (c2 := if B then association_flip sg 1 1 c1 j i else c1).
  replace (if on (matrix_at c j i) =? 0
           then if d21 then association_flip sg 1 1 c1 j i else c1 else c1) with c2.
  2:{ unfold c2, B. destruct (on (matrix_at c j i) =? 0), d21; reflexivity. }
  assert (Hs2 : shape c2).
  { unfold c2; destruct B; [apply flip_shape|]; assumption. }
  assert (Sl2 : slots c2 = slots c) by (unfold c2; destruct B; exact Sl1).
  assert (M2 : (on (matrix_at c2 i j) =? 1) = A).
  { unfold c2. replace (on (matrix_at (if B then _ else c1) i j))
      with (on (matrix_at c1 i j)).
    2:{ destruct B; [|reflexivity]. rewrite flip_on by (assumption || lia).
        rewrite Hij. reflexivity. }
    unfold c1. destruct A eqn:EA.
    - rewrite flip_on by assumption. rewrite !Nat.eqb_refl. reflexivity.
    - apply Z.eqb_neq. exact N1. }
  rewrite M2. rewrite !association_off_flip.
  set (c3 := if A then association_flip sg 0 (-1) c2 i j else c2).
  assert (M3 : (on (matrix_at c3 j i) =? 1) = B).
  { unfold c3. replace (on (matrix_at (if A then _ else c2) j i))
      with (on (matrix_at c2 j i)).
    2:{ destruct A; [|reflexivity]. rewrite flip_on by (assumption || lia).
        rewrite Hji. reflexivity. }
    unfold c2. destruct B eqn:EB.
    - rewrite flip_on by (assumption || lia).
      rewrite !Nat.eqb_refl. reflexivity.
    - rewrite M1. apply Z.eqb_neq. exact N2. }
  rewrite M3.
  unfold c3, c2, c1.
  destruct A eqn:EA, B eqn:EB.
  - apply andb_prop in EA, EB. destruct EA as [EA _], EB as [EB _].
    apply Z.eqb_eq in EA, EB. apply flip_undo_two; assumption.
  - apply andb_prop in EA. destruct EA as [EA _]. apply Z.eqb_eq in EA.
    apply flip_undo; assumption.
  - apply andb_prop in EB. destruct EB as [EB _]. apply Z.eqb_eq in EB.
    apply flip_undo; assumption.
  - reflexivity.
Qed.

Lemma add_then_remove_steps_frame (d12 d21 : bool) (c : mpf_context_t) (i j : nat) :
  shape c -> (i < slots c)%nat -> (j < slots c)%nat ->
  let c2 := (let c := if on (matrix_at c i j) =? 0
                      then if d12 then association_on sg c i j else c
                      else c in
             if on (matrix_at c j i) =? 0
             then if d21 then association_on sg c j i else c
             else c) in
  capacity c2 = capacity c /\
  forall k, termination (header_at c2 k) = termination (header_at c k).
Proof.
  intros Hs Hi Hj. cbn zeta. rewrite !association_on_flip.
  set (c1 := if on (matrix_at c i j) =? 0
             then if d12 then association_flip sg 1 1 c i j else c else c).
  assert (F1 : same_frame c c1).
  { unfold c1. destruct (on (matrix_at c i j) =? 0); [|apply same_frame_refl].
    destruct d12; [|apply same_frame_refl]. apply flip_frame; assumption. }
  assert (Hs1 : shape c1).
  { unfold c1. destruct (on (matrix_at c i j) =? 0); [|assumption].
    destruct d12; [|assumption]. apply flip_shape; assumption. }
  pose proof (same_frame_slots _ _ F1) as Sl.
  assert (F2 : same_frame c1 (if on (matrix_at c1 j i) =? 0
                              then if d21 then association_flip sg 1 1 c1 j i else c1
                              else c1)).
  { destruct (on (matrix_at c1 j i) =? 0); [|apply same_frame_refl].
    destruct d21; [|apply same_frame_refl].
    apply flip_frame; [assumption | lia | lia]. }
  pose proof (same_frame_trans _ _ _ F1 F2) as F.
  split; [apply (frame_capacity _ _ F) | apply (frame_termination _ _ F)].
Qed.

(** C4, as stated, fails when the two terminations are associated already:
    adding changes nothing and removing takes the association away. *)
Lemma add_then_remove_counterexample :
  let s := run true (created mpf_context_factory_create 0%nat 5 unattached)
             [add_termination 1%nat; add_termination 2%nat;
              add_association 1%nat 2%nat] in
  let s' := snd (mpf_context_association_remove true
                   (snd (mpf_context_association_add true s 1%nat 2%nat)) 1%nat 2%nat) in
  (slot (terminations s 1%nat) = 0 /\ holds (header_at (context s) 0) 1%nat = true) /\
  (slot (terminations s 2%nat) = 1 /\ holds (header_at (context s) 1) 2%nat = true) /\
  on (matrix_at (context s) 0 1) = 1 /\
  on (matrix_at (context s') 0 1) = 0 /\
  tx_count (header_at (context s) 0) = 1 /\
  tx_count (header_at (context s') 0) = 0.
Proof. vm_compute. repeat split; reflexivity. Qed.

(** C4 (amended): for every context state in which [t1] and [t2] are both
    present at their recorded slots and neither direction between them is
    associated yet (neither bit is 1), add_association(t1, t2) followed by
    remove_association(t1, t2) succeeds twice and returns the context, with
    its association matrix and its tx/rx counts, as well as the factory and
    the terminations, to the identical pre-state. *)
Theorem association_add_then_remove s t1 t2 :
  shape (context s) -> header_chars sg (context s) ->
  stored s t1 -> stored s t2 ->
  let i := Z.to_nat (slot (terminations s t1)) in
  let j := Z.to_nat (slot (terminations s t2)) in
  on (matrix_at (context s) i j) <> 1 ->
  on (matrix_at (context s) j i) <> 1 ->
  let r1 := mpf_context_association_add sg s t1 t2 in
  let r2 := mpf_context_association_remove sg (snd r1) t1 t2 in
  fst r1 = true /\ fst r2 = true /\ snd r2 = s.
Proof.
  intros Hs Hc [L1 S1] [L2 S2] i j N1 N2 r1 r2. subst r1 r2.
  fold i in S1. fold j in S2.
  pose proof (holds_in_range _ _ _ Hs S1) as Hi.
  pose proof (holds_in_range _ _ _ Hs S2) as Hj.
  set (d12 := stream_mode_compatibility_check (terminations s t1) (terminations s t2)).
  set (d21 := stream_mode_compatibility_check (terminations s t2) (terminations s t1)).
  destruct (add_then_remove_steps_frame d12 d21 (context s) i j Hs Hi Hj) as [Fc Ft].
  assert (Enet : add_then_remove_steps d12 d21 (context s) i j = context s).
  { destruct (Nat.eq_dec i j) as [E|E].
    - rewrite <- E in *. apply add_then_remove_same_slot; assumption.
    - apply add_then_remove_two_slots; assumption. }
  unfold add_then_remove_steps in Enet. cbn zeta in Fc, Ft, Enet.
  unfold mpf_context_association_add.
  destruct (Z.leb_spec (capacity (context s)) (slot (terminations s t1))); [lia|].
  destruct (Z.leb_spec (capacity (context s)) (slot (terminations s t2))); [lia|].
  fold i j d12 d21. rewrite S1, S2. cbn [orb negb fst snd].
  unfold mpf_context_association_remove. cbn [context terminations factory].
  fold i j. rewrite Fc.
  destruct (Z.leb_spec (capacity (context s)) (slot (terminations s t1))); [lia|].
  destruct (Z.leb_spec (capacity (context s)) (slot (terminations s t2))); [lia|].
  unfold holds in *. rewrite !Ft. rewrite S1, S2. cbn [orb negb fst snd].
  split; [reflexivity|]. split; [reflexivity|].
  rewrite Enet. destruct s; reflexivity.
Qed.

End AddThenRemove.

Lemma context_inv_header_chars sg c : context_inv sg c -> header_chars sg c.
Proof.
  intros Hinv k. unfold is_char.
  destruct (Nat.lt_ge_cases k (slots c)) as [Hk|Hk].
  - destruct (inv_char sg c (inv_assoc sg c Hinv) k Hk) as [H1 H2].
    pose proof (inv_tx c (inv_counts sg c Hinv) k Hk).
    pose proof (inv_rx c (inv_counts sg c Hinv) k Hk).
    split; apply char_cast_small; lia.
  - rewrite header_at_out_of_range by (try apply Hinv; assumption).
    simpl. destruct sg; split; reflexivity.
Qed.

Lemma association_add_then_remove_witness :
  let s := run true (created mpf_context_factory_create 0%nat 5 unattached)
             [add_termination 1%nat; add_termination 2%nat] in
  let r1 := mpf_context_association_add true s 1%nat 2%nat in
  let r2 := mpf_context_association_remove true (snd r1) 1%nat 2%nat in
  (stored s 1%nat /\ stored s 2%nat) /\
  is_on (context (snd r1)) 0 1 = true /\
  (fst r1 = true /\ fst r2 = true /\ snd r2 = s).
Proof.
  intros s r1 r2.
  assert (Hcap : capacity (context (created mpf_context_factory_create 0%nat 5 unattached))
                 <= char_max true).
  { cbn. lia. }
  assert (Hinit : state_inv true (created mpf_context_factory_create 0%nat 5 unattached)).
  { apply created_inv; [unfold apr_size_max; lia | cbn; tauto]. }
  destruct (run_inv true [add_termination 1%nat; add_termination 2%nat] _ Hcap Hinit)
    as [[Hinv _] _].
  fold s in Hinv.
  assert (St1 : stored s 1%nat) by (split; vm_compute; reflexivity).
  assert (St2 : stored s 2%nat) by (split; vm_compute; reflexivity).
  split; [split; assumption|].
  split; [vm_compute; reflexivity|].
  apply (association_add_then_remove true s 1%nat 2%nat
           (inv_shape true _ Hinv) (context_inv_header_chars true _ Hinv) St1 St2);
    vm_compute; discriminate.
Defined.

(** ** Predicate failures *)

Definition full (c : mpf_context_t) : Prop :=
  forall i, (i < slots c)%nat -> occupied c i = true.

Definition not_stored (s : mpf_state) (t : ptr) : Prop :=
  capacity (context s) <= slot (terminations s t) \/
  holds (header_at (context s) (Z.to_nat (slot (terminations s t)))) t = false.

(** The predicate failures of the operations, each with the boolean that
    the operation returns for it. *)
Inductive predicate_failure (s : mpf_state) : mpf_operation -> bool -> Prop :=
| slot_full t :
    full (context s) ->
    predicate_failure s (add_termination t) false
| wrong_termination_subtract t :
    not_stored s t ->
    predicate_failure s (subtract_termination t) false
| wrong_termination_add_association t1 t2 :
    not_stored s t1 \/ not_stored s t2 ->
    predicate_failure s (add_association t1 t2) false
| wrong_termination_remove_association t1 t2 :
    not_stored s t1 \/ not_stored s t2 ->
    predicate_failure s (remove_association t1 t2) false
| mode_mismatch t1 t2 :
    stored s t1 -> stored s t2 ->
    stream_mode_compatibility_check (terminations s t1) (terminations s t2) = false ->
    stream_mode_compatibility_check (terminations s t2) (terminations s t1) = false ->
    predicate_failure s (add_association t1 t2) true.

Definition silent (_ : ptr) : mpf_termination_t :=
  {| slot := apr_size_max;
     audio_stream := Some {| mode := STREAM_MODE_NONE;
                             rx_codec := None; tx_codec := None |} |}.

(** C3, as stated, fails for the mode mismatch: with both terminations in
    place and neither stream able to send or receive,
    [mpf_context_association_add] returns TRUE. *)
Lemma mode_mismatch_counterexample :
  let s := run true (created mpf_context_factory_create 0%nat 5 silent)
             [add_termination 1%nat; add_termination 2%nat] in
  stream_mode_compatibility_check (terminations s 1%nat) (terminations s 2%nat) = false /\
  stream_mode_compatibility_check (terminations s 2%nat) (terminations s 1%nat) = false /\
  fst (mpf_context_association_add true s 1%nat 2%nat) = true.
Proof. vm_compute. repeat split; reflexivity. Qed.

Lemma termination_add_loop_full t s : forall n i,
  (forall k, (i <= k < i + n)%nat -> occupied (context s) k = true) ->
  termination_add_loop n i s t = (false, s).
Proof.
  induction n as [|n IH]; intros i H; simpl; [reflexivity|].
  pose proof (H i ltac:(lia)) as Hi. unfold occupied in Hi.
  destruct (termination (header_at (context s) i)); [|discriminate].
  apply IH. intros k Hk. apply H. lia.
Qed.

(** C3 (amended): add_termination when all capacity slots are occupied,
    and subtract_termination, add_association or remove_association when a
    given termination is not stored at its recorded slot, return false and
    leave the state (header, matrix, counts, ring membership, terminations)
    unchanged; add_association between two stored terminations whose
    stream modes are incompatible in both directions leaves the state
    unchanged as well, and returns true. *)
Theorem predicate_failure_leaves_state sg s o r :
  predicate_failure s o r -> apply_operation sg s o = (r, s).
Proof.
  intros H. destruct H as [t Hfull | t Hns | t1 t2 Hns | t1 t2 Hns
                           | t1 t2 [L1 S1] [L2 S2] D12 D21]; simpl.
  - unfold mpf_context_termination_add. apply termination_add_loop_full.
    intros k Hk. apply Hfull. unfold slots. lia.
  - unfold mpf_context_termination_subtract.
    destruct Hns as [Hge|Hh].
    + destruct (Z.leb_spec (capacity (context s)) (slot (terminations s t)));
        [reflexivity | lia].
    + rewrite Hh. simpl.
      destruct (capacity (context s) <=? slot (terminations s t)); reflexivity.
  - unfold mpf_context_association_add.
    destruct (capacity (context s) <=? slot (terminations s t1)) eqn:E1;
      [reflexivity|].
    destruct (capacity (context s) <=? slot (terminations s t2)) eqn:E2;
      [reflexivity|].
    simpl. apply Z.leb_gt in E1, E2.
    destruct Hns as [[Hge|Hh]|[Hge|Hh]]; try lia.
    + rewrite Hh. reflexivity.
    + rewrite Hh. rewrite orb_true_r. reflexivity.
  - unfold mpf_context_association_remove.
    destruct (capacity (context s) <=? slot (terminations s t1)) eqn:E1;
      [reflexivity|].
    destruct (capacity (context s) <=? slot (terminations s t2)) eqn:E2;
      [reflexivity|].
    simpl. apply Z.leb_gt in E1, E2.
    destruct Hns as [[Hge|Hh]|[Hge|Hh]]; try lia.
    + rewrite Hh. reflexivity.
    + rewrite Hh. rewrite orb_true_r. reflexivity.
  - unfold mpf_context_association_add.
    destruct (Z.leb_spec (capacity (context s)) (slot (terminations s t1))); [lia|].
    destruct (Z.leb_spec (capacity (context s)) (slot (terminations s t2))); [lia|].
    rewrite S1, S2, D12, D21. simpl.
    destruct (on (matrix_at (context s) _ _) =? 0);
      destruct (on (matrix_at (context s) _ _) =? 0);
      destruct s; reflexivity.
Qed.

Lemma predicate_failure_leaves_state_witness :
  let s := run true (created mpf_context_factory_create 0%nat 2 unattached)
             [add_termination 1%nat; add_termination 2%nat] in
  apply_operation true s (add_termination 3%nat) = (false, s) /\
  apply_operation true s (subtract_termination 3%nat) = (false, s).
Proof.
  intros s. split.
  - apply predicate_failure_leaves_state. apply slot_full.
    intros [|[|i]] Hi; [reflexivity | reflexivity |].
    vm_compute in Hi. lia.
  - apply predicate_failure_leaves_state. apply wrong_termination_subtract.
    left. vm_compute. discriminate.
Defined.

(** ** Building a connection ([mpf_context_connection_create]) *)

(** Modelled from the spec: the constructors of [mpf_bridge.c],
    [mpf_decoder.c] and [mpf_encoder.c] are not among the sources.  A
    decoder or an encoder wraps the stream it is given; a bridge and a null
    bridge are objects over two stream ends that carry both hooks ("Bridge,
    null bridge, encoder, and decoder share the operations process() and
    destroy()"). *)
Definition mpf_decoder_create (source : mpf_audio_stream_t) : mpf_stream_end :=
  stream_decoder source.

Definition mpf_encoder_create (sink : mpf_audio_stream_t) : mpf_stream_end :=
  stream_encoder sink.

Definition mpf_null_bridge_create (source sink : mpf_stream_end) : mpf_object_t :=
  {| kind := null_bridge; source := source; sink := sink;
     destroy := true; process := true |}.

Definition mpf_bridge_create (source sink : mpf_stream_end) : mpf_object_t :=
  {| kind := bridge; source := source; sink := sink;
     destroy := true; process := true |}.

Definition resampling_warning : string :=
  "Resampling is not supported now. Try to configure and use the same sampling rate on both ends".

(** [rx_codec->vtable && rx_codec->vtable->decode] *)
Definition has_decode (codec : mpf_codec_t) : bool :=
  match vtable codec with
  | Some v => decode v
  | None => false
  end.

(** [tx_codec->vtable && tx_codec->vtable->encode] *)
Definition has_encode (codec : mpf_codec_t) : bool :=
  match vtable codec with
  | Some v => encode v
  | None => false
  end.

Definition mode_has (stream : mpf_audio_stream_t) (flag : Z) : bool :=
  Z.land (mode stream) flag =? flag.

Section Connection.

(** [mpf_codec_descriptors_match] of [mpf_codec_descriptor.h], which is not
    among the sources: any comparison of two descriptors. *)
Variable mpf_codec_descriptors_match :
  mpf_codec_descriptor_t -> mpf_codec_descriptor_t -> bool.

(** The terminations are given as the pointers are: [None] is NULL.  The
    result is the object, if any, and what was logged. *)
Definition mpf_context_connection_create
    (src_termination sink_termination : option mpf_termination_t)
    : option mpf_object_t * list mpf_event :=
  match src_termination, sink_termination with
  | Some src, Some snk =>
      match audio_stream src, audio_stream snk with
      | Some source, Some sink =>
          if mode_has source STREAM_MODE_RECEIVE && mode_has sink STREAM_MODE_SEND then
            match rx_codec source, tx_codec sink with
            | Some rx, Some tx =>
                if mpf_codec_descriptors_match (descriptor rx) (descriptor tx) then
                  (Some (mpf_null_bridge_create (stream_plain source) (stream_plain sink)), [])
                else if negb (sampling_rate (descriptor rx) =? sampling_rate (descriptor tx))
                then (None, [log_warning resampling_warning])
                else
                  (* set decoder before bridge *)
                  let source' := if has_decode rx then mpf_decoder_create source
                                 else stream_plain source in
                  (* set encoder after bridge *)
                  let sink' := if has_encode tx then mpf_encoder_create sink
                               else stream_plain sink in
                  (Some (mpf_bridge_create source' sink'), [])
            | _, _ => (None, [])
            end
          else (None, [])
      | _, _ => (None, [])
      end
  | _, _ => (None, [])
  end.

(** What a connection needs before any object is built. *)
Definition connectable (src snk : mpf_termination_t)
    (source sink : mpf_audio_stream_t) (rx tx : mpf_codec_t) : Prop :=
  audio_stream src = Some source /\ audio_stream snk = Some sink /\
  mode_has source STREAM_MODE_RECEIVE = true /\
  mode_has sink STREAM_MODE_SEND = true /\
  rx_codec source = Some rx /\ tx_codec sink = Some tx.

(** C5: connection construction for a source and a sink termination
    produces no object unless the source stream mode contains RECEIVE, the
    sink stream mode contains SEND and both the rx and the tx codec are
    present; then a null bridge when the descriptors match; no object, with
    a warning logged, when they do not and the sampling rates differ;
    otherwise a regular bridge whose source is wrapped in a decoder iff the
    rx codec has a decode entry and whose sink is wrapped in an encoder iff
    the tx codec has an encode entry. *)
Theorem connection_create_cases src snk :
  (forall object, fst (mpf_context_connection_create (Some src) (Some snk)) = Some object ->
     exists source sink rx tx, connectable src snk source sink rx tx) /\
  (forall source sink rx tx, connectable src snk source sink rx tx ->
     (mpf_codec_descriptors_match (descriptor rx) (descriptor tx) = true ->
      mpf_context_connection_create (Some src) (Some snk) =
        (Some {| kind := null_bridge;
                 source := stream_plain source; sink := stream_plain sink;
                 destroy := true; process := true |}, [])) /\
     (mpf_codec_descriptors_match (descriptor rx) (descriptor tx) = false ->
      sampling_rate (descriptor rx) <> sampling_rate (descriptor tx) ->
      mpf_context_connection_create (Some src) (Some snk) =
        (None, [log_warning resampling_warning])) /\
     (mpf_codec_descriptors_match (descriptor rx) (descriptor tx) = false ->
      sampling_rate (descriptor rx) = sampling_rate (descriptor tx) ->
      mpf_context_connection_create (Some src) (Some snk) =
        (Some {| kind := bridge;
                 source := if has_decode rx then stream_decoder source
                           else stream_plain source;
                 sink := if has_encode tx then stream_encoder sink
                         else stream_plain sink;
                 destroy := true; process := true |}, []))).
Proof.
  split.
  - intros object H. unfold mpf_context_connection_create in H.
    destruct (audio_stream src) as [source|] eqn:E1; [|discriminate].
    destruct (audio_stream snk) as [sink|] eqn:E2; [|discriminate].
    destruct (mode_has source STREAM_MODE_RECEIVE) eqn:E3; [|discriminate].
    destruct (mode_has sink STREAM_MODE_SEND) eqn:E4; [|discriminate].
    simpl in H.
    destruct (rx_codec source) as [rx|] eqn:E5; [|discriminate].
    destruct (tx_codec sink) as [tx|] eqn:E6; [|discriminate].
    exists source, sink, rx, tx. repeat split; assumption.
  - intros source sink rx tx (E1 & E2 & E3 & E4 & E5 & E6).
    unfold mpf_context_connection_create.
    rewrite E1, E2, E3, E4, E5, E6. simpl.
    split; [|split].
    + intros ->. reflexivity.
    + intros -> Hr. apply Z.eqb_neq in Hr. rewrite Hr. reflexivity.
    + intros -> Hr. apply Z.eqb_eq in Hr. rewrite Hr. reflexivity.
Qed.

(** A NULL termination on either side gives no object. *)
Lemma connection_create_null src snk :
  src = None \/ snk = None ->
  mpf_context_connection_create src snk = (None, []).
Proof. intros [-> | ->]; [|destruct src]; reflexivity. Qed.

End Connection.

(** ** What the operations keep, whatever the capacity

    Where a row of the matrix can hold more bits than a [char] counts, the
    counters may wrap and the count invariants fail.  What every operation
    keeps all the same: the shape of the arrays, counters that are [char]
    values, [count] as the number of occupied slots, and association bits
    that are 0 or 1 and join two occupied slots. *)

Section Links.

Variable sg : bool.

Record links_inv (c : mpf_context_t) : Prop := {
  links_shape : shape c;
  links_chars : header_chars sg c;
  links_count : count c = Z.of_nat (occupied_count c);
  links_bit : forall i j, (i < slots c)%nat -> (j < slots c)%nat ->
      is_on c i j = true ->
      on (matrix_at c i j) = 1 /\ occupied c i = true /\ occupied c j = true
}.

Lemma char_cast_is_char z : is_char sg (char_cast sg z).
Proof.
  unfold is_char, char_cast. destruct sg.
  - replace ((z + 128) `mod` 256 - 128 + 128) with ((z + 128) `mod` 256) by lia.
    rewrite Z.mod_mod by lia. reflexivity.
  - rewrite Z.mod_mod by lia. reflexivity.
Qed.

(** Writing a cell, and moving the two counters: to 0 always, to 1 between
    occupied slots. *)
Lemma links_flip v d c i j :
  links_inv c -> (i < slots c)%nat -> (j < slots c)%nat ->
  v = 0 \/ (v = 1 /\ occupied c i = true /\ occupied c j = true) ->
  links_inv (association_flip sg v d c i j).
Proof.
  intros [Hs Hch Hcnt Hbit] Hi Hj Hv. split.
  - apply flip_shape, Hs.
  - intros k. rewrite (flip_tx sg v d c i j Hs Hi Hj), (flip_rx sg v d c i j Hs Hi Hj).
    destruct (Hch k) as [H1 H2].
    split; [destruct (Nat.eqb k i) | destruct (Nat.eqb k j)];
      first [apply char_cast_is_char | assumption].
  - rewrite (flip_occupied_count sg v d c i j Hs Hi Hj). exact Hcnt.
  - intros a b Ha Hb.
    change (slots (association_flip sg v d c i j)) with (slots c) in Ha, Hb.
    rewrite (flip_is_on sg v d c i j Hs Hi Hj), (flip_matrix sg v d c i j Hs Hi Hj),
      !(flip_occupied sg v d c i j Hs Hi Hj).
    destruct (Nat.eqb_spec a i) as [->|Hai], (Nat.eqb_spec b j) as [->|Hbj]; simpl;
      try (apply Hbit; assumption).
    destruct Hv as [-> | (-> & Hoi & Hoj)]; simpl; [discriminate | auto].
Qed.

(** The shared block of subtract and reset, without the count invariants. *)
Lemma links_associations_off c i j :
  links_inv c -> (i < slots c)%nat -> (j < slots c)%nat ->
  let c' := associations_off sg c i j in
  links_inv c' /\ same_frame c c' /\
  forall a b, is_on c' a b =
    if (Nat.eqb a i && Nat.eqb b j) || (Nat.eqb a j && Nat.eqb b i)
    then false else is_on c a b.
Proof.
  intros Hinv Hi Hj. unfold associations_off.
  change (negb (on (matrix_at c i j) =? 0)) with (is_on c i j).
  set (c1 := if is_on c i j then association_off sg c i j else c).
  change (negb (on (matrix_at c1 j i) =? 0)) with (is_on c1 j i).
  assert (H1 : links_inv c1 /\ same_frame c c1 /\
     forall a b, is_on c1 a b =
       if Nat.eqb a i && Nat.eqb b j then false else is_on c a b).
  { unfold c1. destruct (is_on c i j) eqn:E.
    - rewrite association_off_flip.
      split; [apply links_flip; auto|].
      split; [apply flip_frame; try assumption; apply Hinv|].
      intros a b. rewrite flip_is_on; [reflexivity | apply Hinv | assumption | assumption].
    - split; [assumption|]. split; [apply same_frame_refl|].
      intros a b.
      destruct (Nat.eqb_spec a i) as [Ha|Ha]; destruct (Nat.eqb_spec b j) as [Hb|Hb];
        subst; simpl; auto. }
  destruct H1 as (I1 & F1 & B1).
  assert (S1 : slots c1 = slots c) by (apply same_frame_slots; assumption).
  simpl. destruct (is_on c1 j i) eqn:E.
  - rewrite association_off_flip.
    split; [apply links_flip; auto; lia|].
    split.
    + eapply same_frame_trans; [exact F1|].
      apply flip_frame; [apply I1 | lia | lia].
    + intros a b. rewrite flip_is_on; [| apply I1 | lia | lia].
      rewrite B1.
      destruct (Nat.eqb a i && Nat.eqb b j), (Nat.eqb a j && Nat.eqb b i); reflexivity.
  - split; [assumption|]. split; [assumption|].
    intros a b. rewrite B1.
    destruct (Nat.eqb_spec a j) as [Ha|Ha]; destruct (Nat.eqb_spec b i) as [Hb|Hb];
      subst; simpl; rewrite ?orb_false_r, ?orb_true_r; try reflexivity.
    rewrite B1 in E. destruct (Nat.eqb j i && Nat.eqb i j); congruence.
Qed.

Lemma links_unoccupied_off c i b :
  links_inv c -> (i < slots c)%nat -> (b < slots c)%nat ->
  occupied c b = false -> is_on c i b = false /\ is_on c b i = false.
Proof.
  intros Hinv Hi Hb Ho. split.
  - destruct (is_on c i b) eqn:E; [|reflexivity].
    destruct (links_bit c Hinv i b Hi Hb E) as (_ & _ & H). congruence.
  - destruct (is_on c b i) eqn:E; [|reflexivity].
    destruct (links_bit c Hinv b i Hb Hi E) as (_ & H & _). congruence.
Qed.

Lemma links_subtract_loop i : forall n j k c,
  links_inv c -> (i < slots c)%nat -> (j + n = slots c)%nat ->
  k = Z.of_nat (countb (occupied c) j) ->
  (forall b, (b < j)%nat -> is_on c i b = false /\ is_on c b i = false) ->
  let c' := termination_subtract_loop sg n j k i c in
  links_inv c' /\ same_frame c c' /\
  (forall b, (b < slots c)%nat -> is_on c' i b = false /\ is_on c' b i = false).
Proof.
  induction n as [|n IH]; intros j k c Hinv Hi Hjn Hk Hoff; simpl.
  - split; [assumption|]. split; [apply same_frame_refl|].
    intros b Hb. apply Hoff. lia.
  - pose proof (links_count c Hinv) as Hcnt.
    destruct (Z.ltb_spec k (count c)) as [Hlt|Hge].
    + destruct (termination (header_at c j)) as [t|] eqn:Et.
      * pose proof (occupied_Some c j t Et) as Hoj.
        destruct (links_associations_off c i j Hinv Hi ltac:(lia)) as (I1 & F1 & B1).
        pose proof (same_frame_slots _ _ F1) as S1.
        edestruct (IH (S j) (size_cast (k + 1)) (associations_off sg c i j))
          as (I2 & F2 & R2); try assumption; try lia.
        { simpl. rewrite (countb_ext _ (occupied c)).
          2:{ intros; apply same_frame_occupied; assumption. }
          rewrite (same_frame_occupied _ _ j F1), Hoj.
          pose proof (countb_le (occupied c) j).
          pose proof (slots_capacity c (links_shape c Hinv)).
          pose proof (shape_capacity c (links_shape c Hinv)).
          rewrite size_cast_small; lia. }
        { intros b Hb. rewrite !B1.
          destruct (Nat.eq_dec b j) as [->|Hne].
          - rewrite !Nat.eqb_refl. simpl. rewrite orb_true_r. auto.
          - destruct (Hoff b ltac:(lia)) as [-> ->].
            split; match goal with |- (if ?x then _ else _) = _ => destruct x end;
              reflexivity. }
        split; [assumption|].
        split; [eapply same_frame_trans; eassumption|].
        intros b Hb; apply R2; lia.
      * pose proof (occupied_None c j Et) as Hoj.
        apply IH; try assumption; try lia.
        { simpl. rewrite Hoj. lia. }
        intros b Hb. destruct (Nat.eq_dec b j) as [->|Hne].
        -- apply links_unoccupied_off; auto. lia.
        -- apply Hoff. lia.
    + split; [assumption|]. split; [apply same_frame_refl|].
      intros b Hb.
      destruct (Nat.lt_ge_cases b j) as [Hbj|Hbj]; [apply Hoff; assumption|].
      apply links_unoccupied_off; auto.
      apply (countb_tail_false (occupied c) j (slots c)); [lia | | lia].
      unfold occupied_count in Hcnt. lia.
Qed.

(** A change of the header that keeps the matrix. *)
Lemma links_retarget c c' :
  links_inv c -> shape c' -> slots c' = slots c ->
  (forall a b, matrix_at c' a b = matrix_at c a b) ->
  header_chars sg c' ->
  (forall a b, (a < slots c)%nat -> (b < slots c)%nat -> is_on c a b = true ->
     occupied c' a = true /\ occupied c' b = true) ->
  count c' = Z.of_nat (occupied_count c') ->
  links_inv c'.
Proof.
  intros [Hs Hch Hcnt Hbit] Hs' Hn Hm Hch' Ho Hc.
  split; [assumption | assumption | assumption |].
  intros a b Ha Hb. rewrite Hn in Ha, Hb. unfold is_on. rewrite Hm. intros E.
  split; [apply (Hbit a b Ha Hb E) | apply (Ho a b Ha Hb E)].
Qed.

Lemma links_termination_subtract s t :
  links_inv (context s) ->
  links_inv (context (snd (mpf_context_termination_subtract sg s t))).
Proof.
  intros Hinv. unfold mpf_context_termination_subtract.
  destruct (Z.leb_spec (capacity (context s)) (slot (terminations s t))) as [Hge|Hlt];
    [assumption|].
  set (i := Z.to_nat (slot (terminations s t))).
  destruct (holds (header_at (context s) i) t) eqn:Eh; simpl; [|assumption].
  set (c := context s) in *.
  assert (Hs : shape c) by apply Hinv.
  pose proof (holds_in_range c i t Hs Eh) as Hi.
  destruct (links_subtract_loop i (slots c) 0%nat 0 c)
    as (I1 & F1 & R1); try assumption; try reflexivity; try lia.
  fold (slots c).
  set (c1 := termination_subtract_loop sg (slots c) 0 0 i c) in *.
  set (c2 := header_update c1 i _).
  pose proof (same_frame_slots _ _ F1) as S1.
  assert (Hl1 : (i < length (header c1))%nat).
  { rewrite (shape_header c1 (links_shape c1 I1)). lia. }
  assert (Hh2 : forall k, header_at c2 k =
            if Nat.eqb k i
            then {| termination := None; tx_count := tx_count (header_at c1 k);
                    rx_count := rx_count (header_at c1 k) |}
            else header_at c1 k).
  { intros k. unfold c2. rewrite header_at_update by assumption.
    destruct (Nat.eqb_spec k i) as [->|]; reflexivity. }
  assert (Hocc2 : forall k, occupied c2 k = if Nat.eqb k i then false else occupied c1 k).
  { intros k. unfold occupied. rewrite Hh2. destruct (Nat.eqb k i); reflexivity. }
  assert (Hoi : occupied c1 i = true).
  { rewrite (same_frame_occupied _ _ i F1). eapply holds_occupied, Eh. }
  assert (Hcount : S (occupied_count c2) = occupied_count c1).
  { unfold occupied_count. change (slots c2) with (slots c1).
    apply (countb_clear _ _ _ i); auto; try lia.
    - rewrite Hocc2, Nat.eqb_refl. reflexivity.
    - intros k Hk. rewrite Hocc2. destruct (Nat.eqb_spec k i); [contradiction|reflexivity]. }
  pose proof (links_count c1 I1) as Hc1.
  pose proof (countb_le (occupied c1) (slots c1)) as Hle.
  pose proof (slots_capacity c Hs) as Hcap.
  pose proof (shape_capacity c Hs) as Hcap'.
  assert (Hnew : size_cast (count c2 - 1) = Z.of_nat (occupied_count c2)).
  { change (count c2) with (count c1). unfold occupied_count in *.
    rewrite size_cast_small; lia. }
  change (count c2) with (count c1) in Hnew. rewrite Hnew.
  apply (links_retarget c1); auto.
  - apply shape_set_count, shape_header_update, I1.
  - intros k. change (header_at (set_count ?x _) k) with (header_at x k).
    rewrite Hh2. destruct (links_chars c1 I1 k) as [H1 H2].
    destruct (Nat.eqb k i); simpl; auto.
  - intros a b Ha Hb Hon.
    change (occupied (set_count c2 _) ?k) with (occupied c2 k).
    rewrite !Hocc2.
    destruct (links_bit c1 I1 a b Ha Hb Hon) as (_ & Ha' & Hb').
    destruct (Nat.eqb_spec a i) as [->|].
    { rewrite (proj1 (R1 b ltac:(lia))) in Hon. discriminate. }
    destruct (Nat.eqb_spec b i) as [->|].
    { rewrite (proj2 (R1 a ltac:(lia))) in Hon. discriminate. }
    auto.
Qed.

Lemma links_termination_add_loop t : forall n i s,
  links_inv (context s) -> (i + n = slots (context s))%nat ->
  links_inv (context (snd (termination_add_loop n i s t))).
Proof.
  induction n as [|n IH]; intros i s Hinv Hin; simpl; [assumption|].
  destruct (termination (header_at (context s) i)) as [q|] eqn:Et.
  - apply IH; [assumption | lia].
  - simpl. set (c := context s) in *.
    assert (Hs : shape c) by apply Hinv.
    assert (Hi : (i < slots c)%nat) by lia.
    assert (Hl : (i < length (header c))%nat) by (rewrite (shape_header c Hs); lia).
    pose proof (occupied_None c i Et) as Hoi.
    set (c2 := header_update c i _).
    assert (Hh2 : forall k, header_at c2 k =
              if Nat.eqb k i
              then {| termination := Some t; tx_count := 0; rx_count := 0 |}
              else header_at c k).
    { intros k. unfold c2. rewrite header_at_update by assumption. reflexivity. }
    assert (Hocc2 : forall k, occupied c2 k = if Nat.eqb k i then true else occupied c k).
    { intros k. unfold occupied. rewrite Hh2. destruct (Nat.eqb k i); reflexivity. }
    assert (Hcount : occupied_count c2 = S (occupied_count c)).
    { unfold occupied_count. change (slots c2) with (slots c).
      apply (countb_set _ _ _ i); auto.
      - rewrite Hocc2, Nat.eqb_refl. reflexivity.
      - intros k Hk. rewrite Hocc2.
        destruct (Nat.eqb_spec k i); [contradiction|reflexivity]. }
    pose proof (links_count c Hinv) as Hc.
    assert (Hlt : (occupied_count c < slots c)%nat).
    { unfold occupied_count. apply (countb_lt _ _ i); assumption. }
    pose proof (slots_capacity c Hs) as Hcap.
    pose proof (shape_capacity c Hs) as Hcap'.
    assert (Hnew : size_cast (count c2 + 1) = Z.of_nat (occupied_count c2)).
    { change (count c2) with (count c). rewrite size_cast_small; lia. }
    change (count c2) with (count c) in Hnew. rewrite Hnew.
    apply (links_retarget c); auto.
    + apply shape_set_count, shape_header_update, Hs.
    + intros k. change (header_at (set_count ?x _) k) with (header_at x k).
      rewrite Hh2. destruct (Nat.eqb k i); [|apply (links_chars c Hinv)].
      simpl. split; destruct sg; reflexivity.
    + intros a b Ha Hb Hon.
      change (occupied (set_count c2 _) ?k) with (occupied c2 k).
      rewrite !Hocc2.
      destruct (links_bit c Hinv a b Ha Hb Hon) as (_ & -> & ->).
      destruct (Nat.eqb a i), (Nat.eqb b i); auto.
Qed.

Lemma links_association_add s t1 t2 :
  links_inv (context s) ->
  links_inv (context (snd (mpf_context_association_add sg s t1 t2))).
Proof.
  intros Hinv. unfold mpf_context_association_add.
  destruct (_ || _) eqn:Eg; [assumption|].
  set (i := Z.to_nat (slot (terminations s t1))).
  set (j := Z.to_nat (slot (terminations s t2))).
  destruct (holds (header_at (context s) i) t1) eqn:Ei; simpl; [|assumption].
  destruct (holds (header_at (context s) j) t2) eqn:Ej; simpl; [|assumption].
  set (c := context s) in *.
  assert (Hs : shape c) by apply Hinv.
  pose proof (holds_in_range c i t1 Hs Ei) as Hi.
  pose proof (holds_in_range c j t2 Hs Ej) as Hj.
  pose proof (holds_occupied c i t1 Ei) as Hoi.
  pose proof (holds_occupied c j t2 Ej) as Hoj.
  set (c1 := if on (matrix_at c i j) =? 0 then _ else c).
  assert (I1 : links_inv c1 /\ same_frame c c1).
  { unfold c1. destruct (on (matrix_at c i j) =? 0);
      [|split; [assumption | apply same_frame_refl]].
    destruct (stream_mode_compatibility_check _ _);
      [|split; [assumption | apply same_frame_refl]].
    rewrite association_on_flip.
    split; [apply links_flip; auto | apply flip_frame; assumption]. }
  destruct I1 as [I1 F1].
  pose proof (same_frame_slots _ _ F1) as S1.
  cbn [snd context].
  destruct (on (matrix_at c1 j i) =? 0); [|exact I1].
  destruct (stream_mode_compatibility_check (terminations s t2) (terminations s t1));
    [|exact I1].
  rewrite association_on_flip. apply links_flip; auto; try lia.
  right. rewrite !(same_frame_occupied _ _ _ F1). auto.
Qed.

Lemma links_association_remove s t1 t2 :
  links_inv (context s) ->
  links_inv (context (snd (mpf_context_association_remove sg s t1 t2))).
Proof.
  intros Hinv. unfold mpf_context_association_remove.
  destruct (_ || _) eqn:Eg; [assumption|].
  set (i := Z.to_nat (slot (terminations s t1))).
  set (j := Z.to_nat (slot (terminations s t2))).
  destruct (holds (header_at (context s) i) t1) eqn:Ei; simpl; [|assumption].
  destruct (holds (header_at (context s) j) t2) eqn:Ej; simpl; [|assumption].
  set (c := context s) in *.
  assert (Hs : shape c) by apply Hinv.
  pose proof (holds_in_range c i t1 Hs Ei) as Hi.
  pose proof (holds_in_range c j t2 Hs Ej) as Hj.
  set (c1 := if on (matrix_at c i j) =? 1 then _ else c).
  assert (I1 : links_inv c1 /\ same_frame c c1).
  { unfold c1. destruct (on (matrix_at c i j) =? 1);
      [|split; [assumption | apply same_frame_refl]].
    rewrite association_off_flip.
    split; [apply links_flip; auto | apply flip_frame; assumption]. }
  destruct I1 as [I1 F1].
  pose proof (same_frame_slots _ _ F1) as S1.
  cbn [snd context].
  destruct (on (matrix_at c1 j i) =? 1); [|exact I1].
  rewrite association_off_flip. apply links_flip; auto; lia.
Qed.

Lemma links_set_mpf_objects c o : links_inv c -> links_inv (set_mpf_objects c o).
Proof.
  intros Hinv. apply (links_retarget c); auto.
  - apply shape_set_mpf_objects, Hinv.
  - apply Hinv.
  - intros a b Ha Hb Hon.
    destruct (links_bit c Hinv a b Ha Hb Hon) as (_ & H1 & H2). auto.
  - apply Hinv.
Qed.

Lemma links_reset_row i : forall m j c,
  links_inv c -> (i < slots c)%nat -> (j + m = slots c)%nat ->
  links_inv (associations_reset_row sg m j i c) /\
  same_frame c (associations_reset_row sg m j i c).
Proof.
  induction m as [|m IH]; intros j c Hinv Hi Hjm; simpl;
    [split; [assumption | apply same_frame_refl]|].
  destruct (termination (header_at c j)); [|apply IH; [assumption | assumption | lia]].
  destruct (links_associations_off c i j Hinv Hi ltac:(lia)) as (I1 & F1 & _).
  pose proof (same_frame_slots _ _ F1) as S1.
  destruct (IH (S j) (associations_off sg c i j)) as [I2 F2]; try assumption; try lia.
  split; [assumption | eapply same_frame_trans; eassumption].
Qed.

Lemma links_reset_loop : forall n i k c,
  links_inv c -> (i + n = slots c)%nat ->
  links_inv (associations_reset_loop sg n i k c).
Proof.
  induction n as [|n IH]; intros i k c Hinv Hin; [exact Hinv|].
  cbn [associations_reset_loop].
  destruct (k <? count c); [|exact Hinv].
  destruct (termination (header_at c i)); [|apply IH; [assumption | lia]].
  destruct (_ && _); [apply IH; [assumption | lia]|].
  destruct (links_reset_row i (S n) i c) as [I1 F1]; try assumption; try lia.
  apply IH; [exact I1|]. rewrite (same_frame_slots _ _ F1). lia.
Qed.

Lemma links_associations_reset c :
  links_inv c -> links_inv (fst (mpf_context_associations_reset sg c)).
Proof.
  intros Hinv. unfold mpf_context_associations_reset, mpf_context_topology_destroy.
  destruct (negb _); simpl.
  - apply links_reset_loop; [apply links_set_mpf_objects, Hinv | unfold slots; simpl; lia].
  - apply links_reset_loop; [assumption | unfold slots; lia].
Qed.

Lemma links_created self n :
  0 <= n <= apr_size_max -> links_inv (mpf_context_create self n).
Proof.
  intros Hn.
  assert (Hon : forall a b, is_on (mpf_context_create self n) a b = false).
  { intros a b. unfold is_on.
    rewrite (proj2 (created_at_lookup self n a) b). reflexivity. }
  assert (Hocc : forall a, occupied (mpf_context_create self n) a = false).
  { intros a. unfold occupied.
    rewrite (proj1 (created_at_lookup self n a)). reflexivity. }
  split; [split|..].
  - exact Hn.
  - simpl. apply length_replicate.
  - simpl. apply length_replicate.
  - simpl. intros i row E. apply lookup_replicate in E. destruct E as [-> _].
    apply length_replicate.
  - intros k. rewrite (proj1 (created_at_lookup self n k)). simpl.
    split; destruct sg; reflexivity.
  - simpl. unfold occupied_count. rewrite (proj2 (countb_zero _ _)); auto.
  - intros i j Hi Hj E. rewrite Hon in E. discriminate.
Qed.

Lemma links_run ops : forall s,
  links_inv (context s) -> links_inv (context (run sg s ops)).
Proof.
  induction ops as [|o ops IH]; intros s Hinv; simpl; [assumption|].
  apply IH. destruct o; simpl.
  - apply links_termination_add_loop; [assumption | unfold slots; lia].
  - apply links_termination_subtract, Hinv.
  - apply links_association_add, Hinv.
  - apply links_association_remove, Hinv.
  - apply links_associations_reset, Hinv.
  - exact Hinv.
Qed.

(** Where the count invariants hold besides, all the invariants do. *)
Lemma links_counts_inv c : links_inv c -> counts_inv c -> context_inv sg c.
Proof.
  intros [Hs Hch Hcnt Hbit] Hc. split; [assumption | assumption |].
  split; [|assumption].
  intros i Hi. destruct (Hch i) as [H1 H2].
  rewrite (inv_tx c Hc i Hi) in H1 |- *. rewrite (inv_rx c Hc i Hi) in H2 |- *.
  unfold is_char, char_cast, char_max in *.
  destruct sg.
  - pose proof (Z.mod_pos_bound (Z.of_nat (row_count c i) + 128) 256 ltac:(lia)).
    pose proof (Z.mod_pos_bound (Z.of_nat (col_count c i) + 128) 256 ltac:(lia)). lia.
  - pose proof (Z.mod_pos_bound (Z.of_nat (row_count c i)) 256 ltac:(lia)).
    pose proof (Z.mod_pos_bound (Z.of_nat (col_count c i)) 256 ltac:(lia)). lia.
Qed.

End Links.


(** The count invariants, as a test. *)
Definition counts_ok (c : mpf_context_t) : bool :=
  forallb (fun i =>
             (tx_count (header_at c i) =? Z.of_nat (row_count c i)) &&
             (rx_count (header_at c i) =? Z.of_nat (col_count c i)))
    (seq 0 (slots c)) &&
  (count c =? Z.of_nat (occupied_count c)).

Lemma counts_ok_spec c : counts_ok c = true -> counts_inv c.
Proof.
  unfold counts_ok. intros H. apply andb_true_iff in H. destruct H as [H1 H2].
  rewrite forallb_forall in H1.
  assert (H : forall i, (i < slots c)%nat ->
            tx_count (header_at c i) = Z.of_nat (row_count c i) /\
            rx_count (header_at c i) = Z.of_nat (col_count c i)).
  { intros i Hi. specialize (H1 i ltac:(apply in_seq; lia)).
    apply andb_true_iff in H1. destruct H1 as [Ht Hr].
    apply Z.eqb_eq in Ht, Hr. auto. }
  split; [intros i Hi; apply H, Hi | intros i Hi; apply H, Hi | apply Z.eqb_eq, H2].
Qed.


(** * More of the media context

    What follows covers the rest of [mpf_context.c]: what adding and
    subtracting a termination do to the header, how they compose, the
    compilation of the topology, the processing of a context, and its
    destruction. *)

(** ** Adding a termination *)

Section Add.

Variable t : ptr.

(** The state that [mpf_context_termination_add] leaves when it takes the
    slot [i]. *)
Definition added (s : mpf_state) (i : nat) : mpf_state :=
  let c := context s in
  {| factory := if count c =? 0
                then ring_insert_tail (factory s) (link c)
                else factory s;
     context := set_count
                  (header_update c i (fun _ =>
                     {| termination := Some t; tx_count := 0; rx_count := 0 |}))
                  (size_cast (count c + 1));
     terminations := set_slot (terminations s) t (Z.of_nat i) |}.

(** The loop takes the lowest free slot from [i] on, if there is one. *)
Lemma termination_add_loop_lowest : forall n i s,
  (exists j, (i <= j < i + n)%nat /\ occupied (context s) j = false /\
             (forall k, (i <= k < j)%nat -> occupied (context s) k = true) /\
             termination_add_loop n i s t = (true, added s j)) \/
  ((forall k, (i <= k < i + n)%nat -> occupied (context s) k = true) /\
   termination_add_loop n i s t = (false, s)).
Proof.
  induction n as [|n IH]; intros i s; simpl.
  - right. split; [intros k Hk; lia | reflexivity].
  - destruct (termination (header_at (context s) i)) as [q|] eqn:E.
    + pose proof (occupied_Some _ _ _ E) as Ho.
      destruct (IH (S i) s) as [(j & Hj & Hf & Hb & Hr) | (Ha & Hr)].
      * left. exists j. split; [lia|]. split; [exact Hf|]. split; [|exact Hr].
        intros k Hk. destruct (Nat.eq_dec k i) as [->|Hne]; [exact Ho|].
        apply Hb. lia.
      * right. split; [|exact Hr]. intros k Hk.
        destruct (Nat.eq_dec k i) as [->|Hne]; [exact Ho|]. apply Ha. lia.
    + left. exists i. split; [lia|]. split; [apply occupied_None, E|].
      split; [intros k Hk; lia | reflexivity].
Qed.

End Add.

(** X1: [mpf_context_termination_add] succeeds exactly when a header slot is
    free.  It then takes the lowest free slot: the termination is stored
    there with both counters at zero and records that slot, every other
    header slot, the matrix and the other terminations are as before, and
    [count] is one more. *)
Theorem termination_add_takes_lowest_free s t :
  shape (context s) ->
  let c := context s in
  let r := mpf_context_termination_add s t in
  (fst r = true <-> exists i, (i < slots c)%nat /\ occupied c i = false) /\
  (fst r = false -> snd r = s) /\
  (fst r = true ->
   exists i,
     (i < slots c)%nat /\ occupied c i = false /\
     (forall k, (k < i)%nat -> occupied c k = true) /\
     slot (terminations (snd r) t) = Z.of_nat i /\
     header_at (context (snd r)) i =
       {| termination := Some t; tx_count := 0; rx_count := 0 |} /\
     (forall k, k <> i -> header_at (context (snd r)) k = header_at c k) /\
     matrix (context (snd r)) = matrix c /\
     count (context (snd r)) = size_cast (count c + 1) /\
     capacity (context (snd r)) = capacity c /\
     (forall q, q <> t -> terminations (snd r) q = terminations s q) /\
     audio_stream (terminations (snd r) t) = audio_stream (terminations s t)).
Proof.
  intros Hs. cbv zeta. set (c := context s) in *.
  unfold mpf_context_termination_add. fold c. fold (slots c).
  destruct (termination_add_loop_lowest t (slots c) 0 s)
    as [(j & Hj & Hf & Hb & ->) | (Ha & ->)];
    try fold c in Hf; try fold c in Hb; try fold c in Ha; simpl.
  - split; [|split].
    + split; [|reflexivity]. intros _. exists j. split; [lia | exact Hf].
    + discriminate.
    + intros _. exists j.
      assert (Hl : (j < length (header c))%nat)
        by (rewrite (shape_header c Hs); lia).
      split; [lia|]. split; [exact Hf|].
      split; [intros k Hk; apply Hb; lia|].
      split; [unfold set_slot; rewrite Nat.eqb_refl; reflexivity|].
      split.
      { change (header_at (set_count ?x _) j) with (header_at x j).
        rewrite header_at_update by exact Hl. rewrite Nat.eqb_refl. reflexivity. }
      split.
      { intros k Hk. change (header_at (set_count ?x _) k) with (header_at x k).
        rewrite header_at_update by exact Hl.
        destruct (Nat.eqb_spec k j); [contradiction | reflexivity]. }
      split; [reflexivity|]. split; [reflexivity|]. split; [reflexivity|].
      split.
      { intros q Hq. unfold set_slot.
        destruct (Nat.eqb_spec q t); [contradiction | reflexivity]. }
      unfold set_slot. rewrite Nat.eqb_refl. reflexivity.
  - split; [|split].
    + split; [discriminate|]. intros (i & Hi & Hf).
      rewrite (Ha i) in Hf by lia. discriminate.
    + reflexivity.
    + discriminate.
Qed.

(** ** Subtracting a termination *)

Section SubtractSpec.

Variable sg : bool.

(** What a successful [mpf_context_termination_subtract] does. *)
Lemma termination_subtract_spec s t :
  state_inv sg s -> stored s t ->
  let c := context s in
  let i := Z.to_nat (slot (terminations s t)) in
  let r := mpf_context_termination_subtract sg s t in
  fst r = true /\
  (forall k, termination (header_at (context (snd r)) k) =
             if Nat.eqb k i then None else termination (header_at c k)) /\
  (forall b, (b < slots c)%nat ->
     is_on (context (snd r)) i b = false /\ is_on (context (snd r)) b i = false) /\
  (forall a b, a <> i -> b <> i -> is_on (context (snd r)) a b = is_on c a b) /\
  terminations (snd r) = set_slot (terminations s) t apr_size_max /\
  count (context (snd r)) = count c - 1 /\
  mpf_objects (context (snd r)) = mpf_objects c /\
  link (context (snd r)) = link c.
Proof.
  intros [Hinv Hring] [Hlt Hh]. cbv zeta.
  unfold mpf_context_termination_subtract.
  destruct (Z.leb_spec (capacity (context s)) (slot (terminations s t))) as [Hge|_];
    [lia|].
  set (i := Z.to_nat (slot (terminations s t))) in *.
  rewrite Hh. cbn [negb fst snd context terminations].
  set (c := context s) in *.
  assert (Hs : shape c) by apply Hinv.
  assert (Hi : (i < slots c)%nat) by (eapply holds_in_range; eassumption).
  destruct (termination_subtract_loop_spec sg i (slots c) 0%nat 0 c)
    as (I1 & F1 & R1 & O1); try assumption; try reflexivity; try lia.
  fold (slots c).
  set (c1 := termination_subtract_loop sg (slots c) 0 0 i c) in *.
  assert (Hl1 : (i < length (header c1))%nat).
  { rewrite (shape_header c1 (inv_shape sg c1 I1)), (same_frame_slots _ _ F1). lia. }
  split; [reflexivity|]. split.
  { intros k. change (header_at (set_count ?x _) k) with (header_at x k).
    rewrite header_at_update by exact Hl1.
    destruct (Nat.eqb k i); [reflexivity | apply (frame_termination _ _ F1)]. }
  split; [exact R1|]. split; [exact O1|]. split; [reflexivity|].
  split.
  { cbn [count set_count]. change (count (header_update c1 i _)) with (count c1).
    rewrite (frame_count _ _ F1).
    pose proof (inv_count c (inv_counts sg c Hinv)) as Hc.
    assert (Hpos : (0 < occupied_count c)%nat).
    { unfold occupied_count. apply (countb_pos _ _ i Hi).
      eapply holds_occupied, Hh. }
    pose proof (countb_le (occupied c) (slots c)) as Hle.
    pose proof (slots_capacity c Hs). pose proof (shape_capacity c Hs).
    unfold occupied_count in *. rewrite size_cast_small; lia. }
  split; [apply (frame_objects _ _ F1) | apply (frame_link _ _ F1)].
Qed.

(** X2: a successful [mpf_context_termination_subtract] frees the slot of
    the termination and nothing else in the header, switches off every
    association of that slot and no other, marks the termination as out of
    the context ([slot] is [(apr_size_t)-1]) and takes one off [count]; the
    invariants hold afterwards, and subtracting the same termination again
    fails and changes nothing. *)
Theorem termination_subtract_frees_slot s t :
  state_inv sg s -> stored s t ->
  let c := context s in
  let i := Z.to_nat (slot (terminations s t)) in
  let r := mpf_context_termination_subtract sg s t in
  fst r = true /\
  state_inv sg (snd r) /\
  (forall k, occupied (context (snd r)) k =
             if Nat.eqb k i then false else occupied c k) /\
  (forall b, (b < slots c)%nat ->
     is_on (context (snd r)) i b = false /\ is_on (context (snd r)) b i = false) /\
  (forall a b, a <> i -> b <> i -> is_on (context (snd r)) a b = is_on c a b) /\
  slot (terminations (snd r) t) = apr_size_max /\
  count (context (snd r)) = count c - 1 /\
  mpf_context_termination_subtract sg (snd r) t = (false, snd r).
Proof.
  intros Hinv Hst. cbv zeta.
  destruct (termination_subtract_spec s t Hinv Hst)
    as (H1 & H2 & H3 & H4 & H5 & H6 & _).
  destruct (termination_subtract_inv sg s t Hinv) as [I1 C1].
  split; [exact H1|]. split; [exact I1|]. split.
  { intros k. unfold occupied. rewrite H2. destruct (Nat.eqb k _); reflexivity. }
  split; [exact H3|]. split; [exact H4|].
  assert (Hslot : slot (terminations (snd (mpf_context_termination_subtract sg s t)) t)
                  = apr_size_max).
  { rewrite H5. unfold set_slot. rewrite Nat.eqb_refl. reflexivity. }
  split; [exact Hslot|]. split; [exact H6|].
  unfold mpf_context_termination_subtract at 1. rewrite Hslot, C1.
  pose proof (shape_capacity _ (inv_shape _ _ (proj1 Hinv))) as Hcap.
  destruct (Z.leb_spec (capacity (context s)) apr_size_max); [reflexivity | lia].
Qed.

End SubtractSpec.

(** ** Adding, then subtracting *)

Section AddThenSubtract.

Variable sg : bool.

(** With no association to switch off, the loop of the subtraction leaves
    the context as it is. *)
Lemma termination_subtract_loop_noop i : forall n j k c,
  (forall b, (j <= b < j + n)%nat ->
     on (matrix_at c i b) = 0 /\ on (matrix_at c b i) = 0) ->
  termination_subtract_loop sg n j k i c = c.
Proof.
  induction n as [|n IH]; intros j k c H; simpl; [reflexivity|].
  destruct (k <? count c); [|reflexivity].
  assert (H' : forall b, (S j <= b < S j + n)%nat ->
                 on (matrix_at c i b) = 0 /\ on (matrix_at c b i) = 0)
    by (intros b Hb; apply H; lia).
  destruct (termination (header_at c j)); [|apply IH, H'].
  unfold associations_off. destruct (H j ltac:(lia)) as [H1 H2].
  rewrite H1. simpl. rewrite H2. simpl. apply IH, H'.
Qed.

Lemma is_off_on c a b : is_on c a b = false -> on (matrix_at c a b) = 0.
Proof.
  unfold is_on. destruct (Z.eqb_spec (on (matrix_at c a b)) 0); [auto | discriminate].
Qed.

Lemma ring_insert_then_remove f p :
  ~ In p (head f) -> ring_remove (ring_insert_tail f p) p = f.
Proof.
  intros H. unfold ring_remove, ring_insert_tail. destruct f as [l]. simpl in *.
  f_equal. rewrite List.filter_app. simpl. rewrite Nat.eqb_refl. simpl.
  rewrite app_nil_r. induction l as [|q l IH]; simpl; [reflexivity|].
  destruct (Nat.eqb_spec q p) as [->|Hne]; simpl.
  - exfalso. apply H. left. reflexivity.
  - f_equal. apply IH. intros Hin. apply H. right. exact Hin.
Qed.

(** X3: subtracting a termination right after it was added gives back the
    context and the factory ring as they were before the addition; the
    termination is left marked as out of the context, whatever slot it
    recorded before. *)
Theorem termination_add_then_subtract s t :
  state_inv sg s ->
  fst (mpf_context_termination_add s t) = true ->
  let r := mpf_context_termination_subtract sg
             (snd (mpf_context_termination_add s t)) t in
  fst r = true /\
  context (snd r) = context s /\
  factory (snd r) = factory s /\
  slot (terminations (snd r) t) = apr_size_max /\
  audio_stream (terminations (snd r) t) = audio_stream (terminations s t) /\
  (forall q, q <> t -> terminations (snd r) q = terminations s q).
Proof.
  intros [Hinv Hring] Hadd. cbv zeta.
  set (c := context s) in *.
  assert (Hs : shape c) by apply Hinv.
  unfold mpf_context_termination_add in *. fold c in Hadd |- *. fold (slots c) in Hadd |- *.
  destruct (termination_add_loop_lowest t (slots c) 0 s)
    as [(j & Hj & Hf & _ & E) | (_ & E)]; rewrite E in Hadd |- *;
    [clear Hadd E | discriminate].
  fold c in Hf. cbn [snd].
  assert (Hjs : (j < slots c)%nat) by lia.
  assert (Hl : (j < length (header c))%nat) by (rewrite (shape_header c Hs); lia).
  pose proof (slots_capacity c Hs) as Hcap.
  pose proof (shape_capacity c Hs) as Hcap'.
  pose proof (inv_count c (inv_counts sg c Hinv)) as Hcnt.
  assert (Hlt : (occupied_count c < slots c)%nat).
  { unfold occupied_count. apply (countb_lt _ _ j); assumption. }
  assert (Hoff : forall b, on (matrix_at c j b) = 0 /\ on (matrix_at c b j) = 0).
  { intros b. destruct (Nat.lt_ge_cases b (slots c)) as [Hb|Hb].
    - destruct (unoccupied_row_off sg c b j Hinv Hb Hjs Hf) as [H1 H2].
      split; apply is_off_on; assumption.
    - rewrite !matrix_at_out_of_range by auto. auto. }
  assert (Hh0 : header_at c j = empty_header_item).
  { pose proof (inv_tx c (inv_counts sg c Hinv) j Hjs) as Htx.
    pose proof (inv_rx c (inv_counts sg c Hinv) j Hjs) as Hrx.
    assert (Hr : row_count c j = 0%nat).
    { unfold row_count. apply countb_zero. intros b Hb.
      apply (unoccupied_row_off sg c b j Hinv Hb Hjs Hf). }
    assert (Hc : col_count c j = 0%nat).
    { unfold col_count. apply countb_zero. intros b Hb.
      apply (unoccupied_row_off sg c b j Hinv Hb Hjs Hf). }
    rewrite Hr in Htx. rewrite Hc in Hrx. unfold occupied in Hf.
    destruct (header_at c j) as [q tx rx]. simpl in *.
    destruct q; [discriminate|]. unfold empty_header_item.
    rewrite Htx, Hrx. reflexivity. }
  unfold mpf_context_termination_subtract, added.
  cbn [context terminations factory capacity set_count]. fold c.
  change (capacity (header_update c j ?f)) with (capacity c).
  replace (slot (set_slot (terminations s) t (Z.of_nat j) t)) with (Z.of_nat j)
    by (unfold set_slot; rewrite Nat.eqb_refl; reflexivity).
  destruct (Z.leb_spec (capacity c) (Z.of_nat j)) as [Hge|_]; [lia|].
  rewrite Nat2Z.id.
  set (c1 := set_count (header_update c j _) _).
  assert (Hh1 : header_at c1 j = {| termination := Some t; tx_count := 0; rx_count := 0 |}).
  { unfold c1. change (header_at (set_count ?x _) j) with (header_at x j).
    rewrite header_at_update by exact Hl. rewrite Nat.eqb_refl. reflexivity. }
  assert (Hholds : holds (header_at c1 j) t = true).
  { unfold holds. rewrite Hh1. simpl. apply Nat.eqb_refl. }
  rewrite Hholds. cbn [negb fst snd context factory terminations].
  rewrite termination_subtract_loop_noop by (intros b _; apply Hoff).
  split; [reflexivity|].
  assert (Hcount : size_cast (size_cast (count c + 1) - 1) = count c).
  { unfold occupied_count in *. rewrite (size_cast_small (count c + 1)) by lia.
    rewrite size_cast_small; lia. }
  split.
  { apply context_ext;
      [ exact Hs
      | apply shape_set_count, shape_header_update; unfold c1;
        apply shape_set_count, shape_header_update, Hs
      | reflexivity
      | reflexivity
      | cbn [count set_count]; exact Hcount
      | reflexivity
      |
      | intros a b; reflexivity ].
    intros k. change (header_at (set_count ?x _) k) with (header_at x k).
    rewrite header_at_update.
    2:{ unfold c1, set_count, header_update. simpl. rewrite length_alter. exact Hl. }
    destruct (Nat.eqb_spec k j) as [->|Hne].
    + rewrite Hh1, Hh0. reflexivity.
    + unfold c1. change (header_at (set_count ?x _) k) with (header_at x k).
      rewrite header_at_update by exact Hl.
      destruct (Nat.eqb_spec k j); [contradiction | reflexivity]. }
  split.
  { cbn [count set_count]. change (count (header_update c1 j ?f)) with (count c1).
    unfold c1. cbn [count set_count]. rewrite Hcount.
    change (link (header_update ?x j ?f)) with (link x).
    destruct (Z.eqb_spec (count c) 0) as [Hz|Hnz]; [|reflexivity].
    apply ring_insert_then_remove. intros Hin.
    apply Hring in Hin. fold c in Hin. lia. }
  split; [unfold set_slot; rewrite Nat.eqb_refl; reflexivity|].
  split; [unfold set_slot; rewrite Nat.eqb_refl; reflexivity|].
  intros q Hq. unfold set_slot. destruct (Nat.eqb_spec q t); [contradiction | reflexivity].
Qed.

End AddThenSubtract.

(** ** Adding an association twice *)

Section AddAssociationTwice.

Variable sg : bool.

(** One direction of [mpf_context_association_add]: the bit is switched on
    if it is off and the stream modes allow it. *)
Definition direction (compatible : bool) (c : mpf_context_t) (a b : nat)
    : mpf_context_t :=
  if on (matrix_at c a b) =? 0
  then if compatible then association_on sg c a b else c
  else c.

Lemma association_add_unfold s t1 t2 :
  mpf_context_association_add sg s t1 t2 =
  let c := context s in
  let i := Z.to_nat (slot (terminations s t1)) in
  let j := Z.to_nat (slot (terminations s t2)) in
  if (capacity c <=? slot (terminations s t1)) || (capacity c <=? slot (terminations s t2))
  then (false, s)
  else if negb (holds (header_at c i) t1) || negb (holds (header_at c j) t2)
  then (false, s)
  else
    (true,
     {| factory := factory s;
        context :=
          direction (stream_mode_compatibility_check (terminations s t2) (terminations s t1))
            (direction
               (stream_mode_compatibility_check (terminations s t1) (terminations s t2))
               c i j)
            j i;
        terminations := terminations s |}).
Proof. reflexivity. Qed.

Section Direction.

Variables (p : bool) (c : mpf_context_t) (a b : nat).
Hypothesis Hs : shape c.
Hypothesis Ha : (a < slots c)%nat.
Hypothesis Hb : (b < slots c)%nat.

Lemma direction_frame : shape (direction p c a b) /\ same_frame c (direction p c a b).
Proof.
  unfold direction. destruct (on (matrix_at c a b) =? 0); [|auto using same_frame_refl].
  destruct p; [|auto using same_frame_refl].
  rewrite association_on_flip. split; [apply flip_shape | apply flip_frame]; assumption.
Qed.

Lemma direction_matrix x y :
  matrix_at (direction p c a b) x y =
  if (on (matrix_at c a b) =? 0) && p && Nat.eqb x a && Nat.eqb y b
  then {| on := 1 |} else matrix_at c x y.
Proof.
  unfold direction. destruct (on (matrix_at c a b) =? 0); [|reflexivity].
  destruct p; [|reflexivity].
  rewrite association_on_flip, flip_matrix by assumption. reflexivity.
Qed.

Lemma direction_settled :
  (on (matrix_at (direction p c a b) a b) =? 0) = true -> p = false.
Proof.
  rewrite direction_matrix, !Nat.eqb_refl, !andb_true_r.
  destruct (on (matrix_at c a b) =? 0) eqn:E; destruct p; simpl; intros H;
    try reflexivity; try discriminate; congruence.
Qed.

Lemma direction_keeps x y :
  (on (matrix_at (direction p c a b) x y) =? 0) = true ->
  (on (matrix_at c x y) =? 0) = true.
Proof.
  rewrite direction_matrix.
  destruct ((on (matrix_at c a b) =? 0) && p && Nat.eqb x a && Nat.eqb y b);
    [discriminate | auto].
Qed.

End Direction.

Lemma direction_fixed p c a b :
  ((on (matrix_at c a b) =? 0) = true -> p = false) -> direction p c a b = c.
Proof.
  unfold direction. intros H. destruct (on (matrix_at c a b) =? 0); [|reflexivity].
  rewrite H; reflexivity.
Qed.

(** X4: [mpf_context_association_add] is idempotent: called a second time
    with the same two terminations it returns what it returned the first
    time and changes nothing more (a direction that the stream modes
    refused is refused again, one that is on is left on). *)
Theorem association_add_twice s t1 t2 :
  shape (context s) ->
  mpf_context_association_add sg (snd (mpf_context_association_add sg s t1 t2)) t1 t2 =
  mpf_context_association_add sg s t1 t2.
Proof.
  intros Hs. rewrite (association_add_unfold s t1 t2). cbv zeta.
  destruct ((capacity (context s) <=? slot (terminations s t1))
            || (capacity (context s) <=? slot (terminations s t2))) eqn:G1.
  { cbn [snd]. rewrite association_add_unfold. cbv zeta. rewrite G1. reflexivity. }
  set (i := Z.to_nat (slot (terminations s t1))).
  set (j := Z.to_nat (slot (terminations s t2))).
  destruct (negb (holds (header_at (context s) i) t1)
            || negb (holds (header_at (context s) j) t2)) eqn:G2.
  { cbn [snd]. rewrite association_add_unfold. cbv zeta. rewrite G1.
    fold i j. rewrite G2. reflexivity. }
  apply orb_false_iff in G2. destruct G2 as [H1 H2].
  apply negb_false_iff in H1, H2.
  assert (Hi : (i < slots (context s))%nat) by (eapply holds_in_range; eassumption).
  assert (Hj : (j < slots (context s))%nat) by (eapply holds_in_range; eassumption).
  set (p12 := stream_mode_compatibility_check (terminations s t1) (terminations s t2)).
  set (p21 := stream_mode_compatibility_check (terminations s t2) (terminations s t1)).
  set (c1 := direction p12 (context s) i j).
  set (c2 := direction p21 c1 j i).
  destruct (direction_frame p12 (context s) i j Hs Hi Hj) as [S1 F1]. fold c1 in S1, F1.
  assert (Hi1 : (i < slots c1)%nat) by (rewrite (same_frame_slots _ _ F1); exact Hi).
  assert (Hj1 : (j < slots c1)%nat) by (rewrite (same_frame_slots _ _ F1); exact Hj).
  destruct (direction_frame p21 c1 j i S1 Hj1 Hi1) as [S2 F2]. fold c2 in S2, F2.
  pose proof (same_frame_trans _ _ _ F1 F2) as F.
  cbn [snd]. rewrite association_add_unfold. cbv zeta.
  cbn [context terminations factory]. fold i j p12 p21.
  rewrite (frame_capacity _ _ F), G1.
  rewrite !(same_frame_holds _ _ _ _ F), H1, H2. cbn [negb orb].
  assert (E1 : direction p12 c2 i j = c2).
  { apply direction_fixed. intros Hz. unfold c2 in Hz.
    apply direction_keeps in Hz; try assumption.
    apply (direction_settled p12 (context s) i j); assumption. }
  rewrite E1.
  assert (E2 : direction p21 c2 j i = c2).
  { apply direction_fixed. intros Hz.
    apply (direction_settled p21 c1 j i); assumption. }
  rewrite E2. reflexivity.
Qed.

End AddAssociationTwice.

(** ** Compiling the topology ([mpf_context_topology_apply]) *)

Section Topology.

Variable mpf_codec_descriptors_match :
  mpf_codec_descriptor_t -> mpf_codec_descriptor_t -> bool.

(** The terminations that the header points to, by address. *)
Variable ts : ptr -> mpf_termination_t.

(** [mpf_context_connection_create], and the object that it gives, if any,
    pushed to [context->mpf_objects]. *)
Definition connection_push (c : mpf_context_t) (src snk : option ptr)
    : mpf_context_t * list mpf_event :=
  let r := mpf_context_connection_create mpf_codec_descriptors_match
             (option_map ts src) (option_map ts snk) in
  (match fst r with
   | Some object => set_mpf_objects c (mpf_objects c ++ [Some object])
   | None => c
   end, snd r).

(** The body of the inner loop for two occupied slots: the connection
    [i -> j] if that bit is on, then [j -> i] if [i != j] and that bit is
    on. *)
Definition topology_apply_pair (i j : nat) (c : mpf_context_t)
    : mpf_context_t * list mpf_event :=
  let (c, e1) :=
    if negb (on (matrix_at c i j) =? 0)
    then (* create connection i -> j *)
      connection_push c (termination (header_at c i)) (termination (header_at c j))
    else (c, []) in
  let (c, e2) :=
    if negb (Nat.eqb i j)
    then if negb (on (matrix_at c j i) =? 0)
         then (* create connection j -> i *)
           connection_push c (termination (header_at c j)) (termination (header_at c i))
         else (c, [])
    else (c, []) in
  (c, e1 ++ e2).

(** The inner loop over [j] from [i], with [m] iterations left. *)
Fixpoint topology_apply_row (m j i : nat) (c : mpf_context_t)
    : mpf_context_t * list mpf_event :=
  match m with
  | O => (c, [])
  | S m' =>
      match termination (header_at c j) with
      | None => topology_apply_row m' (S j) i c
      | Some _ =>
          let (c, e1) := topology_apply_pair i j c in
          let (c, e2) := topology_apply_row m' (S j) i c in
          (c, e1 ++ e2)
      end
  end.

(** The outer loop over [i] and [k]. *)
Fixpoint topology_apply_loop (n i : nat) (k : Z) (c : mpf_context_t)
    : mpf_context_t * list mpf_event :=
  match n with
  | O => (c, [])
  | S n' =>
      if k <? count c then
        match termination (header_at c i) with
        | None => topology_apply_loop n' (S i) k c
        | Some _ =>
            let k := size_cast (k + 1) in
            if (tx_count (header_at c i) =? 0) && (rx_count (header_at c i) =? 0)
            then topology_apply_loop n' (S i) k c
            else
              let (c, e1) := topology_apply_row n i i c in
              let (c, e2) := topology_apply_loop n' (S i) k c in
              (c, e1 ++ e2)
        end
      else (c, [])
  end.

Definition mpf_context_topology_apply (c : mpf_context_t)
    : mpf_context_t * list mpf_event :=
  (* first destroy existing topology / if any *)
  let (c, e0) := mpf_context_topology_destroy c in
  let (c, e1) := topology_apply_loop (Z.to_nat (capacity c)) 0 0 c in
  (c, e0 ++ e1).

(** [mpf_context_process]: the process hook of each object, in order. *)
Definition mpf_context_process (c : mpf_context_t) : list mpf_event :=
  flat_map (fun o => match o with
                     | Some object => if process object then [object_process object] else []
                     | None => []
                     end) (mpf_objects c).

(** *** What the topology is compiled from

    The connections that the association matrix asks for, read off the
    matrix alone: for every [i], and every [j] from [i] on, the connection
    [i -> j] if that bit is on, then [j -> i] if [i] and [j] differ and
    that bit is on.  Each is what [mpf_context_connection_create] gives
    for the terminations of the two slots. *)
Definition connect (c : mpf_context_t) (a b : nat) : option mpf_object_t * list mpf_event :=
  mpf_context_connection_create mpf_codec_descriptors_match
    (option_map ts (termination (header_at c a)))
    (option_map ts (termination (header_at c b))).

Definition pair_connections (c : mpf_context_t) (i j : nat)
    : list (option mpf_object_t * list mpf_event) :=
  (if is_on c i j then [connect c i j] else []) ++
  (if negb (Nat.eqb i j) && is_on c j i then [connect c j i] else []).

Definition row_connections (c : mpf_context_t) (i : nat)
    : list (option mpf_object_t * list mpf_event) :=
  flat_map (pair_connections c i) (seq i (slots c - i)).

Definition connections (c : mpf_context_t)
    : list (option mpf_object_t * list mpf_event) :=
  flat_map (row_connections c) (seq 0 (slots c)).

Definition objects_of (rs : list (option mpf_object_t * list mpf_event))
    : list (option mpf_object_t) :=
  flat_map (fun r => match fst r with
                     | Some object => [Some object]
                     | None => []
                     end) rs.

Definition events_of (rs : list (option mpf_object_t * list mpf_event))
    : list mpf_event :=
  flat_map snd rs.

Lemma objects_of_app r1 r2 : objects_of (r1 ++ r2) = objects_of r1 ++ objects_of r2.
Proof. apply flat_map_app. Qed.

Lemma events_of_app r1 r2 : events_of (r1 ++ r2) = events_of r1 ++ events_of r2.
Proof. apply flat_map_app. Qed.

Lemma flat_map_nil {A B} (f : A -> list B) l :
  (forall x, In x l -> f x = []) -> flat_map f l = [].
Proof.
  induction l as [|x l IH]; intros H; simpl; [reflexivity|].
  rewrite (H x) by (left; reflexivity). apply IH. intros y Hy. apply H. right. exact Hy.
Qed.

Lemma connection_push_spec c acc a b :
  connection_push (set_mpf_objects c acc) a b =
  (set_mpf_objects c
     (acc ++ objects_of [mpf_context_connection_create mpf_codec_descriptors_match
                           (option_map ts a) (option_map ts b)]),
   snd (mpf_context_connection_create mpf_codec_descriptors_match
          (option_map ts a) (option_map ts b))).
Proof.
  unfold connection_push, objects_of. simpl.
  destruct (fst (mpf_context_connection_create _ _ _)); simpl;
    rewrite ?app_nil_r; reflexivity.
Qed.

Lemma topology_apply_pair_spec c acc i j :
  topology_apply_pair i j (set_mpf_objects c acc) =
  (set_mpf_objects c (acc ++ objects_of (pair_connections c i j)),
   events_of (pair_connections c i j)).
Proof.
  unfold topology_apply_pair, pair_connections.
  change (matrix_at (set_mpf_objects c acc) i j) with (matrix_at c i j).
  change (negb (on (matrix_at c i j) =? 0)) with (is_on c i j).
  change (header_at (set_mpf_objects c acc)) with (header_at c).
  destruct (is_on c i j);
    [rewrite connection_push_spec; fold (connect c i j)|];
    change (matrix_at (set_mpf_objects c ?x) j i) with (matrix_at c j i);
    change (negb (on (matrix_at c j i) =? 0)) with (is_on c j i);
    change (header_at (set_mpf_objects c ?x)) with (header_at c);
    destruct (negb (Nat.eqb i j)); simpl;
    try destruct (is_on c j i);
    try (rewrite connection_push_spec; fold (connect c j i));
    unfold objects_of, events_of; simpl;
    rewrite ?app_nil_r, <- ?app_assoc; reflexivity.
Qed.

Section Compiles.

Variable sg : bool.
Variable c : mpf_context_t.
Hypothesis Hinv : context_inv sg c.

Lemma pair_connections_unoccupied i j :
  (i < slots c)%nat -> (j < slots c)%nat ->
  occupied c i = false \/ occupied c j = false ->
  pair_connections c i j = [].
Proof.
  intros Hi Hj Ho. unfold pair_connections.
  assert (H : is_on c i j = false /\ is_on c j i = false).
  { destruct Ho as [Ho|Ho].
    - destruct (unoccupied_row_off sg c j i Hinv Hj Hi Ho); auto.
    - apply (unoccupied_row_off sg c i j Hinv Hi Hj Ho). }
  destruct H as [-> ->]. rewrite andb_false_r. reflexivity.
Qed.

Lemma row_connections_off i :
  (i < slots c)%nat ->
  (forall b, (b < slots c)%nat -> is_on c i b = false /\ is_on c b i = false) ->
  row_connections c i = [].
Proof.
  intros Hi H. unfold row_connections. apply flat_map_nil. intros j Hj.
  apply in_seq in Hj. unfold pair_connections.
  destruct (H j ltac:(lia)) as [-> ->]. rewrite andb_false_r. reflexivity.
Qed.

Lemma row_connections_unoccupied i :
  (i < slots c)%nat -> occupied c i = false -> row_connections c i = [].
Proof.
  intros Hi Ho. apply row_connections_off; [exact Hi|].
  intros b Hb. destruct (unoccupied_row_off sg c b i Hinv Hb Hi Ho); auto.
Qed.

Lemma topology_apply_row_spec i : forall m j acc,
  (i < slots c)%nat -> (j + m = slots c)%nat ->
  topology_apply_row m j i (set_mpf_objects c acc) =
  (set_mpf_objects c (acc ++ objects_of (flat_map (pair_connections c i) (seq j m))),
   events_of (flat_map (pair_connections c i) (seq j m))).
Proof.
  induction m as [|m IH]; intros j acc Hi Hjm; simpl.
  - rewrite app_nil_r. reflexivity.
  - change (header_at (set_mpf_objects c acc) j) with (header_at c j).
    destruct (termination (header_at c j)) as [q|] eqn:E.
    + rewrite topology_apply_pair_spec, IH by (auto; lia).
      rewrite objects_of_app, events_of_app, app_assoc. reflexivity.
    + rewrite (pair_connections_unoccupied i j) by
        (auto; try lia; right; apply occupied_None, E).
      simpl. apply IH; auto; lia.
Qed.

Lemma topology_apply_loop_spec : forall n i k acc,
  (i + n = slots c)%nat -> k = Z.of_nat (countb (occupied c) i) ->
  topology_apply_loop n i k (set_mpf_objects c acc) =
  (set_mpf_objects c (acc ++ objects_of (flat_map (row_connections c) (seq i n))),
   events_of (flat_map (row_connections c) (seq i n))).
Proof.
  induction n as [|n IH]; intros i k acc Hin Hk.
  - simpl. rewrite app_nil_r. reflexivity.
  - pose proof (inv_count c (inv_counts sg c Hinv)) as Hcnt.
    pose proof (countb_le (occupied c) i) as Hle.
    pose proof (slots_capacity c (inv_shape sg c Hinv)) as Hsc.
    pose proof (shape_capacity c (inv_shape sg c Hinv)) as Hcap.
    assert (Hi : (i < slots c)%nat) by lia.
    cbn [topology_apply_loop].
    change (count (set_mpf_objects c acc)) with (count c).
    change (header_at (set_mpf_objects c acc) i) with (header_at c i).
    destruct (Z.ltb_spec k (count c)) as [Hlt|Hge].
    + destruct (termination (header_at c i)) as [q|] eqn:E.
      * pose proof (occupied_Some c i q E) as Ho.
        assert (Hk' : size_cast (k + 1) = Z.of_nat (countb (occupied c) (S i))).
        { simpl. rewrite Ho. rewrite size_cast_small; lia. }
        destruct ((tx_count (header_at c i) =? 0) && (rx_count (header_at c i) =? 0))
          eqn:Ez.
        -- apply andb_true_iff in Ez. destruct Ez as [Etx Erx].
           apply Z.eqb_eq in Etx, Erx.
           rewrite (inv_tx c (inv_counts sg c Hinv) i Hi) in Etx.
           rewrite (inv_rx c (inv_counts sg c Hinv) i Hi) in Erx.
           assert (Hoff : row_connections c i = []).
           { apply row_connections_off; [exact Hi|]. intros b Hb. split.
             - apply (proj1 (countb_zero (fun j => is_on c i j) (slots c))); [|exact Hb].
               unfold row_count in Etx. lia.
             - apply (proj1 (countb_zero (fun j => is_on c j i) (slots c))); [|exact Hb].
               unfold col_count in Erx. lia. }
           cbn [seq flat_map]. rewrite Hoff. cbn [app].
           apply IH; [lia | exact Hk'].
        -- assert (Erow : row_connections c i =
                             flat_map (pair_connections c i) (seq i (S n))).
           { unfold row_connections. replace (slots c - i)%nat with (S n) by lia.
             reflexivity. }
           rewrite topology_apply_row_spec by (auto; lia).
           rewrite IH by (auto; lia). rewrite <- Erow.
           change (flat_map (row_connections c) (seq i (S n)))
             with (row_connections c i ++ flat_map (row_connections c) (seq (S i) n)).
           rewrite objects_of_app, events_of_app, app_assoc. reflexivity.
      * pose proof (occupied_None c i E) as Ho.
        cbn [seq flat_map]. rewrite (row_connections_unoccupied i Hi Ho). cbn [app].
        apply IH; [lia|]. simpl. rewrite Ho. lia.
    + rewrite flat_map_nil; [rewrite app_nil_r; reflexivity|].
      intros a Ha. apply in_seq in Ha. apply row_connections_unoccupied; [lia|].
      apply (countb_tail_false (occupied c) i (slots c)); [lia | | lia].
      unfold occupied_count in Hcnt. lia.
Qed.

End Compiles.

Lemma topology_apply_spec sg c :
  context_inv sg c ->
  mpf_context_topology_apply c =
  (set_mpf_objects c (objects_of (connections c)),
   destroy_events (mpf_objects c) ++ events_of (connections c)).
Proof.
  intros Hinv. unfold mpf_context_topology_apply.
  assert (E : mpf_context_topology_destroy c =
              (set_mpf_objects c [], destroy_events (mpf_objects c))).
  { unfold mpf_context_topology_destroy.
    destruct (mpf_objects c) as [|o os] eqn:Eo; simpl; [|reflexivity].
    destruct c; simpl in *; subst; reflexivity. }
  rewrite E. change (capacity (set_mpf_objects c [])) with (capacity c).
  fold (slots c).
  rewrite (topology_apply_loop_spec sg c Hinv (slots c) 0 0 []) by (auto; lia).
  reflexivity.
Qed.

Lemma in_objects_of o rs :
  In (Some o) (objects_of rs) <-> exists r, In r rs /\ fst r = Some o.
Proof.
  unfold objects_of. rewrite in_flat_map. split.
  - intros (r & Hr & Ho). exists r. split; [exact Hr|].
    destruct (fst r); simpl in Ho; [|contradiction].
    destruct Ho as [Ho|[]]. congruence.
  - intros (r & Hr & Ho). exists r. split; [exact Hr|]. rewrite Ho. left. reflexivity.
Qed.

Lemma in_connections c r :
  In r (connections c) <->
  exists i j, (i < slots c)%nat /\ (j < slots c)%nat /\
              is_on c i j = true /\ r = connect c i j.
Proof.
  unfold connections, row_connections. split.
  - intros H. apply in_flat_map in H. destruct H as (i & Hi & H).
    apply in_seq in Hi. apply in_flat_map in H. destruct H as (j & Hj & H).
    apply in_seq in Hj. unfold pair_connections in H. apply in_app_or in H.
    destruct H as [H|H].
    + destruct (is_on c i j) eqn:E; [|contradiction]. destruct H as [<-|[]].
      exists i, j. repeat split; auto; lia.
    + destruct (negb (Nat.eqb i j) && is_on c j i) eqn:E; [|contradiction].
      destruct H as [<-|[]]. apply andb_true_iff in E. destruct E as [_ E].
      exists j, i. repeat split; auto; lia.
  - intros (a & b & Ha & Hb & Hon & ->).
    destruct (Nat.le_gt_cases a b) as [Hab|Hab].
    + apply in_flat_map. exists a. split; [apply in_seq; lia|].
      apply in_flat_map. exists b. split; [apply in_seq; lia|].
      unfold pair_connections. apply in_or_app. left. rewrite Hon. left. reflexivity.
    + apply in_flat_map. exists b. split; [apply in_seq; lia|].
      apply in_flat_map. exists a. split; [apply in_seq; lia|].
      unfold pair_connections. apply in_or_app. right.
      destruct (Nat.eqb_spec b a) as [Heq|Hne]; [lia|]. simpl. rewrite Hon.
      left. reflexivity.
Qed.



End Topology.

(** ** Destroying a context ([mpf_context_destroy]) *)

Lemma flat_map_agree {A B} (f g : A -> list B) l :
  (forall x, In x l -> f x = g x) -> flat_map f l = flat_map g l.
Proof.
  induction l as [|x l IH]; intros H; simpl; [reflexivity|].
  rewrite (H x) by (left; reflexivity). f_equal. apply IH.
  intros y Hy. apply H. right. exact Hy.
Qed.

Section Destroy.

Variable sg : bool.

(** Every termination found in the header is subtracted; its audio stream,
    if it has one, is destroyed then.  The second component lists the
    terminations whose stream [mpf_audio_stream_destroy] was called on, in
    order. *)
Fixpoint context_destroy_loop (n i : nat) (s : mpf_state) : mpf_state * list ptr :=
  match n with
  | O => (s, [])
  | S n' =>
      match termination (header_at (context s) i) with
      | Some t =>
          let s := snd (mpf_context_termination_subtract sg s t) in
          let destroyed := match audio_stream (terminations s t) with
                           | Some _ => [t]
                           | None => []
                           end in
          let (s, rest) := context_destroy_loop n' (S i) s in
          (s, destroyed ++ rest)
      | None => context_destroy_loop n' (S i) s
      end
  end.

Definition mpf_context_destroy (s : mpf_state) : mpf_state * list ptr :=
  context_destroy_loop (Z.to_nat (capacity (context s))) 0 s.

(** Every termination of the header records the slot that holds it (so no
    termination is in two slots). *)
Definition well_stored (s : mpf_state) : Prop :=
  forall i t, (i < slots (context s))%nat ->
    termination (header_at (context s) i) = Some t ->
    slot (terminations s t) = Z.of_nat i.

(** The terminations with an audio stream among those of the slots
    [i .. i+n-1]. *)
Definition streams_from (s : mpf_state) (i n : nat) : list ptr :=
  flat_map (fun k => match termination (header_at (context s) k) with
                     | Some t => match audio_stream (terminations s t) with
                                 | Some _ => [t]
                                 | None => []
                                 end
                     | None => []
                     end) (seq i n).

Lemma context_destroy_loop_spec : forall n i s,
  state_inv sg s -> well_stored s -> (i + n = slots (context s))%nat ->
  let r := context_destroy_loop n i s in
  state_inv sg (fst r) /\
  capacity (context (fst r)) = capacity (context s) /\
  (forall k, occupied (context (fst r)) k =
             if (i <=? k)%nat then false else occupied (context s) k) /\
  (forall q, (exists k, (i <= k < slots (context s))%nat /\
                        termination (header_at (context s) k) = Some q) ->
             slot (terminations (fst r) q) = apr_size_max) /\
  (forall q, (forall k, (i <= k < slots (context s))%nat ->
                        termination (header_at (context s) k) <> Some q) ->
             terminations (fst r) q = terminations s q) /\
  (forall q, audio_stream (terminations (fst r) q) = audio_stream (terminations s q)) /\
  snd r = streams_from s i n.
Proof.
  induction n as [|n IH]; intros i s Hinv Hws Hin; cbv zeta.
  - simpl. split; [exact Hinv|]. split; [reflexivity|]. split.
    { intros k. destruct (Nat.leb_spec i k) as [Hk|Hk]; [|reflexivity].
      unfold occupied. rewrite header_at_out_of_range; [reflexivity | apply Hinv | lia]. }
    split; [intros q (k & Hk & _); lia|]. split; [reflexivity|].
    split; reflexivity.
  - cbn [context_destroy_loop].
    destruct (termination (header_at (context s) i)) as [t|] eqn:Et.
    + assert (Hi : (i < slots (context s))%nat) by lia.
      pose proof (Hws i t Hi Et) as Hslot.
      assert (Hst : stored s t).
      { split.
        - rewrite Hslot, <- (slots_capacity _ (inv_shape _ _ (proj1 Hinv))). lia.
        - rewrite Hslot, Nat2Z.id. unfold holds. rewrite Et. apply Nat.eqb_refl. }
      destruct (termination_subtract_spec sg s t Hinv Hst)
        as (_ & H2 & _ & _ & H5 & _ & _ & _).
      destruct (termination_subtract_inv sg s t Hinv) as [I1 C1].
      rewrite Hslot, Nat2Z.id in H2.
      set (s1 := snd (mpf_context_termination_subtract sg s t)) in *.
      assert (S1 : slots (context s1) = slots (context s))
        by (unfold slots; rewrite C1; reflexivity).
      assert (Hne : forall k q, k <> i -> (k < slots (context s))%nat ->
                      termination (header_at (context s) k) = Some q -> q <> t).
      { intros k q Hk Hks Hq ->. pose proof (Hws k t Hks Hq). lia. }
      assert (Hws1 : well_stored s1).
      { intros k q Hk Hq. rewrite S1 in Hk. rewrite H2 in Hq.
        destruct (Nat.eqb_spec k i) as [->|Hki]; [discriminate|].
        rewrite H5. unfold set_slot.
        destruct (Nat.eqb_spec q t) as [->|Hqt].
        - exfalso. eapply Hne; eauto.
        - apply Hws; assumption. }
      destruct (IH (S i) s1 I1 Hws1 ltac:(lia)) as (J1 & J2 & J3 & J4 & J5 & J6 & J7).
      destruct (context_destroy_loop n (S i) s1) as [s2 rest]. cbn [fst snd] in *.
      split; [exact J1|]. split; [congruence|]. split.
      { intros k. rewrite J3. unfold occupied at 1. rewrite H2.
        destruct (Nat.leb_spec (S i) k), (Nat.leb_spec i k), (Nat.eqb_spec k i);
          try lia; reflexivity. }
      split.
      { intros q (k & Hk & Hq). destruct (Nat.eq_dec k i) as [->|Hki].
        - assert (q = t) by congruence. subst q.
          rewrite J5.
          + rewrite H5. unfold set_slot. rewrite Nat.eqb_refl. reflexivity.
          + intros k' Hk' Hq'. rewrite S1 in Hk'. rewrite H2 in Hq'.
            destruct (Nat.eqb_spec k' i); [discriminate|].
            eapply (Hne k' t); eauto; lia.
        - apply J4. exists k. rewrite S1, H2.
          destruct (Nat.eqb_spec k i); [contradiction|]. split; [lia | exact Hq]. }
      split.
      { intros q Hq. rewrite J5.
        - rewrite H5. unfold set_slot.
          destruct (Nat.eqb_spec q t) as [->|]; [|reflexivity].
          exfalso. apply (Hq i); [lia | exact Et].
        - intros k Hk. rewrite S1 in Hk. rewrite H2.
          destruct (Nat.eqb_spec k i); [discriminate|]. apply Hq. lia. }
      assert (Ha : forall q, audio_stream (terminations s1 q) =
                             audio_stream (terminations s q)).
      { intros q. rewrite H5. unfold set_slot. destruct (Nat.eqb q t); reflexivity. }
      split; [intros q; rewrite J6; apply Ha|].
      rewrite J7. unfold streams_from. cbn [seq flat_map]. rewrite Et, Ha.
      f_equal. apply flat_map_agree. intros k Hk. apply in_seq in Hk.
      rewrite H2. destruct (Nat.eqb_spec k i); [lia|].
      destruct (termination (header_at (context s) k)); [|reflexivity].
      rewrite Ha. reflexivity.
    + destruct (IH (S i) s Hinv Hws ltac:(lia)) as (J1 & J2 & J3 & J4 & J5 & J6 & J7).
      split; [exact J1|]. split; [exact J2|]. split.
      { intros k. rewrite J3.
        destruct (Nat.leb_spec (S i) k), (Nat.leb_spec i k); try lia; try reflexivity.
        assert (k = i) by lia. subst k. apply occupied_None, Et. }
      split.
      { intros q (k & Hk & Hq). apply J4. exists k. split; [|exact Hq].
        destruct (Nat.eq_dec k i) as [->|]; [congruence | lia]. }
      split.
      { intros q Hq. apply J5. intros k Hk. apply Hq. lia. }
      split; [exact J6|].
      rewrite J7. unfold streams_from. cbn [seq flat_map]. rewrite Et. reflexivity.
Qed.

(** X7: [mpf_context_destroy], on a context that satisfies the invariants
    and in which every termination records the slot that holds it, leaves
    the context empty and out of the factory ring: no header slot is
    occupied, no association is on, [count] is zero; every termination that
    was in the context is marked as out of it, and
    [mpf_audio_stream_destroy] has been called once on the stream of each
    of them that has one, in the order of the slots. *)
Theorem context_destroy_empties s :
  state_inv sg s -> well_stored s ->
  let r := mpf_context_destroy s in
  let c' := context (fst r) in
  (forall k, occupied c' k = false) /\
  (forall a b, is_on c' a b = false) /\
  count c' = 0 /\
  capacity c' = capacity (context s) /\
  ~ linked (factory (fst r)) c' /\
  state_inv sg (fst r) /\
  (forall k t, termination (header_at (context s) k) = Some t ->
     slot (terminations (fst r) t) = apr_size_max) /\
  snd r = streams_from s 0 (slots (context s)).
Proof.
  intros Hinv Hws. cbv zeta. unfold mpf_context_destroy. fold (slots (context s)).
  destruct (context_destroy_loop_spec (slots (context s)) 0 s Hinv Hws ltac:(lia))
    as (J1 & J2 & J3 & J4 & J5 & J6 & J7).
  set (r := context_destroy_loop (slots (context s)) 0 s) in *.
  assert (Hocc : forall k, occupied (context (fst r)) k = false)
    by (intros k; rewrite J3; reflexivity).
  assert (Hs' : shape (context (fst r))) by apply J1.
  assert (Hoff : forall a b, is_on (context (fst r)) a b = false).
  { intros a b.
    destruct (Nat.lt_ge_cases a (slots (context (fst r)))) as [Ha|Ha];
      [destruct (Nat.lt_ge_cases b (slots (context (fst r)))) as [Hb|Hb]|].
    - apply (unoccupied_row_off sg _ a b (proj1 J1) Ha Hb (Hocc b)).
    - unfold is_on. rewrite matrix_at_out_of_range by auto. reflexivity.
    - unfold is_on. rewrite matrix_at_out_of_range by auto. reflexivity. }
  assert (Hcount : count (context (fst r)) = 0).
  { rewrite (inv_count _ (inv_counts _ _ (proj1 J1))).
    unfold occupied_count. rewrite (proj2 (countb_zero _ _)); [reflexivity|].
    intros k _. apply Hocc. }
  split; [exact Hocc|]. split; [exact Hoff|]. split; [exact Hcount|].
  split; [exact J2|]. split.
  { intros Hl. apply (proj2 J1) in Hl. lia. }
  split; [exact J1|]. split; [|exact J7].
  intros k t Hk. apply J4. exists k. split; [|exact Hk].
  split; [lia|]. destruct (Nat.lt_ge_cases k (slots (context s))) as [H|H]; [exact H|].
  rewrite header_at_out_of_range in Hk; [discriminate | apply Hinv | exact H].
Qed.

End Destroy.

(** ** A termination that is added twice *)

Section AddedTwice.

Variable sg : bool.

Lemma added_spec t s j :
  shape (context s) -> (j < slots (context s))%nat ->
  slot (terminations (added t s j) t) = Z.of_nat j /\
  (forall k, header_at (context (added t s j)) k =
             if Nat.eqb k j
             then {| termination := Some t; tx_count := 0; rx_count := 0 |}
             else header_at (context s) k) /\
  count (context (added t s j)) = size_cast (count (context s) + 1) /\
  capacity (context (added t s j)) = capacity (context s).
Proof.
  intros Hs Hj.
  assert (Hl : (j < length (header (context s)))%nat)
    by (rewrite (shape_header _ Hs); exact Hj).
  unfold added. cbn [context terminations].
  split; [unfold set_slot; rewrite Nat.eqb_refl; reflexivity|].
  split; [|split; reflexivity].
  intros k. change (header_at (set_count ?x _) k) with (header_at x k).
  rewrite header_at_update by exact Hl. reflexivity.
Qed.

(** X8: [mpf_context_termination_add] does not look for the termination in
    the header.  Added twice, a termination sits in two slots and records
    the second; [mpf_context_termination_subtract] then frees the second
    slot only, and fails from then on, so that the first slot stays
    occupied by a termination that is marked as out of the context. *)
Theorem termination_added_twice s t :
  state_inv sg s ->
  let r1 := mpf_context_termination_add s t in
  let r2 := mpf_context_termination_add (snd r1) t in
  let r3 := mpf_context_termination_subtract sg (snd r2) t in
  fst r1 = true -> fst r2 = true ->
  let i1 := Z.to_nat (slot (terminations (snd r1) t)) in
  let i2 := Z.to_nat (slot (terminations (snd r2) t)) in
  (i1 < i2)%nat /\
  holds (header_at (context (snd r2)) i1) t = true /\
  holds (header_at (context (snd r2)) i2) t = true /\
  count (context (snd r2)) = count (context s) + 2 /\
  fst r3 = true /\
  holds (header_at (context (snd r3)) i1) t = true /\
  occupied (context (snd r3)) i2 = false /\
  slot (terminations (snd r3) t) = apr_size_max /\
  count (context (snd r3)) = count (context s) + 1 /\
  mpf_context_termination_subtract sg (snd r3) t = (false, snd r3).
Proof.
  intros Hinv. cbv zeta.
  destruct (termination_add_inv sg s t Hinv) as [I1 C1].
  destruct (termination_add_inv sg _ t I1) as [I2 C2].
  revert I1 C1 I2 C2. unfold mpf_context_termination_add.
  fold (slots (context s)).
  destruct (termination_add_loop_lowest t (slots (context s)) 0 s)
    as [(j1 & Hj1 & Hf1 & Hb1 & ->) | (_ & ->)]; [|discriminate].
  cbn [fst snd]. set (s1 := added t s j1).
  intros I1 C1. fold (slots (context s1)).
  destruct (termination_add_loop_lowest t (slots (context s1)) 0 s1)
    as [(j2 & Hj2 & Hf2 & Hb2 & ->) | (_ & ->)]; [|discriminate].
  cbn [fst snd]. set (s2 := added t s1 j2).
  intros I2 C2 _ _.
  assert (Hs : shape (context s)) by apply Hinv.
  assert (Hs1 : shape (context s1)) by apply I1.
  assert (S1 : slots (context s1) = slots (context s))
    by (unfold slots; rewrite C1; reflexivity).
  destruct (added_spec t s j1 Hs ltac:(lia)) as (A1 & A2 & A3 & _). fold s1 in A1, A2, A3.
  destruct (added_spec t s1 j2 Hs1 ltac:(lia)) as (B1 & B2 & B3 & _).
  fold s2 in B1, B2, B3.
  rewrite A1, B1, !Nat2Z.id.
  assert (Ho1 : occupied (context s1) j1 = true).
  { unfold occupied. rewrite A2, Nat.eqb_refl. reflexivity. }
  assert (Hlt : (j1 < j2)%nat).
  { destruct (Nat.lt_trichotomy j1 j2) as [H|[H|H]]; [exact H | subst; congruence |].
    exfalso. pose proof (Hb1 j2 ltac:(lia)) as Ho.
    unfold occupied in Hf2, Ho. rewrite A2 in Hf2.
    destruct (Nat.eqb_spec j2 j1); [lia|]. congruence. }
  pose proof (slots_capacity _ Hs) as Hcap. pose proof (shape_capacity _ Hs) as Hcap'.
  assert (Hc1 : count (context s1) = count (context s) + 1).
  { rewrite A3. rewrite (inv_count _ (inv_counts _ _ (proj1 Hinv))).
    assert ((occupied_count (context s) < slots (context s))%nat)
      by (unfold occupied_count; apply (countb_lt _ _ j1); [lia | exact Hf1]).
    rewrite size_cast_small; lia. }
  assert (Hc2 : count (context s2) = count (context s) + 2).
  { rewrite B3. pose proof (inv_count _ (inv_counts _ _ (proj1 I1))) as Hc.
    assert ((occupied_count (context s1) < slots (context s1))%nat)
      by (unfold occupied_count; apply (countb_lt _ _ j2); [lia | exact Hf2]).
    rewrite size_cast_small; lia. }
  assert (Hh1 : holds (header_at (context s2) j1) t = true).
  { unfold holds. rewrite B2. destruct (Nat.eqb_spec j1 j2); [lia|].
    rewrite A2, Nat.eqb_refl. simpl. apply Nat.eqb_refl. }
  assert (Hh2 : holds (header_at (context s2) j2) t = true).
  { unfold holds. rewrite B2, Nat.eqb_refl. simpl. apply Nat.eqb_refl. }
  assert (Hst : stored s2 t).
  { split; [|rewrite B1, Nat2Z.id; exact Hh2].
    rewrite B1, C2, C1. lia. }
  destruct (termination_subtract_spec sg s2 t I2 Hst)
    as (H1 & H2 & _ & _ & H5 & H6 & _ & _).
  destruct (termination_subtract_inv sg s2 t I2) as [I3 C3].
  rewrite B1, Nat2Z.id in H2.
  set (r3 := mpf_context_termination_subtract sg s2 t) in *.
  assert (Hslot : slot (terminations (snd r3) t) = apr_size_max).
  { rewrite H5. unfold set_slot. rewrite Nat.eqb_refl. reflexivity. }
  split; [exact Hlt|]. split; [exact Hh1|]. split; [exact Hh2|].
  split; [exact Hc2|]. split; [exact H1|]. split.
  { unfold holds in *. rewrite H2. destruct (Nat.eqb_spec j1 j2); [lia | exact Hh1]. }
  split.
  { unfold occupied. rewrite H2, Nat.eqb_refl. reflexivity. }
  split; [exact Hslot|]. split; [lia|].
  unfold mpf_context_termination_subtract at 1. rewrite Hslot, C3, C2, C1.
  destruct (Z.leb_spec (capacity (context s)) apr_size_max); [reflexivity | lia].
Qed.

End AddedTwice.

(** ** The order of the two terminations of an association *)

Section AssociationSymmetric.

Variable sg : bool.

(** One direction of an association operation: the cell [a -> b] is
    written, and the two counters moved, if the cell passes [test]. *)
Definition cond_flip (test : Z -> bool) (v d : Z) (c : mpf_context_t) (a b : nat)
    : mpf_context_t :=
  if test (on (matrix_at c a b)) then association_flip sg v d c a b else c.

Lemma flip_swap v d v' d' c i j :
  shape c -> (i < slots c)%nat -> (j < slots c)%nat -> i <> j ->
  association_flip sg v' d' (association_flip sg v d c i j) j i =
  association_flip sg v d (association_flip sg v' d' c j i) i j.
Proof.
  intros Hs Hi Hj Hne.
  pose proof (flip_shape sg v d c i j Hs) as S1.
  pose proof (flip_shape sg v' d' c j i Hs) as S2.
  apply context_ext; try reflexivity.
  - apply flip_shape, S2.
  - apply flip_shape, S1.
  - intros k.
    rewrite (flip_header sg v' d' _ j i S1 Hj Hi), (flip_header sg v d c i j Hs Hi Hj).
    rewrite (flip_header sg v d _ i j S2 Hi Hj), (flip_header sg v' d' c j i Hs Hj Hi).
    cbv zeta.
    destruct (Nat.eqb_spec k i), (Nat.eqb_spec k j); try reflexivity; congruence.
  - intros a b.
    rewrite (flip_matrix sg v' d' _ j i S1 Hj Hi), (flip_matrix sg v d c i j Hs Hi Hj).
    rewrite (flip_matrix sg v d _ i j S2 Hi Hj), (flip_matrix sg v' d' c j i Hs Hj Hi).
    destruct (Nat.eqb_spec a i), (Nat.eqb_spec b j), (Nat.eqb_spec a j),
             (Nat.eqb_spec b i); simpl; try reflexivity; congruence.
Qed.

Lemma cond_flip_swap test test' v d v' d' c i j :
  shape c -> (i < slots c)%nat -> (j < slots c)%nat -> i <> j ->
  cond_flip test' v' d' (cond_flip test v d c i j) j i =
  cond_flip test v d (cond_flip test' v' d' c j i) i j.
Proof.
  intros Hs Hi Hj Hne. unfold cond_flip.
  assert (E1 : matrix_at (association_flip sg v d c i j) j i = matrix_at c j i).
  { rewrite flip_matrix by assumption.
    destruct (Nat.eqb_spec j i); [congruence | reflexivity]. }
  assert (E2 : matrix_at (association_flip sg v' d' c j i) i j = matrix_at c i j).
  { rewrite flip_matrix by assumption.
    destruct (Nat.eqb_spec i j); [congruence | reflexivity]. }
  destruct (test (on (matrix_at c i j))) eqn:T1, (test' (on (matrix_at c j i))) eqn:T2;
    rewrite ?E1, ?E2, ?T1, ?T2; try reflexivity.
  apply flip_swap; assumption.
Qed.

Lemma holds_same h p q : holds h p = true -> holds h q = true -> p = q.
Proof.
  unfold holds. destruct (termination h) as [x|]; [|discriminate].
  intros Hp Hq. apply Nat.eqb_eq in Hp, Hq. congruence.
Qed.

(** X14: the order in which the two terminations are given to
    [mpf_context_association_add] and to [mpf_context_association_remove]
    does not matter: the result and the context are the same. *)
Theorem association_order_does_not_matter s t1 t2 :
  shape (context s) ->
  mpf_context_association_add sg s t1 t2 = mpf_context_association_add sg s t2 t1 /\
  mpf_context_association_remove sg s t1 t2 = mpf_context_association_remove sg s t2 t1.
Proof.
  intros Hs.
  unfold mpf_context_association_add, mpf_context_association_remove. cbv zeta.
  rewrite (orb_comm (capacity (context s) <=? slot (terminations s t2))).
  destruct ((capacity (context s) <=? slot (terminations s t1))
            || (capacity (context s) <=? slot (terminations s t2))); [auto|].
  set (i := Z.to_nat (slot (terminations s t1))).
  set (j := Z.to_nat (slot (terminations s t2))).
  rewrite (orb_comm (negb (holds (header_at (context s) j) t2))).
  destruct (negb (holds (header_at (context s) i) t1)
            || negb (holds (header_at (context s) j) t2)) eqn:G; [auto|].
  apply orb_false_iff in G. destruct G as [H1 H2].
  apply negb_false_iff in H1, H2.
  assert (Hi : (i < slots (context s))%nat) by (eapply holds_in_range; eassumption).
  assert (Hj : (j < slots (context s))%nat) by (eapply holds_in_range; eassumption).
  destruct (Nat.eq_dec i j) as [Heq|Hne].
  - assert (t1 = t2) by (rewrite <- Heq in H2; eapply holds_same; eassumption).
    subst t2. auto.
  - set (p12 := stream_mode_compatibility_check (terminations s t1) (terminations s t2)).
    set (p21 := stream_mode_compatibility_check (terminations s t2) (terminations s t1)).
    pose proof (cond_flip_swap (fun z => (z =? 0) && p12) (fun z => (z =? 0) && p21)
                  1 1 1 1 (context s) i j Hs Hi Hj Hne) as Eadd.
    pose proof (cond_flip_swap (fun z => z =? 1) (fun z => z =? 1)
                  0 (-1) 0 (-1) (context s) i j Hs Hi Hj Hne) as Erem.
    unfold cond_flip in Eadd, Erem. rewrite <- !association_on_flip in Eadd.
    rewrite <- !association_off_flip in Erem.
    split; f_equal; f_equal.
    + revert Eadd.
      destruct p12, p21; rewrite ?andb_true_r, ?andb_false_r;
        repeat match goal with
               | |- context [if ?b then ?x else ?x] =>
                   replace (if b then x else x) with x by (destruct b; reflexivity)
               end; auto.
    + exact Erem.
Qed.

End AssociationSymmetric.

(** ** The theorems above on a context of five slots

    Terminations 1 and 2 are added to a fresh context and associated with
    each other: they take the slots 0 and 1. *)

Definition two_joined : mpf_state :=
  run true (created mpf_context_factory_create 0%nat 5 unattached)
    [add_termination 1%nat; add_termination 2%nat; add_association 1%nat 2%nat].

Lemma two_joined_inv : state_inv true two_joined.
Proof.
  assert (Hcap : capacity (context (created mpf_context_factory_create 0%nat 5 unattached))
                 <= char_max true).
  { cbn. lia. }
  assert (Hinit : state_inv true (created mpf_context_factory_create 0%nat 5 unattached)).
  { apply created_inv; [unfold apr_size_max; lia | cbn; tauto]. }
  exact (proj1 (run_inv true [add_termination 1%nat; add_termination 2%nat;
                              add_association 1%nat 2%nat] _ Hcap Hinit)).
Qed.

Lemma two_joined_stored t : t = 1%nat \/ t = 2%nat -> stored two_joined t.
Proof. intros [-> | ->]; split; vm_compute; reflexivity. Qed.

Lemma two_joined_well_stored : well_stored two_joined.
Proof.
  intros i t Hi H.
  do 5 (destruct i as [|i];
        [vm_compute in H; first [discriminate | injection H as <-; vm_compute; reflexivity]|]).
  vm_compute in Hi. lia.
Qed.

Lemma termination_add_takes_lowest_free_witness :
  let s := two_joined in
  let t := 3%nat in
  shape (context s) /\
  let c := context s in
  let r := mpf_context_termination_add s t in
  (fst r = true <-> exists i, (i < slots c)%nat /\ occupied c i = false) /\
  (fst r = false -> snd r = s) /\
  (fst r = true ->
   exists i,
     (i < slots c)%nat /\ occupied c i = false /\
     (forall k, (k < i)%nat -> occupied c k = true) /\
     slot (terminations (snd r) t) = Z.of_nat i /\
     header_at (context (snd r)) i =
       {| termination := Some t; tx_count := 0; rx_count := 0 |} /\
     (forall k, k <> i -> header_at (context (snd r)) k = header_at c k) /\
     matrix (context (snd r)) = matrix c /\
     count (context (snd r)) = size_cast (count c + 1) /\
     capacity (context (snd r)) = capacity c /\
     (forall q, q <> t -> terminations (snd r) q = terminations s q) /\
     audio_stream (terminations (snd r) t) = audio_stream (terminations s t)).
Proof.
  intros s t.
  split; [exact (inv_shape true _ (proj1 two_joined_inv))|].
  exact (termination_add_takes_lowest_free s t (inv_shape true _ (proj1 two_joined_inv))).
Defined.

Lemma termination_subtract_frees_slot_witness :
  let s := two_joined in
  let t := 1%nat in
  (state_inv true s /\ stored s t) /\
  let c := context s in
  let i := Z.to_nat (slot (terminations s t)) in
  let r := mpf_context_termination_subtract true s t in
  fst r = true /\
  state_inv true (snd r) /\
  (forall k, occupied (context (snd r)) k =
             if Nat.eqb k i then false else occupied c k) /\
  (forall b, (b < slots c)%nat ->
     is_on (context (snd r)) i b = false /\ is_on (context (snd r)) b i = false) /\
  (forall a b, a <> i -> b <> i -> is_on (context (snd r)) a b = is_on c a b) /\
  slot (terminations (snd r) t) = apr_size_max /\
  count (context (snd r)) = count c - 1 /\
  mpf_context_termination_subtract true (snd r) t = (false, snd r).
Proof.
  intros s t.
  split; [split; [exact two_joined_inv | exact (two_joined_stored 1%nat (or_introl eq_refl))]|].
  exact (termination_subtract_frees_slot true s t two_joined_inv
           (two_joined_stored 1%nat (or_introl eq_refl))).
Defined.

Lemma termination_add_then_subtract_witness :
  let s := two_joined in
  let t := 3%nat in
  (state_inv true s /\ fst (mpf_context_termination_add s t) = true) /\
  let r := mpf_context_termination_subtract true
             (snd (mpf_context_termination_add s t)) t in
  fst r = true /\
  context (snd r) = context s /\
  factory (snd r) = factory s /\
  slot (terminations (snd r) t) = apr_size_max /\
  audio_stream (terminations (snd r) t) = audio_stream (terminations s t) /\
  (forall q, q <> t -> terminations (snd r) q = terminations s q).
Proof.
  intros s t.
  assert (H : fst (mpf_context_termination_add s t) = true) by (vm_compute; reflexivity).
  split; [split; [exact two_joined_inv | exact H]|].
  exact (termination_add_then_subtract true s t two_joined_inv H).
Defined.

Lemma association_add_twice_witness :
  let s := two_joined in
  shape (context s) /\
  mpf_context_association_add true
    (snd (mpf_context_association_add true s 2%nat 1%nat)) 2%nat 1%nat =
  mpf_context_association_add true s 2%nat 1%nat.
Proof.
  intros s.
  split; [exact (inv_shape true _ (proj1 two_joined_inv))|].
  exact (association_add_twice true s 2%nat 1%nat (inv_shape true _ (proj1 two_joined_inv))).
Defined.

(** Any two descriptors match. *)
Definition descriptors_match (_ _ : mpf_codec_descriptor_t) : bool := true.



Lemma context_destroy_empties_witness :
  let s := two_joined in
  (state_inv true s /\ well_stored s) /\
  let r := mpf_context_destroy true s in
  let c' := context (fst r) in
  (forall k, occupied c' k = false) /\
  (forall a b, is_on c' a b = false) /\
  count c' = 0 /\
  capacity c' = capacity (context s) /\
  ~ linked (factory (fst r)) c' /\
  state_inv true (fst r) /\
  (forall k t, termination (header_at (context s) k) = Some t ->
     slot (terminations (fst r) t) = apr_size_max) /\
  snd r = streams_from s 0 (slots (context s)).
Proof.
  intros s.
  split; [split; [exact two_joined_inv | exact two_joined_well_stored]|].
  exact (context_destroy_empties true s two_joined_inv two_joined_well_stored).
Defined.

Lemma termination_added_twice_witness :
  let s := two_joined in
  let t := 3%nat in
  let r1 := mpf_context_termination_add s t in
  let r2 := mpf_context_termination_add (snd r1) t in
  let r3 := mpf_context_termination_subtract true (snd r2) t in
  (state_inv true s /\ fst r1 = true /\ fst r2 = true) /\
  let i1 := Z.to_nat (slot (terminations (snd r1) t)) in
  let i2 := Z.to_nat (slot (terminations (snd r2) t)) in
  (i1 < i2)%nat /\
  holds (header_at (context (snd r2)) i1) t = true /\
  holds (header_at (context (snd r2)) i2) t = true /\
  count (context (snd r2)) = count (context s) + 2 /\
  fst r3 = true /\
  holds (header_at (context (snd r3)) i1) t = true /\
  occupied (context (snd r3)) i2 = false /\
  slot (terminations (snd r3) t) = apr_size_max /\
  count (context (snd r3)) = count (context s) + 1 /\
  mpf_context_termination_subtract true (snd r3) t = (false, snd r3).
Proof.
  intros s t r1 r2 r3.
  assert (H1 : fst r1 = true) by (vm_compute; reflexivity).
  assert (H2 : fst r2 = true) by (vm_compute; reflexivity).
  split; [split; [exact two_joined_inv | split; [exact H1 | exact H2]]|].
  exact (termination_added_twice true s t two_joined_inv H1 H2).
Defined.

Lemma association_order_does_not_matter_witness :
  let s := two_joined in
  shape (context s) /\
  mpf_context_association_add true s 1%nat 2%nat =
    mpf_context_association_add true s 2%nat 1%nat /\
  mpf_context_association_remove true s 1%nat 2%nat =
    mpf_context_association_remove true s 2%nat 1%nat.
Proof.
  intros s.
  split; [exact (inv_shape true _ (proj1 two_joined_inv))|].
  exact (association_order_does_not_matter true s 1%nat 2%nat
           (inv_shape true _ (proj1 two_joined_inv))).
Defined.

End Mpf.

(** * The server session ([mrcp_server_session.c]) *)

Module Session.

(** Terminations, resources and the media context are opaque handles on this
    side. *)
Definition handle := nat.

(** An [apt_str_t]; [None] is the reset string (no buffer, length 0). *)
Definition apt_str_t := option string.

(** Modelled from the spec: the enumerations of the headers that are not
    among the sources (protocol versions, answer status codes, session
    states, signaling and MRCP message kinds, media engine commands). *)
Inductive mrcp_version_e := MRCP_VERSION_1 | MRCP_VERSION_2.

Inductive mrcp_session_status_e :=
| MRCP_SESSION_STATUS_OK
| MRCP_SESSION_STATUS_NO_SUCH_RESOURCE
| MRCP_SESSION_STATUS_UNACCEPTABLE_RESOURCE
| MRCP_SESSION_STATUS_UNAVAILABLE_RESOURCE.

Inductive mrcp_server_session_state_e :=
| SESSION_STATE_NONE
| SESSION_STATE_ANSWERING
| SESSION_STATE_DEACTIVATING
| SESSION_STATE_TERMINATING.

Inductive mrcp_message_type_e :=
| MRCP_MESSAGE_TYPE_REQUEST
| MRCP_MESSAGE_TYPE_RESPONSE
| MRCP_MESSAGE_TYPE_EVENT.

Inductive mpf_command_type_e :=
| MPF_ADD_TERMINATION
| MPF_MODIFY_TERMINATION
| MPF_SUBTRACT_TERMINATION
| MPF_ADD_ASSOCIATION
| MPF_REMOVE_ASSOCIATION
| MPF_RESET_ASSOCIATIONS
| MPF_APPLY_TOPOLOGY
| MPF_DESTROY_TOPOLOGY.

Inductive mpf_message_type_e :=
| MPF_MESSAGE_TYPE_REQUEST
| MPF_MESSAGE_TYPE_RESPONSE
| MPF_MESSAGE_TYPE_EVENT.

(** ** Descriptors and messages

    Modelled from the spec: the descriptors and the messages are declared
    in headers that are not among the sources; each record has the fields
    that the session code reads or writes. *)

Record mrcp_message_t := {
  message_type : mrcp_message_type_e;        (* start_line.message_type *)
  message_resource_name : apt_str_t;         (* channel_id.resource_name *)
  message_body : string
}.

Record mrcp_control_descriptor_t := {
  control_resource_name : apt_str_t;
  control_cmid : Z;
  control_port : Z;
  control_session_id : apt_str_t
}.

Record mpf_rtp_media_descriptor_t := {
  media_ip : apt_str_t;
  media_ext_ip : apt_str_t;
  media_port : Z;
  media_mode : Z;
  media_mid : Z
}.

Record mpf_rtp_termination_descriptor_t := {
  audio_local : option mpf_rtp_media_descriptor_t;
  audio_remote : option mpf_rtp_media_descriptor_t
}.

(** The arrays of a session descriptor hold pointers: [None] is NULL. *)
Record mrcp_session_descriptor_t := {
  origin : apt_str_t;
  ip : apt_str_t;
  ext_ip : apt_str_t;
  resource_name : apt_str_t;
  resource_state : bool;
  status : mrcp_session_status_e;
  control_media_arr : list (option mrcp_control_descriptor_t);
  audio_media_arr : list (option mpf_rtp_media_descriptor_t);
  video_media_arr : list (option mpf_rtp_media_descriptor_t)
}.

(** A command of the batch sent to the media engine. *)
Record mpf_command_t := {
  command_id : mpf_command_type_e;
  command_termination : option handle;
  command_assoc_termination : option handle;
  command_descriptor : option mpf_rtp_termination_descriptor_t
}.

(** A message the media engine posts back. *)
Record mpf_message_t := {
  mpf_message_type : mpf_message_type_e;
  mpf_command_id : mpf_command_type_e;
  mpf_context : option handle;
  mpf_termination : option handle;
  mpf_descriptor : option mpf_rtp_termination_descriptor_t
}.

(** ** Channels, termination slots, the session *)

Record mrcp_engine_channel_t := {
  engine_termination : option handle
}.

(** A channel is known by its position in [session->channels].  The control
    channel and the state machine are present ([true]) or NULL. *)
Record mrcp_channel_t := {
  channel_resource_name : apt_str_t;
  resource : option handle;
  control_channel : bool;
  engine_channel : option mrcp_engine_channel_t;
  state_machine : bool;
  id : Z;
  cmid : Z;
  waiting_for_channel : bool;
  waiting_for_termination : bool
}.

Record mrcp_termination_slot_t := {
  termination : option handle;
  slot_id : Z;
  mid : Z;
  slot_channels : option (list nat);     (* pointers into [session->channels] *)
  waiting : bool
}.

(** The kinds of signaling message, each with the fields it carries. *)
Inductive mrcp_signaling_message_t :=
| SIGNALING_MESSAGE_OFFER (descriptor : mrcp_session_descriptor_t)
| SIGNALING_MESSAGE_CONTROL (channel : option nat) (message : mrcp_message_t)
| SIGNALING_MESSAGE_TERMINATE.

(** Modelled from the spec: the session record is declared in
    [mrcp_server_session.h], not among the sources ("media context handle;
    ordered sequence of channels; ordered sequence of RTP termination
    slots; current offer and in-progress answer descriptors; a FIFO queue
    of pending signaling messages; the currently active signaling message;
    a pending media-engine task batch; a sub-request counter; a state").
    The fields are those that the code reads and writes; the counter is an
    integer, far from the bounds of its C type. *)
Record mrcp_server_session_t := {
  session_id : apt_str_t;                       (* base.id *)
  mrcp_version : mrcp_version_e;                (* base.signaling_agent->mrcp_version *)
  context : option handle;
  terminations : list mrcp_termination_slot_t;
  channels : list mrcp_channel_t;
  active_request : option mrcp_signaling_message_t;
  request_queue : list mrcp_signaling_message_t;
  offer : option mrcp_session_descriptor_t;
  answer : option mrcp_session_descriptor_t;
  mpf_task_msg : list mpf_command_t;
  subrequest_count : Z;
  state : mrcp_server_session_state_e
}.

(** What the session asks of its collaborators, in the order it does. *)
Inductive session_event :=
| dispatched (m : mrcp_signaling_message_t)       (* a message enters the dispatcher *)
| session_answer (d : mrcp_session_descriptor_t)  (* mrcp_session_answer *)
| session_control_response (m : mrcp_message_t)   (* mrcp_session_control_response *)
| session_terminate_response                      (* mrcp_session_terminate_response *)
| control_message_send (channel : nat) (m : mrcp_message_t)
| control_channel_add (channel : nat) (d : mrcp_control_descriptor_t)
| control_channel_modify (channel : nat) (d : mrcp_control_descriptor_t)
| control_channel_remove (channel : nat)
| control_channel_destroy (channel : nat)
| engine_channel_open (channel : nat)
| engine_channel_close (channel : nat)
| engine_channel_destroy (channel : nat)
| engine_channel_request_process (channel : nat) (m : mrcp_message_t)
| state_machine_update (channel : nat) (m : mrcp_message_t)
| state_machine_deactivate (channel : nat)
| mpf_message_send (batch : list mpf_command_t)
| session_table_add
| session_table_remove.

(** ** Field updates *)

Definition set_session_id v (s : mrcp_server_session_t) : mrcp_server_session_t :=
  {| session_id := v; mrcp_version := mrcp_version s; context := context s;
     terminations := terminations s; channels := channels s;
     active_request := active_request s; request_queue := request_queue s;
     offer := offer s; answer := answer s; mpf_task_msg := mpf_task_msg s;
     subrequest_count := subrequest_count s; state := state s |}.

Definition set_context v (s : mrcp_server_session_t) : mrcp_server_session_t :=
  {| session_id := session_id s; mrcp_version := mrcp_version s; context := v;
     terminations := terminations s; channels := channels s;
     active_request := active_request s; request_queue := request_queue s;
     offer := offer s; answer := answer s; mpf_task_msg := mpf_task_msg s;
     subrequest_count := subrequest_count s; state := state s |}.

Definition set_terminations v (s : mrcp_server_session_t) : mrcp_server_session_t :=
  {| session_id := session_id s; mrcp_version := mrcp_version s; context := context s;
     terminations := v; channels := channels s;
     active_request := active_request s; request_queue := request_queue s;
     offer := offer s; answer := answer s; mpf_task_msg := mpf_task_msg s;
     subrequest_count := subrequest_count s; state := state s |}.

Definition set_channels v (s : mrcp_server_session_t) : mrcp_server_session_t :=
  {| session_id := session_id s; mrcp_version := mrcp_version s; context := context s;
     terminations := terminations s; channels := v;
     active_request := active_request s; request_queue := request_queue s;
     offer := offer s; answer := answer s; mpf_task_msg := mpf_task_msg s;
     subrequest_count := subrequest_count s; state := state s |}.

Definition set_active_request v (s : mrcp_server_session_t) : mrcp_server_session_t :=
  {| session_id := session_id s; mrcp_version := mrcp_version s; context := context s;
     terminations := terminations s; channels := channels s;
     active_request := v; request_queue := request_queue s;
     offer := offer s; answer := answer s; mpf_task_msg := mpf_task_msg s;
     subrequest_count := subrequest_count s; state := state s |}.

Definition set_request_queue v (s : mrcp_server_session_t) : mrcp_server_session_t :=
  {| session_id := session_id s; mrcp_version := mrcp_version s; context := context s;
     terminations := terminations s; channels := channels s;
     active_request := active_request s; request_queue := v;
     offer := offer s; answer := answer s; mpf_task_msg := mpf_task_msg s;
     subrequest_count := subrequest_count s; state := state s |}.

Definition set_offer v (s : mrcp_server_session_t) : mrcp_server_session_t :=
  {| session_id := session_id s; mrcp_version := mrcp_version s; context := context s;
     terminations := terminations s; channels := channels s;
     active_request := active_request s; request_queue := request_queue s;
     offer := v; answer := answer s; mpf_task_msg := mpf_task_msg s;
     subrequest_count := subrequest_count s; state := state s |}.

Definition set_answer v (s : mrcp_server_session_t) : mrcp_server_session_t :=
  {| session_id := session_id s; mrcp_version := mrcp_version s; context := context s;
     terminations := terminations s; channels := channels s;
     active_request := active_request s; request_queue := request_queue s;
     offer := offer s; answer := v; mpf_task_msg := mpf_task_msg s;
     subrequest_count := subrequest_count s; state := state s |}.

Definition set_mpf_task_msg v (s : mrcp_server_session_t) : mrcp_server_session_t :=
  {| session_id := session_id s; mrcp_version := mrcp_version s; context := context s;
     terminations := terminations s; channels := channels s;
     active_request := active_request s; request_queue := request_queue s;
     offer := offer s; answer := answer s; mpf_task_msg := v;
     subrequest_count := subrequest_count s; state := state s |}.

Definition set_subrequest_count v (s : mrcp_server_session_t) : mrcp_server_session_t :=
  {| session_id := session_id s; mrcp_version := mrcp_version s; context := context s;
     terminations := terminations s; channels := channels s;
     active_request := active_request s; request_queue := request_queue s;
     offer := offer s; answer := answer s; mpf_task_msg := mpf_task_msg s;
     subrequest_count := v; state := state s |}.

Definition set_state v (s : mrcp_server_session_t) : mrcp_server_session_t :=
  {| session_id := session_id s; mrcp_version := mrcp_version s; context := context s;
     terminations := terminations s; channels := channels s;
     active_request := active_request s; request_queue := request_queue s;
     offer := offer s; answer := answer s; mpf_task_msg := mpf_task_msg s;
     subrequest_count := subrequest_count s; state := v |}.

Definition set_waiting_for_channel v (c : mrcp_channel_t) : mrcp_channel_t :=
  {| channel_resource_name := channel_resource_name c; resource := resource c;
     control_channel := control_channel c; engine_channel := engine_channel c;
     state_machine := state_machine c; id := id c; cmid := cmid c;
     waiting_for_channel := v;
     waiting_for_termination := waiting_for_termination c |}.

Definition set_waiting_for_termination v (c : mrcp_channel_t) : mrcp_channel_t :=
  {| channel_resource_name := channel_resource_name c; resource := resource c;
     control_channel := control_channel c; engine_channel := engine_channel c;
     state_machine := state_machine c; id := id c; cmid := cmid c;
     waiting_for_channel := waiting_for_channel c;
     waiting_for_termination := v |}.

Definition set_control_channel v (c : mrcp_channel_t) : mrcp_channel_t :=
  {| channel_resource_name := channel_resource_name c; resource := resource c;
     control_channel := v; engine_channel := engine_channel c;
     state_machine := state_machine c; id := id c; cmid := cmid c;
     waiting_for_channel := waiting_for_channel c;
     waiting_for_termination := waiting_for_termination c |}.

Definition set_engine_channel v (c : mrcp_channel_t) : mrcp_channel_t :=
  {| channel_resource_name := channel_resource_name c; resource := resource c;
     control_channel := control_channel c; engine_channel := v;
     state_machine := state_machine c; id := id c; cmid := cmid c;
     waiting_for_channel := waiting_for_channel c;
     waiting_for_termination := waiting_for_termination c |}.

Definition set_waiting v (t : mrcp_termination_slot_t) : mrcp_termination_slot_t :=
  {| termination := termination t; slot_id := slot_id t; mid := mid t;
     slot_channels := slot_channels t; waiting := v |}.

Definition set_slot_association v_mid v_channels (t : mrcp_termination_slot_t)
    : mrcp_termination_slot_t :=
  {| termination := termination t; slot_id := slot_id t; mid := v_mid;
     slot_channels := v_channels; waiting := waiting t |}.

Definition set_status v (d : mrcp_session_descriptor_t) : mrcp_session_descriptor_t :=
  {| origin := origin d; ip := ip d; ext_ip := ext_ip d;
     resource_name := resource_name d; resource_state := resource_state d;
     status := v; control_media_arr := control_media_arr d;
     audio_media_arr := audio_media_arr d; video_media_arr := video_media_arr d |}.

Definition set_resource_state v (d : mrcp_session_descriptor_t) : mrcp_session_descriptor_t :=
  {| origin := origin d; ip := ip d; ext_ip := ext_ip d;
     resource_name := resource_name d; resource_state := v;
     status := status d; control_media_arr := control_media_arr d;
     audio_media_arr := audio_media_arr d; video_media_arr := video_media_arr d |}.

Definition set_ips v_ip v_ext_ip (d : mrcp_session_descriptor_t) : mrcp_session_descriptor_t :=
  {| origin := origin d; ip := v_ip; ext_ip := v_ext_ip;
     resource_name := resource_name d; resource_state := resource_state d;
     status := status d; control_media_arr := control_media_arr d;
     audio_media_arr := audio_media_arr d; video_media_arr := video_media_arr d |}.

Definition set_control_media_arr v (d : mrcp_session_descriptor_t) : mrcp_session_descriptor_t :=
  {| origin := origin d; ip := ip d; ext_ip := ext_ip d;
     resource_name := resource_name d; resource_state := resource_state d;
     status := status d; control_media_arr := v;
     audio_media_arr := audio_media_arr d; video_media_arr := video_media_arr d |}.

Definition set_audio_media_arr v (d : mrcp_session_descriptor_t) : mrcp_session_descriptor_t :=
  {| origin := origin d; ip := ip d; ext_ip := ext_ip d;
     resource_name := resource_name d; resource_state := resource_state d;
     status := status d; control_media_arr := control_media_arr d;
     audio_media_arr := v; video_media_arr := video_media_arr d |}.

Definition set_media_mode v (m : mpf_rtp_media_descriptor_t) : mpf_rtp_media_descriptor_t :=
  {| media_ip := media_ip m; media_ext_ip := media_ext_ip m;
     media_port := media_port m; media_mode := v; media_mid := media_mid m |}.

Definition set_control_answer v_port v_session_id (d : mrcp_control_descriptor_t)
    : mrcp_control_descriptor_t :=
  {| control_resource_name := control_resource_name d; control_cmid := control_cmid d;
     control_port := v_port; control_session_id := v_session_id |}.

Definition set_control_session_id v (d : mrcp_control_descriptor_t)
    : mrcp_control_descriptor_t :=
  {| control_resource_name := control_resource_name d; control_cmid := control_cmid d;
     control_port := control_port d; control_session_id := v |}.

(** ** The monad of the session code

    A piece of session code reads and writes the session, asks things of the
    collaborators (the events, in order) and may fault on a NULL pointer
    ([None]: the program is gone, nothing is returned). *)

Definition M (A : Type) : Type :=
  mrcp_server_session_t -> option (A * mrcp_server_session_t * list session_event).

Definition ret {A} (a : A) : M A := fun s => Some (a, s, []).

Definition bind {A B} (c : M A) (f : A -> M B) : M B :=
  fun s =>
    match c s with
    | None => None
    | Some (a, s1, e1) =>
        match f a s1 with
        | None => None
        | Some (b, s2, e2) => Some (b, s2, e1 ++ e2)
        end
    end.

Definition fault {A} : M A := fun _ => None.

Definition get : M mrcp_server_session_t := fun s => Some (s, s, []).

Definition modify (f : mrcp_server_session_t -> mrcp_server_session_t) : M unit :=
  fun s => Some (tt, f s, []).

Definition emit (e : session_event) : M unit := fun s => Some (tt, s, [e]).

(** Dereference a pointer: NULL faults. *)
Definition deref {A} (p : option A) : M A :=
  match p with
  | Some a => ret a
  | None => fault
  end.

Notation "x <- c1 ;; c2" := (bind c1 (fun x => c2))
  (at level 100, c1 at next level, right associativity).
Notation "c1 ;; c2" := (bind c1 (fun _ => c2))
  (at level 100, right associativity).

(** [for (i = ...; ...; i++) body(i)] over the indices [l]. *)
Fixpoint for_each {A} (l : list A) (body : A -> M unit) : M unit :=
  match l with
  | [] => ret tt
  | i :: l' => body i ;; for_each l' body
  end.

(** [when c body]: [if (c) { body }] *)
Definition when (c : bool) (body : M unit) : M unit :=
  if c then body else ret tt.

(** ** The collaborators

    The functions below are not among the sources: they belong to the
    signaling agent, the connection agent, the resource engines, the state
    machines and the media engine.  Each is a method of the class below
    that gives what the call returns; the call itself shows as an event
    where its order matters. *)

Class Collaborators := {
  apt_string_compare : apt_str_t -> apt_str_t -> bool;
  apt_unique_id_generate : apt_str_t;
  mpf_engine_context_create : option handle;
  (** [mrcp_resource_id_find] followed by [mrcp_resource_get] *)
  mrcp_resource_get : apt_str_t -> option handle;
  (** [resource->create_server_state_machine]: created, or NULL *)
  create_server_state_machine : handle -> mrcp_version_e -> bool;
  (** [mrcp_server_control_channel_create], for the channel of this id *)
  mrcp_server_control_channel_create : Z -> bool;
  (** [apr_hash_get(session->profile->engine_table, ...)] *)
  engine_table : apt_str_t -> option handle;
  mrcp_engine_channel_virtual_create :
    handle -> mrcp_version_e -> option mrcp_engine_channel_t;
  mrcp_server_control_channel_modify : nat -> mrcp_control_descriptor_t -> bool;
  mrcp_server_control_channel_add : nat -> mrcp_control_descriptor_t -> bool;
  mrcp_server_control_channel_remove : nat -> bool;
  mrcp_engine_channel_virtual_open : nat -> bool;
  mrcp_engine_channel_virtual_close : nat -> bool;
  (** whether the media engine takes the command into the batch *)
  mpf_engine_message_add : mpf_command_t -> bool;
  (** the RTP termination made for the audio media line of this position *)
  mpf_termination_create : nat -> option handle;
  (** [termination->audio_stream->mode]; [None] without an audio stream *)
  termination_stream_mode : handle -> option Z;
  mrcp_state_machine_update : nat -> mrcp_message_t -> bool;
  mrcp_state_machine_deactivate : nat -> bool;
  mrcp_session_answer : mrcp_session_descriptor_t -> bool;
  mrcp_control_answer_create :
    mrcp_control_descriptor_t -> mrcp_control_descriptor_t
}.

Section Orchestrator.

Context {collaborators : Collaborators}.

(** Modelled from the spec: the accessors of [mrcp_session_descriptor.h]
    (not among the sources) read or store the entry at a position of a media
    array, and do nothing outside the array. *)
Definition mrcp_session_control_media_get (d : mrcp_session_descriptor_t) (i : nat)
    : option mrcp_control_descriptor_t :=
  mjoin (control_media_arr d !! i).

Definition mrcp_session_audio_media_get (d : mrcp_session_descriptor_t) (i : nat)
    : option mpf_rtp_media_descriptor_t :=
  mjoin (audio_media_arr d !! i).

Definition mrcp_session_control_media_set (d : mrcp_session_descriptor_t) (i : nat)
    (media : mrcp_control_descriptor_t) : mrcp_session_descriptor_t :=
  set_control_media_arr (<[i := Some media]> (control_media_arr d)) d.

Definition mrcp_session_audio_media_set (d : mrcp_session_descriptor_t) (i : nat)
    (media : mpf_rtp_media_descriptor_t) : mrcp_session_descriptor_t :=
  set_audio_media_arr (<[i := Some media]> (audio_media_arr d)) d.

(** ** Small steps on the session *)

Definition mrcp_server_session_create (version : mrcp_version_e) : mrcp_server_session_t :=
  {| session_id := None; mrcp_version := version; context := None;
     terminations := []; channels := [];
     active_request := None; request_queue := [];
     offer := None; answer := None; mpf_task_msg := [];
     subrequest_count := 0; state := SESSION_STATE_NONE |}.

Definition mrcp_session_version_get : M mrcp_version_e :=
  s <- get ;; ret (mrcp_version s).

(** [session->answer->...  = ...]: faults when there is no answer. *)
Definition answer_update (f : mrcp_session_descriptor_t -> mrcp_session_descriptor_t)
    : M unit :=
  s <- get ;;
  a <- deref (answer s) ;;
  modify (set_answer (Some (f a))).

(** [channel->... = ...] and [slot->... = ...], by position *)
Definition channel_at (i : nat) : M mrcp_channel_t :=
  s <- get ;; deref (channels s !! i).

Definition channel_update (i : nat) (f : mrcp_channel_t -> mrcp_channel_t) : M unit :=
  modify (fun s => set_channels (alter f i (channels s)) s).

Definition slot_at (i : nat) : M mrcp_termination_slot_t :=
  s <- get ;; deref (terminations s !! i).

Definition slot_update (i : nat)
    (f : mrcp_termination_slot_t -> mrcp_termination_slot_t) : M unit :=
  modify (fun s => set_terminations (alter f i (terminations s)) s).

Definition mrcp_server_session_state_set (st : mrcp_server_session_state_e) : M unit :=
  modify (fun s =>
    let s := if negb (subrequest_count s =? 0)
             then (* error case *) set_subrequest_count 0 s
             else s in
    set_state st s).

Definition mrcp_server_session_subrequest_add : M unit :=
  modify (fun s => set_subrequest_count (subrequest_count s + 1) s).

(** The three ways to add a command to the batch [session->mpf_task_msg]. *)
Definition batch_add (command : mpf_command_t) : M bool :=
  if mpf_engine_message_add command
  then modify (fun s => set_mpf_task_msg (mpf_task_msg s ++ [command]) s) ;; ret true
  else ret false.

Definition mpf_engine_termination_message_add (command : mpf_command_type_e)
    (t : option handle) (d : option mpf_rtp_termination_descriptor_t) : M bool :=
  batch_add {| command_id := command; command_termination := t;
               command_assoc_termination := None; command_descriptor := d |}.

Definition mpf_engine_assoc_message_add (command : mpf_command_type_e)
    (t assoc_t : option handle) : M bool :=
  batch_add {| command_id := command; command_termination := t;
               command_assoc_termination := assoc_t; command_descriptor := None |}.

Definition mpf_engine_topology_message_add (command : mpf_command_type_e) : M bool :=
  batch_add {| command_id := command; command_termination := None;
               command_assoc_termination := None; command_descriptor := None |}.

Definition mpf_engine_message_send : M unit :=
  s <- get ;;
  emit (mpf_message_send (mpf_task_msg s)) ;;
  modify (set_mpf_task_msg []).

(** [apt_list_pop_front(session->request_queue)] *)
Definition request_queue_pop_front : M (option mrcp_signaling_message_t) :=
  s <- get ;;
  match request_queue s with
  | [] => ret None
  | m :: rest => modify (set_request_queue rest) ;; ret (Some m)
  end.

(** ** Finding channels and terminations *)

Fixpoint find_index {A} (test : A -> bool) (l : list A) (i : nat) : option nat :=
  match l with
  | [] => None
  | x :: l' => if test x then Some i else find_index test l' (S i)
  end.

Definition option_handle_eqb (a b : option handle) : bool :=
  match a, b with
  | Some x, Some y => Nat.eqb x y
  | None, None => true
  | _, _ => false
  end.

Definition mrcp_server_rtp_termination_find (s : mrcp_server_session_t)
    (t : option handle) : option nat :=
  find_index (fun slot => option_handle_eqb (termination slot) t) (terminations s) 0.

Definition mrcp_server_channel_termination_find (s : mrcp_server_session_t)
    (t : option handle) : option nat :=
  find_index (fun channel =>
                match engine_channel channel with
                | Some ec => option_handle_eqb (engine_termination ec) t
                | None => false
                end) (channels s) 0.

Definition mrcp_server_channel_find (s : mrcp_server_session_t)
    (name : apt_str_t) : option nat :=
  find_index (fun channel => apt_string_compare (channel_resource_name channel) name)
    (channels s) 0.

(** ** Creating a channel *)

Definition mrcp_server_engine_channel_create (name : apt_str_t)
    : M (option mrcp_engine_channel_t) :=
  s <- get ;;
  match engine_table name with
  | None => ret None
  | Some resource_engine =>
      ret (mrcp_engine_channel_virtual_create resource_engine (mrcp_version s))
  end.

Definition mrcp_server_channel_create (name : apt_str_t) (id cmid : Z)
    : M mrcp_channel_t :=
  let channel resource control sm engine :=
    {| channel_resource_name := name; resource := resource;
       control_channel := control; engine_channel := engine;
       state_machine := sm; id := id; cmid := cmid;
       waiting_for_channel := false; waiting_for_termination := false |} in
  match name with
  | Some _ =>
      match mrcp_resource_get name with
      | Some r =>
          version <- mrcp_session_version_get ;;
          let control := match version with
                         | MRCP_VERSION_2 => mrcp_server_control_channel_create id
                         | MRCP_VERSION_1 => false
                         end in
          let sm := create_server_state_machine r version in
          engine <- mrcp_server_engine_channel_create name ;;
          match engine with
          | Some _ => ret (channel (Some r) control sm engine)
          | None =>
              answer_update (set_status MRCP_SESSION_STATUS_UNACCEPTABLE_RESOURCE) ;;
              ret (channel (Some r) control sm None)
          end
      | None =>
          answer_update (set_status MRCP_SESSION_STATUS_NO_SUCH_RESOURCE) ;;
          ret (channel None false false None)
      end
  | None =>
      answer_update (set_status MRCP_SESSION_STATUS_NO_SUCH_RESOURCE) ;;
      ret (channel None false false None)
  end.

(** ** Terminating the session *)

Definition mrcp_server_session_terminate_send : M bool :=
  s <- get ;;
  for_each (seq 0 (length (channels s))) (fun i =>
    channel <- channel_at i ;;
    when (control_channel channel)
      (emit (control_channel_destroy i) ;;
       channel_update i (set_control_channel false)) ;;
    when (bool_decide (engine_channel channel <> None))
      (emit (engine_channel_destroy i) ;;
       channel_update i (set_engine_channel None))) ;;
  emit session_terminate_response ;;
  ret true.

Definition mrcp_server_session_terminate_process : M bool :=
  mrcp_server_session_state_set SESSION_STATE_TERMINATING ;;
  s <- get ;;
  when (bool_decide (context s <> None))
    ((* first, destroy existing topology *)
     added <- mpf_engine_topology_message_add MPF_RESET_ASSOCIATIONS ;;
     when added mrcp_server_session_subrequest_add) ;;
  for_each (seq 0 (length (channels s))) (fun i =>
    channel <- channel_at i ;;
    (* send remove channel request *)
    when (control_channel channel)
      (emit (control_channel_remove i) ;;
       when (mrcp_server_control_channel_remove i)
         (channel_update i (set_waiting_for_channel true) ;;
          mrcp_server_session_subrequest_add)) ;;
    match engine_channel channel with
    | Some ec =>
        (* send subtract termination request *)
        match engine_termination ec with
        | Some t =>
            added <- mpf_engine_termination_message_add
                       MPF_SUBTRACT_TERMINATION (Some t) None ;;
            when added
              (channel_update i (set_waiting_for_termination true) ;;
               mrcp_server_session_subrequest_add)
        | None => ret tt
        end ;;
        (* close resource engine channel *)
        emit (engine_channel_close i) ;;
        when (mrcp_engine_channel_virtual_close i) mrcp_server_session_subrequest_add
    | None => ret tt
    end) ;;
  for_each (seq 0 (length (terminations s))) (fun i =>
    slot <- slot_at i ;;
    match termination slot with
    | None => ret tt
    | Some t =>
        (* send subtract termination request *)
        added <- mpf_engine_termination_message_add
                   MPF_SUBTRACT_TERMINATION (Some t) None ;;
        when added
          (slot_update i (set_waiting true) ;;
           mrcp_server_session_subrequest_add)
    end) ;;
  when (bool_decide (context s <> None)) mpf_engine_message_send ;;
  emit session_table_remove ;;
  s <- get ;;
  if subrequest_count s =? 0
  then mrcp_server_session_terminate_send
  else ret true.

Definition mrcp_server_session_deactivate : M bool :=
  mrcp_server_session_state_set SESSION_STATE_DEACTIVATING ;;
  s <- get ;;
  for_each (seq 0 (length (channels s))) (fun i =>
    channel <- channel_at i ;;
    when (state_machine channel)
      (emit (state_machine_deactivate i) ;;
       when (mrcp_state_machine_deactivate i) mrcp_server_session_subrequest_add)) ;;
  s <- get ;;
  if subrequest_count s =? 0
  then mrcp_server_session_terminate_process
  else ret true.

(** ** Control messages *)

Definition mrcp_server_on_message_receive (channel : option nat)
    (message : mrcp_message_t) : M bool :=
  s <- get ;;
  let channel := match channel with
                 | Some i => Some i
                 | None => mrcp_server_channel_find s (message_resource_name message)
                 end in
  match channel with
  | None => ret false
  | Some i =>
      c <- channel_at i ;;
      if bool_decide (resource c = None) || negb (state_machine c)
      then ret false
      else
        (* update state machine *)
        emit (state_machine_update i message) ;;
        ret (mrcp_state_machine_update i message)
  end.

(** ** Processing an offer

    The functions that take the offer read and write it where the caller
    has stored it, [session->offer]: the descriptor they are given is that
    one. *)

Definition mrcp_session_answer_create (offer : mrcp_session_descriptor_t)
    : mrcp_session_descriptor_t :=
  {| origin := None; ip := None; ext_ip := None;
     resource_name := resource_name offer;
     resource_state := resource_state offer;
     status := status offer;
     control_media_arr := replicate (length (control_media_arr offer)) None;
     audio_media_arr := replicate (length (audio_media_arr offer)) None;
     video_media_arr := replicate (length (video_media_arr offer)) None |}.

(** Open the engine channel of the channel at position [i]; with
    [merge_mode] (MRCPv1) the stream mode of its termination is ORed into
    the first audio media of the offer. *)
Definition engine_channel_open_and_add (i : nat) (merge_mode : bool) : M unit :=
  channel <- channel_at i ;;
  match engine_channel channel with
  | None => ret tt
  | Some ec =>
      (* open resource engine channel *)
      emit (engine_channel_open i) ;;
      if mrcp_engine_channel_virtual_open i then
        mrcp_server_session_subrequest_add ;;
        match engine_termination ec with
        | None => ret tt
        | Some t =>
            (* send add termination request (add to media context) *)
            added <- mpf_engine_termination_message_add
                       MPF_ADD_TERMINATION (Some t) None ;;
            when added
              (channel_update i (set_waiting_for_termination true) ;;
               mrcp_server_session_subrequest_add) ;;
            if merge_mode then
              match termination_stream_mode t with
              | None => ret tt
              | Some mode =>
                  s <- get ;;
                  descriptor <- deref (offer s) ;;
                  match mrcp_session_audio_media_get descriptor 0 with
                  | None => ret tt
                  | Some rtp_media_descriptor =>
                      modify (set_offer (Some
                        (mrcp_session_audio_media_set descriptor 0
                           (set_media_mode
                              (Z.lor (media_mode rtp_media_descriptor) mode)
                              rtp_media_descriptor))))
                  end
              end
            else ret tt
        end
      else ret tt
  end.

Definition mrcp_server_resource_offer_process : M bool :=
  s <- get ;;
  descriptor <- deref (offer s) ;;
  if resource_state descriptor then
    (* setup *)
    let count := length (channels s) in
    match mrcp_server_channel_find s (resource_name descriptor) with
    | Some _ => (* channel already exists *) ret true
    | None =>
        (* create new MRCP channel instance *)
        channel <- mrcp_server_channel_create (resource_name descriptor)
                     (Z.of_nat count) 0 ;;
        if bool_decide (resource channel = None) then ret false
        else
          (* add to channel array *)
          modify (fun s => set_channels (channels s ++ [channel]) s) ;;
          engine_channel_open_and_add count true ;;
          ret true
    end
  else (* teardown *) ret true.

(** The synthesized control answer of a channel that waits for nothing. *)
Definition control_answer_set (i : nat) (control_descriptor : mrcp_control_descriptor_t)
    : M unit :=
  channel <- channel_at i ;;
  when (negb (waiting_for_channel channel))
    (s <- get ;;
     let answer := set_control_answer 0 (session_id s)
                     (mrcp_control_answer_create control_descriptor) in
     answer_update (fun a =>
       mrcp_session_control_media_set a (Z.to_nat (id channel)) answer)).

Definition mrcp_server_control_media_offer_process : M bool :=
  s <- get ;;
  descriptor <- deref (offer s) ;;
  let nelts := length (control_media_arr descriptor) in
  let count := length (channels s) in
  let count := if (nelts <? count)%nat then nelts else count in
  (* update existing control channels *)
  for_each (seq 0 count) (fun i =>
    channel_update i (set_waiting_for_channel false) ;;
    channel <- channel_at i ;;
    match mrcp_session_control_media_get descriptor i with
    | None => ret tt
    | Some control_descriptor =>
        when (control_channel channel)
          ((* send offer *)
           emit (control_channel_modify i control_descriptor) ;;
           when (mrcp_server_control_channel_modify i control_descriptor)
             (channel_update i (set_waiting_for_channel true) ;;
              mrcp_server_session_subrequest_add)) ;;
        control_answer_set i control_descriptor
    end) ;;
  (* add new control channels *)
  for_each (seq count (nelts - count)) (fun i =>
    match mrcp_session_control_media_get descriptor i with
    | None => ret tt
    | Some control_descriptor =>
        (* create new MRCP channel instance *)
        channel <- mrcp_server_channel_create
                     (control_resource_name control_descriptor)
                     (Z.of_nat i) (control_cmid control_descriptor) ;;
        s <- get ;;
        let control_descriptor :=
          set_control_session_id (session_id s) control_descriptor in
        offer_descriptor <- deref (offer s) ;;
        modify (set_offer (Some
          (mrcp_session_control_media_set offer_descriptor i control_descriptor))) ;;
        let position := length (channels s) in
        modify (fun s => set_channels (channels s ++ [channel]) s) ;;
        when (control_channel channel)
          ((* send modify connection request *)
           emit (control_channel_add position control_descriptor) ;;
           when (mrcp_server_control_channel_add position control_descriptor)
             (channel_update position (set_waiting_for_channel true) ;;
              mrcp_server_session_subrequest_add)) ;;
        control_answer_set position control_descriptor ;;
        engine_channel_open_and_add position false
    end) ;;
  ret true.

Definition mrcp_server_associations_build (i : nat)
    : M (option mpf_rtp_termination_descriptor_t) :=
  s <- get ;;
  descriptor <- deref (offer s) ;;
  slot <- slot_at i ;;
  match mrcp_session_audio_media_get descriptor (Z.to_nat (slot_id slot)) with
  | None => ret None
  | Some media_descriptor =>
      (* construct termination descriptor *)
      let rtp_descriptor :=
        {| audio_local := None; audio_remote := Some media_descriptor |} in
      let mid := media_mid media_descriptor in
      let matching :=
        List.filter (fun k => match channels s !! k with
                              | Some channel => cmid channel =? mid
                              | None => false
                              end)
          (seq 0 (length (channels s))) in
      slot_update i (set_slot_association mid (Some matching)) ;;
      ret (Some rtp_descriptor)
  end.

Definition mrcp_server_associations_set (i : nat) : M bool :=
  slot <- slot_at i ;;
  slot_channels <- deref (slot_channels slot) ;;
  for_each slot_channels (fun k =>
    channel <- channel_at k ;;
    match engine_channel channel with
    | None => ret tt
    | Some ec =>
        added <- mpf_engine_assoc_message_add MPF_ADD_ASSOCIATION
                   (termination slot) (engine_termination ec) ;;
        when added mrcp_server_session_subrequest_add
    end) ;;
  ret true.

Definition mrcp_server_av_media_offer_process : M bool :=
  s <- get ;;
  descriptor <- deref (offer s) ;;
  let nelts := length (audio_media_arr descriptor) in
  let count := length (terminations s) in
  if (nelts =? 0)%nat then (* no media to process *) ret true else
  let count := if (nelts <? count)%nat then nelts else count in
  (* update existing terminations *)
  for_each (seq 0 count) (fun i =>
    slot <- slot_at i ;;
    match termination slot with
    | None => ret tt
    | Some t =>
        (* build associations between specified RTP termination and control channels *)
        rtp_descriptor <- mrcp_server_associations_build i ;;
        match rtp_descriptor with
        | None => ret tt
        | Some rtp_descriptor =>
            (* send modify termination request *)
            added <- mpf_engine_termination_message_add
                       MPF_MODIFY_TERMINATION (Some t) (Some rtp_descriptor) ;;
            when added
              (slot_update i (set_waiting true) ;;
               mrcp_server_session_subrequest_add) ;;
            (* set built associations *)
            mrcp_server_associations_set i ;;
            ret tt
        end
    end) ;;
  (* add new terminations *)
  for_each (seq count (nelts - count)) (fun i =>
    (* create new RTP termination instance *)
    let t := mpf_termination_create i in
    (* add to termination array *)
    s <- get ;;
    let position := length (terminations s) in
    modify (fun s => set_terminations
      (terminations s ++ [ {| termination := t; slot_id := Z.of_nat i; mid := 0;
                              slot_channels := None; waiting := false |} ]) s) ;;
    rtp_descriptor <- mrcp_server_associations_build position ;;
    match rtp_descriptor with
    | None => ret tt
    | Some rtp_descriptor =>
        (* send add termination request (add to media context) *)
        added <- mpf_engine_termination_message_add
                   MPF_ADD_TERMINATION t (Some rtp_descriptor) ;;
        when added
          (slot_update position (set_waiting true) ;;
           mrcp_server_session_subrequest_add) ;;
        (* set built associations *)
        mrcp_server_associations_set position ;;
        ret tt
    end) ;;
  ret true.

(** ** Offer, dispatch, answer

    [mrcp_server_session_answer_send] dispatches the next queued message,
    which may be an offer that is answered at once, and so on down the
    queue.  The offer processing and the dispatcher are first written over
    the answer sender they call; the answer sender is then defined by
    recursion on the queue it empties. *)

Definition offer_process_with (answer_send : M bool)
    (descriptor : mrcp_session_descriptor_t) : M bool :=
  s <- get ;;
  when (bool_decide (context s = None))
    ((* initial offer received, generate session id and add to session's table *)
     when (bool_decide (session_id s = None))
       (modify (set_session_id apt_unique_id_generate)) ;;
     emit session_table_add ;;
     modify (set_context mpf_engine_context_create)) ;;
  (* store received offer *)
  modify (set_offer (Some descriptor)) ;;
  modify (set_answer (Some (mrcp_session_answer_create descriptor))) ;;
  mrcp_server_session_state_set SESSION_STATE_ANSWERING ;;
  (* first, reset/destroy existing associations and topology *)
  added <- mpf_engine_topology_message_add MPF_RESET_ASSOCIATIONS ;;
  when added mrcp_server_session_subrequest_add ;;
  version <- mrcp_session_version_get ;;
  match version with
  | MRCP_VERSION_1 =>
      processed <- mrcp_server_resource_offer_process ;;
      if processed
      then mrcp_server_av_media_offer_process ;; ret tt
      else answer_update (set_resource_state false)
  | MRCP_VERSION_2 =>
      mrcp_server_control_media_offer_process ;;
      mrcp_server_av_media_offer_process ;;
      ret tt
  end ;;
  (* apply topology based on assigned associations *)
  added <- mpf_engine_topology_message_add MPF_APPLY_TOPOLOGY ;;
  when added mrcp_server_session_subrequest_add ;;
  mpf_engine_message_send ;;
  s <- get ;;
  if subrequest_count s =? 0
  then (* send answer to client *) answer_send ;; ret true
  else ret true.

Definition signaling_message_dispatch_with (answer_send : M bool)
    (signaling_message : mrcp_signaling_message_t) : M bool :=
  emit (dispatched signaling_message) ;;
  match signaling_message with
  | SIGNALING_MESSAGE_OFFER descriptor =>
      offer_process_with answer_send descriptor ;; ret true
  | SIGNALING_MESSAGE_CONTROL channel message =>
      mrcp_server_on_message_receive channel message ;; ret true
  | SIGNALING_MESSAGE_TERMINATE =>
      mrcp_server_session_deactivate ;; ret true
  end.

(** The answer sender, with the queue it is about to pop as the argument
    of the recursion ([queue] is [session->request_queue] on entry). *)
Fixpoint answer_send_from (queue : list mrcp_signaling_message_t) : M bool :=
  s <- get ;;
  descriptor <- deref (answer s) ;;
  emit (session_answer descriptor) ;;
  let status := mrcp_session_answer descriptor in
  modify (set_offer None) ;;
  modify (set_answer None) ;;
  match queue with
  | [] =>
      modify (set_request_queue []) ;;
      modify (set_active_request None) ;;
      ret status
  | next :: rest =>
      modify (set_request_queue rest) ;;
      modify (set_active_request (Some next)) ;;
      signaling_message_dispatch_with (answer_send_from rest) next ;;
      ret status
  end.

Definition mrcp_server_session_answer_send : M bool :=
  s <- get ;; answer_send_from (request_queue s).

Definition mrcp_server_session_offer_process
    (descriptor : mrcp_session_descriptor_t) : M bool :=
  offer_process_with mrcp_server_session_answer_send descriptor.

Definition mrcp_server_signaling_message_dispatch
    (signaling_message : mrcp_signaling_message_t) : M bool :=
  signaling_message_dispatch_with mrcp_server_session_answer_send signaling_message.

Definition mrcp_server_session_subrequest_remove : M unit :=
  s <- get ;;
  if subrequest_count s =? 0 then (* error case *) ret tt else
  modify (set_subrequest_count (subrequest_count s - 1)) ;;
  s <- get ;;
  if subrequest_count s =? 0 then
    match state s with
    | SESSION_STATE_ANSWERING =>
        (* send answer to client *)
        mrcp_server_session_answer_send ;; ret tt
    | SESSION_STATE_DEACTIVATING =>
        mrcp_server_session_terminate_process ;; ret tt
    | SESSION_STATE_TERMINATING =>
        mrcp_server_session_terminate_send ;; ret tt
    | SESSION_STATE_NONE => ret tt
    end
  else ret tt.

(** ** What the collaborators call *)

Definition mrcp_server_signaling_message_process
    (signaling_message : mrcp_signaling_message_t) : M bool :=
  s <- get ;;
  match active_request s with
  | Some _ =>
      modify (fun s => set_request_queue (request_queue s ++ [signaling_message]) s) ;;
      ret true
  | None =>
      modify (set_active_request (Some signaling_message)) ;;
      mrcp_server_signaling_message_dispatch signaling_message ;;
      ret true
  end.

Definition mrcp_server_on_channel_modify (channel : nat)
    (answer : option mrcp_control_descriptor_t) (status : bool) : M bool :=
  match answer with
  | None => ret false
  | Some answer =>
      c <- channel_at channel ;;
      if negb (waiting_for_channel c) then ret false else
      channel_update channel (set_waiting_for_channel false) ;;
      s <- get ;;
      let answer := set_control_session_id (session_id s) answer in
      answer_update (fun a => mrcp_session_control_media_set a (Z.to_nat (id c)) answer) ;;
      mrcp_server_session_subrequest_remove ;;
      ret true
  end.

Definition mrcp_server_on_channel_remove (channel : nat) (status : bool) : M bool :=
  c <- channel_at channel ;;
  if negb (waiting_for_channel c) then ret false else
  channel_update channel (set_waiting_for_channel false) ;;
  mrcp_server_session_subrequest_remove ;;
  ret true.

Definition mrcp_server_on_channel_message (channel : nat) (message : mrcp_message_t)
    : M bool :=
  mrcp_server_signaling_message_process (SIGNALING_MESSAGE_CONTROL (Some channel) message).

Definition mrcp_server_on_disconnect (channel : nat) : M bool :=
  (* to be processed *)
  ret true.

Definition mrcp_server_on_engine_channel_open (channel : nat) (status : bool) : M bool :=
  when (negb status)
    (answer_update (set_status MRCP_SESSION_STATUS_UNAVAILABLE_RESOURCE)) ;;
  mrcp_server_session_subrequest_remove ;;
  ret true.

Definition mrcp_server_on_engine_channel_close (channel : nat) : M bool :=
  mrcp_server_session_subrequest_remove ;;
  ret true.

Definition mrcp_server_on_engine_channel_message (channel : nat)
    (message : mrcp_message_t) : M bool :=
  c <- channel_at channel ;;
  if negb (state_machine c) then ret false else
  (* update state machine *)
  emit (state_machine_update channel message) ;;
  ret (mrcp_state_machine_update channel message).

(** [session] is NULL when the message carries no context: [has_session]
    tells the two cases apart. *)
Definition mrcp_server_on_termination_modify (has_session : bool)
    (mpf_message : mpf_message_t) : M bool :=
  if negb has_session then ret false else
  s <- get ;;
  match mrcp_server_rtp_termination_find s (mpf_termination mpf_message) with
  | Some i =>
      (* rtp termination *)
      termination_slot <- slot_at i ;;
      if negb (waiting termination_slot) then ret false else
      slot_update i (set_waiting false) ;;
      rtp_descriptor <- deref (mpf_descriptor mpf_message) ;;
      match audio_local rtp_descriptor with
      | Some local =>
          answer_update (fun a =>
            mrcp_session_audio_media_set
              (set_ips (media_ip local) (media_ext_ip local) a)
              (Z.to_nat (slot_id termination_slot)) local)
      | None => ret tt
      end ;;
      mrcp_server_session_subrequest_remove ;;
      ret true
  | None =>
      (* engine channel termination *)
      match mrcp_server_channel_termination_find s (mpf_termination mpf_message) with
      | Some k =>
          channel <- channel_at k ;;
          when (waiting_for_termination channel)
            (channel_update k (set_waiting_for_termination false) ;;
             mrcp_server_session_subrequest_remove)
      | None => ret tt
      end ;;
      ret true
  end.

Definition mrcp_server_on_termination_subtract (has_session : bool)
    (mpf_message : mpf_message_t) : M bool :=
  if negb has_session then ret false else
  s <- get ;;
  match mrcp_server_rtp_termination_find s (mpf_termination mpf_message) with
  | Some i =>
      (* rtp termination *)
      termination_slot <- slot_at i ;;
      if negb (waiting termination_slot) then ret false else
      slot_update i (set_waiting false) ;;
      mrcp_server_session_subrequest_remove ;;
      ret true
  | None =>
      (* engine channel termination *)
      match mrcp_server_channel_termination_find s (mpf_termination mpf_message) with
      | Some k =>
          channel <- channel_at k ;;
          when (waiting_for_termination channel)
            (channel_update k (set_waiting_for_termination false) ;;
             mrcp_server_session_subrequest_remove)
      | None => ret tt
      end ;;
      ret true
  end.

Definition mrcp_server_mpf_message_process (mpf_message_container : list mpf_message_t)
    : M bool :=
  for_each mpf_message_container (fun mpf_message =>
    let has_session := bool_decide (mpf_context mpf_message <> None) in
    match mpf_message_type mpf_message with
    | MPF_MESSAGE_TYPE_RESPONSE =>
        match mpf_command_id mpf_message with
        | MPF_ADD_TERMINATION
        | MPF_MODIFY_TERMINATION =>
            mrcp_server_on_termination_modify has_session mpf_message ;; ret tt
        | MPF_SUBTRACT_TERMINATION =>
            mrcp_server_on_termination_subtract has_session mpf_message ;; ret tt
        | MPF_ADD_ASSOCIATION
        | MPF_REMOVE_ASSOCIATION
        | MPF_RESET_ASSOCIATIONS
        | MPF_APPLY_TOPOLOGY
        | MPF_DESTROY_TOPOLOGY =>
            if has_session then mrcp_server_session_subrequest_remove else fault
        end
    | MPF_MESSAGE_TYPE_EVENT => ret tt
    | MPF_MESSAGE_TYPE_REQUEST => ret tt
    end) ;;
  ret true.

Definition state_machine_on_message_dispatch (channel : nat) (message : mrcp_message_t)
    : M bool :=
  c <- channel_at channel ;;
  match message_type message with
  | MRCP_MESSAGE_TYPE_REQUEST =>
      (* send request message to resource engine for actual processing *)
      when (bool_decide (engine_channel c <> None))
        (emit (engine_channel_request_process channel message))
  | MRCP_MESSAGE_TYPE_RESPONSE =>
      (* send response message to client *)
      (if control_channel c
       then (* MRCPv2 *) emit (control_message_send channel message)
       else (* MRCPv1 *) emit (session_control_response message)) ;;
      next <- request_queue_pop_front ;;
      modify (set_active_request next) ;;
      match next with
      | Some m => mrcp_server_signaling_message_dispatch m ;; ret tt
      | None => ret tt
      end
  | MRCP_MESSAGE_TYPE_EVENT =>
      (* send event message to client *)
      if control_channel c
      then (* MRCPv2 *) emit (control_message_send channel message)
      else (* MRCPv1 *) emit (session_control_response message)
  end ;;
  ret true.

Definition state_machine_on_deactivate (channel : nat) : M bool :=
  mrcp_server_session_subrequest_remove ;;
  ret true.

(** ** The session as a reactive system

    The inputs of a session are the calls of its collaborators.  A state
    machine may call [on_dispatch] from within [mrcp_state_machine_update]:
    the session does nothing after that call but return, so the call is
    the next input here.  [on_deactivate] is taken to be called once
    [mrcp_state_machine_deactivate] has returned. *)

Inductive session_input :=
| signaling_message_process (m : mrcp_signaling_message_t)
| on_channel_modify (channel : nat) (answer : option mrcp_control_descriptor_t)
    (status : bool)
| on_channel_remove (channel : nat) (status : bool)
| on_channel_message (channel : nat) (message : mrcp_message_t)
| on_disconnect (channel : nat)
| on_engine_channel_open (channel : nat) (status : bool)
| on_engine_channel_close (channel : nat)
| on_engine_channel_message (channel : nat) (message : mrcp_message_t)
| mpf_message_process (container : list mpf_message_t)
| on_message_dispatch (channel : nat) (message : mrcp_message_t)
| on_deactivate (channel : nat).

Definition react (i : session_input) : M bool :=
  match i with
  | signaling_message_process m => mrcp_server_signaling_message_process m
  | on_channel_modify c a st => mrcp_server_on_channel_modify c a st
  | on_channel_remove c st => mrcp_server_on_channel_remove c st
  | on_channel_message c m => mrcp_server_on_channel_message c m
  | on_disconnect c => mrcp_server_on_disconnect c
  | on_engine_channel_open c st => mrcp_server_on_engine_channel_open c st
  | on_engine_channel_close c => mrcp_server_on_engine_channel_close c
  | on_engine_channel_message c m => mrcp_server_on_engine_channel_message c m
  | mpf_message_process l => mrcp_server_mpf_message_process l
  | on_message_dispatch c m => state_machine_on_message_dispatch c m
  | on_deactivate c => state_machine_on_deactivate c
  end.

(** ** Reasoning about session code *)

Lemma bind_inv {A B} (c : M A) (f : A -> M B) s b s2 ev :
  bind c f s = Some (b, s2, ev) ->
  exists a s1 e1 e2,
    c s = Some (a, s1, e1) /\ f a s1 = Some (b, s2, e2) /\ ev = e1 ++ e2.
Proof.
  unfold bind. destruct (c s) as [[[a s1] e1]|] eqn:E1; [|discriminate].
  destruct (f a s1) as [[[b' s2'] e2]|] eqn:E2; [|discriminate].
  intros [= <- <- <-]. exists a, s1, e1, e2. auto.
Qed.

Lemma bind_intro {A B} (c : M A) (f : A -> M B) s a s1 e1 :
  c s = Some (a, s1, e1) ->
  bind c f s = match f a s1 with
               | None => None
               | Some (b, s2, e2) => Some (b, s2, e1 ++ e2)
               end.
Proof. intros H. unfold bind. rewrite H. reflexivity. Qed.

(** The monad laws, at a state. *)
Lemma bind_ret_l {A B} (a : A) (f : A -> M B) s : bind (ret a) f s = f a s.
Proof. unfold bind, ret. destruct (f a s) as [[[b s2] e2]|]; reflexivity. Qed.

Lemma bind_get {B} (f : mrcp_server_session_t -> M B) s : bind get f s = f s s.
Proof. unfold bind, get. destruct (f s s) as [[[b s2] e2]|]; reflexivity. Qed.

Lemma bind_modify {B} g (f : unit -> M B) s : bind (modify g) f s = f tt (g s).
Proof. unfold bind, modify. destruct (f tt (g s)) as [[[b s2] e2]|]; reflexivity. Qed.

Lemma bind_emit {B} e (f : unit -> M B) s :
  bind (emit e) f s = match f tt s with
                      | None => None
                      | Some (b, s2, e2) => Some (b, s2, e :: e2)
                      end.
Proof. reflexivity. Qed.

Lemma bind_fault {A B} (f : A -> M B) s : bind fault f s = None.
Proof. reflexivity. Qed.

Lemma bind_assoc {A B C} (c : M A) (f : A -> M B) (g : B -> M C) s :
  bind (bind c f) g s = bind c (fun a => bind (f a) g) s.
Proof.
  unfold bind. destruct (c s) as [[[a s1] e1]|]; [|reflexivity].
  destruct (f a s1) as [[[b s2] e2]|]; [|reflexivity].
  destruct (g b s2) as [[[x s3] e3]|]; [|reflexivity].
  rewrite app_assoc. reflexivity.
Qed.

Ltac monad_simp :=
  repeat first [ rewrite bind_assoc | rewrite bind_get | rewrite bind_ret_l
               | rewrite bind_modify | rewrite bind_fault
               | progress cbn [deref when negb] ].

(** The frame of the code that neither touches the queue of signaling
    messages nor completes one: the active request, the queue and the
    protocol version stay, and a sub-request count that is not negative
    stays so. *)
Record frame (s s' : mrcp_server_session_t) : Prop := {
  frame_active : active_request s' = active_request s;
  frame_queue : request_queue s' = request_queue s;
  frame_version : mrcp_version s' = mrcp_version s;
  frame_count : 0 <= subrequest_count s -> 0 <= subrequest_count s'
}.

Lemma frame_refl s : frame s s.
Proof. split; auto. Qed.

Lemma frame_trans s1 s2 s3 : frame s1 s2 -> frame s2 s3 -> frame s1 s3.
Proof.
  intros [A1 A2 A3 A4] [B1 B2 B3 B4]. split; try congruence. auto.
Qed.

(** The events that neither hand a signaling message to the dispatcher nor
    send an answer or an MRCP message to the client. *)
Definition passive (e : session_event) : bool :=
  match e with
  | dispatched _ | session_answer _ | session_control_response _
  | control_message_send _ _ => false
  | _ => true
  end.

Definition quiet {A} (c : M A) : Prop :=
  forall s a s' ev, c s = Some (a, s', ev) ->
    frame s s' /\ forallb passive ev = true.

Lemma quiet_ret {A} (a : A) : quiet (ret a).
Proof. intros s a' s' ev [= <- <- <-]. split; [apply frame_refl | reflexivity]. Qed.

Lemma quiet_fault {A} : quiet (@fault A).
Proof. intros s a s' ev H. discriminate. Qed.

Lemma quiet_get : quiet get.
Proof. intros s a s' ev [= <- <- <-]. split; [apply frame_refl | reflexivity]. Qed.

Lemma quiet_deref {A} (p : option A) : quiet (deref p).
Proof. destruct p; [apply quiet_ret | apply quiet_fault]. Qed.

Lemma quiet_emit e : passive e = true -> quiet (emit e).
Proof.
  intros He s a s' ev [= <- <- <-]. split; [apply frame_refl|].
  simpl. rewrite He. reflexivity.
Qed.

Lemma quiet_modify f : (forall s, frame s (f s)) -> quiet (modify f).
Proof. intros Hf s a s' ev [= <- <- <-]. split; [apply Hf | reflexivity]. Qed.

Lemma quiet_bind {A B} (c : M A) (f : A -> M B) :
  quiet c -> (forall a, quiet (f a)) -> quiet (bind c f).
Proof.
  intros Hc Hf s b s2 ev H.
  apply bind_inv in H. destruct H as (a & s1 & e1 & e2 & H1 & H2 & ->).
  destruct (Hc _ _ _ _ H1) as [F1 I1]. destruct (Hf a _ _ _ _ H2) as [F2 I2].
  split; [eapply frame_trans; eassumption|].
  rewrite forallb_app, I1, I2. reflexivity.
Qed.

Lemma quiet_when b c : quiet c -> quiet (when b c).
Proof. intros H. destruct b; [exact H | apply quiet_ret]. Qed.

Lemma quiet_for_each {A} (l : list A) body :
  (forall i, quiet (body i)) -> quiet (for_each l body).
Proof.
  intros H. induction l as [|i l IH]; simpl; [apply quiet_ret|].
  apply quiet_bind; [apply H | intros _; apply IH].
Qed.

(** One step of a proof that a piece of code is quiet; [leaf] closes the
    goals about single modifications and events. *)
Create HintDb quiet_db.

Ltac quiet_step leaf :=
  match goal with
  | |- quiet _ => solve [auto with quiet_db]
  | |- quiet (bind _ _) => apply quiet_bind; [|intros ?]
  | |- quiet (ret _) => apply quiet_ret
  | |- quiet fault => apply quiet_fault
  | |- quiet get => apply quiet_get
  | |- quiet (deref _) => apply quiet_deref
  | |- quiet (when _ _) => apply quiet_when
  | |- quiet (for_each _ _) => apply quiet_for_each; intros ?
  | |- quiet (emit _) => apply quiet_emit; reflexivity
  | |- quiet (modify _) => apply quiet_modify; intros ?; leaf
  | |- quiet (if ?b then _ else _) => destruct b
  | |- quiet (match ?x with _ => _ end) => destruct x
  | |- quiet _ => assumption
  end.

Ltac frame_leaf :=
  repeat match goal with |- context [if ?b then _ else _] => destruct b end;
  split; simpl; auto; intros; lia.

Ltac quiet_tac := repeat quiet_step frame_leaf.

(** *** The quiet part of the session code *)

Lemma quiet_answer_update f : quiet (answer_update f).
Proof. unfold answer_update. quiet_tac. Qed.

Lemma quiet_channel_at i : quiet (channel_at i).
Proof. unfold channel_at. quiet_tac. Qed.

Lemma quiet_channel_update i f : quiet (channel_update i f).
Proof. unfold channel_update. quiet_tac. Qed.

Lemma quiet_slot_at i : quiet (slot_at i).
Proof. unfold slot_at. quiet_tac. Qed.

Lemma quiet_slot_update i f : quiet (slot_update i f).
Proof. unfold slot_update. quiet_tac. Qed.

Lemma quiet_state_set st : quiet (mrcp_server_session_state_set st).
Proof. unfold mrcp_server_session_state_set. quiet_tac. Qed.

Lemma quiet_subrequest_add : quiet mrcp_server_session_subrequest_add.
Proof. unfold mrcp_server_session_subrequest_add. quiet_tac. Qed.

Lemma quiet_version_get : quiet mrcp_session_version_get.
Proof. unfold mrcp_session_version_get. quiet_tac. Qed.

Lemma quiet_batch_add c : quiet (batch_add c).
Proof. unfold batch_add. quiet_tac. Qed.

#[local] Hint Resolve quiet_answer_update quiet_channel_at quiet_channel_update
  quiet_slot_at quiet_slot_update quiet_state_set quiet_subrequest_add
  quiet_version_get quiet_batch_add : quiet_db.

Lemma quiet_termination_message_add c t d :
  quiet (mpf_engine_termination_message_add c t d).
Proof. unfold mpf_engine_termination_message_add. quiet_tac. Qed.

Lemma quiet_assoc_message_add c t1 t2 : quiet (mpf_engine_assoc_message_add c t1 t2).
Proof. unfold mpf_engine_assoc_message_add. quiet_tac. Qed.

Lemma quiet_topology_message_add c : quiet (mpf_engine_topology_message_add c).
Proof. unfold mpf_engine_topology_message_add. quiet_tac. Qed.

Lemma quiet_message_send : quiet mpf_engine_message_send.
Proof. unfold mpf_engine_message_send. quiet_tac. Qed.

Lemma quiet_engine_channel_create name : quiet (mrcp_server_engine_channel_create name).
Proof. unfold mrcp_server_engine_channel_create. quiet_tac. Qed.

#[local] Hint Resolve quiet_termination_message_add quiet_assoc_message_add
  quiet_topology_message_add quiet_message_send quiet_engine_channel_create : quiet_db.

Lemma quiet_channel_create name id cmid : quiet (mrcp_server_channel_create name id cmid).
Proof. unfold mrcp_server_channel_create. quiet_tac. Qed.

Lemma quiet_terminate_send : quiet mrcp_server_session_terminate_send.
Proof. unfold mrcp_server_session_terminate_send. quiet_tac. Qed.

#[local] Hint Resolve quiet_channel_create quiet_terminate_send : quiet_db.

Lemma quiet_terminate_process : quiet mrcp_server_session_terminate_process.
Proof. unfold mrcp_server_session_terminate_process. quiet_tac. Qed.

#[local] Hint Resolve quiet_terminate_process : quiet_db.

Lemma quiet_deactivate : quiet mrcp_server_session_deactivate.
Proof. unfold mrcp_server_session_deactivate. quiet_tac. Qed.

Lemma quiet_on_message_receive channel message :
  quiet (mrcp_server_on_message_receive channel message).
Proof. unfold mrcp_server_on_message_receive. quiet_tac. Qed.

Lemma quiet_engine_channel_open_and_add i merge_mode :
  quiet (engine_channel_open_and_add i merge_mode).
Proof. unfold engine_channel_open_and_add. quiet_tac. Qed.

Lemma quiet_control_answer_set i d : quiet (control_answer_set i d).
Proof. unfold control_answer_set. quiet_tac. Qed.

#[local] Hint Resolve quiet_deactivate quiet_on_message_receive
  quiet_engine_channel_open_and_add quiet_control_answer_set : quiet_db.

Lemma quiet_resource_offer_process : quiet mrcp_server_resource_offer_process.
Proof. unfold mrcp_server_resource_offer_process. quiet_tac. Qed.

Lemma quiet_control_media_offer_process : quiet mrcp_server_control_media_offer_process.
Proof. unfold mrcp_server_control_media_offer_process. quiet_tac. Qed.

Lemma quiet_associations_build i : quiet (mrcp_server_associations_build i).
Proof. unfold mrcp_server_associations_build. quiet_tac. Qed.

Lemma quiet_associations_set i : quiet (mrcp_server_associations_set i).
Proof. unfold mrcp_server_associations_set. quiet_tac. Qed.

#[local] Hint Resolve quiet_resource_offer_process quiet_control_media_offer_process
  quiet_associations_build quiet_associations_set : quiet_db.

Lemma quiet_av_media_offer_process : quiet mrcp_server_av_media_offer_process.
Proof. unfold mrcp_server_av_media_offer_process. quiet_tac. Qed.

#[local] Hint Resolve quiet_av_media_offer_process : quiet_db.

(** *** Code that ends by calling the answer sender *)

(** Quiet code that may end with one call of [k]. *)
Definition quiet_until (k : M bool) {A} (c : M A) : Prop :=
  forall s a s' ev, c s = Some (a, s', ev) ->
    (frame s s' /\ forallb passive ev = true) \/
    (exists s1 e1 r e2,
        frame s s1 /\ forallb passive e1 = true /\
        k s1 = Some (r, s', e2) /\ ev = e1 ++ e2).

Lemma quiet_until_quiet k {A} (c : M A) : quiet c -> quiet_until k c.
Proof. intros H s a s' ev E. left. eapply H, E. Qed.

Lemma quiet_until_bind k {A B} (c : M A) (f : A -> M B) :
  quiet c -> (forall a, quiet_until k (f a)) -> quiet_until k (bind c f).
Proof.
  intros Hc Hf s b s2 ev H.
  apply bind_inv in H. destruct H as (a & s1 & e1 & e2 & H1 & H2 & ->).
  destruct (Hc _ _ _ _ H1) as [F1 I1].
  destruct (Hf a _ _ _ _ H2) as [[F2 I2] | (s3 & e3 & r & e4 & F2 & I2 & K & ->)].
  - left. split; [eapply frame_trans; eassumption|].
    rewrite forallb_app, I1, I2. reflexivity.
  - right. exists s3, (e1 ++ e3), r, e4.
    split; [eapply frame_trans; eassumption|].
    split; [rewrite forallb_app, I1, I2; reflexivity|].
    split; [assumption | apply app_assoc].
Qed.

Lemma quiet_until_call k {A} (x : A) : quiet_until k (k ;; ret x).
Proof.
  intros s a s' ev H.
  apply bind_inv in H. destruct H as (r & s1 & e1 & e2 & H1 & H2 & ->).
  injection H2 as <- <- <-.
  right. exists s, [], r, e1. rewrite app_nil_r.
  split; [apply frame_refl|]. auto.
Qed.

(** Two pieces of code that do the same from every state with the queue [q]. *)
Definition agree (q : list mrcp_signaling_message_t) {A} (c c' : M A) : Prop :=
  forall s, request_queue s = q -> c s = c' s.

Lemma agree_refl q {A} (c : M A) : agree q c c.
Proof. intros s _. reflexivity. Qed.

Lemma agree_bind q {A B} (c : M A) (f f' : A -> M B) :
  quiet c -> (forall a, agree q (f a) (f' a)) -> agree q (bind c f) (bind c f').
Proof.
  intros Hc Hf s Hq. unfold bind.
  destruct (c s) as [[[a s1] e1]|] eqn:E; [|reflexivity].
  destruct (Hc _ _ _ _ E) as [F _].
  rewrite (Hf a s1); [reflexivity|].
  rewrite (frame_queue _ _ F). exact Hq.
Qed.

Lemma agree_call q {A B} (k k' : M A) (f : A -> M B) :
  agree q k k' -> agree q (bind k f) (bind k' f).
Proof. intros H s Hq. unfold bind. rewrite (H s Hq). reflexivity. Qed.

Lemma offer_process_with_quiet_until k d : quiet_until k (offer_process_with k d).
Proof.
  unfold offer_process_with.
  repeat (apply quiet_until_bind; [quiet_tac | intros ?]).
  destruct (subrequest_count _ =? 0).
  - apply quiet_until_call.
  - apply quiet_until_quiet. quiet_tac.
Qed.

Lemma offer_process_with_agree q k k' d :
  agree q k k' -> agree q (offer_process_with k d) (offer_process_with k' d).
Proof.
  intros H. unfold offer_process_with.
  repeat (apply agree_bind; [quiet_tac | intros ?]).
  destruct (subrequest_count _ =? 0).
  - apply agree_call, H.
  - apply agree_refl.
Qed.

Lemma agree_emit q e {B} (f f' : unit -> M B) :
  agree q (f tt) (f' tt) -> agree q (bind (emit e) f) (bind (emit e) f').
Proof. intros H s Hq. unfold bind, emit. rewrite (H s Hq). reflexivity. Qed.

Lemma signaling_message_dispatch_with_agree q k k' m :
  agree q k k' ->
  agree q (signaling_message_dispatch_with k m) (signaling_message_dispatch_with k' m).
Proof.
  intros H. unfold signaling_message_dispatch_with.
  apply agree_emit.
  destruct m; try apply agree_refl.
  apply agree_call. apply offer_process_with_agree, H.
Qed.

Lemma signaling_message_dispatch_with_inv k m s r s' ev :
  signaling_message_dispatch_with k m s = Some (r, s', ev) ->
  exists ev', ev = dispatched m :: ev' /\
    ((frame s s' /\ forallb passive ev' = true) \/
     (exists s1 e1 r1 e2,
         frame s s1 /\ forallb passive e1 = true /\
         k s1 = Some (r1, s', e2) /\ ev' = e1 ++ e2)).
Proof.
  unfold signaling_message_dispatch_with. intros H.
  apply bind_inv in H. destruct H as ([] & s0 & e0 & ev' & H0 & H & ->).
  injection H0 as <- <-. exists ev'. split; [reflexivity|].
  assert (Q : quiet_until k
    (match m with
     | SIGNALING_MESSAGE_OFFER descriptor => offer_process_with k descriptor ;; ret true
     | SIGNALING_MESSAGE_CONTROL channel message =>
         mrcp_server_on_message_receive channel message ;; ret true
     | SIGNALING_MESSAGE_TERMINATE => mrcp_server_session_deactivate ;; ret true
     end)).
  { destruct m.
    - intros s1 a s2 e E.
      apply bind_inv in E. destruct E as (b & s3 & e1 & e2 & E1 & E2 & ->).
      injection E2 as <- <- <-. rewrite app_nil_r.
      eapply offer_process_with_quiet_until, E1.
    - apply quiet_until_quiet. quiet_tac.
    - apply quiet_until_quiet. quiet_tac. }
  exact (Q _ _ _ _ H).
Qed.

(** *** The answer sender satisfies the equation of the source

    [mrcp_server_session_answer_send] as the source has it, calling [self]
    where the source calls the function itself through the dispatcher. *)
Definition answer_send_body (self : M bool) : M bool :=
  s <- get ;;
  descriptor <- deref (answer s) ;;
  emit (session_answer descriptor) ;;
  let status := mrcp_session_answer descriptor in
  modify (set_offer None) ;;
  modify (set_answer None) ;;
  next <- request_queue_pop_front ;;
  modify (set_active_request next) ;;
  match next with
  | Some m => signaling_message_dispatch_with self m ;; ret status
  | None => ret status
  end.

Lemma answer_send_from_agree rest :
  agree rest (answer_send_from rest) mrcp_server_session_answer_send.
Proof.
  intros s Hq. unfold mrcp_server_session_answer_send, bind, get. rewrite Hq.
  destruct (answer_send_from rest s) as [[[r s'] ev]|]; reflexivity.
Qed.

Lemma answer_send_unfold s :
  mrcp_server_session_answer_send s =
  answer_send_body mrcp_server_session_answer_send s.
Proof.
  unfold mrcp_server_session_answer_send at 1. rewrite bind_get.
  unfold answer_send_body.
  destruct (request_queue s) as [|next rest] eqn:Hq; cbn [answer_send_from].
  - rewrite !bind_get.
    destruct (answer s) as [d|]; cbn [deref]; [|rewrite !bind_fault; reflexivity].
    rewrite !bind_ret_l, !bind_emit, !bind_modify.
    unfold request_queue_pop_front. rewrite bind_assoc, bind_get.
    cbn [request_queue set_answer set_offer]. rewrite Hq.
    rewrite !bind_ret_l, !bind_modify.
    destruct s; simpl in *; subst; reflexivity.
  - rewrite !bind_get.
    destruct (answer s) as [d|]; cbn [deref]; [|rewrite !bind_fault; reflexivity].
    rewrite !bind_ret_l, !bind_emit, !bind_modify.
    unfold request_queue_pop_front. rewrite bind_assoc, bind_get.
    cbn [request_queue set_answer set_offer]. rewrite Hq.
    rewrite bind_assoc, !bind_modify, !bind_ret_l, !bind_modify.
    unfold bind.
    rewrite (signaling_message_dispatch_with_agree rest (answer_send_from rest)
               mrcp_server_session_answer_send next (answer_send_from_agree rest));
      reflexivity.
Qed.


(** ** The sub-request count is never negative *)

Definition nonneg {A} (c : M A) : Prop :=
  forall s a s' ev, c s = Some (a, s', ev) ->
    0 <= subrequest_count s -> 0 <= subrequest_count s'.

Lemma nonneg_quiet {A} (c : M A) : quiet c -> nonneg c.
Proof. intros H s a s' ev E. apply (frame_count _ _ (proj1 (H _ _ _ _ E))). Qed.

Lemma nonneg_bind {A B} (c : M A) (f : A -> M B) :
  nonneg c -> (forall a, nonneg (f a)) -> nonneg (bind c f).
Proof.
  intros Hc Hf s b s2 ev H H0.
  apply bind_inv in H. destruct H as (a & s1 & e1 & e2 & H1 & H2 & ->).
  eapply Hf; [eassumption|]. eapply Hc; eassumption.
Qed.

Lemma nonneg_for_each {A} (l : list A) body :
  (forall i, nonneg (body i)) -> nonneg (for_each l body).
Proof.
  intros H. induction l as [|i l IH]; simpl; [apply nonneg_quiet, quiet_ret|].
  apply nonneg_bind; [apply H | intros _; apply IH].
Qed.

Lemma nonneg_quiet_until k {A} (c : M A) :
  nonneg k -> quiet_until k c -> nonneg c.
Proof.
  intros Hk Hc s a s' ev E H0.
  destruct (Hc _ _ _ _ E) as [[F _] | (s1 & e1 & r & e2 & F & _ & K & _)].
  - apply (frame_count _ _ F H0).
  - eapply Hk; [eassumption|]. apply (frame_count _ _ F H0).
Qed.

Lemma nonneg_signaling_message_dispatch_with k m :
  nonneg k -> nonneg (signaling_message_dispatch_with k m).
Proof.
  intros Hk s r s' ev E H0.
  apply signaling_message_dispatch_with_inv in E.
  destruct E as (ev' & _ & [[F _] | (s1 & e1 & r1 & e2 & F & _ & K & _)]).
  - apply (frame_count _ _ F H0).
  - eapply Hk; [eassumption|]. apply (frame_count _ _ F H0).
Qed.

Lemma nonneg_modify f :
  (forall s, 0 <= subrequest_count s -> 0 <= subrequest_count (f s)) ->
  nonneg (modify f).
Proof. intros Hf s a s' ev [= <- <- <-]. apply Hf. Qed.

Lemma nonneg_emit e : nonneg (emit e).
Proof. intros s a s' ev [= <- <- <-]. auto. Qed.

Ltac nonneg_step :=
  match goal with
  | |- nonneg _ => assumption
  | |- nonneg _ => solve [apply nonneg_quiet; auto with quiet_db]
  | |- nonneg (bind _ _) => apply nonneg_bind; [|intros ?]
  | |- nonneg (ret _) => apply nonneg_quiet, quiet_ret
  | |- nonneg fault => apply nonneg_quiet, quiet_fault
  | |- nonneg get => apply nonneg_quiet, quiet_get
  | |- nonneg (deref _) => apply nonneg_quiet, quiet_deref
  | |- nonneg (for_each _ _) => apply nonneg_for_each; intros ?
  | |- nonneg (emit _) => apply nonneg_emit
  | |- nonneg (modify _) => apply nonneg_modify; intros ?; simpl; solve [auto]
  | |- nonneg (when ?b _) => destruct b; unfold when
  | |- nonneg (if ?b then _ else _) => destruct b
  | |- nonneg (match ?x with _ => _ end) => destruct x
  end.

Ltac nonneg_tac := repeat nonneg_step.

Lemma nonneg_answer_send_from queue : nonneg (answer_send_from queue).
Proof.
  induction queue as [|next rest IH]; cbn [answer_send_from]; nonneg_tac.
  apply nonneg_signaling_message_dispatch_with, IH.
Qed.

Lemma nonneg_answer_send : nonneg mrcp_server_session_answer_send.
Proof.
  unfold mrcp_server_session_answer_send. nonneg_tac.
  apply nonneg_answer_send_from.
Qed.

Lemma nonneg_signaling_message_dispatch m :
  nonneg (mrcp_server_signaling_message_dispatch m).
Proof. apply nonneg_signaling_message_dispatch_with, nonneg_answer_send. Qed.

Lemma nonneg_subrequest_remove : nonneg mrcp_server_session_subrequest_remove.
Proof.
  intros s a s' ev E H0. unfold mrcp_server_session_subrequest_remove in E.
  rewrite bind_get in E.
  destruct (Z.eqb_spec (subrequest_count s) 0) as [Hz|Hz].
  - injection E as <- <- <-. exact H0.
  - rewrite bind_modify, bind_get in E. cbn [subrequest_count set_subrequest_count] in E.
    assert (H1 : 0 <= subrequest_count (set_subrequest_count (subrequest_count s - 1) s))
      by (simpl; lia).
    revert E H1. generalize (set_subrequest_count (subrequest_count s - 1) s).
    intros s1 E H1.
    assert (N : nonneg
      (if subrequest_count s - 1 =? 0
       then match state s1 with
            | SESSION_STATE_NONE => ret ()
            | SESSION_STATE_ANSWERING => mrcp_server_session_answer_send;; ret ()
            | SESSION_STATE_DEACTIVATING => mrcp_server_session_terminate_process;; ret ()
            | SESSION_STATE_TERMINATING => mrcp_server_session_terminate_send;; ret ()
            end
       else ret ())).
    { pose proof nonneg_answer_send. nonneg_tac. }
    eapply N; eassumption.
Qed.

Lemma nonneg_react i : nonneg (react i).
Proof.
  pose proof nonneg_answer_send. pose proof nonneg_subrequest_remove.
  pose proof nonneg_signaling_message_dispatch.
  destruct i; simpl.
  - unfold mrcp_server_signaling_message_process. nonneg_tac. apply H1.
  - unfold mrcp_server_on_channel_modify. nonneg_tac.
  - unfold mrcp_server_on_channel_remove. nonneg_tac.
  - unfold mrcp_server_on_channel_message, mrcp_server_signaling_message_process.
    nonneg_tac. apply H1.
  - unfold mrcp_server_on_disconnect. nonneg_tac.
  - unfold mrcp_server_on_engine_channel_open. nonneg_tac.
  - unfold mrcp_server_on_engine_channel_close. nonneg_tac.
  - unfold mrcp_server_on_engine_channel_message. nonneg_tac.
  - unfold mrcp_server_mpf_message_process, mrcp_server_on_termination_modify,
      mrcp_server_on_termination_subtract. nonneg_tac.
  - unfold state_machine_on_message_dispatch, request_queue_pop_front. nonneg_tac.
    apply H1.
  - unfold state_machine_on_deactivate. nonneg_tac.
Qed.

(** What the session does with a sequence of inputs. *)
Fixpoint run (inputs : list session_input) : M unit :=
  match inputs with
  | [] => ret tt
  | i :: rest => react i ;; run rest
  end.

Lemma nonneg_run inputs : nonneg (run inputs).
Proof.
  induction inputs as [|i rest IH]; simpl.
  - apply nonneg_quiet, quiet_ret.
  - apply nonneg_bind; [apply nonneg_react | intros _; exact IH].
Qed.

(** C8: the sub-request count never becomes negative: no reaction of the
    session to an input makes a count that is not negative negative, so it
    is not negative after any sequence of inputs to a new session; a
    completion that arrives when the count is zero is ignored (the session
    is left as it is and nothing is asked of anyone); and entering a state
    leaves the count at zero, whatever it was. *)
Theorem subrequest_count_never_negative :
  (forall i s r s' ev,
     0 <= subrequest_count s -> react i s = Some (r, s', ev) ->
     0 <= subrequest_count s') /\
  (forall version inputs s ev,
     run inputs (mrcp_server_session_create version) = Some (tt, s, ev) ->
     0 <= subrequest_count s) /\
  (forall s, subrequest_count s = 0 ->
     mrcp_server_session_subrequest_remove s = Some (tt, s, [])) /\
  (forall st s, exists s',
     mrcp_server_session_state_set st s = Some (tt, s', []) /\
     subrequest_count s' = 0 /\ state s' = st /\
     channels s' = channels s /\ terminations s' = terminations s /\
     active_request s' = active_request s /\ request_queue s' = request_queue s /\
     offer s' = offer s /\ answer s' = answer s /\
     mpf_task_msg s' = mpf_task_msg s).
Proof.
  split; [|split; [|split]].
  - intros i s r s' ev H0 E. eapply nonneg_react; eassumption.
  - intros version inputs s ev E. eapply nonneg_run; [eassumption|]. simpl. lia.
  - intros s Hz. unfold mrcp_server_session_subrequest_remove.
    rewrite bind_get, Hz. reflexivity.
  - intros st s. unfold mrcp_server_session_state_set, modify.
    eexists. split; [reflexivity|].
    destruct (Z.eqb_spec (subrequest_count s) 0) as [Hz|Hz]; simpl; auto 10.
Qed.

(** ** Failures while a channel is set up *)

(** A channel made for a name that resolves to no resource: the answer
    takes the status NO_SUCH_RESOURCE, and the channel has neither a
    resource nor an engine channel. *)
Lemma channel_create_no_resource s a name id cmid :
  answer s = Some a ->
  name = None \/ mrcp_resource_get name = None ->
  exists channel,
    mrcp_server_channel_create name id cmid s =
      Some (channel,
            set_answer (Some (set_status MRCP_SESSION_STATUS_NO_SUCH_RESOURCE a)) s,
            []) /\
    resource channel = None /\ engine_channel channel = None.
Proof.
  intros Ha Hname. unfold mrcp_server_channel_create.
  assert (E : answer_update (set_status MRCP_SESSION_STATUS_NO_SUCH_RESOURCE) s =
              Some (tt, set_answer
                      (Some (set_status MRCP_SESSION_STATUS_NO_SUCH_RESOURCE a)) s, [])).
  { unfold answer_update. rewrite bind_get, Ha. cbn [deref].
    rewrite bind_ret_l. reflexivity. }
  destruct name as [n|].
  - destruct Hname as [Hn|Hn]; [discriminate|]. rewrite Hn.
    eexists. rewrite (bind_intro _ _ _ _ _ _ E). cbn [ret app].
    split; [reflexivity|]. split; reflexivity.
  - eexists. rewrite (bind_intro _ _ _ _ _ _ E). cbn [ret app].
    split; [reflexivity|]. split; reflexivity.
Qed.

(** The descriptor [a'] is [a] with the status [st], read field by field. *)
Definition status_is (st : mrcp_session_status_e)
    (a a' : mrcp_session_descriptor_t) : Prop :=
  status a' = st /\
  origin a' = origin a /\ ip a' = ip a /\ ext_ip a' = ext_ip a /\
  resource_name a' = resource_name a /\ resource_state a' = resource_state a /\
  control_media_arr a' = control_media_arr a /\
  audio_media_arr a' = audio_media_arr a /\
  video_media_arr a' = video_media_arr a.

(** The session [s'] is [s] with the answer [a'], read field by field. *)
Definition answer_is (a' : mrcp_session_descriptor_t)
    (s s' : mrcp_server_session_t) : Prop :=
  answer s' = Some a' /\
  session_id s' = session_id s /\ mrcp_version s' = mrcp_version s /\
  context s' = context s /\ terminations s' = terminations s /\
  channels s' = channels s /\ active_request s' = active_request s /\
  request_queue s' = request_queue s /\ offer s' = offer s /\
  mpf_task_msg s' = mpf_task_msg s /\
  subrequest_count s' = subrequest_count s /\ state s' = state s.

Lemma status_is_set st a : status_is st a (set_status st a).
Proof. unfold status_is. cbn. auto 10. Qed.

Lemma answer_is_set a' s : answer_is a' s (set_answer (Some a') s).
Proof. unfold answer_is. cbn. auto 15. Qed.

(** C7: during offer processing (the session holds an answer), a resource
    name that resolves to no known resource leaves the session with an
    answer whose status is NO_SUCH_RESOURCE (and that is otherwise the
    answer it had) and gives a channel with no resource and no engine
    channel; a failure to create the engine channel of a known resource
    leaves the status UNACCEPTABLE_RESOURCE; and an engine channel open
    that completes with a failure makes the status UNAVAILABLE_RESOURCE
    before the sub-request is counted off, so that, while the offer is
    being answered, the answer either stays in the session with that
    status or is sent to the client with it. *)
Theorem resource_failures_set_answer_status s a :
  answer s = Some a ->
  (forall name id cmid,
     name = None \/ mrcp_resource_get name = None ->
     exists channel s' a',
       mrcp_server_channel_create name id cmid s = Some (channel, s', []) /\
       answer s' = Some a' /\
       status a' = MRCP_SESSION_STATUS_NO_SUCH_RESOURCE /\
       status_is MRCP_SESSION_STATUS_NO_SUCH_RESOURCE a a' /\
       answer_is a' s s' /\
       resource channel = None /\ engine_channel channel = None) /\
  (forall name r id cmid,
     name <> None -> mrcp_resource_get name = Some r ->
     mrcp_server_engine_channel_create name s = Some (None, s, []) ->
     exists channel s' a',
       mrcp_server_channel_create name id cmid s = Some (channel, s', []) /\
       answer s' = Some a' /\
       status a' = MRCP_SESSION_STATUS_UNACCEPTABLE_RESOURCE /\
       status_is MRCP_SESSION_STATUS_UNACCEPTABLE_RESOURCE a a' /\
       answer_is a' s s' /\
       resource channel = Some r /\ engine_channel channel = None) /\
  (forall channel,
     exists s1 a1,
       answer s1 = Some a1 /\
       status a1 = MRCP_SESSION_STATUS_UNAVAILABLE_RESOURCE /\
       status_is MRCP_SESSION_STATUS_UNAVAILABLE_RESOURCE a a1 /\
       answer_is a1 s s1 /\
       mrcp_server_on_engine_channel_open channel false s =
         (mrcp_server_session_subrequest_remove ;; ret true) s1 /\
       (state s = SESSION_STATE_ANSWERING ->
        forall r s' ev,
          mrcp_server_on_engine_channel_open channel false s = Some (r, s', ev) ->
          (ev = [] /\ answer s' = Some a1) \/
          (exists d rest,
             ev = session_answer d :: rest /\
             status d = MRCP_SESSION_STATUS_UNAVAILABLE_RESOURCE /\
             status_is MRCP_SESSION_STATUS_UNAVAILABLE_RESOURCE a d))).
Proof.
  intros Ha. split; [|split].
  - intros name id cmid Hname.
    destruct (channel_create_no_resource s a name id cmid Ha Hname)
      as (channel & E & Hr & He).
    exists channel, (set_answer (Some (set_status MRCP_SESSION_STATUS_NO_SUCH_RESOURCE a)) s),
      (set_status MRCP_SESSION_STATUS_NO_SUCH_RESOURCE a).
    split; [exact E|]. split; [reflexivity|]. split; [reflexivity|].
    split; [apply status_is_set|]. split; [apply answer_is_set|]. auto.
  - intros name r id cmid Hname Hr He. unfold mrcp_server_channel_create.
    destruct name as [n|]; [|congruence]. rewrite Hr.
    unfold mrcp_session_version_get. rewrite bind_assoc, bind_get, bind_ret_l.
    rewrite (bind_intro _ _ _ _ _ _ He). cbn [app].
    assert (E : answer_update (set_status MRCP_SESSION_STATUS_UNACCEPTABLE_RESOURCE) s =
                Some (tt, set_answer
                        (Some (set_status MRCP_SESSION_STATUS_UNACCEPTABLE_RESOURCE a)) s,
                      [])).
    { unfold answer_update. rewrite bind_get, Ha. cbn [deref].
      rewrite bind_ret_l. reflexivity. }
    rewrite (bind_intro _ _ _ _ _ _ E). cbn [ret app].
    eexists _, _, _. split; [reflexivity|].
    split; [reflexivity|]. split; [reflexivity|].
    split; [apply status_is_set|]. split; [apply answer_is_set|].
    split; reflexivity.
  - intros channel.
    set (a1 := set_status MRCP_SESSION_STATUS_UNAVAILABLE_RESOURCE a).
    set (s1 := set_answer (Some a1) s).
    assert (E : mrcp_server_on_engine_channel_open channel false s =
                (mrcp_server_session_subrequest_remove ;; ret true) s1).
    { unfold mrcp_server_on_engine_channel_open. cbn [negb when].
      unfold answer_update. rewrite !bind_assoc, bind_get, Ha. cbn [deref].
      rewrite bind_assoc, bind_ret_l, bind_modify. reflexivity. }
    exists s1, a1.
    split; [reflexivity|]. split; [reflexivity|].
    split; [apply status_is_set|]. split; [apply answer_is_set|].
    split; [exact E|].
    intros Hst r s' ev. rewrite E. clear E. intros E.
    apply bind_inv in E. destruct E as ([] & s2 & e1 & e2 & E1 & E2 & ->).
    injection E2 as <- <- <-. rewrite app_nil_r.
    unfold mrcp_server_session_subrequest_remove in E1. rewrite bind_get in E1.
    destruct (subrequest_count s1 =? 0).
    { injection E1 as <- <-. left. auto. }
    rewrite bind_modify, bind_get in E1.
    cbn [subrequest_count set_subrequest_count state] in E1.
    destruct (subrequest_count s1 - 1 =? 0).
    2:{ injection E1 as <- <-. left. auto. }
    replace (state s1) with SESSION_STATE_ANSWERING in E1 by (symmetry; exact Hst).
    right. apply bind_inv in E1. destruct E1 as (b & s3 & e3 & e4 & E3 & E4 & ->).
    injection E4 as <- <-. rewrite app_nil_r.
    rewrite answer_send_unfold in E3. unfold answer_send_body in E3.
    rewrite bind_get in E3. cbn [answer set_subrequest_count set_answer s1] in E3.
    cbn [deref] in E3. rewrite bind_ret_l, bind_emit in E3.
    match type of E3 with
    | match ?x with _ => _ end = _ => destruct x as [[[b' s4] e5]|]; [|discriminate]
    end.
    injection E3 as <- <- <-. exists a1, e5.
    split; [reflexivity|]. split; [reflexivity | apply status_is_set].
Qed.

(** ** Termination responses nobody waits for *)

(** The termination of the message matches an RTP termination slot, or else
    a channel, whose waiting flag is not set; with the boolean that the
    handlers return in each case. *)
Inductive not_waiting (s : mrcp_server_session_t) (m : mpf_message_t) : bool -> Prop :=
| rtp_slot_not_waiting i slot :
    mrcp_server_rtp_termination_find s (mpf_termination m) = Some i ->
    terminations s !! i = Some slot ->
    waiting slot = false ->
    not_waiting s m false
| channel_not_waiting k channel :
    mrcp_server_rtp_termination_find s (mpf_termination m) = None ->
    mrcp_server_channel_termination_find s (mpf_termination m) = Some k ->
    channels s !! k = Some channel ->
    waiting_for_termination channel = false ->
    not_waiting s m true.

Definition termination_response (m : mpf_message_t) : Prop :=
  mpf_message_type m = MPF_MESSAGE_TYPE_RESPONSE /\
  (mpf_command_id m = MPF_ADD_TERMINATION \/
   mpf_command_id m = MPF_MODIFY_TERMINATION \/
   mpf_command_id m = MPF_SUBTRACT_TERMINATION).

(** C9 (amended): for every ADD_TERMINATION, MODIFY_TERMINATION or
    SUBTRACT_TERMINATION response, if the waiting flag of the matching RTP
    termination slot is not set the handler returns false, and if no RTP
    slot matches and the waiting_for_termination flag of the matching
    channel is not set the handler returns true; in both cases it changes
    nothing (the sub-request count is not decremented, the answer is not
    modified, nothing is asked of anyone), and so does the processing of
    the message as a whole. *)
Theorem termination_response_not_waited_for s m r :
  not_waiting s m r ->
  mrcp_server_on_termination_modify true m s = Some (r, s, []) /\
  mrcp_server_on_termination_subtract true m s = Some (r, s, []) /\
  (mpf_context m <> None -> termination_response m ->
   mrcp_server_mpf_message_process [m] s = Some (true, s, [])).
Proof.
  intros H.
  assert (E : mrcp_server_on_termination_modify true m s = Some (r, s, []) /\
              mrcp_server_on_termination_subtract true m s = Some (r, s, [])).
  { unfold mrcp_server_on_termination_modify, mrcp_server_on_termination_subtract.
    cbn [negb]. rewrite !bind_get.
    destruct H as [i slot Hf Hs Hw | k channel Hf Hc Hk Hw]; rewrite Hf.
    - unfold slot_at. monad_simp. rewrite Hs. monad_simp.
      rewrite Hw. split; reflexivity.
    - rewrite Hc. unfold channel_at. monad_simp. rewrite Hk. monad_simp.
      rewrite Hw. monad_simp. split; reflexivity. }
  destruct E as [E1 E2]. split; [exact E1|]. split; [exact E2|].
  intros Hctx [Ht Hcmd]. unfold mrcp_server_mpf_message_process. cbn [for_each].
  rewrite Ht. rewrite bool_decide_eq_true_2 by exact Hctx.
  destruct Hcmd as [-> | [-> | ->]];
    rewrite !bind_assoc;
    [rewrite (bind_intro _ _ _ _ _ _ E1) | rewrite (bind_intro _ _ _ _ _ _ E1)
     | rewrite (bind_intro _ _ _ _ _ _ E2)];
    reflexivity.
Qed.

(** ** An MRCPv1 offer that names no known resource *)

Lemma state_set_run st (s : mrcp_server_session_t) :
  mrcp_server_session_state_set st s =
  Some (tt, set_state st (set_subrequest_count 0 s), []).
Proof.
  unfold mrcp_server_session_state_set, modify. do 3 f_equal.
  destruct (Z.eqb_spec (subrequest_count s) 0) as [E|E]; cbn [negb]; [|reflexivity].
  destruct s; simpl in *; subst; reflexivity.
Qed.

Definition topology_message (command : mpf_command_type_e) : mpf_command_t :=
  {| command_id := command; command_termination := None;
     command_assoc_termination := None; command_descriptor := None |}.

Definition topology_command (c : mpf_command_t) : Prop :=
  command_id c = MPF_RESET_ASSOCIATIONS \/ command_id c = MPF_APPLY_TOPOLOGY.

Lemma batch_add_run (c : mpf_command_t) (s : mrcp_server_session_t) :
  exists added : bool,
    batch_add c s =
      Some (added,
            (if added then set_mpf_task_msg (mpf_task_msg s ++ [c]) s else s), []).
Proof.
  unfold batch_add. destruct (mpf_engine_message_add c).
  - exists true. monad_simp. reflexivity.
  - exists false. reflexivity.
Qed.

(** C10: for an MRCPv1 offer whose resource processing fails (the offer
    asks for a resource, no channel has it, and its name resolves to no
    resource), processing the offer sets the resource_state of the answer
    to FALSE and skips the audio media altogether: up to and including the
    batch it sends, it leaves the RTP termination slots and the channels
    as they were and adds nothing to the batch but RESET_ASSOCIATIONS and
    APPLY_TOPOLOGY; after that it only sends the answer, if nothing is
    pending. *)
Theorem v1_offer_without_resource s d :
  mrcp_version s = MRCP_VERSION_1 ->
  resource_state d = true ->
  mrcp_server_channel_find s (resource_name d) = None ->
  resource_name d = None \/ mrcp_resource_get (resource_name d) = None ->
  exists s1 added events,
    mrcp_server_session_offer_process d s =
      match (if subrequest_count s1 =? 0
             then mrcp_server_session_answer_send ;; ret true
             else ret true) s1 with
      | None => None
      | Some (r, s2, e2) =>
          Some (r, s2, events ++ [mpf_message_send (mpf_task_msg s ++ added)] ++ e2)
      end /\
    Forall topology_command added /\
    Forall (fun e => e = session_table_add) events /\
    terminations s1 = terminations s /\
    channels s1 = channels s /\
    mpf_task_msg s1 = [] /\
    exists a, answer s1 = Some a /\ resource_state a = false /\
              status a = MRCP_SESSION_STATUS_NO_SUCH_RESOURCE.
Proof.
  intros Hv Hrs Hfind Hres.
  unfold mrcp_server_session_offer_process, offer_process_with.
  rewrite bind_get.
  (* the context, made for the first offer *)
  assert (H0 : exists s0 e0,
    when (bool_decide (context s = None))
      (when (bool_decide (session_id s = None))
         (modify (set_session_id apt_unique_id_generate)) ;;
       emit session_table_add ;;
       modify (set_context mpf_engine_context_create)) s = Some (tt, s0, e0) /\
    Forall (fun e => e = session_table_add) e0 /\
    mrcp_version s0 = mrcp_version s /\ terminations s0 = terminations s /\
    channels s0 = channels s /\ mpf_task_msg s0 = mpf_task_msg s).
  { destruct (context s) as [c|].
    - rewrite bool_decide_eq_false_2 by congruence.
      exists s, []. cbn [when]. repeat split; auto.
    - rewrite bool_decide_eq_true_2 by reflexivity. cbn [when].
      destruct (session_id s) as [i|].
      + rewrite bool_decide_eq_false_2 by congruence. cbn [when].
        monad_simp. rewrite bind_emit. monad_simp.
        eexists _, _. split; [reflexivity|]. repeat split; auto.
      + rewrite bool_decide_eq_true_2 by reflexivity. cbn [when].
        monad_simp. rewrite bind_emit. monad_simp.
        eexists _, _. split; [reflexivity|]. repeat split; auto. }
  destruct H0 as (s0 & e0 & E0 & He0 & Hv0 & Ht0 & Hc0 & Hb0).
  rewrite (bind_intro _ _ _ _ _ _ E0). clear E0.
  monad_simp. rewrite (bind_intro _ _ _ _ _ _ (state_set_run _ _)).
  (* RESET_ASSOCIATIONS *)
  unfold mpf_engine_topology_message_add at 1.
  match goal with |- context [bind (batch_add ?c) _ ?x] =>
    destruct (batch_add_run c x) as (reset & Ereset);
    rewrite (bind_intro _ _ _ _ _ _ Ereset); clear Ereset
  end.
  set (s1 := if reset then _ else _).
  assert (F1 : mrcp_version s1 = mrcp_version s /\ terminations s1 = terminations s /\
               channels s1 = channels s /\ offer s1 = Some d /\
               answer s1 = Some (mrcp_session_answer_create d) /\
               mpf_task_msg s1 = mpf_task_msg s ++
                 (if reset then [topology_message MPF_RESET_ASSOCIATIONS] else [])).
  { unfold s1, topology_message. destruct reset; cbn; rewrite ?app_nil_r, ?Hb0; auto 10. }
  clearbody s1. destruct F1 as (Hv1 & Ht1 & Hc1 & Ho1 & Ha1 & Hb1).
  assert (E2 : exists s2,
    when reset mrcp_server_session_subrequest_add s1 = Some (tt, s2, []) /\
    mrcp_version s2 = mrcp_version s /\ terminations s2 = terminations s /\
    channels s2 = channels s /\ offer s2 = Some d /\
    answer s2 = Some (mrcp_session_answer_create d) /\
    mpf_task_msg s2 = mpf_task_msg s1).
  { destruct reset; cbn [when]; eexists; (split; [reflexivity|]); cbn; auto 10. }
  destruct E2 as (s2 & E2 & Hv2 & Ht2 & Hc2 & Ho2 & Ha2 & Hb2).
  rewrite (bind_intro _ _ _ _ _ _ E2). clear E2.
  unfold mrcp_session_version_get. monad_simp. rewrite Hv2, Hv.
  (* the resource of the offer *)
  assert (E3 : mrcp_server_resource_offer_process s2 =
    Some (false,
          set_answer (Some (set_status MRCP_SESSION_STATUS_NO_SUCH_RESOURCE
                              (mrcp_session_answer_create d))) s2, [])).
  { unfold mrcp_server_resource_offer_process. monad_simp. rewrite Ho2. monad_simp.
    rewrite Hrs.
    replace (mrcp_server_channel_find s2 (resource_name d)) with (@None nat).
    2:{ unfold mrcp_server_channel_find in *. rewrite Hc2. symmetry. exact Hfind. }
    destruct (channel_create_no_resource s2 _ (resource_name d)
                (Z.of_nat (length (channels s2))) 0 Ha2 Hres)
      as (channel & Ech & Hr & _).
    rewrite (bind_intro _ _ _ _ _ _ Ech). rewrite Hr.
    rewrite bool_decide_eq_true_2 by reflexivity. reflexivity. }
  monad_simp. rewrite (bind_intro _ _ _ _ _ _ E3). clear E3.
  unfold answer_update. monad_simp. cbn [answer set_answer deref]. monad_simp.
  (* APPLY_TOPOLOGY *)
  unfold mpf_engine_topology_message_add.
  match goal with |- context [bind (batch_add ?c) _ ?x] =>
    destruct (batch_add_run c x) as (apply & Eapply);
    rewrite (bind_intro _ _ _ _ _ _ Eapply); clear Eapply
  end.
  set (s3 := if apply then _ else _).
  set (a3 := set_resource_state false
               (set_status MRCP_SESSION_STATUS_NO_SUCH_RESOURCE
                  (mrcp_session_answer_create d))) in *.
  assert (F3 : terminations s3 = terminations s /\ channels s3 = channels s /\
               answer s3 = Some a3 /\
               mpf_task_msg s3 = mpf_task_msg s1 ++
                 (if apply then [topology_message MPF_APPLY_TOPOLOGY] else [])).
  { unfold s3, topology_message. destruct apply; cbn; rewrite ?app_nil_r, ?Hb2; auto 10. }
  clearbody s3. destruct F3 as (Ht3 & Hc3 & Ha3 & Hb3).
  assert (E4 : exists s4,
    when apply mrcp_server_session_subrequest_add s3 = Some (tt, s4, []) /\
    terminations s4 = terminations s /\ channels s4 = channels s /\
    answer s4 = Some a3 /\ mpf_task_msg s4 = mpf_task_msg s3).
  { destruct apply; cbn [when]; eexists; (split; [reflexivity|]); cbn; auto 10. }
  destruct E4 as (s4 & E4 & Ht4 & Hc4 & Ha4 & Hb4).
  rewrite (bind_intro _ _ _ _ _ _ E4). clear E4.
  unfold mpf_engine_message_send. monad_simp. rewrite bind_emit. monad_simp.
  cbn [subrequest_count set_mpf_task_msg].
  exists (set_mpf_task_msg [] s4).
  eexists (_ ++ _), e0.
  split; [|split; [|split; [|split; [|split; [|split]]]]].
  - cbn [subrequest_count set_mpf_task_msg].
    rewrite Hb4, Hb3, Hb1, <- app_assoc. cbn [app].
    destruct ((if subrequest_count s4 =? 0
               then mrcp_server_session_answer_send;; ret true
               else ret true) (set_mpf_task_msg [] s4)) as [[[r s5] e5]|];
      [|reflexivity].
    cbn [app]. reflexivity.
  - apply Forall_app. split; [destruct reset | destruct apply];
      first [apply Forall_nil_2 | apply Forall_singleton];
      unfold topology_command; cbn; auto.
  - exact He0.
  - exact Ht4.
  - exact Hc4.
  - reflexivity.
  - exists a3. split; [exact Ha4|]. split; reflexivity.
Qed.

(** ** One signaling message at a time *)

Definition response (m : mrcp_message_t) : bool :=
  match message_type m with
  | MRCP_MESSAGE_TYPE_RESPONSE => true
  | _ => false
  end.

(** ** A TERMINATE behind an OFFER *)

Definition answers (e : session_event) : bool :=
  match e with
  | session_answer _ => true
  | _ => false
  end.

Definition terminates (e : session_event) : bool :=
  match e with
  | session_terminate_response => true
  | _ => false
  end.

(** No terminate response comes before the first answer of the trace. *)
Fixpoint answered_first (ev : list session_event) : bool :=
  match ev with
  | [] => true
  | e :: ev' => answers e || (negb (terminates e) && answered_first ev')
  end.

(** An OFFER is in flight: it is the active request and the session waits
    for the sub-requests of its answer. *)
Definition offer_in_flight (s : mrcp_server_session_t) : Prop :=
  state s = SESSION_STATE_ANSWERING /\
  exists d, active_request s = Some (SIGNALING_MESSAGE_OFFER d).

(** The inputs that a session can receive.  The state machines are not
    among the sources: [state_machine_on_message_dispatch] is a callback
    that a state machine calls from within [mrcp_state_machine_update]
    only, which is called for the control message being dispatched
    ([mrcp_server_on_message_receive]) and for what the resource engine
    sends back about it ([mrcp_server_on_engine_channel_message]).  So a
    state machine dispatches the response to a method only while the
    control message that it answers is the active request. *)
Definition admissible (i : session_input) (s : mrcp_server_session_t) : bool :=
  match i with
  | on_message_dispatch _ m =>
      negb (response m) ||
      match active_request s with
      | Some (SIGNALING_MESSAGE_CONTROL _ _) => true
      | _ => false
      end
  | _ => true
  end.

Fixpoint admissible_run (inputs : list session_input) (s : mrcp_server_session_t)
    : bool :=
  match inputs with
  | [] => true
  | i :: rest =>
      admissible i s &&
      match react i s with
      | Some (_, s1, _) => admissible_run rest s1
      | None => true
      end
  end.

(** Code that, run while an OFFER is in flight, sends no terminate response
    before an answer, and leaves the OFFER in flight unless it sends the
    answer. *)
Definition flight {A} (c : M A) : Prop :=
  forall s a s' ev, c s = Some (a, s', ev) -> offer_in_flight s ->
    answered_first ev = true /\ (existsb answers ev = true \/ offer_in_flight s').

Lemma answered_first_app e1 e2 :
  answered_first (e1 ++ e2) =
  answered_first e1 && (existsb answers e1 || answered_first e2).
Proof.
  induction e1 as [|e e1 IH]; simpl; [reflexivity|]. rewrite IH.
  destruct (answers e), (terminates e), (answered_first e1); reflexivity.
Qed.

Lemma answered_first_spec ev e1 e2 :
  answered_first ev = true -> ev = e1 ++ session_terminate_response :: e2 ->
  existsb answers e1 = true.
Proof.
  intros H ->. induction e1 as [|e e1 IH]; simpl in *; [discriminate|].
  destruct (answers e); [reflexivity|]. simpl in *.
  apply andb_true_iff in H. destruct H as [_ H]. apply IH, H.
Qed.

Lemma flight_ret {A} (a : A) : flight (ret a).
Proof. intros s a' s' ev [= <- <- <-] H. split; [reflexivity | right; exact H]. Qed.

Lemma flight_fault {A} : flight (@fault A).
Proof. intros s a s' ev H. discriminate. Qed.

Lemma flight_get : flight get.
Proof. intros s a s' ev [= <- <- <-] H. split; [reflexivity | right; exact H]. Qed.

Lemma flight_deref {A} (p : option A) : flight (deref p).
Proof. destruct p; [apply flight_ret | apply flight_fault]. Qed.

Lemma flight_emit e : answers e = false -> terminates e = false -> flight (emit e).
Proof.
  intros Ha Ht s a s' ev [= <- <- <-] H. simpl. rewrite Ha, Ht.
  split; [reflexivity | right; exact H].
Qed.

Lemma flight_modify f :
  (forall s, state (f s) = state s /\ active_request (f s) = active_request s) ->
  flight (modify f).
Proof.
  intros Hf s a s' ev [= <- <- <-] [Hs Ha]. split; [reflexivity|]. right.
  unfold offer_in_flight. destruct (Hf s) as [-> ->]. split; assumption.
Qed.

Lemma flight_bind {A B} (c : M A) (f : A -> M B) :
  flight c -> (forall a, flight (f a)) -> flight (bind c f).
Proof.
  intros Hc Hf s b s2 ev H Hs.
  apply bind_inv in H. destruct H as (a & s1 & e1 & e2 & H1 & H2 & ->).
  destruct (Hc _ _ _ _ H1 Hs) as [F1 D1].
  rewrite answered_first_app, existsb_app, F1.
  destruct D1 as [D1|D1]; [rewrite D1; auto|].
  destruct (Hf a _ _ _ _ H2 D1) as [F2 D2]. rewrite F2, orb_true_r.
  split; [reflexivity|]. destruct D2 as [D2|D2]; [|right; exact D2].
  left. rewrite D2. apply orb_true_r.
Qed.

Lemma flight_for_each {A} (l : list A) body :
  (forall i, flight (body i)) -> flight (for_each l body).
Proof.
  intros H. induction l as [|i l IH]; simpl; [apply flight_ret|].
  apply flight_bind; [apply H | intros _; apply IH].
Qed.

Ltac flight_step :=
  match goal with
  | |- flight _ => assumption
  | |- flight _ => solve [auto 1]
  | |- flight (bind _ _) => apply flight_bind; [|intros ?]
  | |- flight (ret _) => apply flight_ret
  | |- flight fault => apply flight_fault
  | |- flight get => apply flight_get
  | |- flight (deref _) => apply flight_deref
  | |- flight (for_each _ _) => apply flight_for_each; intros ?
  | |- flight (emit _) => apply flight_emit; reflexivity
  | |- flight (modify _) => apply flight_modify; intros ?; split; reflexivity
  | |- flight (when ?b _) => destruct b; unfold when
  | |- flight (if ?b then _ else _) => destruct b
  | |- flight (match ?x with _ => _ end) => destruct x
  end.

Ltac flight_tac :=
  unfold answer_update, channel_at, channel_update, slot_at, slot_update;
  repeat flight_step.

(** The answer sender begins by sending the answer that the session holds. *)
Lemma answer_send_events s r s' ev :
  mrcp_server_session_answer_send s = Some (r, s', ev) ->
  exists d ev', answer s = Some d /\ ev = session_answer d :: ev'.
Proof.
  rewrite answer_send_unfold. unfold answer_send_body. rewrite bind_get.
  destruct (answer s) as [d|]; cbn [deref]; [|rewrite bind_fault; discriminate].
  rewrite bind_ret_l, bind_emit.
  match goal with
  | |- match ?x with _ => _ end = _ -> _ => destruct x as [[[b s1] e1]|]; [|discriminate]
  end.
  intros [= <- <- <-]. eauto.
Qed.

Lemma flight_subrequest_remove : flight mrcp_server_session_subrequest_remove.
Proof.
  intros s a s' ev E [Hst Hact]. unfold mrcp_server_session_subrequest_remove in E.
  rewrite bind_get in E. destruct (subrequest_count s =? 0).
  { injection E as <- <- <-. split; [reflexivity|]. right. split; assumption. }
  rewrite bind_modify, bind_get in E.
  cbn [subrequest_count set_subrequest_count state] in E.
  destruct (subrequest_count s - 1 =? 0).
  2:{ injection E as <- <- <-. split; [reflexivity|]. right. split; assumption. }
  rewrite Hst in E.
  apply bind_inv in E. destruct E as (b & s1 & e1 & e2 & E1 & E2 & ->).
  injection E2 as <- <- <-. rewrite app_nil_r.
  apply answer_send_events in E1. destruct E1 as (d & ev' & _ & ->).
  split; [reflexivity | left; reflexivity].
Qed.

Lemma flight_signaling_message_process m :
  flight (mrcp_server_signaling_message_process m).
Proof.
  intros s a s' ev E [Hst [d Hd]]. unfold mrcp_server_signaling_message_process in E.
  rewrite bind_get, Hd, bind_modify in E. injection E as <- <- <-.
  split; [reflexivity|]. right. split; [exact Hst | exists d; exact Hd].
Qed.

Lemma flight_on_message_dispatch channel message :
  response message = false ->
  flight (state_machine_on_message_dispatch channel message).
Proof.
  unfold response, state_machine_on_message_dispatch. intros H.
  destruct (message_type message); try discriminate; flight_tac.
Qed.

Lemma flight_react_other i :
  (forall c m, i = on_message_dispatch c m -> response m = false) ->
  flight (react i).
Proof.
  intros Hi. pose proof flight_subrequest_remove.
  destruct i; simpl.
  - apply flight_signaling_message_process.
  - unfold mrcp_server_on_channel_modify. flight_tac.
  - unfold mrcp_server_on_channel_remove. flight_tac.
  - apply flight_signaling_message_process.
  - unfold mrcp_server_on_disconnect. flight_tac.
  - unfold mrcp_server_on_engine_channel_open. flight_tac.
  - unfold mrcp_server_on_engine_channel_close. flight_tac.
  - unfold mrcp_server_on_engine_channel_message. flight_tac.
  - unfold mrcp_server_mpf_message_process, mrcp_server_on_termination_modify,
      mrcp_server_on_termination_subtract. flight_tac.
  - apply flight_on_message_dispatch. eapply Hi. reflexivity.
  - unfold state_machine_on_deactivate. flight_tac.
Qed.

Lemma flight_react i s r s' ev :
  offer_in_flight s -> admissible i s = true -> react i s = Some (r, s', ev) ->
  answered_first ev = true /\ (existsb answers ev = true \/ offer_in_flight s').
Proof.
  intros Hs Hadm E. refine (flight_react_other i _ s r s' ev E Hs).
  intros c m ->. simpl in Hadm. destruct Hs as [_ [d Hd]]. rewrite Hd in Hadm.
  destruct (response m); [discriminate | reflexivity].
Qed.

Lemma flight_run inputs : forall s s' ev,
  offer_in_flight s -> admissible_run inputs s = true ->
  run inputs s = Some (tt, s', ev) ->
  answered_first ev = true.
Proof.
  induction inputs as [|i rest IH]; intros s s' ev Hs Hadm E; simpl in E.
  - injection E as <- <-. reflexivity.
  - apply bind_inv in E. destruct E as (r & s1 & e1 & e2 & E1 & E2 & ->).
    simpl in Hadm. rewrite E1 in Hadm.
    apply andb_true_iff in Hadm. destruct Hadm as [Hi Hrest].
    destruct (flight_react _ _ _ _ _ Hs Hi E1) as [F1 D1].
    rewrite answered_first_app, F1.
    destruct D1 as [D1|D1]; [rewrite D1; reflexivity|].
    rewrite (IH _ _ _ D1 Hrest E2). apply orb_true_r.
Qed.

(** The head of the queue is what a completion dispatches next. *)
Lemma answer_send_pops s a m rest r s' ev :
  answer s = Some a -> request_queue s = m :: rest ->
  mrcp_server_session_answer_send s = Some (r, s', ev) ->
  exists ev', ev = session_answer a :: dispatched m :: ev'.
Proof.
  intros Ha Hq. rewrite answer_send_unfold.
  unfold answer_send_body, request_queue_pop_front. monad_simp. rewrite Ha.
  monad_simp. rewrite bind_emit. monad_simp.
  cbn [request_queue set_offer set_answer]. rewrite Hq. monad_simp.
  unfold signaling_message_dispatch_with. monad_simp. rewrite bind_emit.
  match goal with
  | |- match match ?x with _ => _ end with _ => _ end = _ -> _ =>
      destruct x as [[[b s1] e1]|]; [|discriminate]
  end.
  intros [= <- <- <-]. eauto.
Qed.

Lemma response_dispatch_pops s channel message c m rest r s' ev :
  channels s !! channel = Some c -> response message = true ->
  request_queue s = m :: rest ->
  state_machine_on_message_dispatch channel message s = Some (r, s', ev) ->
  exists ev',
    ev = (if control_channel c
          then control_message_send channel message
          else session_control_response message) :: dispatched m :: ev'.
Proof.
  intros Hc Hr Hq. unfold state_machine_on_message_dispatch, channel_at.
  monad_simp. rewrite Hc. monad_simp. unfold response in Hr.
  destruct (message_type message); try discriminate.
  unfold request_queue_pop_front.
  destruct (control_channel c); monad_simp; rewrite bind_emit; monad_simp;
    rewrite Hq; monad_simp; unfold mrcp_server_signaling_message_dispatch,
      signaling_message_dispatch_with; monad_simp; rewrite bind_emit;
    match goal with
    | |- match match ?x with _ => _ end with _ => _ end = _ -> _ =>
        destruct x as [[[b s1] e1]|]; [|discriminate]
    end;
    intros [= <- <- <-]; eauto.
Qed.

Lemma flight_answer_send : flight mrcp_server_session_answer_send.
Proof.
  intros s r s' ev E _. apply answer_send_events in E.
  destruct E as (d & ev' & _ & ->). split; [reflexivity | left; reflexivity].
Qed.

Lemma flight_subrequest_add : flight mrcp_server_session_subrequest_add.
Proof. unfold mrcp_server_session_subrequest_add. flight_tac. Qed.

Lemma flight_version_get : flight mrcp_session_version_get.
Proof. unfold mrcp_session_version_get. flight_tac. Qed.

Lemma flight_batch_add c : flight (batch_add c).
Proof. unfold batch_add. flight_tac. Qed.

Lemma flight_message_send : flight mpf_engine_message_send.
Proof. unfold mpf_engine_message_send. flight_tac. Qed.

Lemma flight_channel_create name id cmid :
  flight (mrcp_server_channel_create name id cmid).
Proof.
  pose proof flight_version_get.
  unfold mrcp_server_channel_create, mrcp_server_engine_channel_create. flight_tac.
Qed.

Lemma flight_engine_channel_open_and_add i merge_mode :
  flight (engine_channel_open_and_add i merge_mode).
Proof.
  pose proof flight_subrequest_add. pose proof flight_batch_add.
  unfold engine_channel_open_and_add, mpf_engine_termination_message_add. flight_tac.
Qed.

Lemma flight_resource_offer_process : flight mrcp_server_resource_offer_process.
Proof.
  pose proof flight_channel_create. pose proof flight_engine_channel_open_and_add.
  unfold mrcp_server_resource_offer_process. flight_tac.
Qed.

Lemma flight_control_media_offer_process :
  flight mrcp_server_control_media_offer_process.
Proof.
  pose proof flight_channel_create. pose proof flight_engine_channel_open_and_add.
  pose proof flight_subrequest_add.
  unfold mrcp_server_control_media_offer_process, control_answer_set. flight_tac.
Qed.

Lemma flight_av_media_offer_process : flight mrcp_server_av_media_offer_process.
Proof.
  pose proof flight_subrequest_add. pose proof flight_batch_add.
  unfold mrcp_server_av_media_offer_process, mrcp_server_associations_set,
    mrcp_server_associations_build, mpf_engine_termination_message_add,
    mpf_engine_assoc_message_add.
  flight_tac.
Qed.

(** An OFFER that is dispatched while it is the active request is answered
    at once or is in flight when the dispatcher returns. *)
Lemma offer_dispatch_in_flight d s r s' ev :
  active_request s = Some (SIGNALING_MESSAGE_OFFER d) ->
  mrcp_server_signaling_message_dispatch (SIGNALING_MESSAGE_OFFER d) s =
    Some (r, s', ev) ->
  existsb answers ev = true \/ offer_in_flight s'.
Proof.
  intros Ha E.
  unfold mrcp_server_signaling_message_dispatch, signaling_message_dispatch_with in E.
  rewrite bind_emit in E.
  match type of E with
  | match ?x with _ => _ end = _ => destruct x as [[[b s1] e1]|] eqn:E1; [|discriminate]
  end.
  injection E as <- <- <-.
  apply bind_inv in E1. destruct E1 as (b' & s2 & e2 & e3 & E2 & E3 & ->).
  injection E3 as <- <- <-. rewrite app_nil_r.
  unfold offer_process_with in E2. rewrite bind_get in E2.
  apply bind_inv in E2. destruct E2 as ([] & s3 & e3 & e4 & E3 & E4 & ->).
  assert (Q : quiet (when (bool_decide (context s = None))
                       (when (bool_decide (session_id s = None))
                          (modify (set_session_id apt_unique_id_generate)) ;;
                        emit session_table_add ;;
                        modify (set_context mpf_engine_context_create))))
    by quiet_tac.
  destruct (Q _ _ _ _ E3) as [F _]. clear Q E3.
  rewrite !bind_modify, (bind_intro _ _ _ _ _ _ (state_set_run _ _)) in E4.
  match type of E4 with
  | match ?c ?x with _ => _ end = _ =>
      assert (Fl : flight c); [|destruct (c x) as [[[b1 s4] e5]|] eqn:E5; [|discriminate]]
  end.
  { pose proof flight_answer_send. pose proof flight_subrequest_add.
    pose proof flight_batch_add. pose proof flight_version_get.
    pose proof flight_message_send. pose proof flight_resource_offer_process.
    pose proof flight_control_media_offer_process.
    pose proof flight_av_media_offer_process.
    unfold mpf_engine_topology_message_add. flight_tac. }
  injection E4 as <- <- <-.
  destruct (Fl _ _ _ _ E5) as [_ [D|D]].
  - split; [reflexivity|]. simpl. rewrite (frame_active _ _ F). eauto.
  - left. simpl. rewrite !existsb_app, D. simpl. apply orb_true_r.
  - right. exact D.
Qed.

(** ** The active message and what completes it

    An OFFER is completed by its answer, a control message by the response
    to its method; nothing completes a TERMINATE. *)
Definition completes (active : mrcp_signaling_message_t) (e : session_event) : bool :=
  match active, e with
  | SIGNALING_MESSAGE_OFFER _, session_answer _ => true
  | SIGNALING_MESSAGE_CONTROL _ _, session_control_response m
  | SIGNALING_MESSAGE_CONTROL _ _, control_message_send _ m => response m
  | _, _ => false
  end.

(** A trace read with the message that is being processed, if any: a
    dispatch needs that there is none, and makes the dispatched message the
    one; an event that completes the message leaves none.  The result is
    the message being processed at the end of the trace; there is no
    result when a message is dispatched while another one is being
    processed. *)
Fixpoint follow (active : option mrcp_signaling_message_t) (ev : list session_event)
    : option (option mrcp_signaling_message_t) :=
  match ev with
  | [] => Some active
  | e :: ev' =>
      match e with
      | dispatched m =>
          match active with
          | None => follow (Some m) ev'
          | Some _ => None
          end
      | _ =>
          follow (match active with
                  | Some a => if completes a e then None else active
                  | None => None
                  end) ev'
      end
  end.

(** No answer is pending unless an OFFER is the active request. *)
Definition sound (s : mrcp_server_session_t) : Prop :=
  state s = SESSION_STATE_ANSWERING -> subrequest_count s <> 0 ->
  exists d, active_request s = Some (SIGNALING_MESSAGE_OFFER d).

(** Code that processes the signaling messages in order: the trace follows
    the active request of the session. *)
Definition orderly {A} (c : M A) : Prop :=
  forall s r s' ev, sound s -> c s = Some (r, s', ev) ->
    follow (active_request s) ev = Some (active_request s') /\ sound s'.

Lemma follow_app active e1 e2 :
  follow active (e1 ++ e2) =
  match follow active e1 with
  | Some a => follow a e2
  | None => None
  end.
Proof.
  revert active. induction e1 as [|e e1 IH]; intros active; [reflexivity|].
  destruct e; cbn [app follow]; try apply IH.
  destruct active; [reflexivity | apply IH].
Qed.

Lemma follow_passive active ev :
  forallb passive ev = true -> follow active ev = Some active.
Proof.
  revert active. induction ev as [|e ev IH]; intros active H; [reflexivity|].
  cbn [forallb] in H. apply andb_true_iff in H. destruct H as [H1 H2].
  destruct e; cbn [passive] in H1; try discriminate; cbn [follow];
    (destruct active as [[]|]; cbn [completes]; apply IH, H2).
Qed.

(** Between the dispatch of a message and a later dispatch, the first
    message is completed. *)
Lemma follow_dispatched active e1 m1 e2 m2 e3 result :
  follow active (e1 ++ dispatched m1 :: e2 ++ dispatched m2 :: e3) = Some result ->
  existsb (completes m1) e2 = true.
Proof.
  rewrite follow_app. destruct (follow active e1) as [a|]; [|discriminate].
  cbn [follow]. destruct a; [discriminate|]. clear e1 active.
  induction e2 as [|e e2 IH]; cbn [app follow existsb].
  - discriminate.
  - destruct (completes m1 e) eqn:Ec; [reflexivity|].
    destruct e; try discriminate; cbn [orb]; rewrite ?Ec; exact IH.
Qed.

(** *** What a piece of code leaves as it is *)

Section Preserve.

Variable R : mrcp_server_session_t -> mrcp_server_session_t -> Prop.
Hypothesis R_refl : forall s, R s s.
Hypothesis R_trans : forall s1 s2 s3, R s1 s2 -> R s2 s3 -> R s1 s3.

Definition preserves {A} (c : M A) : Prop :=
  forall s a s' ev, c s = Some (a, s', ev) -> R s s'.

Lemma preserves_ret {A} (a : A) : preserves (ret a).
Proof. intros s a' s' ev [= <- <- <-]. apply R_refl. Qed.

Lemma preserves_fault {A} : preserves (@fault A).
Proof. intros s a s' ev H. discriminate. Qed.

Lemma preserves_get : preserves get.
Proof. intros s a s' ev [= <- <- <-]. apply R_refl. Qed.

Lemma preserves_deref {A} (p : option A) : preserves (deref p).
Proof. destruct p; [apply preserves_ret | apply preserves_fault]. Qed.

Lemma preserves_emit e : preserves (emit e).
Proof. intros s a s' ev [= <- <- <-]. apply R_refl. Qed.

Lemma preserves_modify f : (forall s, R s (f s)) -> preserves (modify f).
Proof. intros Hf s a s' ev [= <- <- <-]. apply Hf. Qed.

Lemma preserves_bind {A B} (c : M A) (f : A -> M B) :
  preserves c -> (forall a, preserves (f a)) -> preserves (bind c f).
Proof.
  intros Hc Hf s b s2 ev H.
  apply bind_inv in H. destruct H as (a & s1 & e1 & e2 & H1 & H2 & ->).
  eapply R_trans; [eapply Hc | eapply Hf]; eassumption.
Qed.

Lemma preserves_when b c : preserves c -> preserves (when b c).
Proof. intros H. destruct b; [exact H | apply preserves_ret]. Qed.

Lemma preserves_for_each {A} (l : list A) body :
  (forall i, preserves (body i)) -> preserves (for_each l body).
Proof.
  intros H. induction l as [|i l IH]; simpl; [apply preserves_ret|].
  apply preserves_bind; [apply H | intros _; apply IH].
Qed.

End Preserve.

(** The state of the session stays; the state and the count stay. *)
Definition same_state (s s' : mrcp_server_session_t) : Prop := state s' = state s.

Definition same_progress (s s' : mrcp_server_session_t) : Prop :=
  state s' = state s /\ subrequest_count s' = subrequest_count s.

Lemma same_state_refl s : same_state s s.
Proof. reflexivity. Qed.

Lemma same_state_trans s1 s2 s3 : same_state s1 s2 -> same_state s2 s3 -> same_state s1 s3.
Proof. unfold same_state. congruence. Qed.

Lemma same_progress_refl s : same_progress s s.
Proof. split; reflexivity. Qed.

Lemma same_progress_trans s1 s2 s3 :
  same_progress s1 s2 -> same_progress s2 s3 -> same_progress s1 s3.
Proof. unfold same_progress. intuition congruence. Qed.

Create HintDb preserves_db.

Ltac preserves_step refl trans :=
  match goal with
  | |- preserves _ _ => assumption
  | |- preserves _ _ => solve [auto with preserves_db]
  | |- preserves _ (bind _ _) => apply (preserves_bind _ trans); [|intros ?]
  | |- preserves _ (ret _) => apply (preserves_ret _ refl)
  | |- preserves _ fault => apply preserves_fault
  | |- preserves _ get => apply (preserves_get _ refl)
  | |- preserves _ (deref _) => apply (preserves_deref _ refl)
  | |- preserves _ (when _ _) => apply (preserves_when _ refl)
  | |- preserves _ (for_each _ _) => apply (preserves_for_each _ refl trans); intros ?
  | |- preserves _ (emit _) => apply (preserves_emit _ refl)
  | |- preserves _ (modify _) =>
      apply preserves_modify; intros ?;
      repeat match goal with |- context [if ?b then _ else _] => destruct b end;
      solve [reflexivity | split; reflexivity]
  | |- preserves _ (if ?b then _ else _) => destruct b
  | |- preserves _ (match ?x with _ => _ end) => destruct x
  end.

Ltac same_state_tac := repeat preserves_step same_state_refl same_state_trans.
Ltac same_progress_tac := repeat preserves_step same_progress_refl same_progress_trans.

Lemma same_state_channel_at i : preserves same_state (channel_at i).
Proof. unfold channel_at. same_state_tac. Qed.

Lemma same_state_channel_update i f : preserves same_state (channel_update i f).
Proof. unfold channel_update. same_state_tac. Qed.

Lemma same_state_slot_at i : preserves same_state (slot_at i).
Proof. unfold slot_at. same_state_tac. Qed.

Lemma same_state_slot_update i f : preserves same_state (slot_update i f).
Proof. unfold slot_update. same_state_tac. Qed.

Lemma same_state_subrequest_add : preserves same_state mrcp_server_session_subrequest_add.
Proof. unfold mrcp_server_session_subrequest_add. same_state_tac. Qed.

Lemma same_state_batch_add c : preserves same_state (batch_add c).
Proof. unfold batch_add. same_state_tac. Qed.

Lemma same_state_message_send : preserves same_state mpf_engine_message_send.
Proof. unfold mpf_engine_message_send. same_state_tac. Qed.

#[local] Hint Resolve same_state_channel_at same_state_channel_update
  same_state_slot_at same_state_slot_update same_state_subrequest_add
  same_state_batch_add same_state_message_send : preserves_db.

Lemma same_state_terminate_send : preserves same_state mrcp_server_session_terminate_send.
Proof. unfold mrcp_server_session_terminate_send. same_state_tac. Qed.

#[local] Hint Resolve same_state_terminate_send : preserves_db.

Lemma same_progress_channel_at i : preserves same_progress (channel_at i).
Proof. unfold channel_at. same_progress_tac. Qed.

Lemma same_progress_channel_update i f : preserves same_progress (channel_update i f).
Proof. unfold channel_update. same_progress_tac. Qed.

Lemma same_progress_slot_at i : preserves same_progress (slot_at i).
Proof. unfold slot_at. same_progress_tac. Qed.

Lemma same_progress_slot_update i f : preserves same_progress (slot_update i f).
Proof. unfold slot_update. same_progress_tac. Qed.

Lemma same_progress_answer_update f : preserves same_progress (answer_update f).
Proof. unfold answer_update. same_progress_tac. Qed.

#[local] Hint Resolve same_progress_channel_at same_progress_channel_update
  same_progress_slot_at same_progress_slot_update same_progress_answer_update
  : preserves_db.

(** After [mrcp_server_session_terminate_process] the session is
    terminating, and after [mrcp_server_session_deactivate] it is
    deactivating or terminating. *)
Lemma terminate_process_state s r s' ev :
  mrcp_server_session_terminate_process s = Some (r, s', ev) ->
  state s' = SESSION_STATE_TERMINATING.
Proof.
  unfold mrcp_server_session_terminate_process. intros E.
  rewrite (bind_intro _ _ _ _ _ _ (state_set_run _ _)) in E.
  match type of E with
  | match ?c ?x with _ => _ end = _ =>
      assert (P : preserves same_state c);
      [|destruct (c x) as [[[b s1] e1]|] eqn:E1; [|discriminate]]
  end.
  { unfold mpf_engine_topology_message_add, mpf_engine_termination_message_add.
    same_state_tac. }
  injection E as <- <- <-. rewrite (P _ _ _ _ E1). reflexivity.
Qed.

Lemma deactivate_state s r s' ev :
  mrcp_server_session_deactivate s = Some (r, s', ev) ->
  state s' <> SESSION_STATE_ANSWERING.
Proof.
  unfold mrcp_server_session_deactivate. intros E.
  rewrite (bind_intro _ _ _ _ _ _ (state_set_run _ _)) in E.
  match type of E with
  | match ?c ?x with _ => _ end = _ =>
      destruct (c x) as [[[b s1] e1]|] eqn:E1; [|discriminate]
  end.
  injection E as <- <- <-.
  rewrite bind_get in E1.
  apply bind_inv in E1. destruct E1 as ([] & s2 & e2 & e3 & E2 & E3 & ->).
  assert (P : state s2 = SESSION_STATE_DEACTIVATING).
  { match type of E2 with
    | ?c _ = _ => assert (Q : preserves same_state c) by same_state_tac
    end.
    rewrite (Q _ _ _ _ E2). reflexivity. }
  rewrite bind_get in E3. destruct (subrequest_count s2 =? 0).
  - rewrite (terminate_process_state _ _ _ _ E3). discriminate.
  - injection E3 as <- <- <-. rewrite P. discriminate.
Qed.

(** *** Code that ends by sending the answer, if nothing is waited for *)

Definition answers_at_zero (k : M bool) {A} (c : M A) : Prop :=
  forall s a s' ev, c s = Some (a, s', ev) ->
    (frame s s' /\ forallb passive ev = true) \/
    (exists s1 e1 r e2,
        frame s s1 /\ forallb passive e1 = true /\ subrequest_count s1 = 0 /\
        k s1 = Some (r, s', e2) /\ ev = e1 ++ e2).

Lemma answers_at_zero_bind k {A B} (c : M A) (f : A -> M B) :
  quiet c -> (forall a, answers_at_zero k (f a)) -> answers_at_zero k (bind c f).
Proof.
  intros Hc Hf s b s2 ev H.
  apply bind_inv in H. destruct H as (a & s1 & e1 & e2 & H1 & H2 & ->).
  destruct (Hc _ _ _ _ H1) as [F1 I1].
  destruct (Hf a _ _ _ _ H2) as [[F2 I2] | (s3 & e3 & r & e4 & F2 & I2 & Z & K & ->)].
  - left. split; [eapply frame_trans; eassumption|].
    rewrite forallb_app, I1, I2. reflexivity.
  - right. exists s3, (e1 ++ e3), r, e4.
    split; [eapply frame_trans; eassumption|].
    split; [rewrite forallb_app, I1, I2; reflexivity|].
    split; [assumption|]. split; [assumption | apply app_assoc].
Qed.

Lemma answers_at_zero_end k {A} (x : A) :
  answers_at_zero k
    (s <- get ;; if subrequest_count s =? 0 then k ;; ret x else ret x).
Proof.
  intros s a s' ev H. rewrite bind_get in H.
  destruct (Z.eqb_spec (subrequest_count s) 0) as [Hz|Hz].
  - apply bind_inv in H. destruct H as (r & s1 & e1 & e2 & H1 & H2 & ->).
    injection H2 as <- <- <-. right. exists s, [], r, e1. rewrite app_nil_r.
    split; [apply frame_refl|]. auto.
  - injection H as <- <- <-. left. split; [apply frame_refl | reflexivity].
Qed.

Lemma offer_process_with_answers_at_zero k d :
  answers_at_zero k (offer_process_with k d).
Proof.
  unfold offer_process_with.
  repeat first [ apply answers_at_zero_end
               | apply answers_at_zero_bind; [quiet_tac | intros ?] ].
Qed.

(** *** Dispatching a message, sending an answer *)

(** What the answer sender is relied on for: called while an OFFER is the
    active request and nothing is waited for, it completes the OFFER and
    goes on in order. *)
Definition answers_in_order (k : M bool) : Prop :=
  forall s d r s' ev,
    active_request s = Some (SIGNALING_MESSAGE_OFFER d) -> subrequest_count s = 0 ->
    k s = Some (r, s', ev) ->
    follow (Some (SIGNALING_MESSAGE_OFFER d)) ev = Some (active_request s') /\ sound s'.

Lemma on_message_receive_same channel message s r s' ev :
  mrcp_server_on_message_receive channel message s = Some (r, s', ev) ->
  s' = s /\ forallb passive ev = true.
Proof.
  unfold mrcp_server_on_message_receive. rewrite bind_get.
  destruct (match channel with
            | Some i => Some i
            | None => mrcp_server_channel_find s (message_resource_name message)
            end) as [i|]; [|intros [= <- <- <-]; auto].
  unfold channel_at. rewrite bind_assoc, bind_get.
  destruct (channels s !! i) as [c|]; cbn [deref]; [|rewrite bind_fault; discriminate].
  rewrite bind_ret_l.
  destruct (bool_decide (resource c = None) || negb (state_machine c));
    intros [= <- <- <-]; auto.
Qed.

(** A message that is dispatched while it is the active request, no other
    one being processed and no answer being waited for. *)
Lemma dispatch_in_order k m s r s' ev :
  answers_in_order k ->
  active_request s = Some m ->
  (state s = SESSION_STATE_ANSWERING -> subrequest_count s = 0) ->
  signaling_message_dispatch_with k m s = Some (r, s', ev) ->
  follow None ev = Some (active_request s') /\ sound s'.
Proof.
  intros Hk Ha Hz E. unfold signaling_message_dispatch_with in E.
  rewrite bind_emit in E.
  match type of E with
  | match ?x with _ => _ end = _ => destruct x as [[[b s1] e1]|] eqn:E1; [|discriminate]
  end.
  injection E as <- <- <-. cbn [follow].
  destruct m as [d|channel message|].
  - apply bind_inv in E1. destruct E1 as (b' & s2 & e2 & e3 & E2 & E3 & ->).
    injection E3 as <- <- <-. rewrite app_nil_r.
    destruct (offer_process_with_answers_at_zero k d _ _ _ _ E2)
      as [[F P] | (s3 & e4 & r4 & e5 & F & P & Z & K & ->)].
    + rewrite (follow_passive _ _ P), (frame_active _ _ F), Ha.
      split; [reflexivity|]. intros _ _. exists d.
      rewrite (frame_active _ _ F). exact Ha.
    + rewrite follow_app, (follow_passive _ _ P).
      eapply Hk; [|exact Z|exact K]. rewrite (frame_active _ _ F). exact Ha.
  - apply bind_inv in E1. destruct E1 as (b' & s2 & e2 & e3 & E2 & E3 & ->).
    injection E3 as <- <- <-. rewrite app_nil_r.
    apply on_message_receive_same in E2. destruct E2 as [-> P].
    rewrite (follow_passive _ _ P), Ha. split; [reflexivity|].
    intros Hst Hc. exfalso. apply Hc, Hz, Hst.
  - apply bind_inv in E1. destruct E1 as (b' & s2 & e2 & e3 & E2 & E3 & ->).
    injection E3 as <- <- <-. rewrite app_nil_r.
    destruct (quiet_deactivate _ _ _ _ E2) as [F P].
    rewrite (follow_passive _ _ P), (frame_active _ _ F), Ha.
    split; [reflexivity|]. intros Hst. exfalso.
    exact (deactivate_state _ _ _ _ E2 Hst).
Qed.

Lemma answer_send_from_in_order queue : answers_in_order (answer_send_from queue).
Proof.
  induction queue as [|next rest IH]; intros s d r s' ev Ha Hz E;
    cbn [answer_send_from] in E; rewrite bind_get in E;
    (destruct (answer s) as [a|]; cbn [deref] in E;
     [|rewrite bind_fault in E; discriminate]);
    rewrite bind_ret_l, bind_emit, !bind_modify in E.
  - cbn [ret] in E. injection E as <- <- <-. cbn.
    split; [reflexivity|]. intros _ Hc. exfalso. apply Hc. cbn. exact Hz.
  - match type of E with
    | match ?x with _ => _ end = _ => destruct x as [[[b s1] e1]|] eqn:E1; [|discriminate]
    end.
    injection E as <- <- <-.
    apply bind_inv in E1. destruct E1 as (b' & s2 & e2 & e3 & E2 & E3 & ->).
    injection E3 as <- <- <-. rewrite app_nil_r.
    change (follow (Some (SIGNALING_MESSAGE_OFFER d)) (session_answer a :: e2))
      with (follow None e2).
    eapply (dispatch_in_order _ _ _ _ _ _ IH); [| |exact E2].
    + reflexivity.
    + intros _. cbn. exact Hz.
Qed.

Lemma answer_send_in_order : answers_in_order mrcp_server_session_answer_send.
Proof.
  intros s d r s' ev Ha Hz E. unfold mrcp_server_session_answer_send in E.
  rewrite bind_get in E. eapply answer_send_from_in_order; eassumption.
Qed.

(** *** Each reaction of the session is in order *)

Lemma orderly_bind {A B} (c : M A) (f : A -> M B) :
  orderly c -> (forall a, orderly (f a)) -> orderly (bind c f).
Proof.
  intros Hc Hf s b s2 ev Hs H.
  apply bind_inv in H. destruct H as (a & s1 & e1 & e2 & H1 & H2 & ->).
  destruct (Hc _ _ _ _ Hs H1) as [F1 S1].
  destruct (Hf a _ _ _ _ S1 H2) as [F2 S2].
  split; [|exact S2]. rewrite follow_app, F1. exact F2.
Qed.

Lemma orderly_for_each {A} (l : list A) body :
  (forall i, orderly (body i)) -> orderly (for_each l body).
Proof.
  intros H. induction l as [|i l IH]; simpl.
  - intros s r s' ev Hs [= <- <- <-]. split; [reflexivity | exact Hs].
  - apply orderly_bind; [apply H | intros _; apply IH].
Qed.

(** Code that sends nothing to the client and leaves the active request,
    the state and the count as they are. *)
Lemma orderly_calm {A} (c : M A) :
  quiet c -> preserves same_progress c -> orderly c.
Proof.
  intros Hq Hp s r s' ev Hs E.
  destruct (Hq _ _ _ _ E) as [F P]. destruct (Hp _ _ _ _ E) as [Est Ec].
  rewrite (follow_passive _ _ P), (frame_active _ _ F).
  split; [reflexivity|]. unfold sound in *.
  rewrite Est, Ec, (frame_active _ _ F). exact Hs.
Qed.

Lemma orderly_subrequest_remove : orderly mrcp_server_session_subrequest_remove.
Proof.
  intros s r s' ev Hs E. unfold mrcp_server_session_subrequest_remove in E.
  rewrite bind_get in E.
  destruct (Z.eqb_spec (subrequest_count s) 0) as [Hz|Hz].
  { injection E as <- <- <-. split; [reflexivity | exact Hs]. }
  rewrite bind_modify, bind_get in E.
  cbn [subrequest_count set_subrequest_count] in E.
  set (s1 := set_subrequest_count (subrequest_count s - 1) s) in *.
  destruct (Z.eqb_spec (subrequest_count s - 1) 0) as [Hz1|Hz1].
  2:{ injection E as <- <- <-. split; [reflexivity|].
      intros Hst _. apply Hs; assumption. }
  change (state s1) with (state s) in E.
  destruct (state s) eqn:Est.
  - injection E as <- <- <-. split; [reflexivity|]. intros Hst. cbn in Hst. congruence.
  - apply bind_inv in E. destruct E as (b & s2 & e1 & e2 & E1 & E2 & ->).
    injection E2 as <- <- <-. rewrite app_nil_r.
    destruct (Hs Est Hz) as (d & Ha). rewrite Ha.
    eapply answer_send_in_order; [| |exact E1]; [exact Ha | exact Hz1].
  - apply bind_inv in E. destruct E as (b & s2 & e1 & e2 & E1 & E2 & ->).
    injection E2 as <- <- <-. rewrite app_nil_r.
    destruct (quiet_terminate_process _ _ _ _ E1) as [F P].
    rewrite (follow_passive _ _ P), (frame_active _ _ F).
    split; [reflexivity|]. intros Hst.
    rewrite (terminate_process_state _ _ _ _ E1) in Hst. discriminate.
  - apply bind_inv in E. destruct E as (b & s2 & e1 & e2 & E1 & E2 & ->).
    injection E2 as <- <- <-. rewrite app_nil_r.
    destruct (quiet_terminate_send _ _ _ _ E1) as [F P].
    rewrite (follow_passive _ _ P), (frame_active _ _ F).
    split; [reflexivity|]. intros Hst.
    rewrite (same_state_terminate_send _ _ _ _ E1) in Hst. cbn in Hst. congruence.
Qed.

Ltac orderly_step :=
  match goal with
  | |- orderly _ => assumption
  | |- orderly (bind _ _) => apply orderly_bind; [|intros ?]
  | |- orderly (for_each _ _) => apply orderly_for_each; intros ?
  | |- orderly (when ?b _) => destruct b; unfold when
  | |- orderly (if ?b then _ else _) => destruct b
  | |- orderly (match ?x with _ => _ end) => destruct x
  | |- orderly _ => apply orderly_calm; [solve [quiet_tac] | solve [same_progress_tac]]
  end.

Ltac orderly_tac := repeat orderly_step.

Lemma orderly_signaling_message_process m :
  orderly (mrcp_server_signaling_message_process m).
Proof.
  intros s r s' ev Hs E. unfold mrcp_server_signaling_message_process in E.
  rewrite bind_get in E. destruct (active_request s) as [act|] eqn:Ha.
  - rewrite bind_modify in E. injection E as <- <- <-.
    split; [cbn; rewrite Ha; reflexivity | exact Hs].
  - rewrite bind_modify in E.
    apply bind_inv in E. destruct E as (b & s1 & e1 & e2 & E1 & E2 & ->).
    injection E2 as <- <- <-. rewrite app_nil_r.
    eapply (dispatch_in_order _ _ _ _ _ _ answer_send_in_order); [| |exact E1].
    + reflexivity.
    + cbn. intros Hst.
      destruct (Z.eq_dec (subrequest_count s) 0) as [Hz|Hz]; [exact Hz|].
      destruct (Hs Hst Hz) as (d & Hd). congruence.
Qed.

(** A state machine dispatches a message: the response to a method only
    while a control message is the active request. *)
Lemma on_message_dispatch_in_order channel message s r s' ev :
  sound s -> admissible (on_message_dispatch channel message) s = true ->
  state_machine_on_message_dispatch channel message s = Some (r, s', ev) ->
  follow (active_request s) ev = Some (active_request s') /\ sound s'.
Proof.
  intros Hs Hadm E. unfold state_machine_on_message_dispatch in E.
  unfold channel_at in E. rewrite bind_assoc, bind_get in E.
  destruct (channels s !! channel) as [c|]; cbn [deref] in E;
    [|rewrite bind_fault in E; discriminate].
  rewrite bind_ret_l in E.
  apply bind_inv in E. destruct E as ([] & s1 & e1 & e2 & E1 & E2 & ->).
  injection E2 as <- <- <-. rewrite app_nil_r.
  cbn [admissible] in Hadm. unfold response in Hadm.
  destruct (message_type message) eqn:Hm.
  - assert (H : s1 = s /\ forallb passive e1 = true).
    { destruct (bool_decide (engine_channel c <> None)); cbn [when] in E1;
        injection E1 as <- <-; auto. }
    destruct H as [-> P]. rewrite (follow_passive _ _ P). auto.
  - cbn [negb orb] in Hadm.
    destruct (active_request s) as [[d|ch0 m0|]|] eqn:Ha; try discriminate.
    apply bind_inv in E1. destruct E1 as (u & s2 & e3 & e4 & E3 & E4 & ->).
    assert (H : s2 = s /\
                follow (Some (SIGNALING_MESSAGE_CONTROL ch0 m0)) e3 = Some None).
    { destruct (control_channel c); injection E3 as <- <- <-;
        cbn; unfold response; rewrite Hm; auto. }
    destruct H as [-> F3]. rewrite follow_app, F3. clear E3 F3.
    assert (Hz : state s = SESSION_STATE_ANSWERING -> subrequest_count s = 0).
    { intros Hst. destruct (Z.eq_dec (subrequest_count s) 0) as [Hz|Hz]; [exact Hz|].
      destruct (Hs Hst Hz) as (d & Hd). congruence. }
    unfold request_queue_pop_front in E4. rewrite bind_assoc, bind_get in E4.
    destruct (request_queue s) as [|next rest].
    + rewrite bind_ret_l, bind_modify in E4. injection E4 as <- <-.
      split; [reflexivity|]. intros Hst Hc. exfalso. apply Hc, Hz, Hst.
    + rewrite bind_assoc, bind_modify, bind_ret_l, bind_modify in E4.
      apply bind_inv in E4. destruct E4 as (b & s3 & e5 & e6 & E5 & E6 & ->).
      injection E6 as <- <-. rewrite app_nil_r.
      eapply (dispatch_in_order _ _ _ _ _ _ answer_send_in_order); [| |exact E5].
      * reflexivity.
      * exact Hz.
  - assert (H : s1 = s /\ follow (active_request s) e1 = Some (active_request s)).
    { destruct (control_channel c); injection E1 as <- <-; split; try reflexivity;
        cbn; destruct (active_request s) as [[d|ch0 m0|]|]; cbn;
        unfold response; rewrite ?Hm; reflexivity. }
    destruct H as [-> F1]. auto.
Qed.

Lemma react_in_order i s r s' ev :
  sound s -> admissible i s = true -> react i s = Some (r, s', ev) ->
  follow (active_request s) ev = Some (active_request s') /\ sound s'.
Proof.
  intros Hs Hadm E.
  assert (O : (forall channel message, i <> on_message_dispatch channel message) ->
              orderly (react i)).
  { intros Hi. pose proof orderly_subrequest_remove.
    destruct i; cbn [react];
      try apply orderly_signaling_message_process;
      unfold mrcp_server_on_channel_modify, mrcp_server_on_channel_remove,
        mrcp_server_on_disconnect, mrcp_server_on_engine_channel_open,
        mrcp_server_on_engine_channel_close, mrcp_server_on_engine_channel_message,
        mrcp_server_mpf_message_process, mrcp_server_on_termination_modify,
        mrcp_server_on_termination_subtract, state_machine_on_deactivate;
      try solve [orderly_tac].
    exfalso. eapply Hi. reflexivity. }
  destruct i;
    try (apply (O ltac:(intros; discriminate) s r s' ev Hs E)).
  exact (on_message_dispatch_in_order channel message s r s' ev Hs Hadm E).
Qed.

Lemma run_in_order inputs : forall s s' ev,
  sound s -> admissible_run inputs s = true -> run inputs s = Some (tt, s', ev) ->
  follow (active_request s) ev = Some (active_request s') /\ sound s'.
Proof.
  induction inputs as [|i rest IH]; intros s s' ev Hs Hadm E.
  - injection E as <- <-. split; [reflexivity | exact Hs].
  - cbn [run] in E. cbn [admissible_run] in Hadm.
    apply andb_true_iff in Hadm. destruct Hadm as [H1 H2].
    apply bind_inv in E. destruct E as (b & s1 & e1 & e2 & E1 & E2 & ->).
    rewrite E1 in H2.
    destruct (react_in_order i s b s1 e1 Hs H1 E1) as [F1 S1].
    destruct (IH s1 s' e2 S1 H2 E2) as [F2 S2].
    split; [|exact S2]. rewrite follow_app, F1. exact F2.
Qed.

(** A message is dispatched while another one is being processed only
    once that one is completed. *)
Lemma follow_completed a e1 m e2 result :
  follow (Some a) (e1 ++ dispatched m :: e2) = Some result ->
  existsb (completes a) e1 = true.
Proof.
  induction e1 as [|e e1 IH]; cbn [app follow existsb].
  - discriminate.
  - destruct (completes a e) eqn:Ec; [reflexivity|].
    destruct e; try discriminate; cbn [orb]; rewrite ?Ec; exact IH.
Qed.


(** * More of the session

    What follows is about the session code as a whole: what no input
    changes, what the final step of the termination does, and what happens
    to a message that cannot be delivered. *)

(** ** What stays of a session *)

(** The fields of a channel and of a termination slot that are set when it
    is made. *)
Definition same_channel (c c' : mrcp_channel_t) : Prop :=
  channel_resource_name c' = channel_resource_name c /\
  resource c' = resource c /\
  state_machine c' = state_machine c /\
  id c' = id c /\ cmid c' = cmid c.

Definition same_slot (t t' : mrcp_termination_slot_t) : Prop :=
  termination t' = termination t /\ slot_id t' = slot_id t.

(** [l'] is [l] with its elements updated within [R], and more after them. *)
Definition grows {A} (R : A -> A -> Prop) (l l' : list A) : Prop :=
  (length l <= length l')%nat /\
  forall i x, l !! i = Some x -> exists x', l' !! i = Some x' /\ R x x'.

(** How often the session is added to the session table. *)
Fixpoint table_adds (ev : list session_event) : nat :=
  match ev with
  | [] => 0%nat
  | session_table_add :: ev' => S (table_adds ev')
  | _ :: ev' => table_adds ev'
  end.

Record steady (s s' : mrcp_server_session_t) (ev : list session_event) : Prop := {
  steady_version : mrcp_version s' = mrcp_version s;
  steady_id : session_id s <> None -> session_id s' = session_id s;
  steady_context :
    context s <> None -> context s' = context s /\ table_adds ev = 0%nat;
  steady_table :
    mpf_engine_context_create <> None ->
    (table_adds ev <= 1)%nat /\ (table_adds ev = 1%nat -> context s' <> None);
  steady_channels : grows same_channel (channels s) (channels s');
  steady_terminations : grows same_slot (terminations s) (terminations s')
}.

Definition keeps {A} (c : M A) : Prop :=
  forall s a s' ev, c s = Some (a, s', ev) -> steady s s' ev.

Lemma table_adds_app e1 e2 : table_adds (e1 ++ e2) = (table_adds e1 + table_adds e2)%nat.
Proof.
  induction e1 as [|e e1 IH]; [reflexivity|].
  destruct e; simpl; rewrite IH; reflexivity.
Qed.

Lemma grows_refl {A} (R : A -> A -> Prop) l : (forall x, R x x) -> grows R l l.
Proof. intros HR. split; [lia|]. intros i x H. exists x. auto. Qed.

Lemma grows_trans {A} (R : A -> A -> Prop) l1 l2 l3 :
  (forall x y z, R x y -> R y z -> R x z) ->
  grows R l1 l2 -> grows R l2 l3 -> grows R l1 l3.
Proof.
  intros HR [L1 H1] [L2 H2]. split; [lia|].
  intros i x Hx. destruct (H1 i x Hx) as (y & Hy & Rxy).
  destruct (H2 i y Hy) as (z & Hz & Ryz). exists z. split; [exact Hz|]. eauto.
Qed.

Lemma grows_alter {A} (R : A -> A -> Prop) (f : A -> A) i l :
  (forall x, R x x) -> (forall x, R x (f x)) -> grows R l (alter f i l).
Proof.
  intros HR Hf. split; [rewrite length_alter; lia|].
  intros k x Hx. destruct (Nat.eq_dec i k) as [->|Hne].
  - exists (f x). rewrite list_lookup_alter_eq, Hx. split; [reflexivity | apply Hf].
  - exists x. rewrite list_lookup_alter_ne by exact Hne. split; [exact Hx | apply HR].
Qed.

Lemma grows_app {A} (R : A -> A -> Prop) l l' :
  (forall x, R x x) -> grows R l (l ++ l').
Proof.
  intros HR. split; [rewrite length_app; lia|].
  intros i x Hx. exists x. split; [|apply HR].
  apply lookup_app_l_Some. exact Hx.
Qed.

Lemma same_channel_refl c : same_channel c c.
Proof. repeat split. Qed.

Lemma same_channel_trans c1 c2 c3 :
  same_channel c1 c2 -> same_channel c2 c3 -> same_channel c1 c3.
Proof. unfold same_channel. intuition congruence. Qed.

Lemma same_slot_refl t : same_slot t t.
Proof. repeat split. Qed.

Lemma same_slot_trans t1 t2 t3 : same_slot t1 t2 -> same_slot t2 t3 -> same_slot t1 t3.
Proof. unfold same_slot. intuition congruence. Qed.

Lemma steady_refl s : steady s s [].
Proof.
  split; simpl.
  - reflexivity.
  - reflexivity.
  - intros _. split; reflexivity.
  - intros _. split; [lia | discriminate].
  - apply grows_refl, same_channel_refl.
  - apply grows_refl, same_slot_refl.
Qed.

Lemma steady_trans s1 s2 s3 e1 e2 :
  steady s1 s2 e1 -> steady s2 s3 e2 -> steady s1 s3 (e1 ++ e2).
Proof.
  intros [V1 I1 C1 T1 G1 S1] [V2 I2 C2 T2 G2 S2].
  split.
  - congruence.
  - intros H. rewrite I2; [auto|]. rewrite I1; assumption.
  - intros H. destruct (C1 H) as [Hc Ha].
    destruct C2 as [Hc' Ha']; [congruence|].
    split; [congruence|]. rewrite table_adds_app. lia.
  - intros H. destruct (T1 H) as [Hle Hctx]. destruct (T2 H) as [Hle' Hctx'].
    rewrite table_adds_app.
    destruct (table_adds e1) as [|[|n]] eqn:E1; [| |lia].
    + simpl. auto.
    + destruct C2 as [Hc' Ha']; [auto|].
      rewrite Ha'. split; [lia|]. intros _. rewrite Hc'. auto.
  - eapply grows_trans; [apply same_channel_trans | eassumption | eassumption].
  - eapply grows_trans; [apply same_slot_trans | eassumption | eassumption].
Qed.

Lemma keeps_ret {A} (a : A) : keeps (ret a).
Proof. intros s a' s' ev [= <- <- <-]. apply steady_refl. Qed.

Lemma keeps_fault {A} : keeps (@fault A).
Proof. intros s a s' ev H. discriminate. Qed.

Lemma keeps_get : keeps get.
Proof. intros s a s' ev [= <- <- <-]. apply steady_refl. Qed.

Lemma keeps_deref {A} (p : option A) : keeps (deref p).
Proof. destruct p; [apply keeps_ret | apply keeps_fault]. Qed.

Lemma keeps_emit e : table_adds [e] = 0%nat -> keeps (emit e).
Proof.
  intros He s a s' ev [= <- <- <-].
  destruct (steady_refl s) as [V I C T G S].
  split; [exact V | exact I | | | exact G | exact S].
  - intros H. split; [reflexivity | exact He].
  - intros _. rewrite He. split; [lia | discriminate].
Qed.

Lemma keeps_modify f : (forall s, steady s (f s) []) -> keeps (modify f).
Proof. intros Hf s a s' ev [= <- <- <-]. apply Hf. Qed.

Lemma keeps_bind {A B} (c : M A) (f : A -> M B) :
  keeps c -> (forall a, keeps (f a)) -> keeps (bind c f).
Proof.
  intros Hc Hf s b s2 ev H.
  apply bind_inv in H. destruct H as (a & s1 & e1 & e2 & H1 & H2 & ->).
  eapply steady_trans; [eapply Hc | eapply Hf]; eassumption.
Qed.

Lemma keeps_when b c : keeps c -> keeps (when b c).
Proof. intros H. destruct b; [exact H | apply keeps_ret]. Qed.

Lemma keeps_for_each {A} (l : list A) body :
  (forall i, keeps (body i)) -> keeps (for_each l body).
Proof.
  intros H. induction l as [|i l IH]; simpl; [apply keeps_ret|].
  apply keeps_bind; [apply H | intros _; apply IH].
Qed.

Lemma keeps_channel_update i f :
  (forall c, same_channel c (f c)) -> keeps (channel_update i f).
Proof.
  intros Hf. apply keeps_modify. intros s.
  destruct (steady_refl s) as [V I C T G S].
  split; [exact V | exact I | exact C | exact T | | exact S].
  apply grows_alter; [apply same_channel_refl | exact Hf].
Qed.

Lemma keeps_slot_update i f :
  (forall t, same_slot t (f t)) -> keeps (slot_update i f).
Proof.
  intros Hf. apply keeps_modify. intros s.
  destruct (steady_refl s) as [V I C T G S].
  split; [exact V | exact I | exact C | exact T | exact G |].
  apply grows_alter; [apply same_slot_refl | exact Hf].
Qed.

Create HintDb keeps_db.

Ltac steady_leaf :=
  repeat match goal with |- context [if ?b then _ else _] => destruct b end;
  split; simpl;
  first [ solve [auto]
        | solve [intros; split; [lia | discriminate]]
        | solve [apply grows_refl; first [apply same_channel_refl | apply same_slot_refl]]
        | solve [apply grows_app; first [apply same_channel_refl | apply same_slot_refl]] ].

Ltac keeps_step :=
  match goal with
  | |- keeps _ => assumption
  | |- keeps _ => solve [auto with keeps_db]
  | |- keeps (bind _ _) => apply keeps_bind; [|intros ?]
  | |- keeps (ret _) => apply keeps_ret
  | |- keeps fault => apply keeps_fault
  | |- keeps get => apply keeps_get
  | |- keeps (deref _) => apply keeps_deref
  | |- keeps (when _ _) => apply keeps_when
  | |- keeps (for_each _ _) => apply keeps_for_each; intros ?
  | |- keeps (emit _) => apply keeps_emit; reflexivity
  | |- keeps (channel_update _ _) =>
      apply keeps_channel_update; intros ?; repeat split
  | |- keeps (slot_update _ _) =>
      apply keeps_slot_update; intros ?; repeat split
  | |- keeps (modify _) => apply keeps_modify; intros ?; steady_leaf
  | |- keeps (if ?b then _ else _) => destruct b
  | |- keeps (match ?x with _ => _ end) => destruct x
  end.

Ltac keeps_tac := repeat keeps_step.

Lemma keeps_answer_update f : keeps (answer_update f).
Proof. unfold answer_update. keeps_tac. Qed.

Lemma keeps_channel_at i : keeps (channel_at i).
Proof. unfold channel_at. keeps_tac. Qed.

Lemma keeps_slot_at i : keeps (slot_at i).
Proof. unfold slot_at. keeps_tac. Qed.

Lemma keeps_state_set st : keeps (mrcp_server_session_state_set st).
Proof. unfold mrcp_server_session_state_set. keeps_tac. Qed.

Lemma keeps_subrequest_add : keeps mrcp_server_session_subrequest_add.
Proof. unfold mrcp_server_session_subrequest_add. keeps_tac. Qed.

Lemma keeps_version_get : keeps mrcp_session_version_get.
Proof. unfold mrcp_session_version_get. keeps_tac. Qed.

Lemma keeps_batch_add c : keeps (batch_add c).
Proof. unfold batch_add. keeps_tac. Qed.

#[local] Hint Resolve keeps_answer_update keeps_channel_at keeps_slot_at
  keeps_state_set keeps_subrequest_add keeps_version_get keeps_batch_add : keeps_db.

Lemma keeps_termination_message_add c t d :
  keeps (mpf_engine_termination_message_add c t d).
Proof. unfold mpf_engine_termination_message_add. keeps_tac. Qed.

Lemma keeps_assoc_message_add c t1 t2 : keeps (mpf_engine_assoc_message_add c t1 t2).
Proof. unfold mpf_engine_assoc_message_add. keeps_tac. Qed.

Lemma keeps_topology_message_add c : keeps (mpf_engine_topology_message_add c).
Proof. unfold mpf_engine_topology_message_add. keeps_tac. Qed.

Lemma keeps_message_send : keeps mpf_engine_message_send.
Proof. unfold mpf_engine_message_send. keeps_tac. Qed.

Lemma keeps_engine_channel_create name : keeps (mrcp_server_engine_channel_create name).
Proof. unfold mrcp_server_engine_channel_create. keeps_tac. Qed.

#[local] Hint Resolve keeps_termination_message_add keeps_assoc_message_add
  keeps_topology_message_add keeps_message_send keeps_engine_channel_create : keeps_db.

Lemma keeps_channel_create name id cmid : keeps (mrcp_server_channel_create name id cmid).
Proof. unfold mrcp_server_channel_create. keeps_tac. Qed.

Lemma keeps_terminate_send : keeps mrcp_server_session_terminate_send.
Proof. unfold mrcp_server_session_terminate_send. keeps_tac. Qed.

#[local] Hint Resolve keeps_channel_create keeps_terminate_send : keeps_db.

Lemma keeps_terminate_process : keeps mrcp_server_session_terminate_process.
Proof. unfold mrcp_server_session_terminate_process. keeps_tac. Qed.

#[local] Hint Resolve keeps_terminate_process : keeps_db.

Lemma keeps_deactivate : keeps mrcp_server_session_deactivate.
Proof. unfold mrcp_server_session_deactivate. keeps_tac. Qed.

Lemma keeps_on_message_receive channel message :
  keeps (mrcp_server_on_message_receive channel message).
Proof. unfold mrcp_server_on_message_receive. keeps_tac. Qed.

Lemma keeps_engine_channel_open_and_add i merge_mode :
  keeps (engine_channel_open_and_add i merge_mode).
Proof. unfold engine_channel_open_and_add. keeps_tac. Qed.

Lemma keeps_control_answer_set i d : keeps (control_answer_set i d).
Proof. unfold control_answer_set. keeps_tac. Qed.

#[local] Hint Resolve keeps_deactivate keeps_on_message_receive
  keeps_engine_channel_open_and_add keeps_control_answer_set : keeps_db.

Lemma keeps_resource_offer_process : keeps mrcp_server_resource_offer_process.
Proof. unfold mrcp_server_resource_offer_process. keeps_tac. Qed.

Lemma keeps_control_media_offer_process : keeps mrcp_server_control_media_offer_process.
Proof. unfold mrcp_server_control_media_offer_process. keeps_tac. Qed.

Lemma keeps_associations_build i : keeps (mrcp_server_associations_build i).
Proof. unfold mrcp_server_associations_build. keeps_tac. Qed.

Lemma keeps_associations_set i : keeps (mrcp_server_associations_set i).
Proof. unfold mrcp_server_associations_set. keeps_tac. Qed.

#[local] Hint Resolve keeps_resource_offer_process keeps_control_media_offer_process
  keeps_associations_build keeps_associations_set : keeps_db.

Lemma keeps_av_media_offer_process : keeps mrcp_server_av_media_offer_process.
Proof. unfold mrcp_server_av_media_offer_process. keeps_tac. Qed.

#[local] Hint Resolve keeps_av_media_offer_process : keeps_db.

(** The first step of an offer: the session gets its id and its media
    context, and is added to the table, when it has no context yet. *)
Lemma offer_begin_steady (s : mrcp_server_session_t) a s' ev :
  when (bool_decide (context s = None))
    (when (bool_decide (session_id s = None))
       (modify (set_session_id apt_unique_id_generate)) ;;
     emit session_table_add ;;
     modify (set_context mpf_engine_context_create)) s = Some (a, s', ev) ->
  steady s s' ev.
Proof.
  destruct (steady_refl s) as [V I C T G S].
  case_bool_decide as Hc; cbn [when].
  - case_bool_decide as Hi; cbn [when]; monad_simp; rewrite bind_emit; monad_simp;
      unfold modify; intros [= <- <- <-];
      (split; simpl; [exact V | | | | exact G | exact S]);
      try solve [intros; congruence | intros; split; [lia | auto]].
  - intros [= <- <- <-]. split; assumption.
Qed.

Lemma keeps_offer_process_with k d : keeps k -> keeps (offer_process_with k d).
Proof.
  intros Hk s a s' ev H. unfold offer_process_with in H.
  rewrite bind_get in H.
  apply bind_inv in H. destruct H as (x & s1 & e1 & e2 & H1 & H2 & ->).
  apply steady_trans with s1; [eapply offer_begin_steady, H1|].
  lazymatch type of H2 with
  | ?c _ = Some _ => assert (K : keeps c) by (cbv beta; keeps_tac)
  end.
  eapply K, H2.
Qed.

Lemma keeps_signaling_message_dispatch_with k m :
  keeps k -> keeps (signaling_message_dispatch_with k m).
Proof.
  intros Hk. pose proof (fun d => keeps_offer_process_with k d Hk).
  unfold signaling_message_dispatch_with. keeps_tac.
Qed.

Lemma keeps_answer_send_from queue : keeps (answer_send_from queue).
Proof.
  induction queue as [|next rest IH]; cbn [answer_send_from]; keeps_tac.
  apply keeps_signaling_message_dispatch_with, IH.
Qed.

Lemma keeps_answer_send : keeps mrcp_server_session_answer_send.
Proof.
  unfold mrcp_server_session_answer_send. keeps_tac. apply keeps_answer_send_from.
Qed.

Lemma keeps_signaling_message_dispatch m :
  keeps (mrcp_server_signaling_message_dispatch m).
Proof. apply keeps_signaling_message_dispatch_with, keeps_answer_send. Qed.

Lemma keeps_subrequest_remove : keeps mrcp_server_session_subrequest_remove.
Proof.
  pose proof keeps_answer_send.
  unfold mrcp_server_session_subrequest_remove. keeps_tac.
Qed.

Lemma keeps_react i : keeps (react i).
Proof.
  pose proof keeps_answer_send. pose proof keeps_subrequest_remove.
  pose proof keeps_signaling_message_dispatch.
  destruct i; simpl;
    unfold mrcp_server_on_channel_message, mrcp_server_signaling_message_process,
      mrcp_server_on_channel_modify, mrcp_server_on_channel_remove,
      mrcp_server_on_disconnect, mrcp_server_on_engine_channel_open,
      mrcp_server_on_engine_channel_close, mrcp_server_on_engine_channel_message,
      mrcp_server_mpf_message_process, mrcp_server_on_termination_modify,
      mrcp_server_on_termination_subtract, state_machine_on_message_dispatch,
      request_queue_pop_front, state_machine_on_deactivate;
    keeps_tac.
Qed.

Lemma keeps_run inputs : keeps (run inputs).
Proof.
  induction inputs as [|i rest IH]; simpl.
  - apply keeps_ret.
  - apply keeps_bind; [apply keeps_react | intros _; exact IH].
Qed.


(** X10: whatever the inputs, the channels and the termination slots of a
    session stay where they are in their arrays, which only grow, and keep
    what they were made with: a channel its resource name, resource, state
    machine, id and cmid, a slot its termination and id. *)
Theorem channels_and_slots_stay inputs s s' ev :
  run inputs s = Some (tt, s', ev) ->
  (length (channels s) <= length (channels s'))%nat /\
  (length (terminations s) <= length (terminations s'))%nat /\
  (forall i c, channels s !! i = Some c ->
     exists c', channels s' !! i = Some c' /\
       channel_resource_name c' = channel_resource_name c /\
       resource c' = resource c /\ state_machine c' = state_machine c /\
       id c' = id c /\ cmid c' = cmid c) /\
  (forall i t, terminations s !! i = Some t ->
     exists t', terminations s' !! i = Some t' /\
       termination t' = termination t /\ slot_id t' = slot_id t).
Proof.
  intros H. destruct (keeps_run inputs _ _ _ _ H) as [_ _ _ _ [L1 G1] [L2 G2]].
  auto.
Qed.

(** ** The last step of the termination *)

(** A channel whose control channel and engine channel are destroyed. *)
Definition destroyed (c : mrcp_channel_t) : mrcp_channel_t :=
  set_engine_channel None (set_control_channel false c).

(** What is destroyed of the channels [l], the first of which is at the
    position [i]. *)
Fixpoint channel_destroys (i : nat) (l : list mrcp_channel_t) : list session_event :=
  match l with
  | [] => []
  | c :: l' =>
      (if control_channel c then [control_channel_destroy i] else []) ++
      match engine_channel c with
       | Some _ => [engine_channel_destroy i]
       | None => []
       end ++
      channel_destroys (S i) l'
  end.

Lemma alter_middle {A} (f : A -> A) pre x l :
  alter f (length pre) (pre ++ x :: l) = pre ++ f x :: l.
Proof. induction pre as [|y pre IH]; simpl; [reflexivity | f_equal; exact IH]. Qed.

Lemma set_channels_twice v w s : set_channels v (set_channels w s) = set_channels v s.
Proof. reflexivity. Qed.

Lemma set_channels_same s : set_channels (channels s) s = s.
Proof. destruct s; reflexivity. Qed.

Lemma channel_destroys_none i l :
  Forall (fun c => control_channel c = false /\ engine_channel c = None) l ->
  channel_destroys i l = [] /\ map destroyed l = l.
Proof.
  intros H. revert i. induction H as [|c l [Hc He] _ IH]; intros i; [auto|].
  simpl. rewrite Hc, He. destruct (IH (S i)) as [-> ->].
  split; [reflexivity|]. f_equal.
  destruct c; simpl in *; subst; reflexivity.
Qed.

Lemma terminate_send_loop : forall l pre s,
  channels s = pre ++ l ->
  for_each (seq (length pre) (length l)) (fun i =>
    channel <- channel_at i ;;
    when (control_channel channel)
      (emit (control_channel_destroy i) ;;
       channel_update i (set_control_channel false)) ;;
    when (bool_decide (engine_channel channel <> None))
      (emit (engine_channel_destroy i) ;;
       channel_update i (set_engine_channel None))) s =
  Some (tt, set_channels (pre ++ map destroyed l) s,
        channel_destroys (length pre) l).
Proof.
  induction l as [|c l IH]; intros pre s Hs.
  - cbn [length seq for_each map channel_destroys]. rewrite app_nil_r in Hs |- *.
    rewrite <- Hs, set_channels_same. reflexivity.
  - cbn [length seq for_each map channel_destroys].
    assert (Hc : channels s !! length pre = Some c)
      by (rewrite Hs; apply list_lookup_middle; reflexivity).
    pose (s1 := set_channels (pre ++ destroyed c :: l) s).
    assert (H1 : channels s1 = (pre ++ [destroyed c]) ++ l)
      by (simpl; rewrite <- app_assoc; reflexivity).
    specialize (IH (pre ++ [destroyed c]) s1 H1).
    rewrite length_app, Nat.add_1_r in IH.
    assert (Hbody :
      (channel <- channel_at (length pre) ;;
       when (control_channel channel)
         (emit (control_channel_destroy (length pre)) ;;
          channel_update (length pre) (set_control_channel false)) ;;
       when (bool_decide (engine_channel channel <> None))
         (emit (engine_channel_destroy (length pre)) ;;
          channel_update (length pre) (set_engine_channel None))) s =
      Some (tt, s1,
            (if control_channel c then [control_channel_destroy (length pre)] else []) ++
            match engine_channel c with
             | Some _ => [engine_channel_destroy (length pre)]
             | None => []
             end)).
    { unfold channel_at. rewrite bind_assoc, bind_get, Hc. cbn [deref].
      rewrite bind_ret_l. unfold channel_update, s1, destroyed.
      destruct c as [n r cc ec sm ci cm w1 w2].
      destruct cc, ec as [e|]; cbn [control_channel engine_channel when];
        try rewrite (bool_decide_true (Some e <> None)) by discriminate;
        try rewrite (bool_decide_false (None <> None)) by (intros H; apply H; reflexivity);
        cbn [when]; unfold bind, emit, modify, ret; cbn [channels set_channels];
        rewrite ?Hs, ?alter_middle; cbn [app]; try rewrite alter_middle;
        first [ reflexivity
              | rewrite <- (set_channels_same s) at 1; rewrite Hs; reflexivity ]. }
    rewrite (bind_intro _ _ _ _ _ _ Hbody), IH.
    unfold s1. rewrite set_channels_twice, <- !app_assoc. reflexivity.
Qed.

(** X11: [mrcp_server_session_terminate_send] never fails: it destroys the
    control channel and the engine channel of every channel that has one,
    in the order of the channels, then sends one terminate response; the
    channels are left without either, and the rest of the session as it
    was, so that a second call destroys nothing and sends the response
    again. *)
Theorem terminate_send_destroys_each_channel_once s :
  let s' := set_channels (map destroyed (channels s)) s in
  mrcp_server_session_terminate_send s =
    Some (true, s', channel_destroys 0 (channels s) ++ [session_terminate_response]) /\
  Forall (fun c => control_channel c = false /\ engine_channel c = None) (channels s') /\
  mrcp_server_session_terminate_send s' = Some (true, s', [session_terminate_response]).
Proof.
  assert (E : forall s,
    mrcp_server_session_terminate_send s =
    Some (true, set_channels (map destroyed (channels s)) s,
          channel_destroys 0 (channels s) ++ [session_terminate_response])).
  { intros s0. unfold mrcp_server_session_terminate_send. rewrite bind_get.
    rewrite (bind_intro _ _ _ _ _ _ (terminate_send_loop (channels s0) [] s0 eq_refl)).
    reflexivity. }
  cbv zeta.
  assert (F : Forall (fun c => control_channel c = false /\ engine_channel c = None)
                (map destroyed (channels s))).
  { induction (channels s) as [|c l IH]; simpl; constructor;
      [split; reflexivity | exact IH]. }
  split; [apply E|]. split; [exact F|].
  rewrite E. cbn [channels set_channels].
  destruct (channel_destroys_none 0 _ F) as [-> ->]. reflexivity.
Qed.

(** ** A control message that cannot be delivered *)

(** The message finds no channel, or a channel without a resource or
    without a state machine. *)
Definition undeliverable (s : mrcp_server_session_t) (channel : option nat)
    (message : mrcp_message_t) : Prop :=
  match match channel with
        | Some i => Some i
        | None => mrcp_server_channel_find s (message_resource_name message)
        end with
  | None => True
  | Some i => exists c, channels s !! i = Some c /\
                        (resource c = None \/ state_machine c = false)
  end.

Lemma set_request_queue_same s : set_request_queue (request_queue s) s = s.
Proof. destruct s; reflexivity. Qed.

Lemma signaling_messages_queued : forall ms s,
  active_request s <> None ->
  run (map signaling_message_process ms) s =
  Some (tt, set_request_queue (request_queue s ++ ms) s, []).
Proof.
  induction ms as [|m ms IH]; intros s Ha.
  - simpl. rewrite app_nil_r, set_request_queue_same. reflexivity.
  - cbn [map run react].
    assert (E : mrcp_server_signaling_message_process m s =
                Some (true, set_request_queue (request_queue s ++ [m]) s, [])).
    { unfold mrcp_server_signaling_message_process. rewrite bind_get.
      destruct (active_request s); [reflexivity | contradiction]. }
    rewrite (bind_intro _ _ _ _ _ _ E), IH by exact Ha.
    cbn [request_queue set_request_queue]. rewrite <- app_assoc. reflexivity.
Qed.

(** X12: a control message for which no channel is found, or whose channel
    has no resource or no state machine, is dispatched and dropped: no
    state machine sees it and nothing is sent to the client; it stays the
    active request of the session, and the signaling messages that follow
    are put in the queue, none of them dispatched. *)
Theorem undeliverable_control_message_stalls s channel message ms :
  active_request s = None ->
  undeliverable s channel message ->
  let m := SIGNALING_MESSAGE_CONTROL channel message in
  let s1 := set_active_request (Some m) s in
  mrcp_server_signaling_message_process m s = Some (true, s1, [dispatched m]) /\
  run (map signaling_message_process ms) s1 =
    Some (tt, set_request_queue (request_queue s ++ ms) s1, []).
Proof.
  intros Ha Hu. cbv zeta. split.
  - unfold mrcp_server_signaling_message_process. rewrite bind_get, Ha, bind_modify.
    unfold mrcp_server_signaling_message_dispatch, signaling_message_dispatch_with.
    assert (E : mrcp_server_on_message_receive channel message
                  (set_active_request (Some (SIGNALING_MESSAGE_CONTROL channel message)) s) =
                Some (false,
                      set_active_request (Some (SIGNALING_MESSAGE_CONTROL channel message)) s,
                      [])).
    { unfold mrcp_server_on_message_receive. rewrite bind_get.
      unfold undeliverable in Hu.
      change (mrcp_server_channel_find (set_active_request ?x s) ?n)
        with (mrcp_server_channel_find s n).
      destruct (match channel with
                | Some i => Some i
                | None => mrcp_server_channel_find s (message_resource_name message)
                end) as [i|]; [|reflexivity].
      destruct Hu as (c & Hc & Hr).
      unfold channel_at. rewrite bind_assoc, bind_get.
      cbn [channels set_active_request]. rewrite Hc. cbn [deref]. rewrite bind_ret_l.
      destruct Hr as [-> | ->].
      - rewrite bool_decide_true by reflexivity. reflexivity.
      - rewrite orb_true_r. reflexivity. }
    unfold bind at 1. unfold bind at 1. unfold emit.
    rewrite (bind_intro _ _ _ _ _ _ E). reflexivity.
  - apply (signaling_messages_queued ms
             (set_active_request (Some (SIGNALING_MESSAGE_CONTROL channel message)) s)).
    discriminate.
Qed.

(** ** Messages of the media engine that carry no context *)

(** The responses for which the session is looked at whatever it is: those
    to the association and topology commands. *)
Definition needs_session (m : mpf_message_t) : bool :=
  match mpf_message_type m with
  | MPF_MESSAGE_TYPE_RESPONSE =>
      match mpf_command_id m with
      | MPF_ADD_TERMINATION | MPF_MODIFY_TERMINATION | MPF_SUBTRACT_TERMINATION => false
      | _ => true
      end
  | _ => false
  end.

(** X13: in a container of messages that carry no context, the requests,
    the events and the responses to the termination commands are passed
    over, and the session is left as it is; a response to an association or
    topology command makes [mrcp_server_mpf_message_process] take the
    sub-request count of a session that is NULL, and nothing is returned. *)
Theorem messages_without_context l s :
  Forall (fun m => mpf_context m = None) l ->
  mrcp_server_mpf_message_process l s =
  if existsb needs_session l then None else Some (true, s, []).
Proof.
  intros H. unfold mrcp_server_mpf_message_process.
  induction H as [|m l Hm _ IH]; [reflexivity|].
  cbn [for_each existsb]. rewrite Hm.
  rewrite (bool_decide_false (None <> None)) by (intros E; apply E; reflexivity).
  unfold needs_session at 1.
  rewrite bind_assoc.
  destruct (mpf_message_type m); [rewrite bind_ret_l; exact IH | | rewrite bind_ret_l; exact IH].
  destruct (mpf_command_id m);
    unfold mrcp_server_on_termination_modify, mrcp_server_on_termination_subtract;
    cbn [negb orb]; rewrite ?bind_assoc, ?bind_ret_l, ?bind_fault;
    first [exact IH | reflexivity].
Qed.

End Orchestrator.

(** ** A server at work

    The resource speechrecog is known and has a state machine; no resource
    engine is loaded for it; the media engine takes every command; an idle
    state machine has nothing to deactivate. *)
#[local] Instance bare_server : Collaborators := {|
  apt_string_compare a b := bool_decide (a = b);
  apt_unique_id_generate := Some "0123456789abcdef"%string;
  mpf_engine_context_create := Some 1%nat;
  mrcp_resource_get name :=
    if bool_decide (name = Some "speechrecog"%string) then Some 1%nat else None;
  create_server_state_machine _ _ := true;
  mrcp_server_control_channel_create _ := true;
  engine_table _ := None;
  mrcp_engine_channel_virtual_create _ _ := None;
  mrcp_server_control_channel_modify _ _ := true;
  mrcp_server_control_channel_add _ _ := true;
  mrcp_server_control_channel_remove _ := true;
  mrcp_engine_channel_virtual_open _ := true;
  mrcp_engine_channel_virtual_close _ := true;
  mpf_engine_message_add _ := true;
  mpf_termination_create i := Some (200 + i)%nat;
  termination_stream_mode _ := Some 3;
  mrcp_state_machine_update _ _ := true;
  mrcp_state_machine_deactivate _ := false;
  mrcp_session_answer _ := true;
  mrcp_control_answer_create d := d
|}.

(** An MRCPv1 offer for the resource speechrecog, without media. *)
Definition speechrecog_offer : mrcp_session_descriptor_t :=
  {| origin := None; ip := None; ext_ip := None;
     resource_name := Some "speechrecog"%string; resource_state := true;
     status := MRCP_SESSION_STATUS_OK;
     control_media_arr := []; audio_media_arr := []; video_media_arr := [] |}.

Definition method_response : mrcp_message_t :=
  {| message_type := MRCP_MESSAGE_TYPE_RESPONSE;
     message_resource_name := Some "speechrecog"%string;
     message_body := "200 COMPLETE"%string |}.

(** The response of the media engine to a command on the context. *)
Definition media_response (command : mpf_command_type_e) : mpf_message_t :=
  {| mpf_message_type := MPF_MESSAGE_TYPE_RESPONSE; mpf_command_id := command;
     mpf_context := Some 1%nat; mpf_termination := None; mpf_descriptor := None |}.

(** The session once the offer has been dispatched: the two topology
    commands are with the media engine, the answer waits for them. *)
Definition offer_pending : mrcp_server_session_t :=
  {| session_id := Some "0123456789abcdef"%string;
     mrcp_version := MRCP_VERSION_1;
     context := Some 1%nat;
     terminations := [];
     channels :=
       [ {| channel_resource_name := Some "speechrecog"%string;
            resource := Some 1%nat; control_channel := false;
            engine_channel := None; state_machine := true; id := 0; cmid := 0;
            waiting_for_channel := false; waiting_for_termination := false |} ];
     active_request := Some (SIGNALING_MESSAGE_OFFER speechrecog_offer);
     request_queue := [];
     offer := Some speechrecog_offer;
     answer := Some (set_status MRCP_SESSION_STATUS_UNACCEPTABLE_RESOURCE
                       speechrecog_offer);
     mpf_task_msg := [];
     subrequest_count := 2;
     state := SESSION_STATE_ANSWERING |}.

(** A request for the resource speechrecog. *)
Definition method_request : mrcp_message_t :=
  {| message_type := MRCP_MESSAGE_TYPE_REQUEST;
     message_resource_name := Some "speechrecog"%string;
     message_body := "RECOGNIZE"%string |}.

(** A session from its creation: an OFFER, answered once the media engine
    has responded; a request, behind which a TERMINATE waits until the
    state machine dispatches the response to the request. *)
Definition session_life : list session_input :=
  [signaling_message_process (SIGNALING_MESSAGE_OFFER speechrecog_offer);
   mpf_message_process [media_response MPF_RESET_ASSOCIATIONS;
                        media_response MPF_APPLY_TOPOLOGY];
   signaling_message_process (SIGNALING_MESSAGE_CONTROL None method_request);
   signaling_message_process SIGNALING_MESSAGE_TERMINATE;
   on_message_dispatch 0 method_response].

(** A TERMINATE that arrives while the OFFER is in flight. *)
Definition terminate_in_flight : list session_input :=
  [signaling_message_process SIGNALING_MESSAGE_TERMINATE;
   mpf_message_process [media_response MPF_RESET_ASSOCIATIONS;
                        media_response MPF_APPLY_TOPOLOGY];
   mpf_message_process [media_response MPF_RESET_ASSOCIATIONS]].


Lemma resource_failures_set_answer_status_witness :
  exists a channel s' a',
    answer offer_pending = Some a /\
    mrcp_server_channel_create (Some "speechsynth"%string) 1 0 offer_pending =
      Some (channel, s', []) /\
    answer s' = Some a' /\
    status a' = MRCP_SESSION_STATUS_NO_SUCH_RESOURCE /\
    resource_name a' = resource_name a /\
    channels s' = channels offer_pending /\
    resource channel = None /\ engine_channel channel = None.
Proof.
  eexists.
  destruct (proj1 (resource_failures_set_answer_status offer_pending _ eq_refl)
              (Some "speechsynth"%string) 1 0)
    as (channel & s' & a' & H1 & H2 & H3 & H4 & H5 & H6 & H7).
  - right. reflexivity.
  - exists channel, s', a'. split; [reflexivity|].
    split; [exact H1|]. split; [exact H2|]. split; [exact H3|].
    split; [apply H4|]. split; [apply H5|]. split; [exact H6 | exact H7].
Defined.

(** A session with an RTP termination and a channel whose engine has a
    termination of its own; neither waits for the media engine. *)
Definition settled : mrcp_server_session_t :=
  set_terminations
    [ {| termination := Some 200%nat; slot_id := 0; mid := 0;
         slot_channels := None; waiting := false |} ]
    (set_channels
       [ {| channel_resource_name := Some "speechrecog"%string;
            resource := Some 1%nat; control_channel := false;
            engine_channel := Some {| engine_termination := Some 100%nat |};
            state_machine := true; id := 0; cmid := 0;
            waiting_for_channel := false; waiting_for_termination := false |} ]
       (mrcp_server_session_create MRCP_VERSION_1)).

Definition termination_added (t : handle) : mpf_message_t :=
  {| mpf_message_type := MPF_MESSAGE_TYPE_RESPONSE;
     mpf_command_id := MPF_ADD_TERMINATION;
     mpf_context := Some 1%nat; mpf_termination := Some t;
     mpf_descriptor := None |}.

(** C9, as stated, fails for the termination of a channel: when the
    waiting_for_termination flag of the matching channel is not set, the
    handlers change nothing and return TRUE. *)
Lemma channel_not_waiting_counterexample :
  mrcp_server_rtp_termination_find settled (Some 100%nat) = None /\
  mrcp_server_channel_termination_find settled (Some 100%nat) = Some 0%nat /\
  (exists channel, channels settled !! 0%nat = Some channel /\
                   waiting_for_termination channel = false) /\
  mrcp_server_on_termination_modify true (termination_added 100%nat) settled =
    Some (true, settled, []) /\
  mrcp_server_on_termination_subtract true (termination_added 100%nat) settled =
    Some (true, settled, []).
Proof.
  split; [reflexivity|]. split; [reflexivity|].
  split; [eexists; split; reflexivity|]. split; reflexivity.
Qed.

Lemma termination_response_not_waited_for_witness :
  not_waiting settled (termination_added 200%nat) false /\
  mrcp_server_on_termination_modify true (termination_added 200%nat) settled =
    Some (false, settled, []) /\
  mrcp_server_on_termination_subtract true (termination_added 200%nat) settled =
    Some (false, settled, []).
Proof.
  assert (H : not_waiting settled (termination_added 200%nat) false).
  { eapply rtp_slot_not_waiting; reflexivity. }
  split; [exact H|].
  destruct (termination_response_not_waited_for settled (termination_added 200%nat) false H)
    as (H1 & H2 & _).
  split; [exact H1 | exact H2].
Defined.

(** An MRCPv1 offer for a resource the server does not know, with an audio
    media line. *)
Definition speechsynth_offer : mrcp_session_descriptor_t :=
  {| origin := None; ip := None; ext_ip := None;
     resource_name := Some "speechsynth"%string; resource_state := true;
     status := MRCP_SESSION_STATUS_OK;
     control_media_arr := [];
     audio_media_arr :=
       [ Some {| media_ip := Some "192.0.2.7"%string; media_ext_ip := None;
                 media_port := 4000; media_mode := 3; media_mid := 0 |} ];
     video_media_arr := [] |}.

Lemma v1_offer_without_resource_witness :
  exists s1 added events,
    mrcp_server_session_offer_process speechsynth_offer
      (mrcp_server_session_create MRCP_VERSION_1) =
      match (if subrequest_count s1 =? 0
             then mrcp_server_session_answer_send ;; ret true
             else ret true) s1 with
      | None => None
      | Some (r, s2, e2) =>
          Some (r, s2,
                events ++
                [mpf_message_send
                   (mpf_task_msg (mrcp_server_session_create MRCP_VERSION_1) ++ added)]
                ++ e2)
      end /\
    Forall topology_command added /\
    Forall (fun e => e = session_table_add) events /\
    terminations s1 = terminations (mrcp_server_session_create MRCP_VERSION_1) /\
    channels s1 = channels (mrcp_server_session_create MRCP_VERSION_1) /\
    mpf_task_msg s1 = [] /\
    exists a, answer s1 = Some a /\ resource_state a = false /\
              status a = MRCP_SESSION_STATUS_NO_SUCH_RESOURCE.
Proof.
  apply (v1_offer_without_resource
           (mrcp_server_session_create MRCP_VERSION_1) speechsynth_offer).
  - reflexivity.
  - reflexivity.
  - reflexivity.
  - right. reflexivity.
Defined.

(** ** The session theorems at work *)


Lemma channels_and_slots_stay_witness :
  exists s' ev,
    run [signaling_message_process (SIGNALING_MESSAGE_OFFER speechsynth_offer);
         signaling_message_process SIGNALING_MESSAGE_TERMINATE]
      settled = Some (tt, s', ev) /\
    (length (channels settled) <= length (channels s'))%nat /\
    (length (terminations settled) <= length (terminations s'))%nat /\
    (forall i c, channels settled !! i = Some c ->
       exists c', channels s' !! i = Some c' /\
         channel_resource_name c' = channel_resource_name c /\
         resource c' = resource c /\ state_machine c' = state_machine c /\
         id c' = id c /\ cmid c' = cmid c) /\
    (forall i t, terminations settled !! i = Some t ->
       exists t', terminations s' !! i = Some t' /\
         termination t' = termination t /\ slot_id t' = slot_id t).
Proof.
  eexists _, _. split; [vm_compute; reflexivity|].
  eapply (channels_and_slots_stay
            [signaling_message_process (SIGNALING_MESSAGE_OFFER speechsynth_offer);
             signaling_message_process SIGNALING_MESSAGE_TERMINATE]
            settled).
  vm_compute. reflexivity.
Defined.

(** A request for a resource that has no channel in the session. *)
Definition speechsynth_request : mrcp_message_t :=
  {| message_type := MRCP_MESSAGE_TYPE_REQUEST;
     message_resource_name := Some "speechsynth"%string;
     message_body := "SPEAK"%string |}.

Lemma undeliverable_control_message_stalls_witness :
  let m := SIGNALING_MESSAGE_CONTROL None speechsynth_request in
  let ms := [SIGNALING_MESSAGE_OFFER speechrecog_offer; SIGNALING_MESSAGE_TERMINATE] in
  let s1 := set_active_request (Some m) settled in
  (active_request settled = None /\ undeliverable settled None speechsynth_request) /\
  mrcp_server_signaling_message_process m settled = Some (true, s1, [dispatched m]) /\
  run (map signaling_message_process ms) s1 =
    Some (tt, set_request_queue (request_queue settled ++ ms) s1, []).
Proof.
  intros m ms s1.
  assert (Hu : undeliverable settled None speechsynth_request) by exact I.
  split; [split; [reflexivity | exact Hu]|].
  exact (undeliverable_control_message_stalls settled None speechsynth_request ms
           eq_refl Hu).
Defined.

(** A response of the media engine that carries no context. *)
Definition stray_response (command : mpf_command_type_e) : mpf_message_t :=
  {| mpf_message_type := MPF_MESSAGE_TYPE_RESPONSE; mpf_command_id := command;
     mpf_context := None; mpf_termination := None; mpf_descriptor := None |}.

Lemma messages_without_context_witness :
  Forall (fun m => mpf_context m = None)
    [stray_response MPF_SUBTRACT_TERMINATION; stray_response MPF_APPLY_TOPOLOGY] /\
  mrcp_server_mpf_message_process [stray_response MPF_SUBTRACT_TERMINATION] settled =
    Some (true, settled, []) /\
  mrcp_server_mpf_message_process
    [stray_response MPF_SUBTRACT_TERMINATION; stray_response MPF_APPLY_TOPOLOGY] settled =
    None.
Proof.
  assert (H : Forall (fun m => mpf_context m = None)
                [stray_response MPF_SUBTRACT_TERMINATION;
                 stray_response MPF_APPLY_TOPOLOGY])
    by (repeat constructor).
  split; [exact H|]. split.
  - exact (messages_without_context [stray_response MPF_SUBTRACT_TERMINATION] settled
             ltac:(repeat constructor)).
  - exact (messages_without_context _ settled H).
Defined.

End Session.
